(** * Representations and observed-frame transforms of astropy.coordinates

    A shallow embedding of [astropy/coordinates/representation.py] and of
    [astropy/coordinates/builtin_frames/cirs_observed_transforms.py].

    Floating-point numbers are idealised as real numbers: every statement
    about component values is a statement of exact real arithmetic.  numpy
    arrays are a shape together with an indexing function; Python
    exceptions are an error result; representation objects live in a store
    indexed by object identity. *)

From Stdlib Require Import Reals Lra Lia QArith Qcanon.
From stdpp Require Import base decidable option list strings gmap.

Set Warnings "-register-all".

Set Default Proof Using "Type".

(** ** Python exceptions and the state-and-exception monad *)

Inductive exn :=
  | ValueError | UnitsError | TypeError | NameError | AttributeError | IndexError.

Inductive result (A : Type) :=
  | Ok (a : A)
  | Err (e : exn).
Arguments Ok {A} a.
Arguments Err {A} e.

(** [UnitsError] derives from [ValueError]: [except ValueError] catches both. *)
Definition is_ValueError (e : exn) : bool :=
  match e with ValueError | UnitsError => true | _ => false end.

(** [try: r  except ValueError: raise ValueError(...)] on a pure result. *)
Definition except_ValueError {A} (r : result A) : result A :=
  match r with
  | Ok a => Ok a
  | Err e => if is_ValueError e then Err ValueError else Err e
  end.

Definition rbind {A B} (r : result A) (k : A -> result B) : result B :=
  match r with Ok a => k a | Err e => Err e end.

(** A computation over a state [S]: it returns a value or raises, and
    leaves a state behind in both cases. *)
Definition M (S A : Type) : Type := S -> result A * S.

Definition ret {S A} (a : A) : M S A := fun s => (Ok a, s).
Definition raise {S A} (e : exn) : M S A := fun s => (Err e, s).
Definition bind {S A B} (m : M S A) (k : A -> M S B) : M S B :=
  fun s => match m s with
           | (Ok a, s') => k a s'
           | (Err e, s') => (Err e, s')
           end.
Definition lift {S A} (r : result A) : M S A := fun s => (r, s).

Declare Scope py_scope.
Delimit Scope py_scope with py.
Notation "x <- m ; k" := (bind m (fun x => k))
  (at level 20, m at level 100, k at level 200, only parsing) : py_scope.
Notation "' p <- m ; k" := (bind m (fun x => match x with p => k end))
  (at level 20, p pattern, m at level 100, k at level 200, only parsing) : py_scope.
Notation "x <~ r ; k" := (rbind r (fun x => k))
  (at level 20, r at level 100, k at level 200, only parsing) : py_scope.
Notation "' p <~ r ; k" := (rbind r (fun x => match x with p => k end))
  (at level 20, p pattern, r at level 100, k at level 200, only parsing) : py_scope.
Open Scope py_scope.

(** ** numpy arrays *)

(** An array is its shape and its indexing function; only the values at
    the multi-indices of [indices shape] are meaningful. *)
Record ndarray (A : Type) := NDArray { shape : list nat; item : list nat -> A }.
Arguments NDArray {A} shape item.
Arguments shape {A} _.
Arguments item {A} _ _.

Definition ndim {A} (a : ndarray A) : nat := length (shape a).

(** The multi-indices of a shape, in row-major (C) order. *)
Fixpoint indices (s : list nat) : list (list nat) :=
  match s with
  | [] => [[]]
  | d :: s' => flat_map (fun i => map (cons i) (indices s')) (seq 0 d)
  end.

Definition flat {A} (a : ndarray A) : list A := map (item a) (indices (shape a)).

Definition np_map {A B} (f : A -> B) (a : ndarray A) : ndarray B :=
  NDArray (shape a) (fun idx => f (item a idx)).

(** One axis of numpy's broadcasting rule. *)
Definition bdim (x y : nat) : option nat :=
  if x =? y then Some x
  else if x =? 1 then Some y
  else if y =? 1 then Some x
  else None.

(** Broadcasting of two shapes, both given innermost axis first. *)
Fixpoint bshape_rev (a b : list nat) : option (list nat) :=
  match a, b with
  | [], _ => Some b
  | _, [] => Some a
  | x :: a', y :: b' =>
      match bdim x y, bshape_rev a' b' with
      | Some d, Some r => Some (d :: r)
      | _, _ => None
      end
  end.

Definition broadcast_shapes (s1 s2 : list nat) : option (list nat) :=
  reverse <$> bshape_rev (reverse s1) (reverse s2).

(** The index of the source element shown at index [idx] of a broadcast
    view (both innermost axis first): axes of length one always read their
    only element, leading axes the source does not have are dropped. *)
Fixpoint bindex_rev (s idx : list nat) : list nat :=
  match s, idx with
  | d :: s', i :: idx' => (if d =? 1 then 0 else i) :: bindex_rev s' idx'
  | _, _ => []
  end.

Definition bindex (s idx : list nat) : list nat := reverse (bindex_rev (reverse s) (reverse idx)).

Definition broadcast_to {A} (a : ndarray A) (s : list nat) : ndarray A :=
  NDArray s (fun idx => item a (bindex (shape a) idx)).

(** The common shape of a list of shapes. *)
Fixpoint common_shape (ss : list (list nat)) : option (list nat) :=
  match ss with
  | [] => Some []
  | s :: ss' => match common_shape ss' with
                | Some r => broadcast_shapes s r
                | None => None
                end
  end.

(** [np.broadcast_arrays]: a [ValueError] when the shapes do not
    agree, otherwise every argument viewed at the common shape. *)
Definition np_broadcast_arrays {A} (args : list (ndarray A)) : result (list (ndarray A)) :=
  match common_shape (map shape args) with
  | Some s => Ok (map (fun a => broadcast_to a s) args)
  | None => Err ValueError
  end.

(** A binary ufunc: the operands are broadcast against each other. *)
Definition np_binop {A B C} (f : A -> B -> C) (a : ndarray A) (b : ndarray B)
  : result (ndarray C) :=
  match broadcast_shapes (shape a) (shape b) with
  | Some s => Ok (NDArray s (fun idx =>
                    f (item a (bindex (shape a) idx)) (item b (bindex (shape b) idx))))
  | None => Err ValueError
  end.

Definition np_all (a : ndarray bool) : bool := forallb (fun b : bool => b) (flat a).
Definition np_any (a : ndarray bool) : bool := existsb (fun b : bool => b) (flat a).

(** [np.zeros(shape)] *)
Definition np_zeros (s : list nat) : ndarray R := NDArray s (fun _ => 0%R).

(** [a[0]]: the first entry along the first axis. *)
Definition getitem0 {A} (a : ndarray A) : result (ndarray A) :=
  match shape a with
  | [] => Err IndexError
  | d :: s' => if d =? 0 then Err IndexError
               else Ok (NDArray s' (fun idx => item a (0 :: idx)))
  end.

(** The number of set entries of a list of booleans. *)
Fixpoint count_true (l : list bool) : nat :=
  match l with
  | [] => 0
  | b :: l' => (if b then 1 else 0) + count_true l'
  end.

(** How many entries of the mask are set before [idx] in the row-major
    enumeration [l]: the position, in the value array, of the value a
    masked assignment stores at [idx]. *)
Fixpoint mask_rank (mask : list nat -> bool) (idx : list nat) (l : list (list nat)) : nat :=
  match l with
  | [] => 0
  | j :: l' => if decide (j = idx) then 0
               else (if mask j then 1 else 0) + mask_rank mask idx l'
  end.

(** [a[mask] = v] for a boolean [mask] of the shape of [a].  numpy takes a
    value of at most one dimension: a scalar fills every selected entry, a
    one-dimensional [v] must have as many entries as the mask selects (or
    exactly one) and is stored in order; anything else is a [ValueError]. *)
Definition setitem_mask {A} (a : ndarray A) (mask : ndarray bool) (v : ndarray A)
  : result (ndarray A) :=
  let k := count_true (flat mask) in
  match shape v with
  | [] => Ok (NDArray (shape a)
                (fun idx => if item mask idx then item v [] else item a idx))
  | [n] =>
      if n =? k then
        Ok (NDArray (shape a)
              (fun idx => if item mask idx then item v [mask_rank (item mask) idx (indices (shape mask))] else item a idx))
      else if n =? 1 then
        Ok (NDArray (shape a)
              (fun idx => if item mask idx then item v [0] else item a idx))
      else Err ValueError
  | _ => Err ValueError
  end.

(** ** Units and quantities (astropy.units, astropy.coordinates.angles) *)

#[global] Instance Rle_decision (x y : R) : Decision (x <= y)%R := Rle_dec x y.
#[global] Instance Rlt_decision (x y : R) : Decision (x < y)%R := Rlt_dec x y.
#[global] Instance Req_decision : EqDecision R := Req_dec_T.

(** The dimension of a unit: the exponents of its base units. *)
Record dimension := Dim { d_length : Qc; d_time : Qc; d_mass : Qc; d_angle : Qc }.

#[global] Instance dimension_eq_dec : EqDecision dimension.
Proof. solve_decision. Defined.

Definition qc (z : Z) : Qc := Q2Qc (inject_Z z).

Definition dim_zero : dimension := Dim (qc 0) (qc 0) (qc 0) (qc 0).
Definition dim_length : dimension := Dim (qc 1) (qc 0) (qc 0) (qc 0).
Definition dim_angle : dimension := Dim (qc 0) (qc 0) (qc 0) (qc 1).

Definition dim_mul (a b : dimension) : dimension :=
  Dim (d_length a + d_length b) (d_time a + d_time b)
      (d_mass a + d_mass b) (d_angle a + d_angle b).

Definition dim_pow (a : dimension) (p : Qc) : dimension :=
  Dim (d_length a * p) (d_time a * p) (d_mass a * p) (d_angle a * p).

(** A unit: its dimension and its size in the base units. *)
Record Unit := mkUnit { u_dim : dimension; u_scale : R }.

Definition dimensionless_unscaled : Unit := mkUnit dim_zero 1.
Definition u_radian : Unit := mkUnit dim_angle 1.
Definition u_deg : Unit := mkUnit dim_angle (PI / 180).
Definition u_m : Unit := mkUnit dim_length 1.

Definition unit_mul (a b : Unit) : Unit :=
  mkUnit (dim_mul (u_dim a) (u_dim b)) (u_scale a * u_scale b).
(** [unit ** 2] and [unit ** 0.5] *)
Definition unit_sqr (a : Unit) : Unit :=
  mkUnit (dim_pow (u_dim a) (qc 2)) (u_scale a * u_scale a).
Definition unit_sqrt (a : Unit) : Unit :=
  mkUnit (dim_pow (u_dim a) (Q2Qc (1 # 2))) (sqrt (u_scale a)).

(** Modelled from the spec: [Unit.physical_type], of astropy.units, which is
    not among the sources: the name of the kind of quantity a unit
    measures, a function of its dimension alone; dimensions without a name
    are all ["unknown"]. *)
Definition physical_type (u : Unit) : string :=
  let d := u_dim u in
  if decide (d = dim_zero) then "dimensionless"
  else if decide (d = dim_length) then "length"
  else if decide (d = dim_angle) then "angle"
  else if decide (d = Dim (qc 2) (qc 0) (qc 0) (qc 0)) then "area"
  else if decide (d = Dim (qc 3) (qc 0) (qc 0) (qc 0)) then "volume"
  else if decide (d = Dim (qc 0) (qc 1) (qc 0) (qc 0)) then "time"
  else if decide (d = Dim (qc 0) (qc 0) (qc 1) (qc 0)) then "mass"
  else if decide (d = Dim (qc 1) (qc (-1)) (qc 0) (qc 0)) then "speed"
  else "unknown".

(** The Quantity classes the representations use. *)
Inductive qclass := Quantity | Angle | Longitude | Latitude | Distance.

#[global] Instance qclass_eq_dec : EqDecision qclass.
Proof. solve_decision. Defined.

Record quantity := mkQ { q_class : qclass; q_unit : Unit; q_value : ndarray R }.

Definition q_shape (q : quantity) : list nat := shape (q_value q).

(** [q.to(unit)]: a [UnitsError] unless the units are convertible. *)
Definition q_to (q : quantity) (u : Unit) : result quantity :=
  if decide (u_dim (q_unit q) = u_dim u) then
    Ok (mkQ (q_class q) u (np_map (fun v => v * (u_scale (q_unit q) / u_scale u))%R (q_value q)))
  else Err UnitsError.

(** [q.view(u.Quantity)] *)
Definition q_view_Quantity (q : quantity) : quantity :=
  mkQ Quantity (q_unit q) (q_value q).

Definition np_allb (p : R -> bool) (a : ndarray R) : bool :=
  forallb p (flat a).

(** Modelled from the spec: the angle classes of astropy.coordinates.angles
    and [Distance] of astropy.coordinates.distances, which are not among
    the sources.  A longitude is a wrap-around angle, kept in [0, 360)
    degrees; a latitude is bounded to plus or minus 90 degrees; a [Distance]
    is a length that is not negative. *)
Definition wrap_longitude (u : Unit) (v : R) : R :=
  let period := (2 * PI / u_scale u)%R in
  (v - period * IZR (Int_part (v / period)))%R.

Definition latitude_ok (u : Unit) (v : R) : bool :=
  bool_decide (- (PI / 2) <= v * u_scale u)%R && bool_decide (v * u_scale u <= PI / 2)%R.

(** [cls(array, unit=unit)] for each of the classes. *)
Definition q_new (cls : qclass) (a : ndarray R) (u : Unit) : result quantity :=
  match cls with
  | Quantity => Ok (mkQ Quantity u a)
  | Angle =>
      if decide (u_dim u = dim_angle) then Ok (mkQ Angle u a) else Err UnitsError
  | Longitude =>
      if decide (u_dim u = dim_angle)
      then Ok (mkQ Longitude u (np_map (wrap_longitude u) a))
      else Err UnitsError
  | Latitude =>
      if decide (u_dim u = dim_angle) then
        if np_allb (latitude_ok u) a then Ok (mkQ Latitude u a) else Err ValueError
      else Err UnitsError
  | Distance =>
      if decide (u_dim u = dim_length) then
        if np_allb (fun v => bool_decide (0 <= v)%R) a then Ok (mkQ Distance u a)
        else Err ValueError
      else Err UnitsError
  end.

(** The values a constructor argument can be: nothing, an array-like
    without a unit, a quantity, or a Python sequence of such values. *)
Inductive pyval :=
  | PyNone
  | PyArr (a : ndarray R)
  | PyQ (q : quantity)
  | PySeq (l : list pyval).

Definition is_None (v : pyval) : bool :=
  match v with PyNone => true | _ => false end.

(** [np.array(seq)] for a sequence of arrays of one shape: they are stacked
    along a new first axis. *)
Definition stack (l : list (ndarray R)) : result (ndarray R) :=
  match l with
  | [] => Ok (NDArray [0] (fun _ => 0%R))
  | a :: _ =>
      if forallb (fun b => bool_decide (shape b = shape a)) l then
        Ok (NDArray (length l :: shape a)
              (fun idx => match idx with
                          | i :: idx' => item (nth i l a) idx'
                          | [] => 0%R
                          end))
      else Err ValueError
  end.

Definition plain_arrays (l : list pyval) : option (list (ndarray R)) :=
  mapM (fun v => match v with PyArr a => Some a | _ => None end) l.

(** [u.Quantity(x, unit=unit, copy=copy)].  The result is of class
    [Quantity] whatever the class of [x]; a quantity is converted to [unit]
    when one is given, a bare array takes [unit] or is dimensionless.
    [copy] only decides whether the buffer is shared and has no effect on
    values. *)
Definition Quantity_new (x : pyval) (unit : option Unit) (copy : bool) : result quantity :=
  match x with
  | PyNone => Err TypeError
  | PyArr a => Ok (mkQ Quantity (default dimensionless_unscaled unit) a)
  | PyQ q =>
      match unit with
      | None => Ok (q_view_Quantity q)
      | Some u => q' <~ q_to q u; Ok (q_view_Quantity q')
      end
  | PySeq l =>
      match plain_arrays l with
      | Some arrs => a <~ stack arrs; Ok (mkQ Quantity (default dimensionless_unscaled unit) a)
      | None => Err TypeError
      end
  end.

(** [Angle(x, copy=copy)], [Longitude(x, copy=copy)], [Latitude(x, copy=copy)]:
    an angle needs a unit, so a bare array is refused; a [Longitude] cannot
    be made from a [Latitude] nor a [Latitude] from a [Longitude]. *)
Definition Angle_new (x : pyval) (copy : bool) : result quantity :=
  match x with
  | PyQ q => q_new Angle (q_value q) (q_unit q)
  | PyArr _ => Err UnitsError
  | _ => Err TypeError
  end.

Definition Longitude_new (x : pyval) (copy : bool) : result quantity :=
  match x with
  | PyQ q => if decide (q_class q = Latitude) then Err TypeError
             else q_new Longitude (q_value q) (q_unit q)
  | PyArr _ => Err UnitsError
  | _ => Err TypeError
  end.

Definition Latitude_new (x : pyval) (copy : bool) : result quantity :=
  match x with
  | PyQ q => if decide (q_class q = Longitude) then Err TypeError
             else q_new Latitude (q_value q) (q_unit q)
  | PyArr _ => Err UnitsError
  | _ => Err TypeError
  end.

Definition Distance_new (x : pyval) (copy : bool) : result quantity :=
  match x with
  | PyQ q => q_new Distance (q_value q) (q_unit q)
  | PyArr _ => Err UnitsError
  | _ => Err TypeError
  end.

(** *** Arithmetic and ufuncs on quantities *)

(** [np.arctan2(y, x)] on finite reals. *)
Definition arctan2 (y x : R) : R :=
  if decide (0 < x)%R then atan (y / x)
  else if decide (x < 0)%R then
    (if decide (0 <= y)%R then atan (y / x) + PI else atan (y / x) - PI)%R
  else if decide (0 < y)%R then (PI / 2)%R
  else if decide (y < 0)%R then (- (PI / 2))%R
  else 0%R.

(** [a * b]: the values are multiplied, the units too.  At every call in
    the sources the operands are of class [Quantity], and so is the
    product. *)
Definition q_mul (a b : quantity) : result quantity :=
  v <~ np_binop Rmult (q_value a) (q_value b);
  Ok (mkQ Quantity (unit_mul (q_unit a) (q_unit b)) v).

(** [unit * q] and [array * unit] *)
Definition unit_times_q (u : Unit) (q : quantity) : quantity :=
  mkQ Quantity (unit_mul u (q_unit q)) (q_value q).
Definition array_times_unit (a : ndarray R) (u : Unit) : quantity :=
  mkQ Quantity u a.

(** [a + b] and [a - b]: the right operand is converted to the unit of the
    left one, which the result keeps; a [UnitsError] when it cannot be. *)
Definition q_add (a b : quantity) : result quantity :=
  b' <~ q_to b (q_unit a);
  v <~ np_binop Rplus (q_value a) (q_value b');
  Ok (mkQ Quantity (q_unit a) v).

(** The difference of angles is an [Angle], never a [Latitude] or a
    [Longitude]. *)
Definition q_sub (a b : quantity) : result quantity :=
  b' <~ q_to b (q_unit a);
  v <~ np_binop Rminus (q_value a) (q_value b');
  Ok (mkQ (if decide (u_dim (q_unit a) = dim_angle) then Angle else Quantity)
          (q_unit a) v).

(** [q ** 2], and [q ** 0.5] which is also [np.sqrt(q)] *)
Definition q_sqr (a : quantity) : quantity :=
  mkQ Quantity (unit_sqr (q_unit a)) (np_map (fun v => v * v)%R (q_value a)).
Definition q_sqrt (a : quantity) : quantity :=
  mkQ Quantity (unit_sqrt (q_unit a)) (np_map sqrt (q_value a)).

(** [np.cos(q)], [np.sin(q)]: the argument is taken in radians and must be
    an angle; the result is dimensionless. *)
Definition np_trig (f : R -> R) (a : quantity) : result quantity :=
  if decide (u_dim (q_unit a) = dim_angle) then
    Ok (mkQ Quantity dimensionless_unscaled
          (np_map (fun v => f (v * u_scale (q_unit a)))%R (q_value a)))
  else Err UnitsError.
Definition np_cos := np_trig cos.
Definition np_sin := np_trig sin.

(** [np.arctan2(y, x)]: [x] is converted to the unit of [y]; the result is
    in radians. *)
Definition np_arctan2 (y x : quantity) : result quantity :=
  x' <~ q_to x (q_unit y);
  v <~ np_binop arctan2 (q_value y) (q_value x');
  Ok (mkQ Quantity u_radian v).

(** [q > 0] *)
Definition q_gt0 (a : quantity) : ndarray bool :=
  np_map (fun v => bool_decide (0 < v)%R) (q_value a).

(** [q[mask] = value]: the value is converted to the unit of [q]. *)
Definition q_setitem_mask (q : quantity) (mask : ndarray bool) (value : quantity)
  : result quantity :=
  value' <~ q_to value (q_unit q);
  if decide (shape mask = q_shape q) then
    v <~ setitem_mask (q_value q) mask (q_value value');
    Ok (mkQ (q_class q) (q_unit q) v)
  else Err IndexError.

Fixpoint rmapM {A B} (f : A -> result B) (l : list A) : result (list B) :=
  match l with
  | [] => Ok []
  | a :: l' => b <~ f a; bs <~ rmapM f l'; Ok (b :: bs)
  end.

(** ** representation.py *)

(** [broadcast_quantity]: the arrays are broadcast against each other and
    each is wrapped again in the class and unit of its argument. *)
Definition broadcast_quantity (args : list quantity) (copy : bool)
  : result (list quantity) :=
  new_arrays <~ np_broadcast_arrays (map q_value args);
  rmapM (fun '(arg, new_array) => q_new (q_class arg) new_array (q_unit arg))
        (zip args new_arrays).

Inductive repclass :=
  | CartesianRepresentation
  | SphericalRepresentation
  | UnitSphericalRepresentation
  | PhysicsSphericalRepresentation
  | CylindricalRepresentation.

#[global] Instance repclass_eq_dec : EqDecision repclass.
Proof. solve_decision. Defined.

(** A representation object: its class and its private attributes. *)
Inductive rep :=
  | Cartesian (_x _y _z : quantity)
  | Spherical (_lon _lat _distance : quantity)
  | UnitSpherical (_lon _lat : quantity)
  | PhysicsSpherical (_phi _theta _distance : quantity)
  | Cylindrical (_rho _phi _z : quantity).

Definition class_of (o : rep) : repclass :=
  match o with
  | Cartesian _ _ _ => CartesianRepresentation
  | Spherical _ _ _ => SphericalRepresentation
  | UnitSpherical _ _ => UnitSphericalRepresentation
  | PhysicsSpherical _ _ _ => PhysicsSphericalRepresentation
  | Cylindrical _ _ _ => CylindricalRepresentation
  end.

(** The store of representation objects: an object is known by its
    identity, a key of the store. *)
Abbreviation heap := (gmap nat rep).

Definition new_object (o : rep) : M heap nat :=
  fun h => let l := fresh (dom h) in (Ok l, <[l := o]> h).

Definition get_object (l : nat) : M heap rep :=
  fun h => match h !! l with
           | Some o => (Ok o, h)
           | None => (Err TypeError, h)
           end.

(** Tuple unpacking of the result of [broadcast_quantity]. *)
Definition as3 {A} (l : list A) : result (A * A * A) :=
  match l with [a; b; c] => Ok (a, b, c) | _ => Err ValueError end.
Definition as2 {A} (l : list A) : result (A * A) :=
  match l with [a; b] => Ok (a, b) | _ => Err ValueError end.

(** [x, y, z = x]: a sequence must have exactly three entries; an array or
    a quantity is iterated along its first axis, which must have length
    three. *)
Definition row {A} (a : ndarray A) (i : nat) : ndarray A :=
  NDArray (tail (shape a)) (fun idx => item a (i :: idx)).

Definition unpack3 (v : pyval) : result (pyval * pyval * pyval) :=
  match v with
  | PySeq l => as3 l
  | PyArr a =>
      match shape a with
      | [] => Err TypeError
      | d :: _ => if d =? 3
                  then Ok (PyArr (row a 0), PyArr (row a 1), PyArr (row a 2))
                  else Err ValueError
      end
  | PyQ q =>
      match q_shape q with
      | [] => Err TypeError
      | d :: _ =>
          if d =? 3 then
            let r i := PyQ (mkQ (q_class q) (q_unit q) (row (q_value q) i)) in
            Ok (r 0, r 1, r 2)
          else Err ValueError
      end
  | PyNone => Err TypeError
  end.

(** *** CartesianRepresentation *)

Definition CartesianRepresentation_init
  (x y z : pyval) (unit : option Unit) (copy : bool) : M heap nat :=
  '(x, y, z) <- (if is_None y && is_None z then lift (unpack3 x)
                 else if (is_None y && negb (is_None z)) || (negb (is_None y) && is_None z)
                 then raise ValueError
                 else ret (x, y, z));
  x <- lift (Quantity_new x unit copy);
  y <- lift (Quantity_new y unit copy);
  z <- lift (Quantity_new z unit copy);
  if negb (bool_decide (physical_type (q_unit x) = physical_type (q_unit y))
           && bool_decide (physical_type (q_unit y) = physical_type (q_unit z)))
  then raise UnitsError
  else
    '(x, y, z) <- lift (except_ValueError
                          (l <~ broadcast_quantity [x; y; z] copy; as3 l));
    new_object (Cartesian x y z).

Definition CartesianRepresentation_from_cartesian (other : nat) : M heap nat :=
  ret other.

Definition CartesianRepresentation_to_cartesian (self : nat) : M heap nat :=
  ret self.

(** Attribute access on an object of the store. *)
Definition cart_xyz (self : nat) : M heap (quantity * quantity * quantity) :=
  o <- get_object self;
  match o with
  | Cartesian x y z => ret (x, y, z)
  | _ => raise AttributeError
  end.

(** [isinstance(distance, u.Quantity) and
     distance.unit.physical_type == 'length'] *)
Definition is_length_quantity (distance : pyval) : bool :=
  match distance with
  | PyQ q => bool_decide (physical_type (q_unit q) = "length")
  | _ => false
  end.

(** *** SphericalRepresentation *)

Definition SphericalRepresentation_init
  (lon lat distance : pyval) (copy : bool) : M heap nat :=
  lon <- lift (Longitude_new lon copy);
  lat <- lift (Latitude_new lat copy);
  distance <- lift (if is_length_quantity distance
                    then Distance_new distance copy
                    else Quantity_new distance None copy);
  '(lon, lat, distance) <- lift (except_ValueError
                          (l <~ broadcast_quantity [lon; lat; distance] copy; as3 l));
  new_object (Spherical lon lat distance).

(** *** UnitSphericalRepresentation *)

Definition UnitSphericalRepresentation_init
  (lon lat : pyval) (copy : bool) : M heap nat :=
  lon <- lift (Longitude_new lon copy);
  lat <- lift (Latitude_new lat copy);
  '(lon, lat) <- lift (except_ValueError
                          (l <~ broadcast_quantity [lon; lat] copy; as2 l));
  new_object (UnitSpherical lon lat).

(** *** PhysicsSphericalRepresentation *)

Definition PhysicsSphericalRepresentation_init
  (phi theta distance : pyval) (copy : bool) : M heap nat :=
  phi <- lift (Angle_new phi copy);
  theta <- lift (Angle_new theta copy);
  distance <- lift (if is_length_quantity distance
                    then Distance_new distance copy
                    else Quantity_new distance None copy);
  '(phi, theta, distance) <- lift (except_ValueError
                          (l <~ broadcast_quantity [phi; theta; distance] copy; as3 l));
  new_object (PhysicsSpherical phi theta distance).

(** *** CylindricalRepresentation *)

Definition CylindricalRepresentation_init
  (rho phi z : pyval) (copy : bool) : M heap nat :=
  rho <- lift (Quantity_new rho None copy);
  phi <- lift (Angle_new phi copy);
  z <- lift (Quantity_new z None copy);
  if negb (bool_decide (physical_type (q_unit rho) = physical_type (q_unit z)))
  then raise UnitsError
  else
    '(rho, phi, z) <- lift (except_ValueError
                          (l <~ broadcast_quantity [rho; phi; z] copy; as3 l));
    new_object (Cylindrical rho phi z).

(** The three squares and the two roots every [from_cartesian] of a
    spherical class starts with:
    [r = (xsq + ysq + zsq) ** 0.5], [s = (xsq + ysq) ** 0.5]. *)
Definition radii (x y z : quantity) : result (quantity * quantity) :=
  let xsq := q_sqr x in
  let ysq := q_sqr y in
  let zsq := q_sqr z in
  xy <~ q_add xsq ysq;
  xyz <~ q_add xy zsq;
  Ok (q_sqrt xyz, q_sqrt xy).

(** We need to convert Distance to Quantity to allow negative values. *)
Definition distance_as_quantity (distance : quantity) : quantity :=
  if decide (q_class distance = Distance) then q_view_Quantity distance
  else distance.

Definition SphericalRepresentation_to_cartesian (self : nat) : M heap nat :=
  o <- get_object self;
  match o with
  | Spherical lon lat distance =>
      let d := distance_as_quantity distance in
      x <- lift (c <~ np_cos lat; dc <~ q_mul d c; c' <~ np_cos lon; q_mul dc c');
      y <- lift (c <~ np_cos lat; dc <~ q_mul d c; s' <~ np_sin lon; q_mul dc s');
      z <- lift (s <~ np_sin lat; q_mul d s);
      CartesianRepresentation_init (PyQ x) (PyQ y) (PyQ z) None true
  | _ => raise AttributeError
  end.

Definition SphericalRepresentation_from_cartesian (cart : nat) : M heap nat :=
  '(x, y, z) <- cart_xyz cart;
  '(r, s) <- lift (radii x y z);
  lon <- lift (np_arctan2 y x);
  lat <- lift (np_arctan2 z s);
  SphericalRepresentation_init (PyQ lon) (PyQ lat) (PyQ r) true.

Definition UnitSphericalRepresentation_to_cartesian (self : nat) : M heap nat :=
  o <- get_object self;
  match o with
  | UnitSpherical lon lat =>
      x <- lift (c <~ np_cos lat; c' <~ np_cos lon;
                 q_mul (unit_times_q dimensionless_unscaled c) c');
      y <- lift (c <~ np_cos lat; s' <~ np_sin lon;
                 q_mul (unit_times_q dimensionless_unscaled c) s');
      z <- lift (s <~ np_sin lat; Ok (unit_times_q dimensionless_unscaled s));
      CartesianRepresentation_init (PyQ x) (PyQ y) (PyQ z) None true
  | _ => raise AttributeError
  end.

Definition UnitSphericalRepresentation_from_cartesian (cart : nat) : M heap nat :=
  '(x, y, z) <- cart_xyz cart;
  let xsq := q_sqr x in
  let ysq := q_sqr y in
  let zsq := q_sqr z in
  s <- lift (xy <~ q_add xsq ysq; Ok (q_sqrt xy));
  lon <- lift (np_arctan2 y x);
  lat <- lift (np_arctan2 z s);
  UnitSphericalRepresentation_init (PyQ lon) (PyQ lat) true.

Definition PhysicsSphericalRepresentation_to_cartesian (self : nat) : M heap nat :=
  o <- get_object self;
  match o with
  | PhysicsSpherical phi theta distance =>
      let d := distance_as_quantity distance in
      x <- lift (s <~ np_sin theta; ds <~ q_mul d s; c' <~ np_cos phi; q_mul ds c');
      y <- lift (s <~ np_sin theta; ds <~ q_mul d s; s' <~ np_sin phi; q_mul ds s');
      z <- lift (c <~ np_cos theta; q_mul d c);
      CartesianRepresentation_init (PyQ x) (PyQ y) (PyQ z) None true
  | _ => raise AttributeError
  end.

Definition PhysicsSphericalRepresentation_from_cartesian (cart : nat) : M heap nat :=
  '(x, y, z) <- cart_xyz cart;
  '(r, s) <- lift (radii x y z);
  phi <- lift (np_arctan2 y x);
  theta <- lift (np_arctan2 s z);
  PhysicsSphericalRepresentation_init (PyQ phi) (PyQ theta) (PyQ r) true.

Definition CylindricalRepresentation_from_cartesian (cart : nat) : M heap nat :=
  '(x, y, z) <- cart_xyz cart;
  rho <- lift (xy <~ q_add (q_sqr x) (q_sqr y); Ok (q_sqrt xy));
  let phi := array_times_unit (np_zeros (q_shape x)) u_deg in
  phi <- lift (v <~ np_arctan2 y x; q_setitem_mask phi (q_gt0 rho) v);
  CylindricalRepresentation_init (PyQ rho) (PyQ phi) (PyQ z) true.

Definition CylindricalRepresentation_to_cartesian (self : nat) : M heap nat :=
  o <- get_object self;
  match o with
  | Cylindrical rho phi z =>
      x <- lift (c <~ np_cos phi; q_mul rho c);
      y <- lift (s <~ np_sin phi; q_mul rho s);
      CartesianRepresentation_init (PyQ x) (PyQ y) (PyQ z) None true
  | _ => raise AttributeError
  end.

(** *** Method resolution *)

(** [self.to_cartesian()]: the method of the class of [self]. *)
Definition to_cartesian (self : nat) : M heap nat :=
  o <- get_object self;
  match class_of o with
  | CartesianRepresentation => CartesianRepresentation_to_cartesian self
  | SphericalRepresentation => SphericalRepresentation_to_cartesian self
  | UnitSphericalRepresentation => UnitSphericalRepresentation_to_cartesian self
  | PhysicsSphericalRepresentation => PhysicsSphericalRepresentation_to_cartesian self
  | CylindricalRepresentation => CylindricalRepresentation_to_cartesian self
  end.

(** [cls.from_cartesian(cart)] *)
Definition from_cartesian (cls : repclass) (cart : nat) : M heap nat :=
  match cls with
  | CartesianRepresentation => CartesianRepresentation_from_cartesian cart
  | SphericalRepresentation => SphericalRepresentation_from_cartesian cart
  | UnitSphericalRepresentation => UnitSphericalRepresentation_from_cartesian cart
  | PhysicsSphericalRepresentation => PhysicsSphericalRepresentation_from_cartesian cart
  | CylindricalRepresentation => CylindricalRepresentation_from_cartesian cart
  end.

(** [BaseRepresentation.represent_as] *)
Definition BaseRepresentation_represent_as (self : nat) (other_class : repclass)
  : M heap nat :=
  o <- get_object self;
  if decide (other_class = class_of o) then ret self
  else
    (* The default is to convert via cartesian coordinates *)
    cart <- to_cartesian self;
    from_cartesian other_class cart.

(** [90 * u.deg] *)
Definition ninety_deg : quantity := mkQ Quantity u_deg (NDArray [] (fun _ => 90%R)).

Definition SphericalRepresentation_represent_as (self : nat) (other_class : repclass)
  : M heap nat :=
  (* Take a short cut if the other class is a spherical representation *)
  if decide (other_class = PhysicsSphericalRepresentation) then
    o <- get_object self;
    match o with
    | Spherical lon lat distance =>
        theta <- lift (q_sub ninety_deg lat);
        PhysicsSphericalRepresentation_init (PyQ lon) (PyQ theta) (PyQ distance) true
    | _ => raise AttributeError
    end
  else BaseRepresentation_represent_as self other_class.

Definition PhysicsSphericalRepresentation_represent_as (self : nat) (other_class : repclass)
  : M heap nat :=
  (* Take a short cut if the other class is a spherical representation *)
  if decide (other_class = SphericalRepresentation) then
    o <- get_object self;
    match o with
    | PhysicsSpherical phi theta distance =>
        lat <- lift (q_sub ninety_deg theta);
        SphericalRepresentation_init (PyQ phi) (PyQ lat) (PyQ distance) true
    | _ => raise AttributeError
    end
  else BaseRepresentation_represent_as self other_class.

(** [self.represent_as(other_class)]: the two spherical classes override
    the method of the base class, the others inherit it. *)
Definition represent_as (self : nat) (other_class : repclass) : M heap nat :=
  o <- get_object self;
  match class_of o with
  | SphericalRepresentation => SphericalRepresentation_represent_as self other_class
  | PhysicsSphericalRepresentation =>
      PhysicsSphericalRepresentation_represent_as self other_class
  | _ => BaseRepresentation_represent_as self other_class
  end.

(** [cls.from_representation(representation)] *)
Definition from_representation (cls : repclass) (representation : nat) : M heap nat :=
  represent_as representation cls.

(** ** Frames (astropy.coordinates.builtin_frames) *)

(** Modelled from the spec: [Time] of astropy.time, which is not among the
    sources: an array of instants, each a two-part Julian date.  Two
    instants differ when their dates differ; [!=] compares element by
    element, broadcasting. *)
Record Time := mkTime { jd1 : ndarray R; jd2 : ndarray R }.

Definition time_ne (a b : Time) : result (ndarray bool) :=
  da <~ np_binop Rplus (jd1 a) (jd2 a);
  db <~ np_binop Rplus (jd1 b) (jd2 b);
  np_binop (fun x y => bool_decide (x <> y)) da db.

(** Modelled from the spec: [EarthLocation], which is not among the
    sources: the geodetic longitude, latitude and height of an observer. *)
Record EarthLocation := mkEarthLocation { geodetic : quantity * quantity * quantity }.

(** Modelled from the spec: the frame classes [CIRS] and [AltAz] (cirs.py
    and altaz.py are not among the sources).  A frame has zero or one
    representation, its data, and its frame attributes: the observation
    time for both, and for [AltAz] the observer's location, which may be
    absent, and the four atmospheric parameters. *)
Inductive frame :=
  | CIRS (data : option nat) (obstime : Time)
  | AltAz (data : option nat) (obstime : Time) (location : option EarthLocation)
          (pressure temperature : quantity) (relative_humidity : ndarray R)
          (obswl : quantity).

Definition frame_data (f : frame) : option nat :=
  match f with CIRS d _ => d | AltAz d _ _ _ _ _ _ => d end.

Definition frame_obstime (f : frame) : Time :=
  match f with CIRS _ t => t | AltAz _ t _ _ _ _ _ => t end.

(** [frame.realize_frame(rep)]: the same class and attributes, new data. *)
Definition realize_frame (f : frame) (r : nat) : frame :=
  match f with
  | CIRS _ t => CIRS (Some r) t
  | AltAz _ t l p tc rh w => AltAz (Some r) t l p tc rh w
  end.

(** The calls a transform makes to its collaborators, in order. *)
Inductive event :=
  | Ev_transform_to (source target : frame)
  | Ev_pm_xy (jd1 jd2 : ndarray R)
  | Ev_apio13 (jd1 jd2 : ndarray R)
  | Ev_atioq
  | Ev_atoiq (mode : string).

Record pystate := mkState { st_heap : gmap nat rep; st_log : list event }.

Definition in_heap {A} (m : M heap A) : M pystate A :=
  fun s => let '(r, h) := m (st_heap s) in (r, mkState h (st_log s)).

Definition log (e : event) : M pystate () :=
  fun s => (Ok tt, mkState (st_heap s) (st_log s ++ [e])).

(** The collaborators of the transforms: the frame dispatcher
    ([transform_to], of baseframe.py, which looks the edge up in the frame
    graph and may build representations), the Earth-orientation tables
    ([pm_xy], [delta_ut1_utc]) and the ERFA routines over an astrometry
    context of type [astrom]. *)
Record collaborators (astrom : Type) := mkCollaborators {
  dispatch : frame -> frame -> M heap frame;
  pm_xy : ndarray R -> ndarray R -> quantity * quantity;
  delta_ut1_utc : Time -> ndarray R;
  apio13 : ndarray R -> ndarray R -> ndarray R ->
           ndarray R -> ndarray R -> ndarray R ->
           ndarray R -> ndarray R ->
           ndarray R -> ndarray R -> ndarray R -> ndarray R -> astrom;
  atioq : ndarray R -> ndarray R -> astrom ->
          ndarray R * ndarray R * ndarray R * ndarray R * ndarray R;
  atoiq : string -> ndarray R -> ndarray R -> astrom -> ndarray R * ndarray R
}.
Arguments dispatch {astrom} _ _ _ _.
Arguments pm_xy {astrom} _ _ _.
Arguments delta_ut1_utc {astrom} _ _.
Arguments apio13 {astrom} _ _ _ _ _ _ _ _ _ _ _ _ _.
Arguments atioq {astrom} _ _ _ _.
Arguments atoiq {astrom} _ _ _ _ _.

(** What a module-level name of cirs_observed_transforms.py is bound to. *)
Inductive gval :=
  | GModule
  | GClass
  | GFunction
  | GFloat (v : R)
  | GFrame (f : frame).

(** The globals of the module once it is loaded: its imports, [_PIOVER2]
    and its four functions. *)
Definition module_globals : gmap string gval :=
  list_to_map
    [ ("np", GModule); ("u", GModule); ("frame_transform_graph", GModule);
      ("FunctionTransform", GClass); ("UnitSphericalRepresentation", GClass);
      ("erfa", GModule); ("iers", GModule);
      ("CIRS", GClass); ("ITRS", GClass); ("AltAz", GClass);
      ("_PIOVER2", GFloat (PI / 2));
      ("_get_polar_motion", GFunction); ("cirs_to_altaz", GFunction);
      ("altaz_to_cirs", GFunction); ("altaz_to_altaz", GFunction) ]%string.

(** Reading a name that is not local to the function: a [NameError] when
    the module does not bind it. *)
Definition load_global (name : string) : M pystate gval :=
  match module_globals !! name with
  | Some v => ret v
  | None => raise NameError
  end.

Definition load_float (name : string) : M pystate R :=
  v <- load_global name;
  match v with GFloat x => ret x | _ => raise TypeError end.

Definition load_frame (name : string) : M pystate frame :=
  v <- load_global name;
  match v with GFrame f => ret f | _ => raise AttributeError end.

(** [q.to(u.radian).value], [q.to(u.m).value], [q.value] *)
Definition to_value (q : quantity) (u : Unit) : result (ndarray R) :=
  q' <~ q_to q u; Ok (q_value q').

(** The spherical components of the data of a frame, under the names the
    frame gives them ([ra]/[dec], [az]/[alt]): a frame without data has
    none. *)
Definition frame_lonlat (f : frame) : M pystate (quantity * quantity) :=
  match frame_data f with
  | None => raise ValueError
  | Some r =>
      o <- in_heap (get_object r);
      match o with
      | Spherical lon lat _ => ret (lon, lat)
      | UnitSpherical lon lat => ret (lon, lat)
      | _ =>
          r' <- in_heap (represent_as r SphericalRepresentation);
          o' <- in_heap (get_object r');
          match o' with
          | Spherical lon lat _ => ret (lon, lat)
          | _ => raise AttributeError
          end
      end
  end.

(** [frame.location.geodetic] *)
Definition frame_geodetic (f : frame) : M pystate (quantity * quantity * quantity) :=
  match f with
  | AltAz _ _ (Some loc) _ _ _ _ => ret (geodetic loc)
  | _ => raise AttributeError
  end.

(** [frame.pressure.value, frame.temperature.value,
     frame.relative_humidity, frame.obswl.value] *)
Definition frame_atmosphere (f : frame)
  : M pystate (ndarray R * ndarray R * ndarray R * ndarray R) :=
  match f with
  | AltAz _ _ _ p t rh w => ret (q_value p, q_value t, rh, q_value w)
  | _ => raise AttributeError
  end.

Section transforms.
Context {astrom : Type} (E : collaborators astrom).

(** [coo.transform_to(frame)] *)
Definition transform_to (coo target : frame) : M pystate frame :=
  _ <- log (Ev_transform_to coo target);
  in_heap (dispatch E coo target).

(** gets the two polar motion components in radians for use with apio13 *)
Definition _get_polar_motion (time : Time) : M pystate (ndarray R * ndarray R) :=
  _ <- log (Ev_pm_xy (jd1 time) (jd2 time));
  let '(xp, yp) := pm_xy E (jd1 time) (jd2 time) in
  xp <- lift (to_value xp u_radian);
  yp <- lift (to_value yp u_radian);
  ret (xp, yp).

(** [erfa.apio13] with the arguments the two transforms give it. *)
Definition build_astrom (time : Time) (geo : quantity * quantity * quantity)
    (xp yp : ndarray R) (atmosphere : ndarray R * ndarray R * ndarray R * ndarray R)
  : M pystate astrom :=
  let '(lon, lat, height) := geo in
  let '(pressure, temperature, relative_humidity, obswl) := atmosphere in
  dut1 <- lift (getitem0 (delta_ut1_utc E time));
  lon <- lift (to_value lon u_radian);
  lat <- lift (to_value lat u_radian);
  height <- lift (to_value height u_m);
  _ <- log (Ev_apio13 (jd1 time) (jd2 time));
  ret (apio13 E (jd1 time) (jd2 time) dut1 lon lat height xp yp
         pressure temperature relative_humidity obswl).

(** The body of [cirs_to_altaz] after the reconciliation of the
    observation times. *)
Definition cirs_to_altaz_observed (cirs_coo altaz_frame : frame) : M pystate frame :=
  '(ra, dec) <- frame_lonlat cirs_coo;
  cirs_ra <- lift (to_value ra u_radian);
  cirs_dec <- lift (to_value dec u_radian);
  geo <- frame_geodetic altaz_frame;  (* assume EarthLocation *)
  '(xp, yp) <- _get_polar_motion (frame_obstime cirs_coo);
  (* first set up the astrometry context for ICRS<->CIRS *)
  atmosphere <- frame_atmosphere altaz_frame;
  astrom <- build_astrom (frame_obstime cirs_coo) geo xp yp atmosphere;
  _ <- log Ev_atioq;
  let '(az, zen, ha, obs_dec, obs_ra) := atioq E cirs_ra cirs_dec astrom in
  _PIOVER2 <- load_float "_PIOVER2";
  lat <- lift (Quantity_new (PyArr (np_map (fun z => _PIOVER2 - z)%R zen))
                 (Some u_radian) false);
  lon <- lift (Quantity_new (PyArr az) (Some u_radian) false);
  rep <- in_heap (UnitSphericalRepresentation_init (PyQ lon) (PyQ lat) false);
  ret (realize_frame altaz_frame rep).

Definition cirs_to_altaz (cirs_coo altaz_frame : frame) : M pystate frame :=
  differs <- lift (time_ne (frame_obstime cirs_coo) (frame_obstime altaz_frame));
  cirs_coo <- (if np_all differs then
                 (* the only frame attribute for the current CIRS is the
                    obstime *)
                 transform_to cirs_coo (CIRS None (frame_obstime altaz_frame))
               else ret cirs_coo);
  cirs_to_altaz_observed cirs_coo altaz_frame.

Definition altaz_to_cirs (altaz_coo cirs_frame : frame) : M pystate frame :=
  '(az, alt) <- frame_lonlat altaz_coo;
  az <- lift (to_value az u_radian);
  _PIOVER2 <- load_float "_PIOVER2";
  alt <- lift (to_value alt u_radian);
  let zen := np_map (fun a => _PIOVER2 - a)%R alt in
  altaz_frame <- load_frame "altaz_frame";
  geo <- frame_geodetic altaz_frame;  (* assume EarthLocation *)
  '(xp, yp) <- _get_polar_motion (frame_obstime altaz_coo);
  (* first set up the astrometry context for ICRS<->CIRS at the altaz_coo
     time *)
  atmosphere <- frame_atmosphere altaz_coo;
  astrom <- build_astrom (frame_obstime altaz_coo) geo xp yp atmosphere;
  (* the 'A' indicates zen/az inputs *)
  _ <- log (Ev_atoiq "A");
  let '(cirs_ra, cirs_dec) := atoiq E "A" az zen astrom in
  (* the final transform may be a no-op if the obstimes are the same *)
  rep <- in_heap (UnitSphericalRepresentation_init (PyArr cirs_ra) (PyArr cirs_dec) true);
  transform_to (CIRS (Some rep) (frame_obstime altaz_coo)) cirs_frame.

Definition altaz_to_altaz (from_coo to_frame : frame) : M pystate frame :=
  (* for now we just implement this through CIRS to make sure we get
     everything covered *)
  cirs <- transform_to from_coo (CIRS None (frame_obstime from_coo));
  transform_to cirs to_frame.

End transforms.

(** ** Concrete values used in examples *)

Definition scalar (v : R) : ndarray R := NDArray [] (fun _ => v).
Definition vec (l : list R) : ndarray R :=
  NDArray [length l] (fun idx => nth (hd 0 idx) l 0%R).

Definition rad (a : ndarray R) : quantity := mkQ Quantity u_radian a.
Definition deg (a : ndarray R) : quantity := mkQ Quantity u_deg a.
Definition plain (a : ndarray R) : quantity := mkQ Quantity dimensionless_unscaled a.

(** An observer at longitude 0, latitude 0, height 0, in vacuum. *)
Definition greenwich : EarthLocation :=
  mkEarthLocation (rad (scalar 0), rad (scalar 0), mkQ Quantity u_m (scalar 0)).

Definition example_altaz (data : option nat) (t : Time) : frame :=
  AltAz data t (Some greenwich) (plain (scalar 0)) (plain (scalar 0)) (scalar 0)
        (plain (scalar 1)).

(** A point on the unit sphere at longitude 0, latitude 0, as object 0 of
    an otherwise empty store, with nothing logged. *)
Definition example_point : rep :=
  UnitSpherical (mkQ Longitude u_radian (scalar 0)) (mkQ Latitude u_radian (scalar 0)).
Definition example_state : pystate := mkState {[ 0 := example_point ]} [].

(** Two observation-time arrays that agree on their first instant and
    differ on their second. *)
Definition times_a : Time := mkTime (vec [0; 0]%R) (vec [0; 1]%R).
Definition times_b : Time := mkTime (vec [0; 0]%R) (vec [0; 2]%R).

(** ** Predicates on computations *)

(** The computation leaves the log of collaborator calls as it found it. *)
Definition log_stable {A} (m : M pystate A) : Prop :=
  forall s, st_log (m s).2 = st_log s.

(** The computation raises, whatever the state, without having called a
    collaborator. *)
Definition fails_quietly {A} (m : M pystate A) : Prop :=
  forall s, exists e s', m s = (Err e, s') /\ st_log s' = st_log s.


(** ** Shapes of arguments and of stored components *)

(** The shape of a constructor argument. *)
Definition pyval_shape (v : pyval) : list nat :=
  match v with
  | PyNone => []
  | PyArr a => shape a
  | PyQ q => q_shape q
  | PySeq l =>
      match plain_arrays l with
      | Some (a :: arrs) => S (length arrs) :: shape a
      | Some [] => [0]
      | None => []
      end
  end.

(** The three components a Cartesian representation is built from. *)
Definition cartesian_components (x y z : pyval) : result (pyval * pyval * pyval) :=
  if is_None y && is_None z then unpack3 x else Ok (x, y, z).

(** The stored component arrays of an object. *)
Definition rep_components (o : rep) : list quantity :=
  match o with
  | Cartesian x y z => [x; y; z]
  | Spherical lon lat distance => [lon; lat; distance]
  | UnitSpherical lon lat => [lon; lat]
  | PhysicsSpherical phi theta distance => [phi; theta; distance]
  | Cylindrical rho phi z => [rho; phi; z]
  end.

(** Every component of the object has shape [s]. *)
Definition same_shape (o : rep) (s : list nat) : Prop :=
  Forall (fun q => q_shape q = s) (rep_components o).

(** The invariant of the store: the components of each object have one
    shape. *)
Definition heap_inv (h : heap) : Prop :=
  forall l o, h !! l = Some o -> exists s, same_shape o s.

(** What a call of the constructor of class [cls] on arguments of shapes
    [shapes] does to the store: it fails and leaves the store as it was,
    or it returns a new object of that class whose components all have
    the common shape of the arguments. *)
Definition constructs (cls : repclass) (shapes : list (list nat))
    (h : heap) (out : result nat * heap) : Prop :=
  match out with
  | (Err _, h') => h' = h
  | (Ok l, h') =>
      exists o s, h !! l = None /\ h' = <[l := o]> h /\ class_of o = cls
                  /\ common_shape shapes = Some s /\ same_shape o s
  end.

(** The computation keeps the invariant of the store. *)
Definition keeps_inv {A} (m : M heap A) : Prop :=
  forall h, heap_inv h -> heap_inv (m h).2.

(** Two points of a Cartesian representation, one on the z-axis
    (x = y = 0) and one off it (x = 1, y = 0), as object 0 of the store. *)
Definition mixed_points : rep :=
  Cartesian (plain (vec [0; 1]%R)) (plain (vec [0; 0]%R)) (plain (vec [0; 0]%R)).

(** ** Values of arrays and quantities, index by index *)

(** [a] has shape [s] and holds [f idx] at every index [idx] of [s]. *)
Definition arr_is {A} (a : ndarray A) (s : list nat) (f : list nat -> A) : Prop :=
  shape a = s /\ forall idx, In idx (indices s) -> item a idx = f idx.

(** [q] is of unit [u] and its array holds [f]. *)
Definition q_is (q : quantity) (u : Unit) (s : list nat) (f : list nat -> R) : Prop :=
  q_unit q = u /\ arr_is (q_value q) s f.

(** The value of a quantity at an index, in base units (radians for an
    angle). *)
Definition q_si (q : quantity) (idx : list nat) : R :=
  (item (q_value q) idx * u_scale (q_unit q))%R.

(** Two quantities hold the same physical values: same dimension, same
    shape, and equal values once expressed in base units. *)
Definition q_same (a b : quantity) : Prop :=
  u_dim (q_unit a) = u_dim (q_unit b)
  /\ q_shape a = q_shape b
  /\ forall idx, In idx (indices (q_shape a)) -> q_si a idx = q_si b idx.

(** Two objects are of one class and their components hold the same
    physical values. *)
Definition rep_same (o o' : rep) : Prop :=
  class_of o = class_of o' /\ Forall2 q_same (rep_components o) (rep_components o').

(** The conversion [conv] of a constructor argument succeeds with a
    quantity of shape [s], and wrapping that quantity again at shape [s],
    as [broadcast_quantity] does, gives a quantity of unit [u] holding
    [f]. *)
Definition accepted (conv : result quantity) (u : Unit) (s : list nat)
    (f : list nat -> R) : Prop :=
  exists q1, conv = Ok q1 /\ q_shape q1 = s
    /\ exists q', q_new (q_class q1) (broadcast_to (q_value q1) s) (q_unit q1) = Ok q'
                  /\ q_class q' = q_class q1 /\ q_is q' u s f.

(** The quantity is an angle in a unit of positive size. *)
Definition angle_q (q : quantity) : Prop :=
  u_dim (q_unit q) = dim_angle /\ (0 < u_scale (q_unit q))%R.

(** Every value of the quantity, in base units, satisfies [P]. *)
Definition si_all (q : quantity) (P : R -> Prop) : Prop :=
  forall idx, In idx (indices (q_shape q)) -> P (q_si q idx).

(** A distance as the constructors accept it: when it is a length, it is
    not negative. *)
Definition distance_q (q : quantity) : Prop :=
  (0 < u_scale (q_unit q))%R
  /\ (physical_type (q_unit q) = "length"%string -> si_all q (fun v => 0 <= v)%R).

(** A point behind the origin: longitude 0, latitude 0 and the
    dimensionless distance -1, as object 0 of the store. *)
Definition behind_point : rep :=
  Spherical (mkQ Longitude u_radian (scalar 0)) (mkQ Latitude u_radian (scalar 0))
            (plain (scalar (-1))).

(** The colatitude [theta] is a quarter turn minus the latitude [lat]. *)
Definition complement_of (theta lat : quantity) : Prop :=
  u_dim (q_unit theta) = dim_angle
  /\ q_shape theta = q_shape lat
  /\ forall idx, In idx (indices (q_shape lat)) ->
       (q_si theta idx = PI / 2 - q_si lat idx)%R.

(** A point at the north pole: longitude 0, latitude 90 degrees and the
    dimensionless distance 1. *)
Definition pole_lon : quantity := mkQ Longitude u_radian (scalar 0).
Definition pole_lat : quantity := mkQ Latitude u_deg (scalar 90).
Definition pole_distance : quantity := plain (scalar 1).
Definition pole_point : rep := Spherical pole_lon pole_lat pole_distance.

(** The origin, given with a direction: longitude 30 degrees, latitude 45
    degrees and the dimensionless distance 0. *)
Definition origin_lon : quantity := mkQ Longitude u_deg (scalar 30).
Definition origin_lat : quantity := mkQ Latitude u_deg (scalar 45).
Definition origin_point : rep := Spherical origin_lon origin_lat (plain (scalar 0)).

(** [o'] reproduces [o] where the azimuth is determined: it is of the
    class of [o]; its first component (the azimuth: lon or phi) has the
    dimension and shape of that of [o] and holds the same physical value
    at every index where [determined] holds; and its other components
    hold the same physical values as those of [o], at every index. *)
Definition reproduces (determined : list nat -> Prop) (o' o : rep) : Prop :=
  class_of o' = class_of o
  /\ match rep_components o', rep_components o with
     | a' :: rest', a :: rest =>
         u_dim (q_unit a') = u_dim (q_unit a) /\ q_shape a' = q_shape a
         /\ (forall idx, In idx (indices (q_shape a)) -> determined idx ->
               q_si a' idx = q_si a idx)
         /\ Forall2 q_same rest' rest
     | _, _ => False
     end.

(** Converting the object [o], stored at [self], to Cartesian and back to
    its own class succeeds and returns an object with the components of
    [o]. *)
Definition round_trip (self : nat) (o : rep) (h : heap) : Prop :=
  exists l1 h1 l2 h2 o',
    to_cartesian self h = (Ok l1, h1)
    /\ from_cartesian (class_of o) l1 h1 = (Ok l2, h2)
    /\ h2 !! l2 = Some o' /\ rep_same o' o.

(** The same where the azimuth is determined: the object returned
    reproduces [o] in the sense of [reproduces]. *)
Definition round_trip_where (determined : list nat -> Prop)
    (self : nat) (o : rep) (h : heap) : Prop :=
  exists l1 h1 l2 h2 o',
    to_cartesian self h = (Ok l1, h1)
    /\ from_cartesian (class_of o) l1 h1 = (Ok l2, h2)
    /\ h2 !! l2 = Some o' /\ reproduces determined o' o.

(** The object [l1] of the store [h1] and the object [l2] of the store
    [h2] stand for the same point: both convert to Cartesian, and the two
    Cartesian objects hold the same physical values. *)
Definition same_point (l1 : nat) (h1 : heap) (l2 : nat) (h2 : heap) : Prop :=
  exists c1 g1 o1 c2 g2 o2,
    to_cartesian l1 h1 = (Ok c1, g1) /\ g1 !! c1 = Some o1
    /\ to_cartesian l2 h2 = (Ok c2, g2) /\ g2 !! c2 = Some o2
    /\ rep_same o1 o2.

(** Converting the object stored at [self] to Cartesian and back to the
    class [cls] succeeds and returns an object that stands for the same
    point. *)
Definition same_point_round_trip (self : nat) (cls : repclass) (h : heap) : Prop :=
  exists l1 h1 l2 h2,
    to_cartesian self h = (Ok l1, h1)
    /\ from_cartesian cls l1 h1 = (Ok l2, h2)
    /\ same_point l2 h2 self h.

(** A point on the unit sphere at longitude 30 degrees, latitude 45
    degrees, with its angles in degrees. *)
Definition sky_lon : quantity := mkQ Longitude u_deg (scalar 30).
Definition sky_lat : quantity := mkQ Latitude u_deg (scalar 45).
Definition sky_point : rep := UnitSpherical sky_lon sky_lat.
Definition sky_heap : gmap nat rep := {[ 0 := sky_point ]}.

(** The store holding [behind_point] as object 0. *)
Definition behind_heap : gmap nat rep := {[ 0 := behind_point ]}.

(** A point in physics convention at phi = 0, theta = 90 degrees,
    distance 2 m, and a point in cylindrical coordinates at rho = 2 m,
    phi = 90 degrees, z = 5 m. *)
Definition physics_point : rep :=
  PhysicsSpherical (mkQ Angle u_deg (scalar 0)) (mkQ Angle u_deg (scalar 90))
                   (mkQ Distance u_m (scalar 2)).
Definition physics_heap : gmap nat rep := {[ 0 := physics_point ]}.
Definition cylinder_point : rep :=
  Cylindrical (mkQ Quantity u_m (scalar 2)) (mkQ Angle u_deg (scalar 90))
              (mkQ Quantity u_m (scalar 5)).
Definition cylinder_heap : gmap nat rep := {[ 0 := cylinder_point ]}.

(** A Cartesian point with components in different length units:
    x = -1 m, y = 0 m, z = 100 cm. *)
Definition u_cm : Unit := mkUnit dim_length (1 / 100).
Definition cart_point : rep :=
  Cartesian (mkQ Quantity u_m (scalar (-1))) (mkQ Quantity u_m (scalar 0))
            (mkQ Quantity u_cm (scalar 100)).
Definition cart_heap : gmap nat rep := {[ 0 := cart_point ]}.

(** Two Cartesian points off the z-axis, (1, 0, 5) m and (0, 2, 6) m. *)
Definition off_axis_points : rep :=
  Cartesian (mkQ Quantity u_m (vec [1; 0]%R)) (mkQ Quantity u_m (vec [0; 2]%R))
            (mkQ Quantity u_m (vec [5; 6]%R)).
Definition off_axis_heap : gmap nat rep := {[ 0 := off_axis_points ]}.

(** The store holding [mixed_points] as object 0. *)
Definition mixed_heap : gmap nat rep := {[ 0 := mixed_points ]}.

(** A single Cartesian point on the z-axis, (0, 0, 3) m. *)
Definition axis_point : rep :=
  Cartesian (mkQ Quantity u_m (scalar 0)) (mkQ Quantity u_m (scalar 0))
            (mkQ Quantity u_m (scalar 3)).
Definition axis_heap : gmap nat rep := {[ 0 := axis_point ]}.

(** The array of values of [q] expressed in unit [u], as
    [q.to(u).value] computes it. *)
Definition value_in (q : quantity) (u : Unit) : ndarray R :=
  np_map (fun v => v * (u_scale (q_unit q) / u_scale u))%R (q_value q).

(** Stand-ins for the collaborators, used in examples: a dispatcher that
    returns its target, tables that report no polar motion and no UT1
    offset, and routines that leave the direction as it is (azimuth =
    right ascension, zenith distance = 90 degrees - declination). *)
Definition example_collaborators : collaborators () :=
  mkCollaborators ()
    (fun _ target => ret target)
    (fun _ _ => (rad (scalar 0), rad (scalar 0)))
    (fun _ => vec [0%R])
    (fun _ _ _ _ _ _ _ _ _ _ _ _ => tt)
    (fun ra dec _ => (ra, np_map (fun d => PI / 2 - d)%R dec, ra, dec, ra))
    (fun _ az zen _ => (az, np_map (fun z => PI / 2 - z)%R zen)).

(** One instant, and an AltAz frame at that instant without a location. *)
Definition noon : Time := mkTime (scalar 0) (scalar 0).
Definition nowhere_altaz : frame :=
  AltAz None noon None (plain (scalar 0)) (plain (scalar 0)) (scalar 0) (plain (scalar 1)).

(** The computation only adds objects: every object of the store it
    starts from is in the store it leaves, unchanged. *)
Definition only_adds {A} (m : M heap A) : Prop :=
  forall h, h ⊆ (m h).2.

(** What the class of a quantity promises about it: an angle of any of
    the three angle classes has an angular unit, a longitude lies in
    [0, 360) degrees (for a unit of positive size), a latitude lies in
    [-90, 90] degrees, and a distance is a length that is not negative. *)
Definition class_invariant (q : quantity) : Prop :=
  match q_class q with
  | Quantity => True
  | Angle => u_dim (q_unit q) = dim_angle
  | Longitude =>
      u_dim (q_unit q) = dim_angle
      /\ ((0 < u_scale (q_unit q))%R -> si_all q (fun a => 0 <= a < 2 * PI)%R)
  | Latitude =>
      u_dim (q_unit q) = dim_angle
      /\ si_all q (fun a => - (PI / 2) <= a <= PI / 2)%R
  | Distance =>
      u_dim (q_unit q) = dim_length
      /\ forall idx, In idx (indices (q_shape q)) -> (0 <= item (q_value q) idx)%R
  end.

(** * Properties *)

(** ** The monad *)

Lemma bind_ok {S A B} (m : M S A) (k : A -> M S B) s a s' :
  m s = (Ok a, s') -> bind m k s = k a s'.
Proof. intros H. unfold bind. now rewrite H. Qed.

Lemma bind_err {S A B} (m : M S A) (k : A -> M S B) s e s' :
  m s = (Err e, s') -> bind m k s = (Err e, s').
Proof. intros H. unfold bind. now rewrite H. Qed.

Lemma in_heap_log {A} (m : M heap A) s :
  st_log (in_heap m s).2 = st_log s.
Proof. unfold in_heap. now destruct (m (st_heap s)). Qed.

Lemma ret_log_stable {A} (a : A) : log_stable (ret a).
Proof. now intros s. Qed.

Lemma raise_log_stable {A} e : log_stable (@raise pystate A e).
Proof. now intros s. Qed.

Lemma lift_log_stable {A} (r : result A) : log_stable (lift r).
Proof. now intros s. Qed.

Lemma in_heap_log_stable {A} (m : M heap A) : log_stable (in_heap m).
Proof. intros s. apply in_heap_log. Qed.

Lemma bind_log_stable {A B} (m : M pystate A) (k : A -> M pystate B) :
  log_stable m -> (forall a, log_stable (k a)) -> log_stable (bind m k).
Proof.
  intros Hm Hk s. unfold bind. specialize (Hm s).
  destruct (m s) as [[a | e] s']; cbn in *.
  - now rewrite Hk.
  - exact Hm.
Qed.

Lemma fails_quietly_bind {A B} (m : M pystate A) (k : A -> M pystate B) :
  log_stable m -> (forall a, fails_quietly (k a)) -> fails_quietly (bind m k).
Proof.
  intros Hm Hk s. unfold bind. specialize (Hm s).
  destruct (m s) as [[a | e] s']; cbn in *.
  - destruct (Hk a s') as (e & s'' & -> & Hlog). exists e, s''. split; [done | congruence].
  - now exists e, s'.
Qed.

Lemma load_float_log_stable name : log_stable (load_float name).
Proof.
  unfold load_float, load_global.
  apply bind_log_stable.
  - destruct (module_globals !! name); [apply ret_log_stable | apply raise_log_stable].
  - intros []; first [apply ret_log_stable | apply raise_log_stable].
Qed.

Lemma frame_lonlat_log_stable f : log_stable (frame_lonlat f).
Proof.
  unfold frame_lonlat. destruct (frame_data f); [| apply raise_log_stable].
  apply bind_log_stable; [apply in_heap_log_stable |].
  intros []; try apply ret_log_stable;
    (apply bind_log_stable; [apply in_heap_log_stable |]; intros r';
     apply bind_log_stable; [apply in_heap_log_stable |];
     intros []; first [apply ret_log_stable | apply raise_log_stable]).
Qed.

(** ** The observed-frame transforms *)

Section transform_properties.
Context {astrom : Type} (E : collaborators astrom).

(** When every instant of the source differs from the target's, the
    source is first sent through the dispatcher to CIRS at the target's
    observation time. *)
Lemma cirs_to_altaz_all_differ cirs_coo altaz_frame d s :
  time_ne (frame_obstime cirs_coo) (frame_obstime altaz_frame) = Ok d ->
  np_all d = true ->
  cirs_to_altaz E cirs_coo altaz_frame s =
  bind (transform_to E cirs_coo (CIRS None (frame_obstime altaz_frame)))
       (fun c => cirs_to_altaz_observed E c altaz_frame) s.
Proof.
  intros Hd Hall. unfold cirs_to_altaz, lift, bind at 1. rewrite Hd, Hall.
  reflexivity.
Qed.

(** When some instant of the source equals the target's, nothing is
    reconciled. *)
Lemma cirs_to_altaz_not_all_differ cirs_coo altaz_frame d s :
  time_ne (frame_obstime cirs_coo) (frame_obstime altaz_frame) = Ok d ->
  np_all d = false ->
  cirs_to_altaz E cirs_coo altaz_frame s =
  cirs_to_altaz_observed E cirs_coo altaz_frame s.
Proof.
  intros Hd Hall. unfold cirs_to_altaz, lift, bind at 1. rewrite Hd, Hall.
  reflexivity.
Qed.

Lemma times_a_b_ne :
  exists d, time_ne times_a times_b = Ok d /\ flat d = [false; true].
Proof.
  eexists. split; [reflexivity |].
  unfold flat. cbn.
  rewrite bool_decide_eq_false_2 by (intros H; apply H; lra).
  rewrite bool_decide_eq_true_2 by lra.
  reflexivity.
Qed.

(** C1, evaluated where it fails: the source's observation times
    [times_a] and the target's [times_b] differ (in their second
    instant), yet [cirs_to_altaz] reconciles nothing: it runs the
    observed-quantities step on the unreconciled source, at the source's
    own times, because [np.all] asks for every instant to differ. *)
Theorem cirs_to_altaz_partial_difference_unreconciled data target_data s :
  frame_obstime (CIRS data times_a) <> frame_obstime (example_altaz target_data times_b)
  /\ cirs_to_altaz E (CIRS data times_a) (example_altaz target_data times_b) s
     = cirs_to_altaz_observed E (CIRS data times_a) (example_altaz target_data times_b) s.
Proof.
  split.
  - cbn. intros H. apply (f_equal (fun t => item (jd2 t) [1])) in H.
    cbn in H. lra.
  - destruct times_a_b_ne as (d & Hd & Hflat).
    apply (cirs_to_altaz_not_all_differ _ _ d); [exact Hd |].
    unfold np_all. now rewrite Hflat.
Qed.

(** C6: an AltAz-to-AltAz transform is the dispatcher's transform of the
    source to CIRS at the source's observation time followed by the
    dispatcher's transform of that result to the target frame, whatever
    the attributes of source and target: the first request is logged in
    every run, the second whenever the first returns, and no frame is
    returned otherwise. *)
Theorem altaz_to_altaz_through_cirs from_coo to_frame s :
  let via := CIRS None (frame_obstime from_coo) in
  let first := Ev_transform_to from_coo via in
  let s1 := mkState (st_heap s) (st_log s ++ [first]) in
  match dispatch E from_coo via (st_heap s) with
  | (Ok cirs, h1) =>
      let second := Ev_transform_to cirs to_frame in
      let s2 := mkState h1 (st_log s ++ [first; second]) in
      altaz_to_altaz E from_coo to_frame s
      = (let '(r, h2) := dispatch E cirs to_frame h1 in
         (r, mkState h2 (st_log s ++ [first; second])))
  | (Err e, h1) =>
      altaz_to_altaz E from_coo to_frame s
      = (Err e, mkState h1 (st_log s ++ [first]))
  end.
Proof.
  cbn. unfold altaz_to_altaz, transform_to, bind, log, in_heap. cbn.
  destruct (dispatch E from_coo _ (st_heap s)) as [[cirs | e] h1]; cbn.
  - rewrite <- app_assoc. reflexivity.
  - reflexivity.
Qed.

(** C2, evaluated: [altaz_to_cirs] never returns a frame and never
    reaches a collaborator; on a source that has every attribute (the
    point [example_point] observed from [greenwich]) it raises
    [NameError], at the read of the unbound name [altaz_frame], leaving
    the state as it was. *)
Theorem altaz_to_cirs_raises altaz_coo cirs_frame s t cirs_t :
  (exists e s', altaz_to_cirs E altaz_coo cirs_frame s = (Err e, s')
                /\ st_log s' = st_log s)
  /\ altaz_to_cirs E (example_altaz (Some 0) t) (CIRS None cirs_t) example_state
     = (Err NameError, example_state).
Proof.
  split.
  - apply fails_quietly_bind; [apply frame_lonlat_log_stable |].
    intros [az alt].
    apply fails_quietly_bind; [apply lift_log_stable |]. intros az'.
    apply fails_quietly_bind; [apply load_float_log_stable |]. intros p.
    apply fails_quietly_bind; [apply lift_log_stable |]. intros alt'.
    intros s0. exists NameError, s0. split; reflexivity.
  - reflexivity.
Qed.

End transform_properties.

(** ** The store *)

Lemma fresh_unused (h : heap) : h !! fresh (dom h) = None.
Proof. apply not_elem_of_dom, is_fresh. Qed.

Lemma get_object_some (h : heap) l o :
  h !! l = Some o -> get_object l h = (Ok o, h).
Proof. intros H. unfold get_object. now rewrite H. Qed.

(** ** The generic conversion *)

(** C7: asked for its own class, a representation returns itself, the
    same object, and the store is untouched (this holds for each of the
    five classes, the two overriding ones included); asked for another
    class, the method of the base class converts to Cartesian and calls
    the target's [from_cartesian]. *)
Theorem represent_as_default_path (h : heap) self o :
  h !! self = Some o ->
  represent_as self (class_of o) h = (Ok self, h)
  /\ forall other_class, other_class <> class_of o ->
       BaseRepresentation_represent_as self other_class h
       = bind (to_cartesian self) (from_cartesian other_class) h.
Proof.
  intros Hself. split.
  - unfold represent_as. rewrite (bind_ok _ _ _ _ _ (get_object_some _ _ _ Hself)).
    assert (Hbase : BaseRepresentation_represent_as self (class_of o) h = (Ok self, h)).
    { unfold BaseRepresentation_represent_as.
      rewrite (bind_ok _ _ _ _ _ (get_object_some _ _ _ Hself)).
      now rewrite decide_True. }
    destruct o; cbn in *; exact Hbase.
  - intros other_class Hne. unfold BaseRepresentation_represent_as.
    rewrite (bind_ok _ _ _ _ _ (get_object_some _ _ _ Hself)).
    now rewrite decide_False.
Qed.

Lemma represent_as_default_path_witness :
  let h : heap := {[ 0 := example_point ]} in
  represent_as 0 UnitSphericalRepresentation h = (Ok 0, h)
  /\ BaseRepresentation_represent_as 0 CartesianRepresentation h
     = bind (to_cartesian 0) (from_cartesian CartesianRepresentation) h.
Proof.
  intros h.
  destruct (represent_as_default_path h 0 example_point eq_refl) as [H1 H2].
  split; [exact H1 | apply H2; discriminate].
Defined.

(** ** Shapes *)

Lemma bind_lift {S A B} (r : result A) (k : A -> M S B) s :
  bind (lift r) k s = match r with Ok a => k a s | Err e => (Err e, s) end.
Proof. unfold bind, lift. now destruct r. Qed.

#[local] Arguments q_new : simpl never.
#[local] Arguments q_to : simpl never.

Lemma q_new_ok cls a u q :
  q_new cls a u = Ok q -> q_class q = cls /\ q_unit q = u /\ q_shape q = shape a.
Proof.
  unfold q_new. intros H.
  destruct cls; repeat case_match; simplify_eq; auto.
Qed.

Lemma q_new_err cls a u e : q_new cls a u = Err e -> is_ValueError e = true.
Proof.
  unfold q_new. intros H.
  destruct cls; repeat case_match; simplify_eq; auto.
Qed.

Lemma q_to_shape q u q' : q_to q u = Ok q' -> q_shape q' = q_shape q.
Proof. unfold q_to. case_decide; intros; simplify_eq. reflexivity. Qed.

Lemma stack_shape arrs a :
  stack arrs = Ok a ->
  shape a = match arrs with [] => [0] | b :: l => S (length l) :: shape b end.
Proof.
  unfold stack. destruct arrs as [| b l]; [intros; now simplify_eq |].
  case_match; intros; simplify_eq. reflexivity.
Qed.

Lemma Quantity_new_shape x unit copy q :
  Quantity_new x unit copy = Ok q -> q_shape q = pyval_shape x.
Proof.
  destruct x as [| a | q0 | l]; cbn; intros H; simplify_eq; try reflexivity.
  - destruct unit as [u |]; simplify_eq; [| reflexivity].
    destruct (q_to q0 u) eqn:Hto; simplify_eq. cbn in *. simplify_eq.
    now apply q_to_shape in Hto.
  - destruct (plain_arrays l) as [arrs |]; [| discriminate].
    destruct (stack arrs) as [a |] eqn:Hs; cbn in H; simplify_eq.
    apply stack_shape in Hs. unfold q_shape. cbn. rewrite Hs. now destruct arrs.
Qed.

Lemma Angle_new_shape x copy q : Angle_new x copy = Ok q -> q_shape q = pyval_shape x.
Proof.
  destruct x; cbn; intros H; simplify_eq. now apply q_new_ok in H as (_ & _ & ?).
Qed.

Lemma Longitude_new_shape x copy q :
  Longitude_new x copy = Ok q -> q_shape q = pyval_shape x.
Proof.
  destruct x; cbn; intros H; simplify_eq. case_decide; simplify_eq.
  now apply q_new_ok in H as (_ & _ & ?).
Qed.

Lemma Latitude_new_shape x copy q :
  Latitude_new x copy = Ok q -> q_shape q = pyval_shape x.
Proof.
  destruct x; cbn; intros H; simplify_eq. case_decide; simplify_eq.
  now apply q_new_ok in H as (_ & _ & ?).
Qed.

Lemma Distance_new_shape x copy q :
  Distance_new x copy = Ok q -> q_shape q = pyval_shape x.
Proof.
  destruct x; cbn; intros H; simplify_eq. now apply q_new_ok in H as (_ & _ & ?).
Qed.

(** Each argument of [broadcast_quantity] comes back with its class and
    unit, at the common shape. *)
Lemma rewrap_ok s (args : list quantity) (l : list quantity) :
  rmapM (fun '(arg, new_array) => q_new (q_class arg) new_array (q_unit arg))
        (zip args (map (fun a => broadcast_to a s) (map q_value args))) = Ok l ->
  Forall2 (fun arg q => q_class q = q_class arg /\ q_unit q = q_unit arg /\ q_shape q = s)
          args l.
Proof.
  revert l. induction args as [| a args IH]; cbn; intros l H.
  - simplify_eq. constructor.
  - destruct (q_new (q_class a) (broadcast_to (q_value a) s) (q_unit a)) as [q |] eqn:Hq;
      cbn in H; [| discriminate].
    destruct (rmapM _ _) as [qs |] eqn:Hqs; cbn in H; simplify_eq.
    constructor; [| now apply IH].
    apply q_new_ok in Hq as (? & ? & ?). auto.
Qed.

Lemma rewrap_err s (args : list quantity) e :
  rmapM (fun '(arg, new_array) => q_new (q_class arg) new_array (q_unit arg))
        (zip args (map (fun a => broadcast_to a s) (map q_value args))) = Err e ->
  is_ValueError e = true.
Proof.
  induction args as [| a args IH]; cbn; intros H; [discriminate |].
  destruct (q_new (q_class a) (broadcast_to (q_value a) s) (q_unit a)) as [q |] eqn:Hq;
    cbn in H.
  - destruct (rmapM _ _) as [qs |] eqn:Hqs; cbn in H; simplify_eq. now apply IH.
  - simplify_eq. now apply q_new_err in Hq.
Qed.

Lemma broadcast_quantity_ok args copy l :
  broadcast_quantity args copy = Ok l ->
  exists s, common_shape (map q_shape args) = Some s
            /\ Forall2 (fun arg q => q_class q = q_class arg /\ q_unit q = q_unit arg
                                     /\ q_shape q = s) args l.
Proof.
  unfold broadcast_quantity, np_broadcast_arrays. rewrite map_map.
  change (map (fun x => shape (q_value x)) args) with (map q_shape args).
  destruct (common_shape (map q_shape args)) as [s |]; cbn; [| discriminate].
  intros H. exists s. split; [reflexivity |]. now apply rewrap_ok.
Qed.

Lemma broadcast_quantity_err args copy e :
  broadcast_quantity args copy = Err e -> is_ValueError e = true.
Proof.
  unfold broadcast_quantity, np_broadcast_arrays.
  destruct (common_shape _) as [s |]; cbn.
  - apply rewrap_err.
  - intros; now simplify_eq.
Qed.

Lemma broadcast_quantity_unbroadcastable args copy :
  common_shape (map q_shape args) = None ->
  broadcast_quantity args copy = Err ValueError.
Proof.
  unfold broadcast_quantity, np_broadcast_arrays. rewrite map_map.
  change (map (fun x => shape (q_value x)) args) with (map q_shape args).
  now intros ->.
Qed.

(** The guarded broadcast of three components. *)
Lemma broadcast3_cases a b c copy :
  match except_ValueError (l <~ broadcast_quantity [a; b; c] copy; as3 l) with
  | Ok (a', b', c') =>
      exists s, common_shape [q_shape a; q_shape b; q_shape c] = Some s
                /\ Forall2 (fun arg q => q_class q = q_class arg /\ q_unit q = q_unit arg
                                         /\ q_shape q = s) [a; b; c] [a'; b'; c']
  | Err e => e = ValueError
  end.
Proof.
  destruct (broadcast_quantity [a; b; c] copy) as [l |] eqn:Hb; cbn.
  - apply broadcast_quantity_ok in Hb as (s & Hs & Hall).
    destruct l as [| a' [| b' [| c' [| d l]]]]; cbn; try reflexivity;
      try (exfalso; inversion Hall as [| ? ? ? ? ? H1]; subst;
           inversion H1 as [| ? ? ? ? ? H2]; subst;
           inversion H2 as [| ? ? ? ? ? H3]; subst; inversion H3; fail).
    exists s. split; [exact Hs | exact Hall].
  - apply broadcast_quantity_err in Hb. rewrite Hb. reflexivity.
Qed.

Lemma broadcast2_cases a b copy :
  match except_ValueError (l <~ broadcast_quantity [a; b] copy; as2 l) with
  | Ok (a', b') =>
      exists s, common_shape [q_shape a; q_shape b] = Some s
                /\ Forall2 (fun arg q => q_class q = q_class arg /\ q_unit q = q_unit arg
                                         /\ q_shape q = s) [a; b] [a'; b']
  | Err e => e = ValueError
  end.
Proof.
  destruct (broadcast_quantity [a; b] copy) as [l |] eqn:Hb; cbn.
  - apply broadcast_quantity_ok in Hb as (s & Hs & Hall).
    destruct l as [| a' [| b' [| c' l]]]; cbn; try reflexivity;
      try (exfalso; inversion Hall as [| ? ? ? ? ? H1]; subst;
           inversion H1 as [| ? ? ? ? ? H2]; subst;
           inversion H2; fail).
    exists s. split; [exact Hs | exact Hall].
  - apply broadcast_quantity_err in Hb. rewrite Hb. reflexivity.
Qed.

Lemma new_object_constructs cls shapes o s (h : heap) :
  class_of o = cls -> common_shape shapes = Some s -> same_shape o s ->
  constructs cls shapes h (new_object o h).
Proof.
  intros Hc Hs Ho. unfold new_object, constructs.
  exists o, s. split; [apply fresh_unused | auto].
Qed.

Ltac forall2_shapes H :=
  repeat match type of H with
         | Forall2 _ (_ :: _) (_ :: _) =>
             let H1 := fresh "Hq" in
             let H2 := fresh "Hrest" in
             apply Forall2_cons in H as [H1 H2];
             destruct H1 as (? & ? & ?); rename H2 into H
         end.

Lemma CartesianRepresentation_init_constructs x y z unit copy (h : heap) :
  match cartesian_components x y z with
  | Ok (a, b, c) =>
      constructs CartesianRepresentation [pyval_shape a; pyval_shape b; pyval_shape c] h
        (CartesianRepresentation_init x y z unit copy h)
  | Err _ => exists e, CartesianRepresentation_init x y z unit copy h = (Err e, h)
  end.
Proof.
  unfold CartesianRepresentation_init, cartesian_components.
  destruct (is_None y) eqn:Hy, (is_None z) eqn:Hz; cbn [andb orb negb].
  2,3: reflexivity.
  - rewrite bind_lift. destruct (unpack3 x) as [[[a b] c] | e]; [| now exists e].
    rewrite !bind_lift.
    destruct (Quantity_new a unit copy) as [qa |] eqn:Ha; [| reflexivity].
    rewrite !bind_lift.
    destruct (Quantity_new b unit copy) as [qb |] eqn:Hb; [| reflexivity].
    rewrite !bind_lift.
    destruct (Quantity_new c unit copy) as [qc' |] eqn:Hc; [| reflexivity].
    case_match; [reflexivity |].
    rewrite bind_lift.
    pose proof (broadcast3_cases qa qb qc' copy) as Hbc.
    destruct (except_ValueError _) as [[[a' b'] c'] | e]; [| reflexivity].
    destruct Hbc as (s & Hs & Hall). forall2_shapes Hall.
    apply Quantity_new_shape in Ha, Hb, Hc.
    apply (new_object_constructs _ _ _ s);
      [reflexivity | now rewrite <- Ha, <- Hb, <- Hc
      | unfold same_shape; cbn; repeat constructor; assumption].
  - unfold bind at 1, ret at 1.
    rewrite !bind_lift.
    destruct (Quantity_new x unit copy) as [qa |] eqn:Ha; [| reflexivity].
    rewrite !bind_lift.
    destruct (Quantity_new y unit copy) as [qb |] eqn:Hb; [| reflexivity].
    rewrite !bind_lift.
    destruct (Quantity_new z unit copy) as [qc' |] eqn:Hc; [| reflexivity].
    case_match; [reflexivity |].
    rewrite bind_lift.
    pose proof (broadcast3_cases qa qb qc' copy) as Hbc.
    destruct (except_ValueError _) as [[[a' b'] c'] | e]; [| reflexivity].
    destruct Hbc as (s & Hs & Hall). forall2_shapes Hall.
    apply Quantity_new_shape in Ha, Hb, Hc.
    apply (new_object_constructs _ _ _ s);
      [reflexivity | now rewrite <- Ha, <- Hb, <- Hc
      | unfold same_shape; cbn; repeat constructor; assumption].
Qed.

Lemma distance_arg_shape distance copy q :
  (if is_length_quantity distance then Distance_new distance copy
   else Quantity_new distance None copy) = Ok q ->
  q_shape q = pyval_shape distance.
Proof.
  destruct (is_length_quantity distance).
  - apply Distance_new_shape.
  - apply Quantity_new_shape.
Qed.

Lemma SphericalRepresentation_init_constructs lon lat distance copy (h : heap) :
  constructs SphericalRepresentation
    [pyval_shape lon; pyval_shape lat; pyval_shape distance] h
    (SphericalRepresentation_init lon lat distance copy h).
Proof.
  unfold SphericalRepresentation_init.
  rewrite !bind_lift.
  destruct (Longitude_new lon copy) as [qa |] eqn:Ha; [| reflexivity].
  rewrite !bind_lift.
  destruct (Latitude_new lat copy) as [qb |] eqn:Hb; [| reflexivity].
  rewrite !bind_lift.
  destruct (if is_length_quantity distance then _ else _) as [qd |] eqn:Hd; [| reflexivity].
  rewrite bind_lift.
  pose proof (broadcast3_cases qa qb qd copy) as Hbc.
  destruct (except_ValueError _) as [[[a' b'] c'] | e]; [| reflexivity].
  destruct Hbc as (s & Hs & Hall). forall2_shapes Hall.
  apply Longitude_new_shape in Ha. apply Latitude_new_shape in Hb.
  apply distance_arg_shape in Hd.
  apply (new_object_constructs _ _ _ s);
    [reflexivity | now rewrite <- Ha, <- Hb, <- Hd
    | unfold same_shape; cbn; repeat constructor; assumption].
Qed.

Lemma UnitSphericalRepresentation_init_constructs lon lat copy (h : heap) :
  constructs UnitSphericalRepresentation [pyval_shape lon; pyval_shape lat] h
    (UnitSphericalRepresentation_init lon lat copy h).
Proof.
  unfold UnitSphericalRepresentation_init.
  rewrite !bind_lift.
  destruct (Longitude_new lon copy) as [qa |] eqn:Ha; [| reflexivity].
  rewrite !bind_lift.
  destruct (Latitude_new lat copy) as [qb |] eqn:Hb; [| reflexivity].
  rewrite bind_lift.
  pose proof (broadcast2_cases qa qb copy) as Hbc.
  destruct (except_ValueError _) as [[a' b'] | e]; [| reflexivity].
  destruct Hbc as (s & Hs & Hall). forall2_shapes Hall.
  apply Longitude_new_shape in Ha. apply Latitude_new_shape in Hb.
  apply (new_object_constructs _ _ _ s);
    [reflexivity | now rewrite <- Ha, <- Hb
    | unfold same_shape; cbn; repeat constructor; assumption].
Qed.

Lemma PhysicsSphericalRepresentation_init_constructs phi theta distance copy (h : heap) :
  constructs PhysicsSphericalRepresentation
    [pyval_shape phi; pyval_shape theta; pyval_shape distance] h
    (PhysicsSphericalRepresentation_init phi theta distance copy h).
Proof.
  unfold PhysicsSphericalRepresentation_init.
  rewrite !bind_lift.
  destruct (Angle_new phi copy) as [qa |] eqn:Ha; [| reflexivity].
  rewrite !bind_lift.
  destruct (Angle_new theta copy) as [qb |] eqn:Hb; [| reflexivity].
  rewrite !bind_lift.
  destruct (if is_length_quantity distance then _ else _) as [qd |] eqn:Hd; [| reflexivity].
  rewrite bind_lift.
  pose proof (broadcast3_cases qa qb qd copy) as Hbc.
  destruct (except_ValueError _) as [[[a' b'] c'] | e]; [| reflexivity].
  destruct Hbc as (s & Hs & Hall). forall2_shapes Hall.
  apply Angle_new_shape in Ha, Hb. apply distance_arg_shape in Hd.
  apply (new_object_constructs _ _ _ s);
    [reflexivity | now rewrite <- Ha, <- Hb, <- Hd
    | unfold same_shape; cbn; repeat constructor; assumption].
Qed.

Lemma CylindricalRepresentation_init_constructs rho phi z copy (h : heap) :
  constructs CylindricalRepresentation
    [pyval_shape rho; pyval_shape phi; pyval_shape z] h
    (CylindricalRepresentation_init rho phi z copy h).
Proof.
  unfold CylindricalRepresentation_init.
  rewrite !bind_lift.
  destruct (Quantity_new rho None copy) as [qa |] eqn:Ha; [| reflexivity].
  rewrite !bind_lift.
  destruct (Angle_new phi copy) as [qb |] eqn:Hb; [| reflexivity].
  rewrite !bind_lift.
  destruct (Quantity_new z None copy) as [qd |] eqn:Hd; [| reflexivity].
  case_match; [reflexivity |].
  rewrite bind_lift.
  pose proof (broadcast3_cases qa qb qd copy) as Hbc.
  destruct (except_ValueError _) as [[[a' b'] c'] | e]; [| reflexivity].
  destruct Hbc as (s & Hs & Hall). forall2_shapes Hall.
  apply Quantity_new_shape in Ha, Hd. apply Angle_new_shape in Hb.
  apply (new_object_constructs _ _ _ s);
    [reflexivity | now rewrite <- Ha, <- Hb, <- Hd
    | unfold same_shape; cbn; repeat constructor; assumption].
Qed.

(** *** The invariant of the store *)

Lemma constructs_keeps_inv cls shapes (h : heap) out :
  constructs cls shapes h out -> heap_inv h -> heap_inv out.2.
Proof.
  destruct out as [[l | e] h']; cbn.
  - intros (o & s & Hfresh & -> & _ & _ & Hshape) Hinv l' o'.
    rewrite lookup_insert. case_decide; intros ?; simplify_eq; eauto.
  - now intros ->.
Qed.

Lemma keeps_inv_ret {A} (a : A) : keeps_inv (@ret heap A a).
Proof. now intros h. Qed.

Lemma keeps_inv_raise {A} e : keeps_inv (@raise heap A e).
Proof. now intros h. Qed.

Lemma keeps_inv_lift {A} (r : result A) : keeps_inv (@lift heap A r).
Proof. now intros h. Qed.

Lemma keeps_inv_get_object l : keeps_inv (get_object l).
Proof. intros h Hh. unfold get_object. now destruct (h !! l). Qed.

Lemma keeps_inv_bind {A B} (m : M heap A) (k : A -> M heap B) :
  keeps_inv m -> (forall a, keeps_inv (k a)) -> keeps_inv (bind m k).
Proof.
  intros Hm Hk h Hh. unfold bind. specialize (Hm h Hh).
  destruct (m h) as [[a | e] h']; cbn in *; [now apply Hk | exact Hm].
Qed.

Lemma keeps_inv_Cartesian x y z unit copy :
  keeps_inv (CartesianRepresentation_init x y z unit copy).
Proof.
  intros h Hh.
  pose proof (CartesianRepresentation_init_constructs x y z unit copy h) as Hc.
  destruct (cartesian_components x y z) as [[[a b] c] | e].
  - eapply constructs_keeps_inv; eauto.
  - destruct Hc as (e' & ->). exact Hh.
Qed.

Lemma keeps_inv_Spherical lon lat distance copy :
  keeps_inv (SphericalRepresentation_init lon lat distance copy).
Proof.
  intros h Hh. eapply constructs_keeps_inv;
    [apply SphericalRepresentation_init_constructs | exact Hh].
Qed.

Lemma keeps_inv_UnitSpherical lon lat copy :
  keeps_inv (UnitSphericalRepresentation_init lon lat copy).
Proof.
  intros h Hh. eapply constructs_keeps_inv;
    [apply UnitSphericalRepresentation_init_constructs | exact Hh].
Qed.

Lemma keeps_inv_PhysicsSpherical phi theta distance copy :
  keeps_inv (PhysicsSphericalRepresentation_init phi theta distance copy).
Proof.
  intros h Hh. eapply constructs_keeps_inv;
    [apply PhysicsSphericalRepresentation_init_constructs | exact Hh].
Qed.

Lemma keeps_inv_Cylindrical rho phi z copy :
  keeps_inv (CylindricalRepresentation_init rho phi z copy).
Proof.
  intros h Hh. eapply constructs_keeps_inv;
    [apply CylindricalRepresentation_init_constructs | exact Hh].
Qed.

Create HintDb keeps discriminated.
#[local] Hint Resolve keeps_inv_ret keeps_inv_raise keeps_inv_lift keeps_inv_get_object
  keeps_inv_Cartesian keeps_inv_Spherical keeps_inv_UnitSpherical
  keeps_inv_PhysicsSpherical keeps_inv_Cylindrical : keeps.

(** The store invariant through a method body: binds are entered, pattern
    matches are split, and the leaves are constructors or pure steps. *)
Ltac keeps :=
  repeat first
    [ progress auto with keeps
    | apply keeps_inv_bind; [| intros ?]
    | match goal with
      | |- keeps_inv (match ?x with _ => _ end) => destruct x
      | |- keeps_inv (if ?b then _ else _) => destruct b
      end ].

Lemma keeps_inv_to_cartesian self : keeps_inv (to_cartesian self).
Proof.
  unfold to_cartesian, CartesianRepresentation_to_cartesian,
    SphericalRepresentation_to_cartesian, UnitSphericalRepresentation_to_cartesian,
    PhysicsSphericalRepresentation_to_cartesian, CylindricalRepresentation_to_cartesian.
  keeps.
Qed.

Lemma keeps_inv_from_cartesian cls cart : keeps_inv (from_cartesian cls cart).
Proof.
  unfold from_cartesian, CartesianRepresentation_from_cartesian,
    SphericalRepresentation_from_cartesian, UnitSphericalRepresentation_from_cartesian,
    PhysicsSphericalRepresentation_from_cartesian, CylindricalRepresentation_from_cartesian,
    cart_xyz.
  destruct cls; keeps.
Qed.

Lemma keeps_inv_represent_as self cls : keeps_inv (represent_as self cls).
Proof.
  pose proof keeps_inv_to_cartesian. pose proof keeps_inv_from_cartesian.
  unfold represent_as, SphericalRepresentation_represent_as,
    PhysicsSphericalRepresentation_represent_as, BaseRepresentation_represent_as.
  keeps.
Qed.

(** C9: a successful call of any of the five constructors returns a new
    object whose stored components all have the common broadcast shape of
    the arguments, and a failed one leaves the store as it was; hence a
    store in which the components of every object share one shape stays
    so under [to_cartesian], [from_cartesian] and [represent_as], which
    make objects through these constructors only. *)
Theorem components_share_one_shape :
  (forall x y z unit copy (h : heap),
     match cartesian_components x y z with
     | Ok (a, b, c) =>
         constructs CartesianRepresentation
           [pyval_shape a; pyval_shape b; pyval_shape c] h
           (CartesianRepresentation_init x y z unit copy h)
     | Err _ => exists e, CartesianRepresentation_init x y z unit copy h = (Err e, h)
     end)
  /\ (forall lon lat distance copy (h : heap),
        constructs SphericalRepresentation
          [pyval_shape lon; pyval_shape lat; pyval_shape distance] h
          (SphericalRepresentation_init lon lat distance copy h))
  /\ (forall lon lat copy (h : heap),
        constructs UnitSphericalRepresentation [pyval_shape lon; pyval_shape lat] h
          (UnitSphericalRepresentation_init lon lat copy h))
  /\ (forall phi theta distance copy (h : heap),
        constructs PhysicsSphericalRepresentation
          [pyval_shape phi; pyval_shape theta; pyval_shape distance] h
          (PhysicsSphericalRepresentation_init phi theta distance copy h))
  /\ (forall rho phi z copy (h : heap),
        constructs CylindricalRepresentation
          [pyval_shape rho; pyval_shape phi; pyval_shape z] h
          (CylindricalRepresentation_init rho phi z copy h))
  /\ (forall self, keeps_inv (to_cartesian self))
  /\ (forall cls cart, keeps_inv (from_cartesian cls cart))
  /\ (forall self cls, keeps_inv (represent_as self cls)).
Proof.
  repeat split.
  - apply CartesianRepresentation_init_constructs.
  - apply SphericalRepresentation_init_constructs.
  - apply UnitSphericalRepresentation_init_constructs.
  - apply PhysicsSphericalRepresentation_init_constructs.
  - apply CylindricalRepresentation_init_constructs.
  - apply keeps_inv_to_cartesian.
  - apply keeps_inv_from_cartesian.
  - apply keeps_inv_represent_as.
Qed.

(** ** Errors of construction *)

Lemma physical_type_dim a b : u_dim a = u_dim b -> physical_type a = physical_type b.
Proof. unfold physical_type. now intros ->. Qed.

Lemma Quantity_new_PyQ_cases q unit copy :
  match Quantity_new (PyQ q) unit copy with
  | Ok q' => physical_type (q_unit q') = physical_type (q_unit q)
             /\ match unit with Some u => q_unit q' = u | None => True end
  | Err e => e = UnitsError
  end.
Proof.
  destruct unit as [u |]; cbn; [| auto].
  unfold q_to. case_decide; cbn; [| reflexivity].
  split; [now apply physical_type_dim | reflexivity].
Qed.

Lemma broadcast3_unbroadcastable a b c copy :
  common_shape [q_shape a; q_shape b; q_shape c] = None ->
  except_ValueError (l <~ broadcast_quantity [a; b; c] copy; as3 l) = Err ValueError.
Proof.
  intros H. now rewrite (broadcast_quantity_unbroadcastable [a; b; c] copy H).
Qed.

Lemma broadcast2_unbroadcastable a b copy :
  common_shape [q_shape a; q_shape b] = None ->
  except_ValueError (l <~ broadcast_quantity [a; b] copy; as2 l) = Err ValueError.
Proof.
  intros H. now rewrite (broadcast_quantity_unbroadcastable [a; b] copy H).
Qed.

(** C8 fails as stated: the components below cannot be broadcast to one
    shape (two entries against three), yet the constructor does not raise
    the shape error: the check of the physical types comes first and
    raises [UnitsError], a length against a dimensionless value. *)
Lemma shape_error_preceded_by_units_error :
  let x := PyQ (mkQ Quantity u_m (vec [1; 2]%R)) in
  let y := PyArr (vec [1; 2; 3]%R) in
  let z := PyQ (mkQ Quantity u_m (scalar 1)) in
  common_shape [pyval_shape x; pyval_shape y; pyval_shape z] = None
  /\ CartesianRepresentation_init x y z None true ∅ = (Err UnitsError, ∅)
  /\ CartesianRepresentation_init x y z None true ∅ <> (Err ValueError, ∅).
Proof.
  cbn zeta. split; [reflexivity |].
  assert (H : CartesianRepresentation_init (PyQ (mkQ Quantity u_m (vec [1; 2]%R)))
                (PyArr (vec [1; 2; 3]%R)) (PyQ (mkQ Quantity u_m (scalar 1)))
                None true ∅ = (Err UnitsError, ∅)) by reflexivity.
  split; [exact H |]. rewrite H. discriminate.
Qed.

(** C8, amended: construction from quantities raises [UnitsError] whenever
    the physical types of x, y, z (Cartesian) or of rho, z (Cylindrical,
    phi being an angle) disagree; and it raises the shape error,
    [ValueError], whenever each argument is accepted by the class of its
    component, the physical types agree where they must, and the shapes
    cannot be broadcast to one; in every case the store is left as it was:
    no object is created. *)
Theorem construction_errors (h : heap) copy :
  (forall qx qy qz unit,
     ~ (physical_type (q_unit qx) = physical_type (q_unit qy)
        /\ physical_type (q_unit qy) = physical_type (q_unit qz)) ->
     CartesianRepresentation_init (PyQ qx) (PyQ qy) (PyQ qz) unit copy h
     = (Err UnitsError, h))
  /\ (forall rho phi z,
        u_dim (q_unit phi) = dim_angle ->
        physical_type (q_unit rho) <> physical_type (q_unit z) ->
        CylindricalRepresentation_init (PyQ rho) (PyQ phi) (PyQ z) copy h
        = (Err UnitsError, h))
  /\ (forall x y z unit qx qy qz,
        is_None y = false -> is_None z = false ->
        Quantity_new x unit copy = Ok qx ->
        Quantity_new y unit copy = Ok qy ->
        Quantity_new z unit copy = Ok qz ->
        physical_type (q_unit qx) = physical_type (q_unit qy) ->
        physical_type (q_unit qy) = physical_type (q_unit qz) ->
        common_shape [pyval_shape x; pyval_shape y; pyval_shape z] = None ->
        CartesianRepresentation_init x y z unit copy h = (Err ValueError, h))
  /\ (forall lon lat distance qlon qlat qd,
        Longitude_new lon copy = Ok qlon ->
        Latitude_new lat copy = Ok qlat ->
        (if is_length_quantity distance then Distance_new distance copy
         else Quantity_new distance None copy) = Ok qd ->
        common_shape [pyval_shape lon; pyval_shape lat; pyval_shape distance] = None ->
        SphericalRepresentation_init lon lat distance copy h = (Err ValueError, h))
  /\ (forall lon lat qlon qlat,
        Longitude_new lon copy = Ok qlon ->
        Latitude_new lat copy = Ok qlat ->
        common_shape [pyval_shape lon; pyval_shape lat] = None ->
        UnitSphericalRepresentation_init lon lat copy h = (Err ValueError, h))
  /\ (forall phi theta distance qphi qtheta qd,
        Angle_new phi copy = Ok qphi ->
        Angle_new theta copy = Ok qtheta ->
        (if is_length_quantity distance then Distance_new distance copy
         else Quantity_new distance None copy) = Ok qd ->
        common_shape [pyval_shape phi; pyval_shape theta; pyval_shape distance] = None ->
        PhysicsSphericalRepresentation_init phi theta distance copy h
        = (Err ValueError, h))
  /\ (forall rho phi z qrho qphi qz,
        Quantity_new rho None copy = Ok qrho ->
        Angle_new phi copy = Ok qphi ->
        Quantity_new z None copy = Ok qz ->
        physical_type (q_unit qrho) = physical_type (q_unit qz) ->
        common_shape [pyval_shape rho; pyval_shape phi; pyval_shape z] = None ->
        CylindricalRepresentation_init rho phi z copy h = (Err ValueError, h)).
Proof.
  repeat apply conj.
  - intros qx qy qz unit Hne. unfold CartesianRepresentation_init. cbn [is_None andb orb negb].
    unfold bind at 1, ret at 1. rewrite !bind_lift.
    pose proof (Quantity_new_PyQ_cases qx unit copy) as Hx.
    destruct (Quantity_new (PyQ qx) unit copy) as [x |]; [| now subst].
    rewrite !bind_lift.
    pose proof (Quantity_new_PyQ_cases qy unit copy) as Hy.
    destruct (Quantity_new (PyQ qy) unit copy) as [y |]; [| now subst].
    rewrite !bind_lift.
    pose proof (Quantity_new_PyQ_cases qz unit copy) as Hz.
    destruct (Quantity_new (PyQ qz) unit copy) as [z |]; [| now subst].
    destruct Hx as [-> _], Hy as [-> _], Hz as [-> _].
    case_match eqn:Hb; [reflexivity |].
    apply negb_false_iff, andb_true_iff in Hb as [H1%bool_decide_eq_true H2%bool_decide_eq_true].
    now destruct Hne.
  - intros rho phi z Hphi Hne. unfold CylindricalRepresentation_init, bind, lift. cbn.
    unfold q_new. rewrite decide_True by exact Hphi. cbn.
    case_match eqn:Hb; [reflexivity |].
    apply negb_false_iff, bool_decide_eq_true in Hb. now destruct Hne.
  - intros x y z unit qx qy qz Hy Hz Hqx Hqy Hqz H1 H2 Hs.
    unfold CartesianRepresentation_init. rewrite Hy, Hz. cbn [andb orb negb].
    unfold bind at 1, ret at 1. rewrite !bind_lift, Hqx, !bind_lift, Hqy, !bind_lift, Hqz.
    rewrite !bool_decide_eq_true_2 by assumption. cbn [andb negb].
    rewrite bind_lift, broadcast3_unbroadcastable; [reflexivity |].
    now rewrite (Quantity_new_shape _ _ _ _ Hqx), (Quantity_new_shape _ _ _ _ Hqy),
      (Quantity_new_shape _ _ _ _ Hqz).
  - intros lon lat distance qlon qlat qd Hlon Hlat Hd Hs.
    unfold SphericalRepresentation_init.
    rewrite !bind_lift, Hlon, !bind_lift, Hlat, !bind_lift, Hd.
    rewrite bind_lift, broadcast3_unbroadcastable; [reflexivity |].
    now rewrite (Longitude_new_shape _ _ _ Hlon), (Latitude_new_shape _ _ _ Hlat),
      (distance_arg_shape _ _ _ Hd).
  - intros lon lat qlon qlat Hlon Hlat Hs.
    unfold UnitSphericalRepresentation_init.
    rewrite !bind_lift, Hlon, !bind_lift, Hlat.
    rewrite bind_lift, broadcast2_unbroadcastable; [reflexivity |].
    now rewrite (Longitude_new_shape _ _ _ Hlon), (Latitude_new_shape _ _ _ Hlat).
  - intros phi theta distance qphi qtheta qd Hphi Htheta Hd Hs.
    unfold PhysicsSphericalRepresentation_init.
    rewrite !bind_lift, Hphi, !bind_lift, Htheta, !bind_lift, Hd.
    rewrite bind_lift, broadcast3_unbroadcastable; [reflexivity |].
    now rewrite (Angle_new_shape _ _ _ Hphi), (Angle_new_shape _ _ _ Htheta),
      (distance_arg_shape _ _ _ Hd).
  - intros rho phi z qrho qphi qz Hrho Hphi Hz Hpt Hs.
    unfold CylindricalRepresentation_init.
    rewrite !bind_lift, Hrho, !bind_lift, Hphi, !bind_lift, Hz.
    rewrite bool_decide_eq_true_2 by assumption. cbn [negb].
    rewrite bind_lift, broadcast3_unbroadcastable; [reflexivity |].
    now rewrite (Quantity_new_shape _ _ _ _ Hrho), (Angle_new_shape _ _ _ Hphi),
      (Quantity_new_shape _ _ _ _ Hz).
Qed.

Lemma construction_errors_witness :
  CartesianRepresentation_init (PyQ (mkQ Quantity u_m (scalar 1))) (PyQ (plain (scalar 1)))
      (PyQ (mkQ Quantity u_m (scalar 1))) None true ∅ = (Err UnitsError, ∅)
  /\ CartesianRepresentation_init (PyArr (vec [1; 2]%R)) (PyArr (vec [1; 2; 3]%R))
       (PyArr (scalar 1)) None true ∅ = (Err ValueError, ∅).
Proof.
  destruct (construction_errors ∅ true) as (H1 & _ & H3 & _).
  split.
  - apply H1. intros [H _]. vm_compute in H. discriminate H.
  - eapply H3; reflexivity.
Defined.

(** ** The inverse of the cylindrical representation *)

Lemma setitem_mask_count_mismatch {A} (a : ndarray A) mask v n :
  shape v = [n] -> n <> count_true (flat mask) -> n <> 1 ->
  setitem_mask a mask v = Err ValueError.
Proof.
  intros Hv Hk H1. unfold setitem_mask. rewrite Hv.
  apply Nat.eqb_neq in Hk, H1. now rewrite Hk, H1.
Qed.

Lemma mixed_points_mask :
  exists rho,
    (xy <~ q_add (q_sqr (plain (vec [0; 1]%R))) (q_sqr (plain (vec [0; 0]%R)));
     Ok (q_sqrt xy)) = Ok rho
    /\ shape (q_gt0 rho) = [2] /\ flat (q_gt0 rho) = [false; true].
Proof.
  eexists. split; [reflexivity |]. split; [reflexivity |].
  unfold flat. cbn.
  replace (0 * 0 + 0 * 0 * (1 * 1 / (1 * 1)))%R with 0%R by lra.
  replace (1 * 1 + 0 * 0 * (1 * 1 / (1 * 1)))%R with 1%R by lra.
  rewrite sqrt_0, sqrt_1.
  rewrite bool_decide_eq_false_2 by lra.
  rewrite bool_decide_eq_true_2 by lra.
  reflexivity.
Qed.

(** C5, evaluated where it fails: for the two points [mixed_points], one
    with rho = 0 and one with rho > 0, [from_cartesian] does not build a
    cylindrical representation: the masked assignment
    [phi[rho > 0] = np.arctan2(cart.y, cart.x)] is given the two values of
    the whole array for the one entry the mask selects and raises
    [ValueError]; no object is created. *)
Theorem CylindricalRepresentation_from_cartesian_mixed :
  CylindricalRepresentation_from_cartesian 0 {[ 0 := mixed_points ]}
  = (Err ValueError, {[ 0 := mixed_points ]}).
Proof.
  unfold CylindricalRepresentation_from_cartesian, cart_xyz.
  rewrite (bind_ok _ _ _ (plain (vec [0; 1]%R), plain (vec [0; 0]%R), plain (vec [0; 0]%R))
             {[ 0 := mixed_points ]}) by reflexivity.
  rewrite bind_lift.
  destruct mixed_points_mask as (rho & -> & Hshape & Hflat).
  rewrite bind_lift.
  assert (Hv : exists v, np_arctan2 (plain (vec [0; 0]%R)) (plain (vec [0; 1]%R)) = Ok v
                         /\ q_shape v = [2] /\ q_unit v = u_radian).
  { eexists. split; [reflexivity |]. split; reflexivity. }
  destruct Hv as (v & -> & Hvs & Hvu). cbn [rbind].
  unfold q_setitem_mask, q_to. rewrite Hvu.
  rewrite decide_True by reflexivity. cbn [rbind q_unit q_value array_times_unit].
  rewrite decide_True by (rewrite Hshape; reflexivity).
  rewrite (setitem_mask_count_mismatch _ _ _ 2); [reflexivity | | | ].
  - exact Hvs.
  - rewrite Hflat. cbn. lia.
  - lia.
Qed.

(** ** Arrays index by index *)

Lemma in_indices s idx : In idx (indices s) <-> Forall2 lt idx s.
Proof.
  revert idx. induction s as [| d s IH]; intros idx; cbn.
  - split.
    + intros [<- | []]. constructor.
    + intros H. inversion H. now left.
  - rewrite in_flat_map. split.
    + intros (i & Hi & Hin). apply in_seq in Hi. apply in_map_iff in Hin as (idx' & <- & Hin).
      constructor; [lia | now apply IH].
    + intros H. inversion H as [| i ? idx' ? Hi Hrest]; subst.
      exists i. split; [apply in_seq; lia |].
      apply in_map_iff. exists idx'. split; [reflexivity | now apply IH].
Qed.

Lemma bindex_rev_id s idx : Forall2 lt idx s -> bindex_rev s idx = idx.
Proof.
  induction 1 as [| i d idx s Hi _ IH]; cbn; [reflexivity |].
  rewrite IH. destruct (d =? 1) eqn:Hd; [| reflexivity].
  apply Nat.eqb_eq in Hd. f_equal. lia.
Qed.

Lemma bindex_id s idx : In idx (indices s) -> bindex s idx = idx.
Proof.
  intros H%in_indices. unfold bindex.
  rewrite bindex_rev_id by now apply Forall2_reverse.
  apply reverse_involutive.
Qed.

Lemma bshape_rev_same s : bshape_rev s s = Some s.
Proof.
  induction s as [| d s IH]; cbn; [reflexivity |].
  unfold bdim. now rewrite Nat.eqb_refl, IH.
Qed.

Lemma broadcast_shapes_same s : broadcast_shapes s s = Some s.
Proof.
  unfold broadcast_shapes. rewrite bshape_rev_same. cbn.
  now rewrite reverse_involutive.
Qed.

Lemma bshape_rev_nil_r a : bshape_rev a [] = Some a.
Proof. now destruct a. Qed.

Lemma broadcast_shapes_nil_r s : broadcast_shapes s [] = Some s.
Proof.
  unfold broadcast_shapes. change (reverse (@nil nat)) with (@nil nat).
  rewrite bshape_rev_nil_r. cbn. now rewrite reverse_involutive.
Qed.

Lemma common_shape_same3 s : common_shape [s; s; s] = Some s.
Proof. cbn. now rewrite broadcast_shapes_nil_r, !broadcast_shapes_same. Qed.

Lemma common_shape_same2 s : common_shape [s; s] = Some s.
Proof. cbn. now rewrite broadcast_shapes_nil_r, !broadcast_shapes_same. Qed.

Lemma np_map_is {A B} (g : A -> B) a s f :
  arr_is a s f -> arr_is (np_map g a) s (fun idx => g (f idx)).
Proof. intros [Hs Hf]. split; [exact Hs |]. intros idx Hi. cbn. now rewrite Hf. Qed.

Lemma broadcast_to_is {A} (a : ndarray A) s f :
  arr_is a s f -> arr_is (broadcast_to a s) s f.
Proof.
  intros [Hs Hf]. split; [reflexivity |]. intros idx Hi. cbn.
  rewrite Hs, bindex_id by exact Hi. now apply Hf.
Qed.

Lemma np_binop_is {A B C} (op : A -> B -> C) a b s f g :
  arr_is a s f -> arr_is b s g ->
  exists c, np_binop op a b = Ok c /\ arr_is c s (fun idx => op (f idx) (g idx)).
Proof.
  intros [Ha Hf] [Hb Hg]. unfold np_binop. rewrite Ha, Hb, broadcast_shapes_same.
  eexists. split; [reflexivity |]. split; [reflexivity |].
  intros idx Hi. cbn. rewrite bindex_id by exact Hi. now rewrite Hf, Hg.
Qed.

Lemma arr_is_ext {A} (a : ndarray A) s f g :
  arr_is a s f -> (forall idx, In idx (indices s) -> f idx = g idx) -> arr_is a s g.
Proof. intros [Hs Hf] Hfg. split; [exact Hs |]. intros idx Hi. rewrite Hf by exact Hi. now apply Hfg. Qed.

Lemma arr_is_self {A} (a : ndarray A) : arr_is a (shape a) (item a).
Proof. now split. Qed.

Lemma np_allb_is p a s f :
  arr_is a s f -> (forall idx, In idx (indices s) -> p (f idx) = true) ->
  np_allb p a = true.
Proof.
  intros [Hs Hf] Hp. unfold np_allb, flat. rewrite Hs.
  apply forallb_forall. intros v (idx & <- & Hi)%in_map_iff.
  rewrite Hf by exact Hi. now apply Hp.
Qed.

(** ** Real arithmetic of the conversions *)

Section real_lemmas.
Local Open Scope R_scope.

Lemma cos_pos_interval a : - PI < a <= PI -> 0 < cos a -> - (PI / 2) < a < PI / 2.
Proof.
  intros [Hlo Hhi] Hc. pose proof PI_RGT_0 as Hpi. split.
  - destruct (Rlt_dec (- (PI / 2)) a) as [| Hn]; [assumption |]. exfalso.
    assert (cos (- a) <= 0) by (apply cos_le_0; lra).
    rewrite cos_neg in *. lra.
  - destruct (Rlt_dec a (PI / 2)) as [| Hn]; [assumption |]. exfalso.
    assert (cos a <= 0) by (apply cos_le_0; lra). lra.
Qed.

Lemma tan_shift_PI a : cos a <> 0 -> tan (a + PI) = tan a.
Proof.
  intros Hc. unfold tan. rewrite neg_sin, neg_cos. field. exact Hc.
Qed.

(** The angle of the point [(c cos a, c sin a)], for a positive radius and
    an angle of the principal range. *)
Lemma arctan2_polar c a :
  0 < c -> - PI < a <= PI -> arctan2 (c * sin a) (c * cos a) = a.
Proof.
  intros Hc [Hlo Hhi]. pose proof PI_RGT_0 as Hpi. unfold arctan2.
  assert (Hq : cos a <> 0 -> c * sin a / (c * cos a) = tan a).
  { intros H. unfold tan. field. split; lra. }
  destruct (decide (0 < c * cos a)) as [Hx | Hx].
  - assert (0 < cos a) by nra.
    rewrite Hq by lra. apply atan_tan. now apply cos_pos_interval.
  - destruct (decide (c * cos a < 0)) as [Hx' | Hx'].
    + assert (Hcos : cos a < 0) by nra.
      rewrite Hq by lra.
      destruct (decide (0 <= c * sin a)) as [Hy | Hy].
      * assert (Hsin : 0 <= sin a) by nra.
        assert (PI / 2 < a).
        { destruct (Rlt_dec (PI / 2) a) as [| Hn]; [assumption |]. exfalso.
          destruct (Rlt_dec a 0).
          - pose proof (sin_lt_0_var a). lra.
          - pose proof (cos_ge_0 a). lra. }
        replace (tan a) with (tan (a - PI)).
        2:{ rewrite <- (tan_shift_PI (a - PI)).
            - f_equal. lra.
            - replace (a - PI) with (- (PI - a)) by lra. rewrite cos_neg.
              replace (PI - a) with (- a + PI) by lra. rewrite neg_cos, cos_neg. lra. }
        rewrite atan_tan by lra. lra.
      * assert (Hsin : sin a < 0) by nra.
        assert (a < - (PI / 2)).
        { destruct (Rlt_dec a (- (PI / 2))) as [| Hn]; [assumption |]. exfalso.
          destruct (Rlt_dec a 0).
          - pose proof (cos_ge_0 a). lra.
          - pose proof (sin_ge_0 a). lra. }
        rewrite <- (tan_shift_PI a) by lra.
        rewrite atan_tan by lra. lra.
    + assert (Hcos : cos a = 0) by nra.
      assert (Ha : a = PI / 2 \/ a = - (PI / 2)).
      { destruct (Rle_dec 0 a).
        - destruct (cos_eq_0_2PI_0 a) as [| Hbad]; [lra | lra | exact Hcos | now left | lra].
        - destruct (cos_eq_0_2PI_0 (- a)) as [| Hbad];
            [lra | lra | now rewrite cos_neg | right; lra | lra]. }
      destruct Ha as [-> | ->].
      * rewrite sin_PI2. rewrite decide_True by lra. reflexivity.
      * rewrite sin_neg, sin_PI2. rewrite decide_False by lra.
        rewrite decide_True by lra. reflexivity.
Qed.

Lemma arctan2_polar_wrapped c a :
  0 < c -> PI < a < 2 * PI -> arctan2 (c * sin a) (c * cos a) = a - 2 * PI.
Proof.
  intros Hc Ha.
  replace (sin a) with (sin (a - 2 * PI)).
  2:{ replace a with ((a - 2 * PI) + PI + PI) at 2 by lra. rewrite !neg_sin. lra. }
  replace (cos a) with (cos (a - 2 * PI)).
  2:{ replace a with ((a - 2 * PI) + PI + PI) at 2 by lra. rewrite !neg_cos. lra. }
  apply arctan2_polar; lra.
Qed.

Lemma sqrt_polar c a : 0 <= c -> sqrt (c * cos a * (c * cos a) + c * sin a * (c * sin a)) = c.
Proof.
  intros Hc.
  replace (c * cos a * (c * cos a) + c * sin a * (c * sin a))
    with (c * c * (Rsqr (sin a) + Rsqr (cos a))) by (unfold Rsqr; ring).
  rewrite sin2_cos2, Rmult_1_r. now apply sqrt_square.
Qed.

(** A longitude already in [0, 360) degrees is stored as it is; one in
    [-360, 0) degrees is stored one turn up. *)
Lemma wrap_longitude_id u v :
  0 < u_scale u -> 0 <= v * u_scale u < 2 * PI -> wrap_longitude u v = v.
Proof.
  intros Hs [Hlo Hhi]. pose proof PI_RGT_0 as Hpi. unfold wrap_longitude.
  assert (Hq : v / (2 * PI / u_scale u) = v * u_scale u / (2 * PI)) by (field; lra).
  rewrite <- (Int_part_spec (v / (2 * PI / u_scale u)) 0).
  - lra.
  - rewrite Hq. split.
    + apply Rlt_le_trans with (1 - 1); [| lra]. apply Rplus_lt_compat_r.
      apply Rmult_lt_reg_r with (2 * PI); [lra |]. field_simplify; lra.
    + apply Rmult_le_reg_r with (2 * PI); [lra |]. field_simplify; lra.
Qed.

Lemma wrap_longitude_up u v :
  0 < u_scale u -> - (2 * PI) <= v * u_scale u < 0 ->
  wrap_longitude u v = v + 2 * PI / u_scale u.
Proof.
  intros Hs [Hlo Hhi]. pose proof PI_RGT_0 as Hpi. unfold wrap_longitude.
  assert (Hq : v / (2 * PI / u_scale u) = v * u_scale u / (2 * PI)) by (field; lra).
  rewrite <- (Int_part_spec (v / (2 * PI / u_scale u)) (-1)).
  - lra.
  - rewrite Hq. split.
    + apply Rmult_lt_reg_r with (2 * PI); [lra |]. field_simplify; lra.
    + apply Rmult_le_reg_r with (2 * PI); [lra |]. field_simplify; lra.
Qed.

End real_lemmas.

(** ** Quantities index by index *)

Lemma q_is_self q : q_is q (q_unit q) (q_shape q) (item (q_value q)).
Proof. split; [reflexivity | apply arr_is_self]. Qed.

Lemma q_is_ext q u s f g :
  q_is q u s f -> (forall idx, In idx (indices s) -> f idx = g idx) -> q_is q u s g.
Proof. intros [Hu Hf] Hfg. split; [exact Hu | now apply (arr_is_ext _ _ f)]. Qed.

Lemma q_is_shape q u s f : q_is q u s f -> q_shape q = s.
Proof. now intros [_ [Hs _]]. Qed.

Lemma q_view_Quantity_is q u s f : q_is q u s f -> q_is (q_view_Quantity q) u s f.
Proof. now intros [Hu Hf]. Qed.

Lemma distance_as_quantity_is q u s f :
  q_is q u s f -> q_is (distance_as_quantity q) u s f.
Proof. unfold distance_as_quantity. case_decide; [apply q_view_Quantity_is | auto]. Qed.

Lemma q_mul_is a b ua ub s f g :
  q_is a ua s f -> q_is b ub s g ->
  exists c, q_mul a b = Ok c /\ q_is c (unit_mul ua ub) s (fun idx => f idx * g idx)%R.
Proof.
  intros [Hua Hf] [Hub Hg]. unfold q_mul.
  destruct (np_binop_is Rmult _ _ _ _ _ Hf Hg) as (v & -> & Hv). cbn.
  eexists. split; [reflexivity |]. split; [cbn; now rewrite Hua, Hub | exact Hv].
Qed.

Lemma unit_times_q_is u q uq s f :
  q_is q uq s f -> q_is (unit_times_q u q) (unit_mul u uq) s f.
Proof. intros [Hu Hf]. split; [cbn; now rewrite Hu | exact Hf]. Qed.

Lemma q_to_is a ua u s f :
  q_is a ua s f -> u_dim ua = u_dim u ->
  exists c, q_to a u = Ok c /\ q_class c = q_class a
            /\ q_is c u s (fun idx => f idx * (u_scale ua / u_scale u))%R.
Proof.
  intros [Hua Hf] Hd. unfold q_to. rewrite Hua, decide_True by exact Hd.
  eexists. split; [reflexivity |]. split; [reflexivity |].
  split; [reflexivity |]. cbn. now apply (np_map_is (fun v => v * _)%R).
Qed.

Lemma q_add_is a b ua ub s f g :
  q_is a ua s f -> q_is b ub s g -> u_dim ub = u_dim ua ->
  exists c, q_add a b = Ok c
            /\ q_is c ua s (fun idx => f idx + g idx * (u_scale ub / u_scale ua))%R.
Proof.
  intros [<- Hf] Hb Hd. unfold q_add.
  destruct (q_to_is _ _ (q_unit a) _ _ Hb Hd) as (b' & -> & _ & [_ Hb']). cbn.
  destruct (np_binop_is Rplus _ _ _ _ _ Hf Hb') as (v & -> & Hv). cbn.
  eexists. split; [reflexivity |]. split; [reflexivity | exact Hv].
Qed.

Lemma q_sub_is a b ua ub s f g :
  q_is a ua s f -> q_is b ub s g -> u_dim ub = u_dim ua ->
  exists c, q_sub a b = Ok c
            /\ (q_class c = Angle \/ q_class c = Quantity)
            /\ q_is c ua s (fun idx => f idx - g idx * (u_scale ub / u_scale ua))%R.
Proof.
  intros [<- Hf] Hb Hd. unfold q_sub.
  destruct (q_to_is _ _ (q_unit a) _ _ Hb Hd) as (b' & -> & _ & [_ Hb']). cbn.
  destruct (np_binop_is Rminus _ _ _ _ _ Hf Hb') as (v & -> & Hv). cbn.
  eexists. split; [reflexivity |].
  split; [cbn; case_decide; auto |]. split; [reflexivity | exact Hv].
Qed.

Lemma q_sqr_is a ua s f :
  q_is a ua s f -> q_is (q_sqr a) (unit_sqr ua) s (fun idx => f idx * f idx)%R.
Proof.
  intros [Hua Hf]. split; [cbn; now rewrite Hua |].
  now apply (np_map_is (fun v => v * v)%R).
Qed.

Lemma q_sqrt_is a ua s f :
  q_is a ua s f -> q_is (q_sqrt a) (unit_sqrt ua) s (fun idx => sqrt (f idx)).
Proof.
  intros [Hua Hf]. split; [cbn; now rewrite Hua | now apply np_map_is].
Qed.

Lemma np_trig_is t a ua s f :
  q_is a ua s f -> u_dim ua = dim_angle ->
  exists c, np_trig t a = Ok c
            /\ q_is c dimensionless_unscaled s (fun idx => t (f idx * u_scale ua)%R).
Proof.
  intros [Hua Hf] Hd. unfold np_trig. rewrite Hua, decide_True by exact Hd.
  eexists. split; [reflexivity |]. split; [reflexivity |].
  now apply (np_map_is (fun v => t (v * _)%R)).
Qed.

Lemma np_arctan2_is y x uy ux s f g :
  q_is y uy s f -> q_is x ux s g -> u_dim ux = u_dim uy ->
  exists c, np_arctan2 y x = Ok c /\ q_class c = Quantity
            /\ q_is c u_radian s
                 (fun idx => arctan2 (f idx) (g idx * (u_scale ux / u_scale uy))%R).
Proof.
  intros [<- Hf] Hx Hd. unfold np_arctan2.
  destruct (q_to_is _ _ (q_unit y) _ _ Hx Hd) as (x' & -> & _ & [_ Hx']). cbn.
  destruct (np_binop_is arctan2 _ _ _ _ _ Hf Hx') as (v & -> & Hv). cbn.
  eexists. split; [reflexivity |]. split; [reflexivity |].
  split; [reflexivity | exact Hv].
Qed.

Lemma physical_type_length u : physical_type u = "length"%string -> u_dim u = dim_length.
Proof.
  unfold physical_type. intros Hlen.
  repeat case_decide; try discriminate Hlen; assumption.
Qed.

Lemma broadcast3_ok a b c s copy a' b' c' :
  q_shape a = s -> q_shape b = s -> q_shape c = s ->
  q_new (q_class a) (broadcast_to (q_value a) s) (q_unit a) = Ok a' ->
  q_new (q_class b) (broadcast_to (q_value b) s) (q_unit b) = Ok b' ->
  q_new (q_class c) (broadcast_to (q_value c) s) (q_unit c) = Ok c' ->
  except_ValueError (l <~ broadcast_quantity [a; b; c] copy; as3 l) = Ok (a', b', c').
Proof.
  intros Ha Hb Hc Ha' Hb' Hc'. unfold broadcast_quantity, np_broadcast_arrays.
  cbn [map]. fold (q_shape a) (q_shape b) (q_shape c).
  rewrite Ha, Hb, Hc, common_shape_same3. cbn. now rewrite Ha', Hb', Hc'.
Qed.

Lemma broadcast2_ok a b s copy a' b' :
  q_shape a = s -> q_shape b = s ->
  q_new (q_class a) (broadcast_to (q_value a) s) (q_unit a) = Ok a' ->
  q_new (q_class b) (broadcast_to (q_value b) s) (q_unit b) = Ok b' ->
  except_ValueError (l <~ broadcast_quantity [a; b] copy; as2 l) = Ok (a', b').
Proof.
  intros Ha Hb Ha' Hb'. unfold broadcast_quantity, np_broadcast_arrays.
  cbn [map]. fold (q_shape a) (q_shape b).
  rewrite Ha, Hb, common_shape_same2. cbn. now rewrite Ha', Hb'.
Qed.

(** ** Arguments the constructors accept *)

Lemma accepted_Quantity q u s f copy :
  q_is q u s f -> accepted (Quantity_new (PyQ q) None copy) u s f.
Proof.
  intros [Hu Hf]. exists (q_view_Quantity q). split; [reflexivity |].
  split; [apply Hf |]. eexists. split; [reflexivity |]. split; [reflexivity |].
  split; [exact Hu | now apply broadcast_to_is].
Qed.

Lemma accepted_Angle q u s f copy :
  q_is q u s f -> u_dim u = dim_angle -> accepted (Angle_new (PyQ q) copy) u s f.
Proof.
  intros [Hu Hf] Hd. unfold accepted, Angle_new, q_new.
  rewrite Hu, decide_True by exact Hd.
  eexists. split; [reflexivity |]. split; [apply Hf |]. cbn.
  rewrite decide_True by exact Hd.
  eexists. split; [reflexivity |]. split; [reflexivity |].
  split; [reflexivity | now apply broadcast_to_is].
Qed.

Lemma accepted_Longitude q u s f copy :
  q_is q u s f -> u_dim u = dim_angle -> q_class q <> Latitude ->
  accepted (Longitude_new (PyQ q) copy) u s
    (fun idx => wrap_longitude u (wrap_longitude u (f idx))).
Proof.
  intros [Hu Hf] Hd Hc. unfold accepted, Longitude_new, q_new.
  rewrite decide_False by exact Hc. rewrite Hu, decide_True by exact Hd.
  eexists. split; [reflexivity |]. split; [apply Hf |]. cbn.
  rewrite decide_True by exact Hd.
  eexists. split; [reflexivity |]. split; [reflexivity |].
  split; [reflexivity |]. cbn.
  apply (np_map_is (wrap_longitude u)), broadcast_to_is.
  now apply (np_map_is (wrap_longitude u)).
Qed.

Lemma accepted_Latitude q u s f copy :
  q_is q u s f -> u_dim u = dim_angle -> q_class q <> Longitude ->
  (forall idx, In idx (indices s) -> latitude_ok u (f idx) = true) ->
  accepted (Latitude_new (PyQ q) copy) u s f.
Proof.
  intros [Hu Hf] Hd Hc Hok. unfold accepted, Latitude_new, q_new.
  rewrite decide_False by exact Hc. rewrite Hu, decide_True by exact Hd.
  rewrite (np_allb_is _ _ s f) by assumption.
  eexists. split; [reflexivity |]. split; [apply Hf |]. cbn [q_class q_unit q_value].
  rewrite decide_True by exact Hd.
  rewrite (np_allb_is _ _ s f) by (try apply broadcast_to_is; assumption).
  eexists. split; [reflexivity |]. split; [reflexivity |].
  split; [reflexivity | now apply broadcast_to_is].
Qed.

Lemma accepted_distance q u s f copy :
  q_is q u s f ->
  (physical_type u = "length"%string -> forall idx, In idx (indices s) -> (0 <= f idx)%R) ->
  accepted (if is_length_quantity (PyQ q) then Distance_new (PyQ q) copy
            else Quantity_new (PyQ q) None copy) u s f.
Proof.
  intros [Hu Hf] Hpos. cbn [is_length_quantity]. rewrite Hu.
  case_bool_decide as Hlen.
  - pose proof (physical_type_length _ Hlen) as Hd.
    assert (Hall : forall idx, In idx (indices s) ->
                     bool_decide (0 <= f idx)%R = true)
      by (intros; apply bool_decide_eq_true; auto).
    unfold accepted, Distance_new, q_new. rewrite Hu, decide_True by exact Hd.
    rewrite (np_allb_is _ _ s f) by assumption.
    eexists. split; [reflexivity |]. split; [apply Hf |]. cbn [q_class q_unit q_value].
    rewrite decide_True by exact Hd.
    rewrite (np_allb_is _ _ s f) by (try apply broadcast_to_is; assumption).
    eexists. split; [reflexivity |]. split; [reflexivity |].
    split; [reflexivity | now apply broadcast_to_is].
  - now apply accepted_Quantity.
Qed.

Lemma accepted_broadcast3 ca cb cc ua ub uc s fa fb fc qa qb qc' copy :
  accepted ca ua s fa -> accepted cb ub s fb -> accepted cc uc s fc ->
  ca = Ok qa -> cb = Ok qb -> cc = Ok qc' ->
  exists a' b' c',
    except_ValueError (l <~ broadcast_quantity [qa; qb; qc'] copy; as3 l) = Ok (a', b', c')
    /\ (q_class a' = q_class qa /\ q_is a' ua s fa)
    /\ (q_class b' = q_class qb /\ q_is b' ub s fb)
    /\ (q_class c' = q_class qc' /\ q_is c' uc s fc).
Proof.
  intros (a1 & Ha1 & Hsa & a' & Ha' & Hca & Hia) (b1 & Hb1 & Hsb & b' & Hb' & Hcb & Hib)
    (c1 & Hc1 & Hsc & c' & Hc' & Hcc & Hic) Ea Eb Ec.
  subst. simplify_eq. exists a', b', c'.
  split; [now apply (broadcast3_ok _ _ _ (q_shape qa)) | auto].
Qed.

Lemma accepted_broadcast2 ca cb ua ub s fa fb qa qb copy :
  accepted ca ua s fa -> accepted cb ub s fb ->
  ca = Ok qa -> cb = Ok qb ->
  exists a' b',
    except_ValueError (l <~ broadcast_quantity [qa; qb] copy; as2 l) = Ok (a', b')
    /\ (q_class a' = q_class qa /\ q_is a' ua s fa)
    /\ (q_class b' = q_class qb /\ q_is b' ub s fb).
Proof.
  intros (a1 & Ha1 & Hsa & a' & Ha' & Hca & Hia) (b1 & Hb1 & Hsb & b' & Hb' & Hcb & Hib)
    Ea Eb.
  subst. simplify_eq. exists a', b'.
  split; [now apply (broadcast2_ok _ _ (q_shape qa)) | auto].
Qed.

(** ** Successful construction *)

Lemma accepted_unit conv u s f q1 :
  accepted conv u s f -> conv = Ok q1 -> q_unit q1 = u.
Proof.
  intros (q & Hq & _ & q' & Hq' & _ & [Hu _]) E. rewrite Hq in E. simplify_eq.
  apply q_new_ok in Hq' as (_ & Hu' & _). now rewrite <- Hu'.
Qed.

Lemma accepted_ok conv u s f : accepted conv u s f -> exists q1, conv = Ok q1.
Proof. intros (q & Hq & _). eauto. Qed.

Lemma CartesianRepresentation_init_ok x y z copy (h : heap) ux uy uz s fx fy fz :
  q_is x ux s fx -> q_is y uy s fy -> q_is z uz s fz ->
  physical_type ux = physical_type uy -> physical_type uy = physical_type uz ->
  exists x' y' z',
    CartesianRepresentation_init (PyQ x) (PyQ y) (PyQ z) None copy h
    = (Ok (fresh (dom h)), <[fresh (dom h) := Cartesian x' y' z']> h)
    /\ q_is x' ux s fx /\ q_is y' uy s fy /\ q_is z' uz s fz.
Proof.
  intros Hx Hy Hz Hxy Hyz.
  pose proof (accepted_Quantity _ _ _ _ copy Hx) as Ax.
  pose proof (accepted_Quantity _ _ _ _ copy Hy) as Ay.
  pose proof (accepted_Quantity _ _ _ _ copy Hz) as Az.
  destruct (accepted_ok _ _ _ _ Ax) as (qx & Ex).
  destruct (accepted_ok _ _ _ _ Ay) as (qy & Ey).
  destruct (accepted_ok _ _ _ _ Az) as (qz & Ez).
  destruct (accepted_broadcast3 _ _ _ _ _ _ _ _ _ _ _ _ _ copy Ax Ay Az Ex Ey Ez)
    as (x' & y' & z' & Hb & [_ Hx'] & [_ Hy'] & [_ Hz']).
  exists x', y', z'. split; [| auto].
  unfold CartesianRepresentation_init. cbn [is_None andb orb negb].
  unfold bind at 1, ret at 1.
  rewrite !bind_lift, Ex, !bind_lift, Ey, !bind_lift, Ez.
  rewrite (accepted_unit _ _ _ _ _ Ax Ex), (accepted_unit _ _ _ _ _ Ay Ey),
    (accepted_unit _ _ _ _ _ Az Ez).
  rewrite !bool_decide_eq_true_2 by assumption. cbn [andb negb].
  rewrite bind_lift, Hb. reflexivity.
Qed.

Lemma SphericalRepresentation_init_ok lon lat distance copy (h : heap)
    ulon ulat ud s flon flat fd :
  accepted (Longitude_new lon copy) ulon s flon ->
  accepted (Latitude_new lat copy) ulat s flat ->
  accepted (if is_length_quantity distance then Distance_new distance copy
            else Quantity_new distance None copy) ud s fd ->
  exists lon' lat' d',
    SphericalRepresentation_init lon lat distance copy h
    = (Ok (fresh (dom h)), <[fresh (dom h) := Spherical lon' lat' d']> h)
    /\ q_is lon' ulon s flon /\ q_is lat' ulat s flat /\ q_is d' ud s fd.
Proof.
  intros Ax Ay Az.
  destruct (accepted_ok _ _ _ _ Ax) as (qx & Ex).
  destruct (accepted_ok _ _ _ _ Ay) as (qy & Ey).
  destruct (accepted_ok _ _ _ _ Az) as (qz & Ez).
  destruct (accepted_broadcast3 _ _ _ _ _ _ _ _ _ _ _ _ _ copy Ax Ay Az Ex Ey Ez)
    as (x' & y' & z' & Hb & [_ Hx'] & [_ Hy'] & [_ Hz']).
  exists x', y', z'. split; [| auto].
  unfold SphericalRepresentation_init.
  rewrite !bind_lift, Ex, !bind_lift, Ey, !bind_lift, Ez.
  rewrite bind_lift, Hb. reflexivity.
Qed.

Lemma UnitSphericalRepresentation_init_ok lon lat copy (h : heap) ulon ulat s flon flat :
  accepted (Longitude_new lon copy) ulon s flon ->
  accepted (Latitude_new lat copy) ulat s flat ->
  exists lon' lat',
    UnitSphericalRepresentation_init lon lat copy h
    = (Ok (fresh (dom h)), <[fresh (dom h) := UnitSpherical lon' lat']> h)
    /\ q_is lon' ulon s flon /\ q_is lat' ulat s flat.
Proof.
  intros Ax Ay.
  destruct (accepted_ok _ _ _ _ Ax) as (qx & Ex).
  destruct (accepted_ok _ _ _ _ Ay) as (qy & Ey).
  destruct (accepted_broadcast2 _ _ _ _ _ _ _ _ _ copy Ax Ay Ex Ey)
    as (x' & y' & Hb & [_ Hx'] & [_ Hy']).
  exists x', y'. split; [| auto].
  unfold UnitSphericalRepresentation_init.
  rewrite !bind_lift, Ex, !bind_lift, Ey.
  rewrite bind_lift, Hb. reflexivity.
Qed.

Lemma PhysicsSphericalRepresentation_init_ok phi theta distance copy (h : heap)
    uphi utheta ud s fphi ftheta fd :
  accepted (Angle_new phi copy) uphi s fphi ->
  accepted (Angle_new theta copy) utheta s ftheta ->
  accepted (if is_length_quantity distance then Distance_new distance copy
            else Quantity_new distance None copy) ud s fd ->
  exists phi' theta' d',
    PhysicsSphericalRepresentation_init phi theta distance copy h
    = (Ok (fresh (dom h)), <[fresh (dom h) := PhysicsSpherical phi' theta' d']> h)
    /\ q_is phi' uphi s fphi /\ q_is theta' utheta s ftheta /\ q_is d' ud s fd.
Proof.
  intros Ax Ay Az.
  destruct (accepted_ok _ _ _ _ Ax) as (qx & Ex).
  destruct (accepted_ok _ _ _ _ Ay) as (qy & Ey).
  destruct (accepted_ok _ _ _ _ Az) as (qz & Ez).
  destruct (accepted_broadcast3 _ _ _ _ _ _ _ _ _ _ _ _ _ copy Ax Ay Az Ex Ey Ez)
    as (x' & y' & z' & Hb & [_ Hx'] & [_ Hy'] & [_ Hz']).
  exists x', y', z'. split; [| auto].
  unfold PhysicsSphericalRepresentation_init.
  rewrite !bind_lift, Ex, !bind_lift, Ey, !bind_lift, Ez.
  rewrite bind_lift, Hb. reflexivity.
Qed.

Lemma CylindricalRepresentation_init_ok rho phi z copy (h : heap)
    urho uphi uz s frho fphi fz :
  accepted (Quantity_new rho None copy) urho s frho ->
  accepted (Angle_new phi copy) uphi s fphi ->
  accepted (Quantity_new z None copy) uz s fz ->
  physical_type urho = physical_type uz ->
  exists rho' phi' z',
    CylindricalRepresentation_init rho phi z copy h
    = (Ok (fresh (dom h)), <[fresh (dom h) := Cylindrical rho' phi' z']> h)
    /\ q_is rho' urho s frho /\ q_is phi' uphi s fphi /\ q_is z' uz s fz.
Proof.
  intros Ax Ay Az Hpt.
  destruct (accepted_ok _ _ _ _ Ax) as (qx & Ex).
  destruct (accepted_ok _ _ _ _ Ay) as (qy & Ey).
  destruct (accepted_ok _ _ _ _ Az) as (qz & Ez).
  destruct (accepted_broadcast3 _ _ _ _ _ _ _ _ _ _ _ _ _ copy Ax Ay Az Ex Ey Ez)
    as (x' & y' & z' & Hb & [_ Hx'] & [_ Hy'] & [_ Hz']).
  exists x', y', z'. split; [| auto].
  unfold CylindricalRepresentation_init.
  rewrite !bind_lift, Ex, !bind_lift, Ey, !bind_lift, Ez.
  rewrite (accepted_unit _ _ _ _ _ Ax Ex), (accepted_unit _ _ _ _ _ Az Ez).
  rewrite bool_decide_eq_true_2 by assumption. cbn [negb].
  rewrite bind_lift, Hb. reflexivity.
Qed.

(** ** Units through the conversions *)

Lemma dim_mul_zero_r d : dim_mul d dim_zero = d.
Proof.
  destruct d. unfold dim_mul, dim_zero, qc. cbn. f_equal; apply Qcplus_0_r.
Qed.

Lemma dim_mul_zero_l d : dim_mul dim_zero d = d.
Proof.
  destruct d. unfold dim_mul, dim_zero, qc. cbn. f_equal; apply Qcplus_0_l.
Qed.

Lemma dim_sqrt_sqr d : dim_pow (dim_pow d (qc 2)) (Q2Qc (1 # 2)) = d.
Proof.
  assert (H : forall e : Qc, (e * qc 2 * Q2Qc (1 # 2))%Qc = e).
  { intros e. rewrite <- Qcmult_assoc.
    replace (qc 2 * Q2Qc (1 # 2))%Qc with 1%Qc by (apply Qc_is_canon; reflexivity).
    apply Qcmult_1_r. }
  destruct d. unfold dim_pow. cbn. now rewrite !H.
Qed.

Lemma unit_mul_one_dim u : u_dim (unit_mul u dimensionless_unscaled) = u_dim u.
Proof. apply dim_mul_zero_r. Qed.

Lemma unit_sqrt_sqr_dim u : u_dim (unit_sqrt (unit_sqr u)) = u_dim u.
Proof. apply dim_sqrt_sqr. Qed.

Lemma unit_sqrt_sqr_scale u :
  (0 <= u_scale u)%R -> u_scale (unit_sqrt (unit_sqr u)) = u_scale u.
Proof. intros H. cbn. now apply sqrt_square. Qed.

Lemma unit_sqr_dim u v : u_dim u = u_dim v -> u_dim (unit_sqr u) = u_dim (unit_sqr v).
Proof. cbn. now intros ->. Qed.

(** ** The range of [arctan2] *)

Lemma arctan2_nonneg_x y x :
  (0 <= x)%R -> (- (PI / 2) <= arctan2 y x <= PI / 2)%R.
Proof.
  intros Hx. pose proof PI_RGT_0 as Hpi. unfold arctan2.
  repeat case_decide; try lra.
  pose proof (atan_bound (y / x)). lra.
Qed.

Lemma latitude_ok_arctan2 y x :
  (0 <= x)%R -> latitude_ok u_radian (arctan2 y x) = true.
Proof.
  intros Hx. pose proof (arctan2_nonneg_x y x Hx).
  unfold latitude_ok. cbn.
  rewrite !bool_decide_eq_true_2 by lra. reflexivity.
Qed.

(** ** The radii of [from_cartesian] *)

Lemma radii_is x y z ux uy uz s fx fy fz :
  q_is x ux s fx -> q_is y uy s fy -> q_is z uz s fz ->
  u_dim uy = u_dim ux -> u_dim uz = u_dim ux ->
  exists r s',
    radii x y z = Ok (r, s')
    /\ q_is r (unit_sqrt (unit_sqr ux)) s
         (fun idx => sqrt (fx idx * fx idx
                           + fy idx * fy idx * (u_scale (unit_sqr uy) / u_scale (unit_sqr ux))
                           + fz idx * fz idx * (u_scale (unit_sqr uz) / u_scale (unit_sqr ux))))%R
    /\ q_is s' (unit_sqrt (unit_sqr ux)) s
         (fun idx => sqrt (fx idx * fx idx
                           + fy idx * fy idx * (u_scale (unit_sqr uy) / u_scale (unit_sqr ux))))%R.
Proof.
  intros Hx Hy Hz Hdy Hdz. unfold radii.
  destruct (q_add_is _ _ _ _ _ _ _ (q_sqr_is _ _ _ _ Hx) (q_sqr_is _ _ _ _ Hy)
              (unit_sqr_dim _ _ Hdy)) as (xy & -> & Hxy).
  cbn [rbind].
  destruct (q_add_is _ _ _ _ _ _ _ Hxy (q_sqr_is _ _ _ _ Hz) (unit_sqr_dim _ _ Hdz))
    as (xyz & -> & Hxyz).
  cbn [rbind].
  eexists _, _. split; [reflexivity |].
  split; [exact (q_sqrt_is _ _ _ _ Hxyz) | exact (q_sqrt_is _ _ _ _ Hxy)].
Qed.

(** ** The conversions to Cartesian, index by index *)

Lemma lookup_fresh_insert (h : heap) o :
  <[fresh (dom h) := o]> h !! fresh (dom h) = Some o.
Proof. apply lookup_insert_eq. Qed.

(** Run a method body whose steps are known to succeed: enter the binds
    and replace each step by its result. *)
Ltac run :=
  repeat (first [ rewrite bind_lift
                | match goal with E : _ = Ok _ |- _ => rewrite E end ];
          cbn [rbind]; cbn beta iota).

Lemma SphericalRepresentation_to_cartesian_ok (h : heap) self lon lat d
    ulon ulat ud s flon flat fd :
  h !! self = Some (Spherical lon lat d) ->
  q_is lon ulon s flon -> q_is lat ulat s flat -> q_is d ud s fd ->
  u_dim ulon = dim_angle -> u_dim ulat = dim_angle ->
  exists x y z,
    SphericalRepresentation_to_cartesian self h
    = (Ok (fresh (dom h)), <[fresh (dom h) := Cartesian x y z]> h)
    /\ q_is x (unit_mul (unit_mul ud dimensionless_unscaled) dimensionless_unscaled) s
         (fun idx => fd idx * cos (flat idx * u_scale ulat) * cos (flon idx * u_scale ulon))%R
    /\ q_is y (unit_mul (unit_mul ud dimensionless_unscaled) dimensionless_unscaled) s
         (fun idx => fd idx * cos (flat idx * u_scale ulat) * sin (flon idx * u_scale ulon))%R
    /\ q_is z (unit_mul ud dimensionless_unscaled) s
         (fun idx => fd idx * sin (flat idx * u_scale ulat))%R.
Proof.
  intros Hself Hlon Hlat Hd Halon Halat.
  unfold SphericalRepresentation_to_cartesian.
  rewrite (bind_ok _ _ _ _ _ (get_object_some _ _ _ Hself)).
  pose proof (distance_as_quantity_is _ _ _ _ Hd) as Hd'.
  destruct (np_trig_is cos _ _ _ _ Hlat Halat) as (clat & Eclat & Hclat).
  destruct (np_trig_is sin _ _ _ _ Hlat Halat) as (slat & Eslat & Hslat).
  destruct (np_trig_is cos _ _ _ _ Hlon Halon) as (clon & Eclon & Hclon).
  destruct (np_trig_is sin _ _ _ _ Hlon Halon) as (slon & Eslon & Hslon).
  destruct (q_mul_is _ _ _ _ _ _ _ Hd' Hclat) as (dc & Edc & Hdc).
  destruct (q_mul_is _ _ _ _ _ _ _ Hdc Hclon) as (x & Ex & Hx).
  destruct (q_mul_is _ _ _ _ _ _ _ Hdc Hslon) as (y & Ey & Hy).
  destruct (q_mul_is _ _ _ _ _ _ _ Hd' Hslat) as (z & Ez & Hz).
  destruct (CartesianRepresentation_init_ok x y z true h _ _ _ _ _ _ _ Hx Hy Hz)
    as (x' & y' & z' & Einit & Hx' & Hy' & Hz').
  { reflexivity. }
  { apply physical_type_dim. now rewrite !unit_mul_one_dim. }
  exists x', y', z'. split; [| auto].
  unfold np_cos, np_sin. cbn beta iota zeta.
  run. exact Einit.
Qed.

Lemma UnitSphericalRepresentation_to_cartesian_ok (h : heap) self lon lat
    ulon ulat s flon flat :
  h !! self = Some (UnitSpherical lon lat) ->
  q_is lon ulon s flon -> q_is lat ulat s flat ->
  u_dim ulon = dim_angle -> u_dim ulat = dim_angle ->
  exists x y z,
    UnitSphericalRepresentation_to_cartesian self h
    = (Ok (fresh (dom h)), <[fresh (dom h) := Cartesian x y z]> h)
    /\ q_is x (unit_mul (unit_mul dimensionless_unscaled dimensionless_unscaled)
                        dimensionless_unscaled) s
         (fun idx => cos (flat idx * u_scale ulat) * cos (flon idx * u_scale ulon))%R
    /\ q_is y (unit_mul (unit_mul dimensionless_unscaled dimensionless_unscaled)
                        dimensionless_unscaled) s
         (fun idx => cos (flat idx * u_scale ulat) * sin (flon idx * u_scale ulon))%R
    /\ q_is z (unit_mul dimensionless_unscaled dimensionless_unscaled) s
         (fun idx => sin (flat idx * u_scale ulat)).
Proof.
  intros Hself Hlon Hlat Halon Halat.
  unfold UnitSphericalRepresentation_to_cartesian.
  rewrite (bind_ok _ _ _ _ _ (get_object_some _ _ _ Hself)).
  destruct (np_trig_is cos _ _ _ _ Hlat Halat) as (clat & Eclat & Hclat).
  destruct (np_trig_is sin _ _ _ _ Hlat Halat) as (slat & Eslat & Hslat).
  destruct (np_trig_is cos _ _ _ _ Hlon Halon) as (clon & Eclon & Hclon).
  destruct (np_trig_is sin _ _ _ _ Hlon Halon) as (slon & Eslon & Hslon).
  pose proof (unit_times_q_is dimensionless_unscaled _ _ _ _ Hclat) as Hoc.
  pose proof (unit_times_q_is dimensionless_unscaled _ _ _ _ Hslat) as Hz.
  destruct (q_mul_is _ _ _ _ _ _ _ Hoc Hclon) as (x & Ex & Hx).
  destruct (q_mul_is _ _ _ _ _ _ _ Hoc Hslon) as (y & Ey & Hy).
  destruct (CartesianRepresentation_init_ok x y _ true h _ _ _ _ _ _ _ Hx Hy Hz)
    as (x' & y' & z' & Einit & Hx' & Hy' & Hz').
  { reflexivity. }
  { reflexivity. }
  exists x', y', z'. split; [| auto].
  unfold np_cos, np_sin. cbn beta iota zeta.
  run. exact Einit.
Qed.

Lemma PhysicsSphericalRepresentation_to_cartesian_ok (h : heap) self phi theta d
    uphi utheta ud s fphi ftheta fd :
  h !! self = Some (PhysicsSpherical phi theta d) ->
  q_is phi uphi s fphi -> q_is theta utheta s ftheta -> q_is d ud s fd ->
  u_dim uphi = dim_angle -> u_dim utheta = dim_angle ->
  exists x y z,
    PhysicsSphericalRepresentation_to_cartesian self h
    = (Ok (fresh (dom h)), <[fresh (dom h) := Cartesian x y z]> h)
    /\ q_is x (unit_mul (unit_mul ud dimensionless_unscaled) dimensionless_unscaled) s
         (fun idx => fd idx * sin (ftheta idx * u_scale utheta)
                     * cos (fphi idx * u_scale uphi))%R
    /\ q_is y (unit_mul (unit_mul ud dimensionless_unscaled) dimensionless_unscaled) s
         (fun idx => fd idx * sin (ftheta idx * u_scale utheta)
                     * sin (fphi idx * u_scale uphi))%R
    /\ q_is z (unit_mul ud dimensionless_unscaled) s
         (fun idx => fd idx * cos (ftheta idx * u_scale utheta))%R.
Proof.
  intros Hself Hphi Htheta Hd Haphi Hatheta.
  unfold PhysicsSphericalRepresentation_to_cartesian.
  rewrite (bind_ok _ _ _ _ _ (get_object_some _ _ _ Hself)).
  pose proof (distance_as_quantity_is _ _ _ _ Hd) as Hd'.
  destruct (np_trig_is cos _ _ _ _ Htheta Hatheta) as (ct & Ect & Hct).
  destruct (np_trig_is sin _ _ _ _ Htheta Hatheta) as (st & Est & Hst).
  destruct (np_trig_is cos _ _ _ _ Hphi Haphi) as (cp & Ecp & Hcp).
  destruct (np_trig_is sin _ _ _ _ Hphi Haphi) as (sp & Esp & Hsp).
  destruct (q_mul_is _ _ _ _ _ _ _ Hd' Hst) as (ds & Eds & Hds).
  destruct (q_mul_is _ _ _ _ _ _ _ Hds Hcp) as (x & Ex & Hx).
  destruct (q_mul_is _ _ _ _ _ _ _ Hds Hsp) as (y & Ey & Hy).
  destruct (q_mul_is _ _ _ _ _ _ _ Hd' Hct) as (z & Ez & Hz).
  destruct (CartesianRepresentation_init_ok x y z true h _ _ _ _ _ _ _ Hx Hy Hz)
    as (x' & y' & z' & Einit & Hx' & Hy' & Hz').
  { reflexivity. }
  { apply physical_type_dim. now rewrite !unit_mul_one_dim. }
  exists x', y', z'. split; [| auto].
  unfold np_cos, np_sin. cbn beta iota zeta.
  run. exact Einit.
Qed.

Lemma CylindricalRepresentation_to_cartesian_ok (h : heap) self rho phi z
    urho uphi uz s frho fphi fz :
  h !! self = Some (Cylindrical rho phi z) ->
  q_is rho urho s frho -> q_is phi uphi s fphi -> q_is z uz s fz ->
  u_dim uphi = dim_angle -> physical_type urho = physical_type uz ->
  exists x y z',
    CylindricalRepresentation_to_cartesian self h
    = (Ok (fresh (dom h)), <[fresh (dom h) := Cartesian x y z']> h)
    /\ q_is x (unit_mul urho dimensionless_unscaled) s
         (fun idx => frho idx * cos (fphi idx * u_scale uphi))%R
    /\ q_is y (unit_mul urho dimensionless_unscaled) s
         (fun idx => frho idx * sin (fphi idx * u_scale uphi))%R
    /\ q_is z' uz s fz.
Proof.
  intros Hself Hrho Hphi Hz Haphi Hpt.
  unfold CylindricalRepresentation_to_cartesian.
  rewrite (bind_ok _ _ _ _ _ (get_object_some _ _ _ Hself)).
  destruct (np_trig_is cos _ _ _ _ Hphi Haphi) as (cp & Ecp & Hcp).
  destruct (np_trig_is sin _ _ _ _ Hphi Haphi) as (sp & Esp & Hsp).
  destruct (q_mul_is _ _ _ _ _ _ _ Hrho Hcp) as (x & Ex & Hx).
  destruct (q_mul_is _ _ _ _ _ _ _ Hrho Hsp) as (y & Ey & Hy).
  destruct (CartesianRepresentation_init_ok x y z true h _ _ _ _ _ _ _ Hx Hy Hz)
    as (x' & y' & z' & Einit & Hx' & Hy' & Hz').
  { reflexivity. }
  { rewrite <- Hpt. apply physical_type_dim, unit_mul_one_dim. }
  exists x', y', z'. split; [| auto].
  unfold np_cos, np_sin. cbn beta iota zeta.
  run. exact Einit.
Qed.

(** ** The conversions from Cartesian, index by index *)

Lemma cart_xyz_ok (h : heap) cart x y z :
  h !! cart = Some (Cartesian x y z) -> cart_xyz cart h = (Ok (x, y, z), h).
Proof.
  intros H. unfold cart_xyz. now rewrite (bind_ok _ _ _ _ _ (get_object_some _ _ _ H)).
Qed.

Lemma ratio_nonneg a b c : (0 <= a -> 0 <= b -> 0 < c -> 0 <= a * (b / c))%R.
Proof.
  intros Ha Hb Hc. apply Rmult_le_pos; [exact Ha |].
  apply Rmult_le_pos; [exact Hb |]. left. now apply Rinv_0_lt_compat.
Qed.

Lemma SphericalRepresentation_from_cartesian_ok (h : heap) cart x y z
    ux uy uz s fx fy fz :
  h !! cart = Some (Cartesian x y z) ->
  q_is x ux s fx -> q_is y uy s fy -> q_is z uz s fz ->
  u_dim uy = u_dim ux -> u_dim uz = u_dim ux -> (0 < u_scale uz)%R ->
  exists lon lat d,
    SphericalRepresentation_from_cartesian cart h
    = (Ok (fresh (dom h)), <[fresh (dom h) := Spherical lon lat d]> h)
    /\ q_is lon u_radian s
         (fun idx => wrap_longitude u_radian (wrap_longitude u_radian
                       (arctan2 (fy idx) (fx idx * (u_scale ux / u_scale uy)))))%R
    /\ q_is lat u_radian s
         (fun idx => arctan2 (fz idx)
                       (sqrt (fx idx * fx idx
                              + fy idx * fy idx
                                * (u_scale (unit_sqr uy) / u_scale (unit_sqr ux)))
                        * (u_scale (unit_sqrt (unit_sqr ux)) / u_scale uz)))%R
    /\ q_is d (unit_sqrt (unit_sqr ux)) s
         (fun idx => sqrt (fx idx * fx idx
                           + fy idx * fy idx * (u_scale (unit_sqr uy) / u_scale (unit_sqr ux))
                           + fz idx * fz idx * (u_scale (unit_sqr uz) / u_scale (unit_sqr ux))))%R.
Proof.
  intros Hcart Hx Hy Hz Hdy Hdz Hsz.
  destruct (radii_is _ _ _ _ _ _ _ _ _ _ Hx Hy Hz Hdy Hdz) as (r & s' & Er & Hr & Hs').
  destruct (np_arctan2_is _ _ _ _ _ _ _ Hy Hx (eq_sym Hdy)) as (lon & Elon & Clon & Hlon).
  assert (Hds : u_dim (unit_sqrt (unit_sqr ux)) = u_dim uz)
    by (now rewrite unit_sqrt_sqr_dim).
  destruct (np_arctan2_is _ _ _ _ _ _ _ Hz Hs' Hds) as (lat & Elat & Clat & Hlat).
  destruct (SphericalRepresentation_init_ok (PyQ lon) (PyQ lat) (PyQ r) true h
              _ _ _ _ _ _ _
              (accepted_Longitude _ _ _ _ true Hlon eq_refl ltac:(now rewrite Clon))
              (accepted_Latitude _ _ _ _ true Hlat eq_refl ltac:(now rewrite Clat)
                 ltac:(intros; apply latitude_ok_arctan2, ratio_nonneg;
                       [apply sqrt_pos | apply sqrt_pos | exact Hsz]))
              (accepted_distance _ _ _ _ true Hr ltac:(intros; apply sqrt_pos)))
    as (lon' & lat' & d' & Einit & Hlon' & Hlat' & Hd').
  exists lon', lat', d'. split; [| auto].
  unfold SphericalRepresentation_from_cartesian.
  rewrite (bind_ok _ _ _ _ _ (cart_xyz_ok _ _ _ _ _ Hcart)).
  run. exact Einit.
Qed.

Lemma PhysicsSphericalRepresentation_from_cartesian_ok (h : heap) cart x y z
    ux uy uz s fx fy fz :
  h !! cart = Some (Cartesian x y z) ->
  q_is x ux s fx -> q_is y uy s fy -> q_is z uz s fz ->
  u_dim uy = u_dim ux -> u_dim uz = u_dim ux ->
  exists phi theta d,
    PhysicsSphericalRepresentation_from_cartesian cart h
    = (Ok (fresh (dom h)), <[fresh (dom h) := PhysicsSpherical phi theta d]> h)
    /\ q_is phi u_radian s
         (fun idx => arctan2 (fy idx) (fx idx * (u_scale ux / u_scale uy)))%R
    /\ q_is theta u_radian s
         (fun idx => arctan2
                       (sqrt (fx idx * fx idx
                              + fy idx * fy idx
                                * (u_scale (unit_sqr uy) / u_scale (unit_sqr ux))))
                       (fz idx * (u_scale uz / u_scale (unit_sqrt (unit_sqr ux)))))%R
    /\ q_is d (unit_sqrt (unit_sqr ux)) s
         (fun idx => sqrt (fx idx * fx idx
                           + fy idx * fy idx * (u_scale (unit_sqr uy) / u_scale (unit_sqr ux))
                           + fz idx * fz idx * (u_scale (unit_sqr uz) / u_scale (unit_sqr ux))))%R.
Proof.
  intros Hcart Hx Hy Hz Hdy Hdz.
  destruct (radii_is _ _ _ _ _ _ _ _ _ _ Hx Hy Hz Hdy Hdz) as (r & s' & Er & Hr & Hs').
  destruct (np_arctan2_is _ _ _ _ _ _ _ Hy Hx (eq_sym Hdy)) as (phi & Ephi & Cphi & Hphi).
  assert (Hds : u_dim uz = u_dim (unit_sqrt (unit_sqr ux)))
    by (now rewrite unit_sqrt_sqr_dim).
  destruct (np_arctan2_is _ _ _ _ _ _ _ Hs' Hz Hds) as (theta & Etheta & Ctheta & Htheta).
  destruct (PhysicsSphericalRepresentation_init_ok (PyQ phi) (PyQ theta) (PyQ r) true h
              _ _ _ _ _ _ _
              (accepted_Angle _ _ _ _ true Hphi eq_refl)
              (accepted_Angle _ _ _ _ true Htheta eq_refl)
              (accepted_distance _ _ _ _ true Hr ltac:(intros; apply sqrt_pos)))
    as (phi' & theta' & d' & Einit & Hphi' & Htheta' & Hd').
  exists phi', theta', d'. split; [| auto].
  unfold PhysicsSphericalRepresentation_from_cartesian.
  rewrite (bind_ok _ _ _ _ _ (cart_xyz_ok _ _ _ _ _ Hcart)).
  run. exact Einit.
Qed.

Lemma UnitSphericalRepresentation_from_cartesian_ok (h : heap) cart x y z
    ux uy uz s fx fy fz :
  h !! cart = Some (Cartesian x y z) ->
  q_is x ux s fx -> q_is y uy s fy -> q_is z uz s fz ->
  u_dim uy = u_dim ux -> u_dim uz = u_dim ux -> (0 < u_scale uz)%R ->
  exists lon lat,
    UnitSphericalRepresentation_from_cartesian cart h
    = (Ok (fresh (dom h)), <[fresh (dom h) := UnitSpherical lon lat]> h)
    /\ q_is lon u_radian s
         (fun idx => wrap_longitude u_radian (wrap_longitude u_radian
                       (arctan2 (fy idx) (fx idx * (u_scale ux / u_scale uy)))))%R
    /\ q_is lat u_radian s
         (fun idx => arctan2 (fz idx)
                       (sqrt (fx idx * fx idx
                              + fy idx * fy idx
                                * (u_scale (unit_sqr uy) / u_scale (unit_sqr ux)))
                        * (u_scale (unit_sqrt (unit_sqr ux)) / u_scale uz)))%R.
Proof.
  intros Hcart Hx Hy Hz Hdy Hdz Hsz.
  destruct (q_add_is _ _ _ _ _ _ _ (q_sqr_is _ _ _ _ Hx) (q_sqr_is _ _ _ _ Hy)
              (unit_sqr_dim _ _ Hdy)) as (xy & Exy & Hxy).
  pose proof (q_sqrt_is _ _ _ _ Hxy) as Hs'.
  destruct (np_arctan2_is _ _ _ _ _ _ _ Hy Hx (eq_sym Hdy)) as (lon & Elon & Clon & Hlon).
  assert (Hds : u_dim (unit_sqrt (unit_sqr ux)) = u_dim uz)
    by (now rewrite unit_sqrt_sqr_dim).
  destruct (np_arctan2_is _ _ _ _ _ _ _ Hz Hs' Hds) as (lat & Elat & Clat & Hlat).
  destruct (UnitSphericalRepresentation_init_ok (PyQ lon) (PyQ lat) true h
              _ _ _ _ _
              (accepted_Longitude _ _ _ _ true Hlon eq_refl ltac:(now rewrite Clon))
              (accepted_Latitude _ _ _ _ true Hlat eq_refl ltac:(now rewrite Clat)
                 ltac:(intros; apply latitude_ok_arctan2, ratio_nonneg;
                       [apply sqrt_pos | apply sqrt_pos | exact Hsz])))
    as (lon' & lat' & Einit & Hlon' & Hlat').
  exists lon', lat'. split; [| auto].
  unfold UnitSphericalRepresentation_from_cartesian.
  rewrite (bind_ok _ _ _ _ _ (cart_xyz_ok _ _ _ _ _ Hcart)).
  cbn beta iota zeta. run. exact Einit.
Qed.

(** ** The shortcuts between the two spherical classes *)

Lemma broadcast_shapes_nil_l s : broadcast_shapes [] s = Some s.
Proof.
  unfold broadcast_shapes. change (reverse (@nil nat)) with (@nil nat). cbn.
  now rewrite reverse_involutive.
Qed.

Lemma bindex_nil idx : bindex [] idx = [].
Proof. reflexivity. Qed.

Lemma ninety_minus_is b ub s g :
  q_is b ub s g -> u_dim ub = dim_angle ->
  exists c, q_sub ninety_deg b = Ok c
            /\ (q_class c = Angle \/ q_class c = Quantity)
            /\ q_is c u_deg s (fun idx => 90 - g idx * (u_scale ub / u_scale u_deg))%R.
Proof.
  intros Hb Hd. unfold q_sub.
  destruct (q_to_is _ _ u_deg _ _ Hb Hd) as (b' & Eb & _ & [_ [Hs Hb']]).
  cbn [q_unit ninety_deg]. rewrite Eb. cbn [rbind].
  unfold np_binop. cbn [q_value ninety_deg shape]. rewrite Hs, broadcast_shapes_nil_l.
  cbn [rbind]. eexists. split; [reflexivity |].
  split; [cbn; case_decide; auto |]. split; [reflexivity |].
  split; [reflexivity |]. intros idx Hi. cbn.
  rewrite bindex_id by exact Hi. now rewrite Hb'.
Qed.

Lemma q_same_of_is a b ua ub s f g :
  q_is a ua s f -> q_is b ub s g -> u_dim ua = u_dim ub ->
  (forall idx, In idx (indices s) -> (f idx * u_scale ua = g idx * u_scale ub)%R) ->
  q_same a b.
Proof.
  intros [Hua [Hsa Hf]] [Hub [Hsb Hg]] Hd Hv. unfold q_same, q_shape, q_si.
  rewrite Hua, Hub, Hsa, Hsb. repeat split; [exact Hd |].
  intros idx Hi. rewrite Hf, Hg by exact Hi. now apply Hv.
Qed.

Lemma distance_q_accepted d s copy :
  q_shape d = s -> distance_q d ->
  accepted (if is_length_quantity (PyQ d) then Distance_new (PyQ d) copy
            else Quantity_new (PyQ d) None copy) (q_unit d) s (item (q_value d)).
Proof.
  intros Hs [Hpos Hlen]. apply accepted_distance.
  - rewrite <- Hs. apply q_is_self.
  - intros Hl idx Hi. specialize (Hlen Hl idx). rewrite Hs in Hlen.
    specialize (Hlen Hi). unfold q_si in Hlen.
    apply Rmult_le_reg_r with (u_scale (q_unit d)); [exact Hpos | lra].
Qed.

Lemma q_is_at q s : q_shape q = s -> q_is q (q_unit q) s (item (q_value q)).
Proof. intros <-. apply q_is_self. Qed.

Lemma q_si_is q u s f idx :
  q_is q u s f -> In idx (indices s) -> q_si q idx = (f idx * u_scale u)%R.
Proof. intros [Hu [_ Hf]] Hi. unfold q_si. now rewrite Hu, Hf. Qed.

Lemma SphericalRepresentation_shortcut (h : heap) self lon lat d s :
  h !! self = Some (Spherical lon lat d) ->
  q_shape lon = s -> q_shape lat = s -> q_shape d = s ->
  u_dim (q_unit lon) = dim_angle -> u_dim (q_unit lat) = dim_angle -> distance_q d ->
  exists phi theta d',
    represent_as self PhysicsSphericalRepresentation h
    = (Ok (fresh (dom h)), <[fresh (dom h) := PhysicsSpherical phi theta d']> h)
    /\ q_is phi (q_unit lon) s (item (q_value lon))
    /\ q_is theta u_deg s
         (fun idx => 90 - item (q_value lat) idx * (u_scale (q_unit lat) / u_scale u_deg))%R
    /\ q_is d' (q_unit d) s (item (q_value d)).
Proof.
  intros Hself Hslon Hslat Hsd Hlon Hlat Hd.
  destruct (ninety_minus_is _ _ _ _ (q_is_at _ _ Hslat) Hlat)
    as (theta & Etheta & Ctheta & Htheta).
  destruct (PhysicsSphericalRepresentation_init_ok (PyQ lon) (PyQ theta) (PyQ d) true h
              _ _ _ _ _ _ _
              (accepted_Angle _ _ _ _ true (q_is_at _ _ Hslon) Hlon)
              (accepted_Angle _ _ _ _ true Htheta eq_refl)
              (distance_q_accepted _ _ true Hsd Hd))
    as (phi' & theta' & d' & Einit & Hphi' & Htheta' & Hd').
  exists phi', theta', d'. split; [| auto].
  unfold represent_as.
  rewrite (bind_ok _ _ _ _ _ (get_object_some _ _ _ Hself)). cbn [class_of].
  unfold SphericalRepresentation_represent_as. rewrite decide_True by reflexivity.
  rewrite (bind_ok _ _ _ _ _ (get_object_some _ _ _ Hself)). cbn beta iota.
  run. exact Einit.
Qed.

Lemma PhysicsSphericalRepresentation_shortcut (h : heap) self phi theta d s :
  h !! self = Some (PhysicsSpherical phi theta d) ->
  q_shape phi = s -> q_shape theta = s -> q_shape d = s ->
  u_dim (q_unit phi) = dim_angle -> q_class phi <> Latitude ->
  angle_q theta -> distance_q d ->
  si_all theta (fun a => 0 <= a <= PI)%R ->
  exists lon lat d',
    represent_as self SphericalRepresentation h
    = (Ok (fresh (dom h)), <[fresh (dom h) := Spherical lon lat d']> h)
    /\ q_is lon (q_unit phi) s
         (fun idx => wrap_longitude (q_unit phi)
                       (wrap_longitude (q_unit phi) (item (q_value phi) idx)))
    /\ q_is lat u_deg s
         (fun idx => 90 - item (q_value theta) idx
                          * (u_scale (q_unit theta) / u_scale u_deg))%R
    /\ q_is d' (q_unit d) s (item (q_value d)).
Proof.
  intros Hself Hsphi Hstheta Hsd Hphi Cphi [Htheta Hpos] Hd Hrange.
  destruct (ninety_minus_is _ _ _ _ (q_is_at _ _ Hstheta) Htheta)
    as (lat & Elat & Clat & Hlat).
  assert (Hok : forall idx, In idx (indices s) ->
            latitude_ok u_deg
              (90 - item (q_value theta) idx * (u_scale (q_unit theta) / u_scale u_deg))%R
            = true).
  { intros idx Hi. specialize (Hrange idx). rewrite Hstheta in Hrange.
    specialize (Hrange Hi). unfold q_si in Hrange.
    pose proof PI_RGT_0 as Hpi. unfold latitude_ok. cbn [u_scale u_deg].
    assert (E : ((90 - item (q_value theta) idx * (u_scale (q_unit theta) / (PI / 180)))
                 * (PI / 180)
                 = PI / 2 - item (q_value theta) idx * u_scale (q_unit theta))%R)
      by (field; lra).
    rewrite E, !bool_decide_eq_true_2 by lra. reflexivity. }
  destruct (SphericalRepresentation_init_ok (PyQ phi) (PyQ lat) (PyQ d) true h
              _ _ _ _ _ _ _
              (accepted_Longitude _ _ _ _ true (q_is_at _ _ Hsphi) Hphi Cphi)
              (accepted_Latitude _ _ _ _ true Hlat eq_refl
                 ltac:(destruct Clat as [-> | ->]; discriminate) Hok)
              (distance_q_accepted _ _ true Hsd Hd))
    as (lon' & lat' & d' & Einit & Hlon' & Hlat' & Hd').
  exists lon', lat', d'. split; [| auto].
  unfold represent_as.
  rewrite (bind_ok _ _ _ _ _ (get_object_some _ _ _ Hself)). cbn [class_of].
  unfold PhysicsSphericalRepresentation_represent_as. rewrite decide_True by reflexivity.
  rewrite (bind_ok _ _ _ _ _ (get_object_some _ _ _ Hself)). cbn beta iota.
  run. exact Einit.
Qed.

(** ** Construction of a Cartesian representation *)

Lemma is_None_true v : is_None v = true -> v = PyNone.
Proof. now destruct v. Qed.

(** C10: when [y] and [z] are both omitted, the constructor unpacks [x]
    as Python's [x, y, z = x] does.  A list or tuple that has not exactly
    three entries is refused with [ValueError], and on one of three
    components the constructor does what it does on the three given one
    by one.  An array or a Quantity is iterated over its first axis: with
    no axis it is refused with [TypeError], with a first axis of another
    length than three with [ValueError], and otherwise the constructor
    does what it does on the three rows (for a Quantity, rows of its class
    and unit).  So a Quantity of shape (3, ...) given alone is stored as
    a new Cartesian object whose components are its three rows, in its
    unit, and three quantities of one shape and physical type given as a
    list are stored with their values.  When exactly one of [y] and [z]
    is omitted the constructor raises [ValueError].  A failure leaves the
    store as it was. *)
Theorem CartesianRepresentation_init_arguments x y z unit copy (h : heap) :
  (is_None y = true -> is_None z = true ->
     (forall l, x = PySeq l -> length l <> 3 ->
        CartesianRepresentation_init x y z unit copy h = (Err ValueError, h))
     /\ (forall a b c, x = PySeq [a; b; c] -> is_None b = false -> is_None c = false ->
        CartesianRepresentation_init x y z unit copy h
        = CartesianRepresentation_init a b c unit copy h)
     /\ (forall a, x = PyArr a -> shape a = [] ->
        CartesianRepresentation_init x y z unit copy h = (Err TypeError, h))
     /\ (forall a d s, x = PyArr a -> shape a = d :: s -> d <> 3 ->
        CartesianRepresentation_init x y z unit copy h = (Err ValueError, h))
     /\ (forall a s, x = PyArr a -> shape a = 3 :: s ->
        CartesianRepresentation_init x y z unit copy h
        = CartesianRepresentation_init (PyArr (row a 0)) (PyArr (row a 1)) (PyArr (row a 2))
            unit copy h)
     /\ (forall q, x = PyQ q -> q_shape q = [] ->
        CartesianRepresentation_init x y z unit copy h = (Err TypeError, h))
     /\ (forall q d s, x = PyQ q -> q_shape q = d :: s -> d <> 3 ->
        CartesianRepresentation_init x y z unit copy h = (Err ValueError, h))
     /\ (forall q s, x = PyQ q -> q_shape q = 3 :: s ->
        CartesianRepresentation_init x y z unit copy h
        = CartesianRepresentation_init
            (PyQ (mkQ (q_class q) (q_unit q) (row (q_value q) 0)))
            (PyQ (mkQ (q_class q) (q_unit q) (row (q_value q) 1)))
            (PyQ (mkQ (q_class q) (q_unit q) (row (q_value q) 2))) unit copy h)
     /\ (x = PyNone ->
        CartesianRepresentation_init x y z unit copy h = (Err TypeError, h))
     /\ (forall q s, x = PyQ q -> q_shape q = 3 :: s -> unit = None ->
        exists x' y' z',
          CartesianRepresentation_init x y z unit copy h
          = (Ok (fresh (dom h)), <[fresh (dom h) := Cartesian x' y' z']> h)
          /\ q_is x' (q_unit q) s (fun idx => item (q_value q) (0 :: idx))
          /\ q_is y' (q_unit q) s (fun idx => item (q_value q) (1 :: idx))
          /\ q_is z' (q_unit q) s (fun idx => item (q_value q) (2 :: idx)))
     /\ (forall qa qb qc s, x = PySeq [PyQ qa; PyQ qb; PyQ qc] ->
        q_shape qa = s -> q_shape qb = s -> q_shape qc = s ->
        physical_type (q_unit qa) = physical_type (q_unit qb) ->
        physical_type (q_unit qb) = physical_type (q_unit qc) ->
        unit = None ->
        exists x' y' z',
          CartesianRepresentation_init x y z unit copy h
          = (Ok (fresh (dom h)), <[fresh (dom h) := Cartesian x' y' z']> h)
          /\ q_is x' (q_unit qa) s (item (q_value qa))
          /\ q_is y' (q_unit qb) s (item (q_value qb))
          /\ q_is z' (q_unit qc) s (item (q_value qc))))
  /\ (is_None y <> is_None z ->
        CartesianRepresentation_init x y z unit copy h = (Err ValueError, h)).
Proof.
  split.
  - intros ->%is_None_true ->%is_None_true.
    assert (Hrows : forall a b c,
               unpack3 x = Ok (a, b, c) -> is_None b = false -> is_None c = false ->
               CartesianRepresentation_init x PyNone PyNone unit copy h
               = CartesianRepresentation_init a b c unit copy h).
    { intros a b c Hu Hb Hc. unfold CartesianRepresentation_init at 1.
      cbn [is_None andb]. rewrite bind_lift, Hu.
      unfold CartesianRepresentation_init, bind at 1. rewrite Hb, Hc. reflexivity. }
    assert (Herr : forall e,
               unpack3 x = Err e ->
               CartesianRepresentation_init x PyNone PyNone unit copy h = (Err e, h)).
    { intros e Hu. unfold CartesianRepresentation_init.
      cbn [is_None andb]. now rewrite bind_lift, Hu. }
    repeat apply conj.
    + intros l -> Hlen. apply Herr. cbn.
      destruct l as [| a [| b [| c [| d l]]]]; cbn in *; try reflexivity.
      congruence.
    + intros a b c -> Hb Hc. now apply Hrows.
    + intros a -> Hs. apply Herr. cbn. now rewrite Hs.
    + intros a d s -> Hs Hd. apply Herr. cbn. rewrite Hs.
      apply Nat.eqb_neq in Hd. now rewrite Hd.
    + intros a s -> Hs. apply Hrows; [| reflexivity | reflexivity].
      cbn. now rewrite Hs.
    + intros q -> Hs. apply Herr. cbn. now rewrite Hs.
    + intros q d s -> Hs Hd. apply Herr. cbn. rewrite Hs.
      apply Nat.eqb_neq in Hd. now rewrite Hd.
    + intros q s -> Hs. apply Hrows; [| reflexivity | reflexivity].
      cbn. now rewrite Hs.
    + intros ->. now apply Herr.
    + intros q s -> Hs ->.
      rewrite (Hrows (PyQ (mkQ (q_class q) (q_unit q) (row (q_value q) 0)))
                 (PyQ (mkQ (q_class q) (q_unit q) (row (q_value q) 1)))
                 (PyQ (mkQ (q_class q) (q_unit q) (row (q_value q) 2))));
        [| cbn; now rewrite Hs | reflexivity | reflexivity].
      assert (Hrow : forall i,
                 q_is (mkQ (q_class q) (q_unit q) (row (q_value q) i)) (q_unit q) s
                   (fun idx => item (q_value q) (i :: idx))).
      { intros i. split; [reflexivity |]. split; [| reflexivity].
        unfold q_shape in Hs. cbn. now rewrite Hs. }
      exact (CartesianRepresentation_init_ok _ _ _ copy h _ _ _ s _ _ _
               (Hrow 0) (Hrow 1) (Hrow 2) eq_refl eq_refl).
    + intros qa qb qc s -> Ha Hb Hc Hab Hbc ->.
      rewrite (Hrows (PyQ qa) (PyQ qb) (PyQ qc)); [| reflexivity | reflexivity | reflexivity].
      exact (CartesianRepresentation_init_ok _ _ _ copy h _ _ _ s _ _ _
               (q_is_at _ _ Ha) (q_is_at _ _ Hb) (q_is_at _ _ Hc) Hab Hbc).
  - intros Hyz. unfold CartesianRepresentation_init.
    destruct (is_None y), (is_None z); cbn; try reflexivity; congruence.
Qed.

Lemma CartesianRepresentation_init_arguments_witness :
  let q := mkQ Quantity u_m (vec [1; 2; 3]%R) in
  CartesianRepresentation_init (PySeq [PyArr (scalar 1); PyArr (scalar 2)])
      PyNone PyNone None true ∅ = (Err ValueError, ∅)
  /\ (exists x' y' z',
        CartesianRepresentation_init (PyQ q) PyNone PyNone None true ∅
        = (Ok (fresh (dom (∅ : gmap nat rep))),
           <[fresh (dom (∅ : gmap nat rep)) := Cartesian x' y' z']> ∅)
        /\ q_is x' u_m [] (fun idx => item (q_value q) (0 :: idx))
        /\ q_is y' u_m [] (fun idx => item (q_value q) (1 :: idx))
        /\ q_is z' u_m [] (fun idx => item (q_value q) (2 :: idx)))
  /\ CartesianRepresentation_init (PyArr (scalar 1)) (PyArr (scalar 2)) PyNone None true ∅
     = (Err ValueError, ∅).
Proof.
  intros q.
  pose proof (CartesianRepresentation_init_arguments
                (PySeq [PyArr (scalar 1); PyArr (scalar 2)]) PyNone PyNone None true ∅)
    as [H1 _].
  pose proof (CartesianRepresentation_init_arguments (PyQ q) PyNone PyNone None true ∅)
    as [H2 _].
  pose proof (CartesianRepresentation_init_arguments
                (PyArr (scalar 1)) (PyArr (scalar 2)) PyNone None true ∅)
    as [_ H3].
  split; [| split].
  - destruct (H1 eq_refl eq_refl) as [Ha _].
    apply (Ha _ eq_refl). cbn. lia.
  - destruct (H2 eq_refl eq_refl) as (_ & _ & _ & _ & _ & _ & _ & _ & _ & Hq & _).
    exact (Hq q [] eq_refl eq_refl eq_refl).
  - apply H3. cbn. discriminate.
Defined.

(** ** The generic path from Spherical to PhysicsSpherical *)

Lemma to_cartesian_Spherical (h : heap) self lon lat d :
  h !! self = Some (Spherical lon lat d) ->
  to_cartesian self h = SphericalRepresentation_to_cartesian self h.
Proof.
  intros H. unfold to_cartesian.
  now rewrite (bind_ok _ _ _ _ _ (get_object_some _ _ _ H)).
Qed.

Lemma generic_Spherical_to_Physics (h : heap) self lon lat d s :
  h !! self = Some (Spherical lon lat d) ->
  q_shape lon = s -> q_shape lat = s -> q_shape d = s ->
  u_dim (q_unit lon) = dim_angle -> u_dim (q_unit lat) = dim_angle ->
  let ux := unit_mul (unit_mul (q_unit d) dimensionless_unscaled) dimensionless_unscaled in
  let uz := unit_mul (q_unit d) dimensionless_unscaled in
  let fx idx := (item (q_value d) idx * cos (item (q_value lat) idx * u_scale (q_unit lat))
                 * cos (item (q_value lon) idx * u_scale (q_unit lon)))%R in
  let fy idx := (item (q_value d) idx * cos (item (q_value lat) idx * u_scale (q_unit lat))
                 * sin (item (q_value lon) idx * u_scale (q_unit lon)))%R in
  let fz idx := (item (q_value d) idx
                 * sin (item (q_value lat) idx * u_scale (q_unit lat)))%R in
  exists l o h' phi theta r,
    BaseRepresentation_represent_as self PhysicsSphericalRepresentation h = (Ok l, h')
    /\ h' !! l = Some o /\ o = PhysicsSpherical phi theta r
    /\ q_is phi u_radian s
         (fun idx => arctan2 (fy idx) (fx idx * (u_scale ux / u_scale ux)))%R
    /\ q_is theta u_radian s
         (fun idx => arctan2
                       (sqrt (fx idx * fx idx
                              + fy idx * fy idx
                                * (u_scale (unit_sqr ux) / u_scale (unit_sqr ux))))
                       (fz idx * (u_scale uz / u_scale (unit_sqrt (unit_sqr ux)))))%R
    /\ q_is r (unit_sqrt (unit_sqr ux)) s
         (fun idx => sqrt (fx idx * fx idx
                           + fy idx * fy idx * (u_scale (unit_sqr ux) / u_scale (unit_sqr ux))
                           + fz idx * fz idx * (u_scale (unit_sqr uz) / u_scale (unit_sqr ux))))%R.
Proof.
  intros Hself Hslon Hslat Hsd Hlon Hlat ux uz fx fy fz.
  destruct (SphericalRepresentation_to_cartesian_ok h self lon lat d _ _ _ s _ _ _ Hself
              (q_is_at _ _ Hslon) (q_is_at _ _ Hslat) (q_is_at _ _ Hsd) Hlon Hlat)
    as (x & y & z & Eto & Hx & Hy & Hz).
  destruct (PhysicsSphericalRepresentation_from_cartesian_ok
              (<[fresh (dom h) := Cartesian x y z]> h) (fresh (dom h)) x y z
              _ _ _ s _ _ _ (lookup_fresh_insert _ _) Hx Hy Hz)
    as (phi & theta & r & Efrom & Hphi & Htheta & Hr).
  { reflexivity. }
  { cbn. now rewrite !dim_mul_zero_r. }
  eexists _, _, _, phi, theta, r. split; [| split; [apply lookup_fresh_insert |]].
  - unfold BaseRepresentation_represent_as.
    rewrite (bind_ok _ _ _ _ _ (get_object_some _ _ _ Hself)). cbn [class_of].
    rewrite decide_False by discriminate.
    erewrite bind_ok; [| rewrite (to_cartesian_Spherical _ _ _ _ _ Hself); exact Eto].
    exact Efrom.
  - split; [reflexivity |]. auto.
Qed.

(** ** Polar coordinates and back, in real arithmetic *)

Section polar.
Local Open Scope R_scope.

Lemma cos_pos_lat B : - (PI / 2) < B < PI / 2 -> 0 < cos B.
Proof. intros [? ?]. now apply cos_gt_0. Qed.

Lemma polar_azimuth D B L r :
  0 < D -> - (PI / 2) < B < PI / 2 -> - PI < L <= PI -> r = 1 ->
  arctan2 (D * cos B * sin L) (D * cos B * cos L * r) = L.
Proof.
  intros HD HB HL ->. rewrite Rmult_1_r. apply arctan2_polar; [| exact HL].
  apply Rmult_lt_0_compat; [exact HD | now apply cos_pos_lat].
Qed.

Lemma polar_azimuth_wrapped D B L r :
  0 < D -> - (PI / 2) < B < PI / 2 -> PI < L < 2 * PI -> r = 1 ->
  arctan2 (D * cos B * sin L) (D * cos B * cos L * r) = L - 2 * PI.
Proof.
  intros HD HB HL ->. rewrite Rmult_1_r. apply arctan2_polar_wrapped; [| exact HL].
  apply Rmult_lt_0_compat; [exact HD | now apply cos_pos_lat].
Qed.

Lemma polar_rho D B L r :
  0 < D -> - (PI / 2) < B < PI / 2 -> r = 1 ->
  sqrt (D * cos B * cos L * (D * cos B * cos L)
        + D * cos B * sin L * (D * cos B * sin L) * r) = D * cos B.
Proof.
  intros HD HB ->. rewrite Rmult_1_r. apply sqrt_polar.
  left. apply Rmult_lt_0_compat; [exact HD | now apply cos_pos_lat].
Qed.

Lemma polar_colatitude D B L r1 r2 :
  0 < D -> - (PI / 2) < B < PI / 2 -> r1 = 1 -> r2 = 1 ->
  arctan2 (sqrt (D * cos B * cos L * (D * cos B * cos L)
                 + D * cos B * sin L * (D * cos B * sin L) * r1))
          (D * sin B * r2) = PI / 2 - B.
Proof.
  intros HD HB H1 ->. rewrite polar_rho by assumption. rewrite Rmult_1_r.
  rewrite <- (sin_shift B), <- (cos_shift B).
  apply arctan2_polar; [exact HD | lra].
Qed.

Lemma polar_latitude D B L r1 r2 :
  0 < D -> - (PI / 2) < B < PI / 2 -> r1 = 1 -> r2 = 1 ->
  arctan2 (D * sin B)
          (sqrt (D * cos B * cos L * (D * cos B * cos L)
                 + D * cos B * sin L * (D * cos B * sin L) * r1) * r2) = B.
Proof.
  intros HD HB H1 ->. rewrite polar_rho by assumption. rewrite Rmult_1_r.
  pose proof PI_RGT_0. apply arctan2_polar; [exact HD | lra].
Qed.

Lemma polar_radius D B L r1 r2 :
  0 < D -> - (PI / 2) < B < PI / 2 -> r1 = 1 -> r2 = 1 ->
  sqrt (D * cos B * cos L * (D * cos B * cos L)
        + D * cos B * sin L * (D * cos B * sin L) * r1
        + D * sin B * (D * sin B) * r2) = D.
Proof.
  intros HD HB -> ->. rewrite !Rmult_1_r.
  replace (D * cos B * cos L * (D * cos B * cos L)
           + D * cos B * sin L * (D * cos B * sin L) + D * sin B * (D * sin B))
    with (D * D * ((Rsqr (sin L) + Rsqr (cos L)) * Rsqr (cos B) + Rsqr (sin B)))
    by (unfold Rsqr; ring).
  rewrite sin2_cos2, Rmult_1_l, Rplus_comm, sin2_cos2, Rmult_1_r.
  apply sqrt_square. lra.
Qed.

(** The sizes of the units of the Cartesian components made from a
    distance of unit [ud]. *)
Lemma cartesian_unit_scales ud :
  0 < u_scale ud ->
  let ux := unit_mul (unit_mul ud dimensionless_unscaled) dimensionless_unscaled in
  let uz := unit_mul ud dimensionless_unscaled in
  u_scale ux / u_scale ux = 1
  /\ u_scale (unit_sqr ux) / u_scale (unit_sqr ux) = 1
  /\ u_scale (unit_sqr uz) / u_scale (unit_sqr ux) = 1
  /\ u_scale uz / u_scale (unit_sqrt (unit_sqr ux)) = 1
  /\ u_scale (unit_sqrt (unit_sqr ux)) / u_scale uz = 1
  /\ u_scale (unit_sqrt (unit_sqr ux)) = u_scale ud
  /\ u_dim (unit_sqrt (unit_sqr ux)) = u_dim ud.
Proof.
  intros Hs ux uz.
  assert (Hq : u_scale (unit_sqrt (unit_sqr ux)) = u_scale ud).
  { rewrite unit_sqrt_sqr_scale; subst ux; cbn; lra. }
  rewrite Hq. subst ux uz. cbn [u_scale unit_mul unit_sqr dimensionless_unscaled].
  repeat split; try (field; lra).
  rewrite unit_sqrt_sqr_dim. cbn. now rewrite !dim_mul_zero_r.
Qed.

(** The same on the closed range of latitudes, the poles included. *)
Lemma cos_nonneg_lat B : - (PI / 2) <= B <= PI / 2 -> 0 <= cos B.
Proof. intros [? ?]. now apply cos_ge_0. Qed.

Lemma arctan2_0_nonneg x : 0 <= x -> arctan2 0 x = 0.
Proof.
  intros Hx. unfold arctan2. repeat case_decide; try lra.
  unfold Rdiv. rewrite Rmult_0_l. apply atan_0.
Qed.

Lemma polar_rho_closed D B L r :
  0 < D -> - (PI / 2) <= B <= PI / 2 -> r = 1 ->
  sqrt (D * cos B * cos L * (D * cos B * cos L)
        + D * cos B * sin L * (D * cos B * sin L) * r) = D * cos B.
Proof.
  intros HD HB ->. rewrite Rmult_1_r. apply sqrt_polar.
  apply Rmult_le_pos; [lra | now apply cos_nonneg_lat].
Qed.

Lemma polar_colatitude_closed D B L r1 r2 :
  0 < D -> - (PI / 2) <= B <= PI / 2 -> r1 = 1 -> r2 = 1 ->
  arctan2 (sqrt (D * cos B * cos L * (D * cos B * cos L)
                 + D * cos B * sin L * (D * cos B * sin L) * r1))
          (D * sin B * r2) = PI / 2 - B.
Proof.
  intros HD HB H1 ->. rewrite polar_rho_closed by assumption. rewrite Rmult_1_r.
  rewrite <- (sin_shift B), <- (cos_shift B).
  pose proof PI_RGT_0. apply arctan2_polar; [exact HD | lra].
Qed.

Lemma polar_latitude_closed D B L r1 r2 :
  0 < D -> - (PI / 2) <= B <= PI / 2 -> r1 = 1 -> r2 = 1 ->
  arctan2 (D * sin B)
          (sqrt (D * cos B * cos L * (D * cos B * cos L)
                 + D * cos B * sin L * (D * cos B * sin L) * r1) * r2) = B.
Proof.
  intros HD HB H1 ->. rewrite polar_rho_closed by assumption. rewrite Rmult_1_r.
  pose proof PI_RGT_0. apply arctan2_polar; [exact HD | lra].
Qed.

Lemma polar_radius_any D B L r1 r2 :
  0 < D -> r1 = 1 -> r2 = 1 ->
  sqrt (D * cos B * cos L * (D * cos B * cos L)
        + D * cos B * sin L * (D * cos B * sin L) * r1
        + D * sin B * (D * sin B) * r2) = D.
Proof.
  intros HD -> ->. rewrite !Rmult_1_r.
  replace (D * cos B * cos L * (D * cos B * cos L)
           + D * cos B * sin L * (D * cos B * sin L) + D * sin B * (D * sin B))
    with (D * D * ((Rsqr (sin L) + Rsqr (cos L)) * Rsqr (cos B) + Rsqr (sin B)))
    by (unfold Rsqr; ring).
  rewrite sin2_cos2, Rmult_1_l, Rplus_comm, sin2_cos2, Rmult_1_r.
  apply sqrt_square. lra.
Qed.

(** The azimuth of the Cartesian point: the longitude, off the poles and
    up to half a turn; zero for the longitude zero, also at a pole. *)
Lemma polar_azimuth_where D B L r :
  0 < D -> - (PI / 2) <= B <= PI / 2 -> 0 <= L <= PI ->
  - (PI / 2) < B < PI / 2 \/ L = 0 -> r = 1 ->
  arctan2 (D * cos B * sin L) (D * cos B * cos L * r) = L.
Proof.
  intros HD HB HL [Hopen | ->] Hr.
  - pose proof PI_RGT_0. apply polar_azimuth; [exact HD | exact Hopen | lra | exact Hr].
  - subst r. rewrite sin_0, cos_0, Rmult_0_r, !Rmult_1_r.
    apply arctan2_0_nonneg. apply Rmult_le_pos; [lra | now apply cos_nonneg_lat].
Qed.

End polar.

(** ** Shortcut against generic path *)

Lemma complement_of_ninety theta lat s :
  q_shape lat = s -> u_dim (q_unit lat) = dim_angle ->
  q_is theta u_deg s
    (fun idx => 90 - item (q_value lat) idx * (u_scale (q_unit lat) / u_scale u_deg))%R ->
  complement_of theta lat.
Proof.
  intros Hs Hd [Hu [Hst Hv]]. unfold complement_of, q_shape, q_si in *.
  rewrite Hu, Hst, Hs. repeat split. intros idx Hi. rewrite Hv by exact Hi.
  pose proof PI_RGT_0. cbn. field. lra.
Qed.

Lemma si_all_at q s P idx :
  si_all q P -> q_shape q = s -> In idx (indices s) ->
  P (item (q_value q) idx * u_scale (q_unit q))%R.
Proof. intros H <- Hi. exact (H idx Hi). Qed.

Lemma distance_pos d s idx :
  (0 < u_scale (q_unit d))%R -> si_all d (fun v => 0 < v)%R -> q_shape d = s ->
  In idx (indices s) -> (0 < item (q_value d) idx)%R.
Proof.
  intros Hs Hall Hsh Hi. pose proof (si_all_at _ _ _ _ Hall Hsh Hi) as H. cbn in H.
  apply Rmult_lt_reg_r with (u_scale (q_unit d)); [exact Hs | lra].
Qed.

(** C3 fails as stated, for a negative distance and for the distance
    zero.  For the point [behind_point], whose distance is -1, the
    shortcut to PhysicsSpherical keeps the distance -1, while the generic
    path through Cartesian returns the distance 1: the two results differ
    by 2 in that component.  For the point [origin_point], whose distance
    is 0 and whose latitude is 45 degrees, the shortcut returns theta =
    45 degrees, while the generic path returns theta = 0.  No rounding
    accounts for either. *)
Lemma shortcut_differs_from_generic_path :
  (let h : heap := {[ 0 := behind_point ]} in
   exists l1 h1 phi1 theta1 d1 l2 h2 phi2 theta2 d2,
     represent_as 0 PhysicsSphericalRepresentation h = (Ok l1, h1)
     /\ h1 !! l1 = Some (PhysicsSpherical phi1 theta1 d1)
     /\ BaseRepresentation_represent_as 0 PhysicsSphericalRepresentation h = (Ok l2, h2)
     /\ h2 !! l2 = Some (PhysicsSpherical phi2 theta2 d2)
     /\ q_si d1 [] = (-1)%R /\ q_si d2 [] = 1%R)
  /\ (let h : heap := {[ 0 := origin_point ]} in
      exists l1 h1 phi1 theta1 d1 l2 h2 phi2 theta2 d2,
        represent_as 0 PhysicsSphericalRepresentation h = (Ok l1, h1)
        /\ h1 !! l1 = Some (PhysicsSpherical phi1 theta1 d1)
        /\ BaseRepresentation_represent_as 0 PhysicsSphericalRepresentation h = (Ok l2, h2)
        /\ h2 !! l2 = Some (PhysicsSpherical phi2 theta2 d2)
        /\ q_si theta1 [] = (PI / 4)%R /\ q_si theta2 [] = 0%R).
Proof.
  split.
  - intros h.
    assert (Hself : h !! 0 = Some behind_point) by reflexivity.
    assert (Hd : distance_q (plain (scalar (-1)))).
    { split; [cbn; lra |]. intros H. exfalso.
      assert (E : physical_type (q_unit (plain (scalar (-1)))) = "dimensionless"%string)
        by reflexivity.
      rewrite E in H. discriminate H. }
    destruct (SphericalRepresentation_shortcut h 0 _ _ _ [] Hself eq_refl eq_refl eq_refl
                eq_refl eq_refl Hd) as (phi1 & theta1 & d1 & E1 & _ & _ & Hd1).
    destruct (generic_Spherical_to_Physics h 0 _ _ _ [] Hself eq_refl eq_refl eq_refl
                eq_refl eq_refl)
      as (l2 & o & h2 & phi2 & theta2 & d2 & E2 & Hl2 & -> & _ & _ & Hd2).
    exists (fresh (dom h)), (<[fresh (dom h) := PhysicsSpherical phi1 theta1 d1]> h),
      phi1, theta1, d1, l2, h2, phi2, theta2, d2.
    split; [exact E1 |]. split; [apply lookup_fresh_insert |].
    split; [exact E2 |]. split; [exact Hl2 |].
    destruct Hd1 as [Hu1 [_ Hv1]], Hd2 as [Hu2 [_ Hv2]]. unfold q_si.
    rewrite Hu1, Hu2, Hv1, Hv2 by (now left). cbn.
    rewrite !Rmult_0_l, cos_0, sin_0.
    split; [lra |].
    replace (-1 * 1 * 1 * (-1 * 1 * 1) + -1 * 1 * 0 * (-1 * 1 * 0) * (1 * 1 * 1 * (1 * 1 * 1) / (1 * 1 * 1 * (1 * 1 * 1)))
             + -1 * 0 * (-1 * 0) * (1 * 1 * (1 * 1) / (1 * 1 * 1 * (1 * 1 * 1))))%R
      with 1%R by (field; lra).
    replace (1 * 1 * 1 * (1 * 1 * 1))%R with 1%R by lra.
    rewrite sqrt_1. lra.
  - intros h. pose proof PI_RGT_0 as Hpi.
    assert (Hself : h !! 0 = Some origin_point) by reflexivity.
    assert (Hd : distance_q (plain (scalar 0))).
    { split; [cbn; lra |]. intros H. exfalso.
      assert (E : physical_type (q_unit (plain (scalar 0))) = "dimensionless"%string)
        by reflexivity.
      rewrite E in H. discriminate H. }
    destruct (SphericalRepresentation_shortcut h 0 _ _ _ [] Hself eq_refl eq_refl eq_refl
                eq_refl eq_refl Hd) as (phi1 & theta1 & d1 & E1 & _ & Ht1 & _).
    destruct (generic_Spherical_to_Physics h 0 _ _ _ [] Hself eq_refl eq_refl eq_refl
                eq_refl eq_refl)
      as (l2 & o & h2 & phi2 & theta2 & d2 & E2 & Hl2 & -> & _ & Ht2 & _).
    exists (fresh (dom h)), (<[fresh (dom h) := PhysicsSpherical phi1 theta1 d1]> h),
      phi1, theta1, d1, l2, h2, phi2, theta2, d2.
    split; [exact E1 |]. split; [apply lookup_fresh_insert |].
    split; [exact E2 |]. split; [exact Hl2 |].
    rewrite (q_si_is _ _ _ _ [] Ht1), (q_si_is _ _ _ _ [] Ht2) by (now left).
    split.
    + cbn. field. lra.
    + cbn [origin_point origin_lon origin_lat plain q_value q_unit scalar item
             u_scale u_radian].
      rewrite !Rmult_0_l, Rplus_0_l, sqrt_0, Rmult_1_r.
      unfold arctan2. repeat case_decide; lra.
Qed.

Lemma q_same_self_is a b s :
  q_shape a = s -> q_is b (q_unit a) s (item (q_value a)) -> q_same b a.
Proof.
  intros Hs Hb. apply (q_same_of_is _ _ _ _ s _ _ Hb (q_is_at _ _ Hs)); auto.
Qed.

Lemma dimensionless_distance_q a :
  distance_q (plain a).
Proof.
  split; [cbn; lra |]. intros H. exfalso.
  assert (E : physical_type (q_unit (plain a)) = "dimensionless"%string) by reflexivity.
  rewrite E in H. discriminate H.
Qed.

Lemma radian_angle_q cls a : angle_q (mkQ cls u_radian a).
Proof. split; [reflexivity | cbn; lra]. Qed.

Lemma si_all_scalar cls u v (P : R -> Prop) :
  P (v * u_scale u)%R -> si_all (mkQ cls u (scalar v)) P.
Proof. intros H idx [<- | []]. exact H. Qed.

(** ** Round trips in real arithmetic *)

Section round_trip_reals.
Local Open Scope R_scope.

Lemma u_radian_pos : 0 < u_scale u_radian.
Proof. cbn. lra. Qed.

(** The longitude stored for the point [(c cos L, c sin L)]. *)
Lemma wrap_arctan2_polar c L :
  0 < c -> 0 <= L < 2 * PI ->
  wrap_longitude u_radian (wrap_longitude u_radian (arctan2 (c * sin L) (c * cos L))) = L.
Proof.
  intros Hc HL. pose proof PI_RGT_0 as Hpi.
  assert (Hw : wrap_longitude u_radian L = L)
    by (apply wrap_longitude_id; [apply u_radian_pos | cbn; lra]).
  destruct (Rle_dec L PI) as [Hle | Hgt].
  - rewrite arctan2_polar by lra. now rewrite Hw, Hw.
  - apply Rnot_le_lt in Hgt.
    rewrite arctan2_polar_wrapped by lra.
    rewrite (wrap_longitude_up u_radian (L - 2 * PI));
      [| apply u_radian_pos | cbn [u_scale u_radian]; lra].
    cbn [u_scale u_radian].
    replace (L - 2 * PI + 2 * PI / 1) with L by (field; lra).
    exact Hw.
Qed.

Lemma polar_longitude D B L r :
  0 < D -> - (PI / 2) < B < PI / 2 -> 0 <= L < 2 * PI -> r = 1 ->
  wrap_longitude u_radian
    (wrap_longitude u_radian (arctan2 (D * cos B * sin L) (D * cos B * cos L * r))) = L.
Proof.
  intros HD HB HL ->. rewrite Rmult_1_r. apply wrap_arctan2_polar; [| exact HL].
  apply Rmult_lt_0_compat; [exact HD | now apply cos_pos_lat].
Qed.

Lemma sin_pos_colat T : 0 < T < PI -> 0 < sin T.
Proof. intros [? ?]. now apply sin_gt_0. Qed.

Lemma physics_azimuth D T P r :
  0 < D -> 0 < T < PI -> - PI < P <= PI -> r = 1 ->
  arctan2 (D * sin T * sin P) (D * sin T * cos P * r) = P.
Proof.
  intros HD HT HP ->. rewrite Rmult_1_r. apply arctan2_polar; [| exact HP].
  apply Rmult_lt_0_compat; [exact HD | now apply sin_pos_colat].
Qed.

Lemma physics_rho D T P r :
  0 < D -> 0 < T < PI -> r = 1 ->
  sqrt (D * sin T * cos P * (D * sin T * cos P)
        + D * sin T * sin P * (D * sin T * sin P) * r) = D * sin T.
Proof.
  intros HD HT ->. rewrite Rmult_1_r. apply sqrt_polar.
  left. apply Rmult_lt_0_compat; [exact HD | now apply sin_pos_colat].
Qed.

Lemma physics_colatitude D T P r1 r2 :
  0 < D -> 0 < T < PI -> r1 = 1 -> r2 = 1 ->
  arctan2 (sqrt (D * sin T * cos P * (D * sin T * cos P)
                 + D * sin T * sin P * (D * sin T * sin P) * r1))
          (D * cos T * r2) = T.
Proof.
  intros HD HT H1 ->. rewrite physics_rho by assumption. rewrite Rmult_1_r.
  apply arctan2_polar; [exact HD | lra].
Qed.

Lemma physics_radius D T P r1 r2 :
  0 < D -> r1 = 1 -> r2 = 1 ->
  sqrt (D * sin T * cos P * (D * sin T * cos P)
        + D * sin T * sin P * (D * sin T * sin P) * r1
        + D * cos T * (D * cos T) * r2) = D.
Proof.
  intros HD -> ->. rewrite !Rmult_1_r.
  replace (D * sin T * cos P * (D * sin T * cos P)
           + D * sin T * sin P * (D * sin T * sin P) + D * cos T * (D * cos T))
    with (D * D * ((Rsqr (sin P) + Rsqr (cos P)) * Rsqr (sin T) + Rsqr (cos T)))
    by (unfold Rsqr; ring).
  rewrite sin2_cos2, Rmult_1_l, sin2_cos2, Rmult_1_r.
  apply sqrt_square. lra.
Qed.

Lemma unit_longitude B L r :
  - (PI / 2) < B < PI / 2 -> 0 <= L < 2 * PI -> r = 1 ->
  wrap_longitude u_radian
    (wrap_longitude u_radian (arctan2 (cos B * sin L) (cos B * cos L * r))) = L.
Proof.
  intros HB HL ->. rewrite Rmult_1_r.
  apply wrap_arctan2_polar; [now apply cos_pos_lat | exact HL].
Qed.

Lemma unit_latitude B L r1 r2 :
  - (PI / 2) < B < PI / 2 -> r1 = 1 -> r2 = 1 ->
  arctan2 (sin B)
          (sqrt (cos B * cos L * (cos B * cos L)
                 + cos B * sin L * (cos B * sin L) * r1) * r2) = B.
Proof.
  intros HB -> ->. rewrite !Rmult_1_r.
  rewrite sqrt_polar by (left; now apply cos_pos_lat).
  rewrite <- (Rmult_1_l (sin B)), <- (Rmult_1_l (cos B)).
  pose proof PI_RGT_0. apply arctan2_polar; lra.
Qed.

Lemma cylinder_rho rho P r :
  0 < rho -> r = 1 ->
  sqrt (rho * cos P * (rho * cos P) + rho * sin P * (rho * sin P) * r) = rho.
Proof. intros H ->. rewrite Rmult_1_r. apply sqrt_polar. lra. Qed.

Lemma cylinder_azimuth rho P r :
  0 < rho -> - PI < P <= PI -> r = 1 ->
  arctan2 (rho * sin P) (rho * cos P * r) = P.
Proof. intros H HP ->. rewrite Rmult_1_r. now apply arctan2_polar. Qed.

(** The same on the closed ranges, the poles included. *)
Lemma wrap_wrap_0 : wrap_longitude u_radian (wrap_longitude u_radian 0) = 0.
Proof.
  pose proof PI_RGT_0 as Hpi.
  assert (H0 : wrap_longitude u_radian 0 = 0)
    by (apply wrap_longitude_id; cbn; lra).
  now rewrite !H0.
Qed.

Lemma polar_longitude_where D B L r :
  0 < D -> - (PI / 2) <= B <= PI / 2 -> 0 <= L < 2 * PI ->
  - (PI / 2) < B < PI / 2 \/ L = 0 -> r = 1 ->
  wrap_longitude u_radian
    (wrap_longitude u_radian (arctan2 (D * cos B * sin L) (D * cos B * cos L * r))) = L.
Proof.
  intros HD HB HL [Hopen | ->] Hr.
  - now apply polar_longitude.
  - subst r. rewrite sin_0, cos_0, Rmult_0_r, !Rmult_1_r.
    rewrite arctan2_0_nonneg; [apply wrap_wrap_0 |].
    apply Rmult_le_pos; [lra | now apply cos_nonneg_lat].
Qed.

Lemma sin_nonneg_colat T : 0 <= T <= PI -> 0 <= sin T.
Proof. intros [? ?]. now apply sin_ge_0. Qed.

Lemma physics_rho_closed D T P r :
  0 < D -> 0 <= T <= PI -> r = 1 ->
  sqrt (D * sin T * cos P * (D * sin T * cos P)
        + D * sin T * sin P * (D * sin T * sin P) * r) = D * sin T.
Proof.
  intros HD HT ->. rewrite Rmult_1_r. apply sqrt_polar.
  apply Rmult_le_pos; [lra | now apply sin_nonneg_colat].
Qed.

Lemma physics_colatitude_closed D T P r1 r2 :
  0 < D -> 0 <= T <= PI -> r1 = 1 -> r2 = 1 ->
  arctan2 (sqrt (D * sin T * cos P * (D * sin T * cos P)
                 + D * sin T * sin P * (D * sin T * sin P) * r1))
          (D * cos T * r2) = T.
Proof.
  intros HD HT H1 ->. rewrite physics_rho_closed by assumption. rewrite Rmult_1_r.
  pose proof PI_RGT_0. apply arctan2_polar; [exact HD | lra].
Qed.

Lemma physics_azimuth_where D T P r :
  0 < D -> 0 <= T <= PI -> - PI < P <= PI -> 0 < T < PI \/ P = 0 -> r = 1 ->
  arctan2 (D * sin T * sin P) (D * sin T * cos P * r) = P.
Proof.
  intros HD HT HP [Hopen | ->] Hr.
  - now apply physics_azimuth.
  - subst r. rewrite sin_0, cos_0, Rmult_0_r, !Rmult_1_r.
    apply arctan2_0_nonneg. apply Rmult_le_pos; [lra | now apply sin_nonneg_colat].
Qed.

Lemma physics_azimuth_wrapped D T P r :
  0 < D -> 0 < T < PI -> PI < P < 2 * PI -> r = 1 ->
  arctan2 (D * sin T * sin P) (D * sin T * cos P * r) = P - 2 * PI.
Proof.
  intros HD HT HP ->. rewrite Rmult_1_r. apply arctan2_polar_wrapped; [| exact HP].
  apply Rmult_lt_0_compat; [exact HD | now apply sin_pos_colat].
Qed.

Lemma unit_longitude_where B L r :
  - (PI / 2) <= B <= PI / 2 -> 0 <= L < 2 * PI ->
  - (PI / 2) < B < PI / 2 \/ L = 0 -> r = 1 ->
  wrap_longitude u_radian
    (wrap_longitude u_radian (arctan2 (cos B * sin L) (cos B * cos L * r))) = L.
Proof.
  intros HB HL [Hopen | ->] Hr.
  - now apply unit_longitude.
  - subst r. rewrite sin_0, cos_0, Rmult_0_r, !Rmult_1_r.
    rewrite arctan2_0_nonneg; [apply wrap_wrap_0 | now apply cos_nonneg_lat].
Qed.

Lemma unit_latitude_closed B L r1 r2 :
  - (PI / 2) <= B <= PI / 2 -> r1 = 1 -> r2 = 1 ->
  arctan2 (sin B)
          (sqrt (cos B * cos L * (cos B * cos L)
                 + cos B * sin L * (cos B * sin L) * r1) * r2) = B.
Proof.
  intros HB -> ->. rewrite !Rmult_1_r.
  rewrite sqrt_polar by now apply cos_nonneg_lat.
  rewrite <- (Rmult_1_l (sin B)), <- (Rmult_1_l (cos B)).
  pose proof PI_RGT_0. apply arctan2_polar; lra.
Qed.

End round_trip_reals.

(** ** The masked assignment when every entry is selected *)

Lemma indices_1d n : indices [n] = map (fun i => [i]) (seq 0 n).
Proof.
  cbn. generalize 0. induction n as [| n IH]; intros a; cbn; [reflexivity |].
  now rewrite IH.
Qed.

Lemma mask_rank_all_true m a k i :
  (forall j, a <= j < a + k -> m [j] = true) -> a <= i < a + k ->
  mask_rank m [i] (map (fun i => [i]) (seq a k)) = i - a.
Proof.
  revert a. induction k as [| k IH]; intros a Hm Hi; [lia |]. cbn.
  destruct (decide ([a] = [i])) as [E | Hne].
  - injection E as ->. lia.
  - assert (a <> i) by congruence.
    rewrite Hm by lia. rewrite IH; [lia | | lia].
    intros j Hj. apply Hm. lia.
Qed.

Lemma count_true_all l : Forall (fun b => b = true) l -> count_true l = length l.
Proof. induction 1 as [| b l -> _ IH]; cbn; [reflexivity | now rewrite IH]. Qed.

Lemma setitem_mask_all_true {A} (a : ndarray A) mask v s g :
  s = [] \/ (exists n, s = [n]) ->
  shape a = s -> arr_is mask s (fun _ => true) -> arr_is v s g ->
  exists c, setitem_mask a mask v = Ok c /\ arr_is c s g.
Proof.
  intros Hs Ha [Hms Hm] [Hvs Hv]. unfold setitem_mask. rewrite Hvs.
  destruct Hs as [-> | [n ->]].
  - eexists. split; [reflexivity |]. split; [exact Ha |].
    intros idx Hi. cbn. rewrite Hm by exact Hi. destruct Hi as [<- | []].
    apply Hv. now left.
  - assert (Hk : count_true (flat mask) = n).
    { rewrite count_true_all.
      - unfold flat. rewrite Hms, length_map, indices_1d, length_map. apply length_seq.
      - unfold flat. rewrite Hms. apply Forall_forall.
        intros b (idx & <- & Hi)%list_elem_of_In%in_map_iff. now apply Hm. }
    rewrite Hk, Nat.eqb_refl.
    eexists. split; [reflexivity |]. split; [exact Ha |].
    intros idx Hi. cbn. rewrite Hm by exact Hi. rewrite Hms.
    pose proof Hi as Hi'. rewrite indices_1d in Hi'.
    apply in_map_iff in Hi' as (i & <- & Hin). apply in_seq in Hin.
    rewrite indices_1d, mask_rank_all_true.
    + rewrite Nat.sub_0_r. now apply Hv.
    + intros j Hj. apply Hm. rewrite indices_1d. apply in_map_iff.
      exists j. split; [reflexivity | apply in_seq; lia].
    + lia.
Qed.

Lemma CylindricalRepresentation_from_cartesian_ok (h : heap) cart x y z
    ux uy uz s fx fy fz :
  h !! cart = Some (Cartesian x y z) ->
  q_is x ux s fx -> q_is y uy s fy -> q_is z uz s fz ->
  u_dim uy = u_dim ux ->
  physical_type (unit_sqrt (unit_sqr ux)) = physical_type uz ->
  s = [] \/ (exists n, s = [n]) ->
  (forall idx, In idx (indices s) ->
     0 < sqrt (fx idx * fx idx
               + fy idx * fy idx * (u_scale (unit_sqr uy) / u_scale (unit_sqr ux))))%R ->
  exists rho phi z',
    CylindricalRepresentation_from_cartesian cart h
    = (Ok (fresh (dom h)), <[fresh (dom h) := Cylindrical rho phi z']> h)
    /\ q_is rho (unit_sqrt (unit_sqr ux)) s
         (fun idx => sqrt (fx idx * fx idx
                           + fy idx * fy idx
                             * (u_scale (unit_sqr uy) / u_scale (unit_sqr ux))))%R
    /\ q_is phi u_deg s
         (fun idx => arctan2 (fy idx) (fx idx * (u_scale ux / u_scale uy))
                     * (u_scale u_radian / u_scale u_deg))%R
    /\ q_is z' uz s fz.
Proof.
  intros Hcart Hx Hy Hz Hdy Hdz Hs Hpos.
  destruct (q_add_is _ _ _ _ _ _ _ (q_sqr_is _ _ _ _ Hx) (q_sqr_is _ _ _ _ Hy)
              (unit_sqr_dim _ _ Hdy)) as (xy & Exy & Hxy).
  pose proof (q_sqrt_is _ _ _ _ Hxy) as Hrho.
  destruct (np_arctan2_is _ _ _ _ _ _ _ Hy Hx (eq_sym Hdy)) as (v & Ev & Cv & Hv).
  destruct (q_to_is v u_radian u_deg s _ Hv eq_refl) as (v' & Ev' & _ & [_ Hv']).
  assert (Hmask : arr_is (q_gt0 (q_sqrt xy)) s (fun _ => true)).
  { destruct Hrho as [_ Hr]. apply (arr_is_ext _ _ _ _ (np_map_is _ _ _ _ Hr)).
    intros idx Hi. apply bool_decide_eq_true. now apply Hpos. }
  assert (Hsx : q_shape x = s) by apply Hx.
  destruct (setitem_mask_all_true (np_zeros (q_shape x)) _ _ s _ Hs Hsx Hmask Hv')
    as (c & Ec & Hc).
  destruct (CylindricalRepresentation_init_ok (PyQ (q_sqrt xy))
              (PyQ (mkQ Quantity u_deg c)) (PyQ z) true h
              _ _ _ _ _ _ _
              (accepted_Quantity _ _ _ _ true Hrho)
              (accepted_Angle (mkQ Quantity u_deg c) u_deg s _ true
                 (conj eq_refl Hc) eq_refl)
              (accepted_Quantity _ _ _ _ true Hz))
    as (rho' & phi' & z' & Einit & Hrho' & Hphi' & Hz').
  { exact Hdz. }
  exists rho', phi', z'. split; [| auto].
  unfold CylindricalRepresentation_from_cartesian.
  rewrite (bind_ok _ _ _ _ _ (cart_xyz_ok _ _ _ _ _ Hcart)).
  cbn beta iota zeta. rewrite bind_lift, Exy. cbn [rbind]. cbn beta iota.
  rewrite bind_lift, Ev. cbn [rbind].
  unfold q_setitem_mask. cbn [q_unit q_value array_times_unit q_class q_shape].
  rewrite Ev'. cbn [rbind].
  rewrite decide_True by (destruct Hmask as [-> _]; exact (eq_sym Hsx)).
  rewrite Ec. cbn [rbind]. cbn beta iota.
  exact Einit.
Qed.

(** ** Round trips through Cartesian *)

Lemma to_cartesian_class (h : heap) self o :
  h !! self = Some o ->
  to_cartesian self h =
  match class_of o with
  | CartesianRepresentation => CartesianRepresentation_to_cartesian self h
  | SphericalRepresentation => SphericalRepresentation_to_cartesian self h
  | UnitSphericalRepresentation => UnitSphericalRepresentation_to_cartesian self h
  | PhysicsSphericalRepresentation => PhysicsSphericalRepresentation_to_cartesian self h
  | CylindricalRepresentation => CylindricalRepresentation_to_cartesian self h
  end.
Proof.
  intros H. unfold to_cartesian.
  rewrite (bind_ok _ _ _ _ _ (get_object_some _ _ _ H)). now destruct (class_of o).
Qed.

Lemma rep_same3 (mk : quantity -> quantity -> quantity -> rep) a b c a' b' c' :
  rep_components (mk a b c) = [a; b; c] -> rep_components (mk a' b' c') = [a'; b'; c'] ->
  class_of (mk a b c) = class_of (mk a' b' c') ->
  q_same a a' -> q_same b b' -> q_same c c' -> rep_same (mk a b c) (mk a' b' c').
Proof.
  intros E E' Hc Ha Hb Hcc. split; [exact Hc |]. rewrite E, E'.
  apply Forall2_cons_2; [exact Ha |]. apply Forall2_cons_2; [exact Hb |].
  apply Forall2_cons_2; [exact Hcc | constructor].
Qed.

Lemma Spherical_round_trip (h : heap) self s lon lat d :
  h !! self = Some (Spherical lon lat d) ->
  q_shape lon = s -> q_shape lat = s -> q_shape d = s ->
  angle_q lon -> angle_q lat -> (0 < u_scale (q_unit d))%R ->
  si_all d (fun v => 0 < v)%R ->
  si_all lat (fun a => - (PI / 2) <= a <= PI / 2)%R ->
  si_all lon (fun a => 0 <= a < 2 * PI)%R ->
  round_trip_where
    (fun idx => (- (PI / 2) < q_si lat idx < PI / 2)%R \/ q_si lon idx = 0%R)
    self (Spherical lon lat d) h.
Proof.
  intros Hself Hslon Hslat Hsd [Hlon _] [Hlat _] Hsc Hdpos Hlatr Hlonr.
  destruct (SphericalRepresentation_to_cartesian_ok h self lon lat d _ _ _ s _ _ _ Hself
              (q_is_at _ _ Hslon) (q_is_at _ _ Hslat) (q_is_at _ _ Hsd) Hlon Hlat)
    as (x & y & z & Eto & Hx & Hy & Hz).
  destruct (cartesian_unit_scales (q_unit d) Hsc) as (R1 & R2 & R3 & R4 & R5 & R6 & R7).
  destruct (SphericalRepresentation_from_cartesian_ok
              (<[fresh (dom h) := Cartesian x y z]> h) (fresh (dom h)) x y z
              _ _ _ s _ _ _ (lookup_fresh_insert _ _) Hx Hy Hz)
    as (lon' & lat' & d' & Efrom & Hlon' & Hlat' & Hd').
  { reflexivity. }
  { cbn. now rewrite !dim_mul_zero_r. }
  { cbn. lra. }
  eexists (fresh (dom h)), (<[fresh (dom h) := Cartesian x y z]> h), _, _,
    (Spherical lon' lat' d').
  split; [rewrite (to_cartesian_class _ _ _ Hself); exact Eto |].
  split; [exact Efrom |]. split; [apply lookup_fresh_insert |].
  split; [reflexivity |]. cbn [rep_components].
  split; [rewrite (proj1 Hlon'); now rewrite Hlon |].
  split; [transitivity s; [apply Hlon' | now symmetry] |].
  split.
  - intros idx Hi Hdet. rewrite Hslon in Hi.
    rewrite (q_si_is _ _ _ _ _ Hlon' Hi). cbn [u_scale u_radian]. rewrite Rmult_1_r.
    apply polar_longitude_where; [now apply (distance_pos d s) | | | exact Hdet | exact R1].
    + exact (si_all_at _ _ _ _ Hlatr Hslat Hi).
    + exact (si_all_at _ _ _ _ Hlonr Hslon Hi).
  - apply Forall2_cons_2; [| apply Forall2_cons_2; [| constructor]].
    + apply (q_same_of_is _ _ _ _ s _ _ Hlat' (q_is_at _ _ Hslat)); [now rewrite Hlat |].
      intros idx Hi. cbn [u_scale u_radian]. rewrite Rmult_1_r.
      apply polar_latitude_closed; [now apply (distance_pos d s) | | exact R2 | exact R5].
      exact (si_all_at _ _ _ _ Hlatr Hslat Hi).
    + apply (q_same_of_is _ _ _ _ s _ _ Hd' (q_is_at _ _ Hsd)); [exact R7 |].
      intros idx Hi. rewrite R6. f_equal.
      apply polar_radius_any; [now apply (distance_pos d s) | exact R2 | exact R3].
Qed.

Lemma PhysicsSpherical_round_trip (h : heap) self s phi theta d :
  h !! self = Some (PhysicsSpherical phi theta d) ->
  q_shape phi = s -> q_shape theta = s -> q_shape d = s ->
  angle_q phi -> angle_q theta -> (0 < u_scale (q_unit d))%R ->
  si_all d (fun v => 0 < v)%R ->
  si_all theta (fun a => 0 <= a <= PI)%R ->
  exists l1 h1 l2 h2 phi' theta' d',
    to_cartesian self h = (Ok l1, h1)
    /\ from_cartesian PhysicsSphericalRepresentation l1 h1 = (Ok l2, h2)
    /\ h2 !! l2 = Some (PhysicsSpherical phi' theta' d')
    /\ reproduces
         (fun idx => (- PI < q_si phi idx <= PI)%R
                     /\ ((0 < q_si theta idx < PI)%R \/ q_si phi idx = 0%R))
         (PhysicsSpherical phi' theta' d') (PhysicsSpherical phi theta d)
    /\ forall idx, In idx (indices s) ->
         (PI < q_si phi idx < 2 * PI)%R -> (0 < q_si theta idx < PI)%R ->
         q_si phi' idx = (q_si phi idx - 2 * PI)%R.
Proof.
  intros Hself Hsphi Hstheta Hsd [Hphi _] [Htheta _] Hsc Hdpos Htr.
  destruct (PhysicsSphericalRepresentation_to_cartesian_ok h self phi theta d _ _ _ s
              _ _ _ Hself (q_is_at _ _ Hsphi) (q_is_at _ _ Hstheta) (q_is_at _ _ Hsd)
              Hphi Htheta)
    as (x & y & z & Eto & Hx & Hy & Hz).
  destruct (cartesian_unit_scales (q_unit d) Hsc) as (R1 & R2 & R3 & R4 & R5 & R6 & R7).
  destruct (PhysicsSphericalRepresentation_from_cartesian_ok
              (<[fresh (dom h) := Cartesian x y z]> h) (fresh (dom h)) x y z
              _ _ _ s _ _ _ (lookup_fresh_insert _ _) Hx Hy Hz)
    as (phi' & theta' & d' & Efrom & Hphi' & Htheta' & Hd').
  { reflexivity. }
  { cbn. now rewrite !dim_mul_zero_r. }
  eexists (fresh (dom h)), (<[fresh (dom h) := Cartesian x y z]> h), _, _,
    phi', theta', d'.
  split; [rewrite (to_cartesian_class _ _ _ Hself); exact Eto |].
  split; [exact Efrom |]. split; [apply lookup_fresh_insert |].
  split.
  - split; [reflexivity |]. cbn [rep_components].
    split; [rewrite (proj1 Hphi'); now rewrite Hphi |].
    split; [transitivity s; [apply Hphi' | now symmetry] |].
    split.
    + intros idx Hi [Hrange Hdet]. rewrite Hsphi in Hi.
      rewrite (q_si_is _ _ _ _ _ Hphi' Hi). cbn [u_scale u_radian]. rewrite Rmult_1_r.
      apply physics_azimuth_where;
        [now apply (distance_pos d s) | exact (si_all_at _ _ _ _ Htr Hstheta Hi)
        | exact Hrange | exact Hdet | exact R1].
    + apply Forall2_cons_2; [| apply Forall2_cons_2; [| constructor]].
      * apply (q_same_of_is _ _ _ _ s _ _ Htheta' (q_is_at _ _ Hstheta));
          [now rewrite Htheta |].
        intros idx Hi. cbn [u_scale u_radian]. rewrite Rmult_1_r.
        apply physics_colatitude_closed;
          [now apply (distance_pos d s) | | exact R2 | exact R4].
        exact (si_all_at _ _ _ _ Htr Hstheta Hi).
      * apply (q_same_of_is _ _ _ _ s _ _ Hd' (q_is_at _ _ Hsd)); [exact R7 |].
        intros idx Hi. rewrite R6. f_equal.
        apply physics_radius; [now apply (distance_pos d s) | exact R2 | exact R3].
  - intros idx Hi Hgt Hopen.
    rewrite (q_si_is _ _ _ _ _ Hphi' Hi). cbn [u_scale u_radian]. rewrite Rmult_1_r.
    apply physics_azimuth_wrapped;
      [now apply (distance_pos d s) | exact Hopen | exact Hgt | exact R1].
Qed.

Lemma UnitSpherical_round_trip (h : heap) self s lon lat :
  h !! self = Some (UnitSpherical lon lat) ->
  q_shape lon = s -> q_shape lat = s ->
  angle_q lon -> angle_q lat ->
  si_all lat (fun a => - (PI / 2) <= a <= PI / 2)%R ->
  si_all lon (fun a => 0 <= a < 2 * PI)%R ->
  round_trip_where
    (fun idx => (- (PI / 2) < q_si lat idx < PI / 2)%R \/ q_si lon idx = 0%R)
    self (UnitSpherical lon lat) h.
Proof.
  intros Hself Hslon Hslat [Hlon _] [Hlat _] Hlatr Hlonr.
  destruct (UnitSphericalRepresentation_to_cartesian_ok h self lon lat _ _ s _ _ Hself
              (q_is_at _ _ Hslon) (q_is_at _ _ Hslat) Hlon Hlat)
    as (x & y & z & Eto & Hx & Hy & Hz).
  destruct (cartesian_unit_scales dimensionless_unscaled ltac:(cbn; lra))
    as (R1 & R2 & R3 & R4 & R5 & R6 & R7).
  destruct (UnitSphericalRepresentation_from_cartesian_ok
              (<[fresh (dom h) := Cartesian x y z]> h) (fresh (dom h)) x y z
              _ _ _ s _ _ _ (lookup_fresh_insert _ _) Hx Hy Hz)
    as (lon' & lat' & Efrom & Hlon' & Hlat').
  { reflexivity. }
  { reflexivity. }
  { cbn. lra. }
  eexists (fresh (dom h)), (<[fresh (dom h) := Cartesian x y z]> h), _, _,
    (UnitSpherical lon' lat').
  split; [rewrite (to_cartesian_class _ _ _ Hself); exact Eto |].
  split; [exact Efrom |]. split; [apply lookup_fresh_insert |].
  split; [reflexivity |]. cbn [rep_components].
  split; [rewrite (proj1 Hlon'); now rewrite Hlon |].
  split; [transitivity s; [apply Hlon' | now symmetry] |].
  split.
  - intros idx Hi Hdet. rewrite Hslon in Hi.
    rewrite (q_si_is _ _ _ _ _ Hlon' Hi). cbn [u_scale u_radian]. rewrite Rmult_1_r.
    apply unit_longitude_where; [| | exact Hdet | exact R1].
    + exact (si_all_at _ _ _ _ Hlatr Hslat Hi).
    + exact (si_all_at _ _ _ _ Hlonr Hslon Hi).
  - apply Forall2_cons_2; [| constructor].
    apply (q_same_of_is _ _ _ _ s _ _ Hlat' (q_is_at _ _ Hslat)); [now rewrite Hlat |].
    intros idx Hi. cbn [u_scale u_radian]. rewrite Rmult_1_r.
    apply unit_latitude_closed; [| exact R2 | exact R5].
    exact (si_all_at _ _ _ _ Hlatr Hslat Hi).
Qed.

Lemma Cylindrical_round_trip (h : heap) self s rho phi z :
  h !! self = Some (Cylindrical rho phi z) ->
  q_shape rho = s -> q_shape phi = s -> q_shape z = s ->
  s = [] \/ (exists n, s = [n]) ->
  angle_q phi -> (0 < u_scale (q_unit rho))%R ->
  physical_type (q_unit rho) = physical_type (q_unit z) ->
  si_all rho (fun v => 0 < v)%R ->
  si_all phi (fun a => - PI < a <= PI)%R ->
  round_trip self (Cylindrical rho phi z) h.
Proof.
  intros Hself Hsrho Hsphi Hsz Hs [Hphi _] Hsc Hpt Hrpos Hpr.
  destruct (CylindricalRepresentation_to_cartesian_ok h self rho phi z _ _ _ s _ _ _ Hself
              (q_is_at _ _ Hsrho) (q_is_at _ _ Hsphi) (q_is_at _ _ Hsz) Hphi Hpt)
    as (x & y & z' & Eto & Hx & Hy & Hz).
  set (ux := unit_mul (q_unit rho) dimensionless_unscaled) in *.
  assert (R1 : (u_scale ux / u_scale ux = 1)%R) by (subst ux; cbn; field; lra).
  assert (R2 : (u_scale (unit_sqr ux) / u_scale (unit_sqr ux) = 1)%R)
    by (subst ux; cbn; field; lra).
  assert (R6 : u_scale (unit_sqrt (unit_sqr ux)) = u_scale (q_unit rho)).
  { rewrite unit_sqrt_sqr_scale; subst ux; cbn; lra. }
  assert (R7 : u_dim (unit_sqrt (unit_sqr ux)) = u_dim (q_unit rho)).
  { rewrite unit_sqrt_sqr_dim. apply unit_mul_one_dim. }
  assert (Hrho_pos : forall idx, In idx (indices s) -> (0 < item (q_value rho) idx)%R)
    by (intros; now apply (distance_pos rho s)).
  destruct (CylindricalRepresentation_from_cartesian_ok
              (<[fresh (dom h) := Cartesian x y z']> h) (fresh (dom h)) x y z'
              _ _ _ s _ _ _ (lookup_fresh_insert _ _) Hx Hy Hz)
    as (rho' & phi' & z'' & Efrom & Hrho' & Hphi' & Hz').
  { reflexivity. }
  { rewrite <- Hpt. now apply physical_type_dim. }
  { exact Hs. }
  { intros idx Hi. rewrite cylinder_rho; [now apply Hrho_pos | now apply Hrho_pos | exact R2]. }
  eexists (fresh (dom h)), (<[fresh (dom h) := Cartesian x y z']> h), _, _,
    (Cylindrical rho' phi' z'').
  split; [rewrite (to_cartesian_class _ _ _ Hself); exact Eto |].
  split; [exact Efrom |]. split; [apply lookup_fresh_insert |].
  apply (rep_same3 Cylindrical); try reflexivity.
  - apply (q_same_of_is _ _ _ _ s _ _ Hrho' (q_is_at _ _ Hsrho)); [exact R7 |].
    intros idx Hi. rewrite R6. f_equal.
    apply cylinder_rho; [now apply Hrho_pos | exact R2].
  - apply (q_same_of_is _ _ _ _ s _ _ Hphi' (q_is_at _ _ Hsphi)); [now rewrite Hphi |].
    intros idx Hi. pose proof PI_RGT_0.
    rewrite cylinder_azimuth;
      [cbn; field; lra | now apply Hrho_pos
      | exact (si_all_at _ _ _ _ Hpr Hsphi Hi) | exact R1].
  - apply (q_same_of_is _ _ _ _ s _ _ Hz' (q_is_at _ _ Hsz)); [reflexivity |].
    reflexivity.
Qed.

(** C4 fails as stated, for a negative distance and for the distance
    zero.  For the point [behind_point], whose distance is -1, converting
    to Cartesian and back to Spherical succeeds and returns the distance
    1: the component is not reproduced, by a margin of 2.  For the point
    [origin_point], whose distance is 0 and whose latitude is 45 degrees,
    it returns the latitude 0. *)
Lemma round_trip_loses_the_sign_of_distance :
  (let h : heap := {[ 0 := behind_point ]} in
   exists l1 h1 l2 h2 lon lat d,
     to_cartesian 0 h = (Ok l1, h1)
     /\ from_cartesian SphericalRepresentation l1 h1 = (Ok l2, h2)
     /\ h2 !! l2 = Some (Spherical lon lat d)
     /\ q_si d [] = 1%R /\ q_si (plain (scalar (-1))) [] = (-1)%R)
  /\ (let h : heap := {[ 0 := origin_point ]} in
      exists l1 h1 l2 h2 lon lat d,
        to_cartesian 0 h = (Ok l1, h1)
        /\ from_cartesian SphericalRepresentation l1 h1 = (Ok l2, h2)
        /\ h2 !! l2 = Some (Spherical lon lat d)
        /\ q_si lat [] = 0%R /\ q_si origin_lat [] = (PI / 4)%R).
Proof.
  split.
  - intros h.
    assert (Hself : h !! 0 = Some behind_point) by reflexivity.
    destruct (SphericalRepresentation_to_cartesian_ok h 0 _ _ _ _ _ _ [] _ _ _ Hself
                (q_is_self _) (q_is_self _) (q_is_self _) eq_refl eq_refl)
      as (x & y & z & Eto & Hx & Hy & Hz).
    destruct (SphericalRepresentation_from_cartesian_ok
                (<[fresh (dom h) := Cartesian x y z]> h) (fresh (dom h)) x y z
                _ _ _ [] _ _ _ (lookup_fresh_insert _ _) Hx Hy Hz)
      as (lon' & lat' & d' & Efrom & _ & _ & Hd').
    { reflexivity. }
    { reflexivity. }
    { cbn. lra. }
    eexists (fresh (dom h)), (<[fresh (dom h) := Cartesian x y z]> h), _, _, lon', lat', d'.
    split; [rewrite (to_cartesian_class _ _ _ Hself); exact Eto |].
    split; [exact Efrom |]. split; [apply lookup_fresh_insert |].
    destruct Hd' as [Hu [_ Hv]]. unfold q_si. rewrite Hu, Hv by (now left). cbn.
    rewrite !Rmult_0_l, cos_0, sin_0. split; [| lra].
    replace (-1 * 1 * 1 * (-1 * 1 * 1) + -1 * 1 * 0 * (-1 * 1 * 0) * (1 * 1 * 1 * (1 * 1 * 1) / (1 * 1 * 1 * (1 * 1 * 1)))
             + -1 * 0 * (-1 * 0) * (1 * 1 * (1 * 1) / (1 * 1 * 1 * (1 * 1 * 1))))%R
      with 1%R by (field; lra).
    replace (1 * 1 * 1 * (1 * 1 * 1))%R with 1%R by lra.
    rewrite sqrt_1. lra.
  - intros h. pose proof PI_RGT_0 as Hpi.
    assert (Hself : h !! 0 = Some origin_point) by reflexivity.
    destruct (SphericalRepresentation_to_cartesian_ok h 0 _ _ _ _ _ _ [] _ _ _ Hself
                (q_is_self _) (q_is_self _) (q_is_self _) eq_refl eq_refl)
      as (x & y & z & Eto & Hx & Hy & Hz).
    destruct (SphericalRepresentation_from_cartesian_ok
                (<[fresh (dom h) := Cartesian x y z]> h) (fresh (dom h)) x y z
                _ _ _ [] _ _ _ (lookup_fresh_insert _ _) Hx Hy Hz)
      as (lon' & lat' & d' & Efrom & _ & Hlat' & _).
    { reflexivity. }
    { reflexivity. }
    { cbn. lra. }
    eexists (fresh (dom h)), (<[fresh (dom h) := Cartesian x y z]> h), _, _, lon', lat', d'.
    split; [rewrite (to_cartesian_class _ _ _ Hself); exact Eto |].
    split; [exact Efrom |]. split; [apply lookup_fresh_insert |].
    split.
    + rewrite (q_si_is _ _ _ _ [] Hlat') by (now left).
      cbn [origin_point origin_lon origin_lat plain q_value q_unit scalar item
             u_scale u_radian].
      rewrite !Rmult_0_l, Rplus_0_l, sqrt_0, Rmult_0_l, Rmult_1_r.
      unfold arctan2. repeat case_decide; lra.
    + unfold q_si. cbn. field.
Qed.

(** * Further properties of the representations *)

(** The Cartesian form of a point of the unit sphere is a dimensionless
    vector of length one: whatever the angular units of [lon] and [lat],
    [to_cartesian] returns a new Cartesian object whose components are
    dimensionless, have the shape of the angles, and satisfy
    x^2 + y^2 + z^2 = 1 at every index. *)
Theorem UnitSpherical_to_cartesian_unit_norm (h : heap) self lon lat s :
  h !! self = Some (UnitSpherical lon lat) ->
  q_shape lon = s -> q_shape lat = s ->
  u_dim (q_unit lon) = dim_angle -> u_dim (q_unit lat) = dim_angle ->
  exists x y z,
    to_cartesian self h = (Ok (fresh (dom h)), <[fresh (dom h) := Cartesian x y z]> h)
    /\ Forall (fun q => u_dim (q_unit q) = dim_zero /\ q_shape q = s) [x; y; z]
    /\ forall idx, In idx (indices s) ->
         (q_si x idx * q_si x idx + q_si y idx * q_si y idx + q_si z idx * q_si z idx = 1)%R.
Proof.
  intros Hself Hslon Hslat Hlon Hlat.
  destruct (UnitSphericalRepresentation_to_cartesian_ok h self lon lat _ _ s _ _ Hself
              (q_is_at _ _ Hslon) (q_is_at _ _ Hslat) Hlon Hlat)
    as (x & y & z & Eto & Hx & Hy & Hz).
  exists x, y, z. split; [rewrite (to_cartesian_class _ _ _ Hself); exact Eto |].
  split.
  - repeat constructor;
      first [ now rewrite (proj1 Hx) | now rewrite (proj1 Hy) | now rewrite (proj1 Hz)
            | apply Hx | apply Hy | apply Hz ].
  - intros idx Hi.
    rewrite (q_si_is _ _ _ _ _ Hx Hi), (q_si_is _ _ _ _ _ Hy Hi), (q_si_is _ _ _ _ _ Hz Hi).
    cbn [u_scale unit_mul dimensionless_unscaled].
    set (B := (item (q_value lat) idx * u_scale (q_unit lat))%R).
    set (L := (item (q_value lon) idx * u_scale (q_unit lon))%R).
    replace (cos B * cos L * (1 * 1 * 1) * (cos B * cos L * (1 * 1 * 1))
             + cos B * sin L * (1 * 1 * 1) * (cos B * sin L * (1 * 1 * 1))
             + sin B * (1 * 1) * (sin B * (1 * 1)))%R
      with ((Rsqr (sin L) + Rsqr (cos L)) * Rsqr (cos B) + Rsqr (sin B))%R
      by (unfold Rsqr; ring).
    now rewrite sin2_cos2, Rmult_1_l, Rplus_comm, sin2_cos2.
Qed.

Lemma UnitSpherical_to_cartesian_unit_norm_witness :
  exists x y z,
    to_cartesian 0 sky_heap
    = (Ok (fresh (dom sky_heap)), <[fresh (dom sky_heap) := Cartesian x y z]> sky_heap)
    /\ (q_si x [] * q_si x [] + q_si y [] * q_si y [] + q_si z [] * q_si z [] = 1)%R.
Proof.
  destruct (UnitSpherical_to_cartesian_unit_norm sky_heap 0 sky_lon sky_lat []
              eq_refl eq_refl eq_refl eq_refl eq_refl) as (x & y & z & E & _ & H).
  exists x, y, z. split; [exact E |]. apply H. now left.
Defined.

Lemma norm_identity D B L k1 k2 :
  (k1 = k2 ->
   D * cos B * cos L * k1 * (D * cos B * cos L * k1)
   + D * cos B * sin L * k1 * (D * cos B * sin L * k1)
   + D * sin B * k2 * (D * sin B * k2) = D * k2 * (D * k2))%R.
Proof.
  intros ->.
  replace (D * cos B * cos L * k2 * (D * cos B * cos L * k2)
           + D * cos B * sin L * k2 * (D * cos B * sin L * k2)
           + D * sin B * k2 * (D * sin B * k2))%R
    with (D * k2 * (D * k2)
          * ((Rsqr (sin L) + Rsqr (cos L)) * Rsqr (cos B) + Rsqr (sin B)))%R
    by (unfold Rsqr; ring).
  now rewrite sin2_cos2, Rmult_1_l, Rplus_comm, sin2_cos2, Rmult_1_r.
Qed.

(** The Cartesian form of a spherical point lies at the distance of the
    point from the origin: [to_cartesian] of a Spherical object returns a
    new Cartesian object whose components have the dimension and shape of
    the distance and satisfy x^2 + y^2 + z^2 = distance^2 at every
    index, for a distance of either sign. *)
Theorem Spherical_to_cartesian_norm (h : heap) self lon lat d s :
  h !! self = Some (Spherical lon lat d) ->
  q_shape lon = s -> q_shape lat = s -> q_shape d = s ->
  u_dim (q_unit lon) = dim_angle -> u_dim (q_unit lat) = dim_angle ->
  exists x y z,
    to_cartesian self h = (Ok (fresh (dom h)), <[fresh (dom h) := Cartesian x y z]> h)
    /\ Forall (fun q => u_dim (q_unit q) = u_dim (q_unit d) /\ q_shape q = s) [x; y; z]
    /\ forall idx, In idx (indices s) ->
         (q_si x idx * q_si x idx + q_si y idx * q_si y idx + q_si z idx * q_si z idx
          = q_si d idx * q_si d idx)%R.
Proof.
  intros Hself Hslon Hslat Hsd Hlon Hlat.
  destruct (SphericalRepresentation_to_cartesian_ok h self lon lat d _ _ _ s _ _ _ Hself
              (q_is_at _ _ Hslon) (q_is_at _ _ Hslat) (q_is_at _ _ Hsd) Hlon Hlat)
    as (x & y & z & Eto & Hx & Hy & Hz).
  exists x, y, z. split; [rewrite (to_cartesian_class _ _ _ Hself); exact Eto |].
  split.
  - repeat constructor;
      first [ rewrite (proj1 Hx); cbn; now rewrite !dim_mul_zero_r
            | rewrite (proj1 Hy); cbn; now rewrite !dim_mul_zero_r
            | rewrite (proj1 Hz); cbn; now rewrite !dim_mul_zero_r
            | apply Hx | apply Hy | apply Hz ].
  - intros idx Hi.
    rewrite (q_si_is _ _ _ _ _ Hx Hi), (q_si_is _ _ _ _ _ Hy Hi), (q_si_is _ _ _ _ _ Hz Hi).
    unfold q_si. cbn [u_scale unit_mul dimensionless_unscaled].
    rewrite norm_identity by ring. ring.
Qed.

Lemma Spherical_to_cartesian_norm_witness :
  exists x y z,
    to_cartesian 0 behind_heap
    = (Ok (fresh (dom behind_heap)),
       <[fresh (dom behind_heap) := Cartesian x y z]> behind_heap)
    /\ (q_si x [] * q_si x [] + q_si y [] * q_si y [] + q_si z [] * q_si z []
        = q_si (plain (scalar (-1))) [] * q_si (plain (scalar (-1))) [])%R.
Proof.
  destruct (Spherical_to_cartesian_norm behind_heap 0 _ _ _ []
              (eq_refl : behind_heap !! 0 = Some (Spherical _ _ _))
              eq_refl eq_refl eq_refl eq_refl eq_refl) as (x & y & z & E & _ & H).
  exists x, y, z. split; [exact E |]. apply H. now left.
Defined.

Lemma physics_norm_identity D T P k1 k2 :
  (k1 = k2 ->
   D * sin T * cos P * k1 * (D * sin T * cos P * k1)
   + D * sin T * sin P * k1 * (D * sin T * sin P * k1)
   + D * cos T * k2 * (D * cos T * k2) = D * k2 * (D * k2))%R.
Proof.
  intros ->.
  replace (D * sin T * cos P * k2 * (D * sin T * cos P * k2)
           + D * sin T * sin P * k2 * (D * sin T * sin P * k2)
           + D * cos T * k2 * (D * cos T * k2))%R
    with (D * k2 * (D * k2)
          * ((Rsqr (sin P) + Rsqr (cos P)) * Rsqr (sin T) + Rsqr (cos T)))%R
    by (unfold Rsqr; ring).
  now rewrite sin2_cos2, Rmult_1_l, sin2_cos2, Rmult_1_r.
Qed.

(** The same for the physics convention: [to_cartesian] of a
    PhysicsSpherical object returns a new Cartesian object with
    x^2 + y^2 + z^2 = distance^2 at every index. *)
Theorem PhysicsSpherical_to_cartesian_norm (h : heap) self phi theta d s :
  h !! self = Some (PhysicsSpherical phi theta d) ->
  q_shape phi = s -> q_shape theta = s -> q_shape d = s ->
  u_dim (q_unit phi) = dim_angle -> u_dim (q_unit theta) = dim_angle ->
  exists x y z,
    to_cartesian self h = (Ok (fresh (dom h)), <[fresh (dom h) := Cartesian x y z]> h)
    /\ Forall (fun q => u_dim (q_unit q) = u_dim (q_unit d) /\ q_shape q = s) [x; y; z]
    /\ forall idx, In idx (indices s) ->
         (q_si x idx * q_si x idx + q_si y idx * q_si y idx + q_si z idx * q_si z idx
          = q_si d idx * q_si d idx)%R.
Proof.
  intros Hself Hsphi Hstheta Hsd Hphi Htheta.
  destruct (PhysicsSphericalRepresentation_to_cartesian_ok h self phi theta d _ _ _ s
              _ _ _ Hself (q_is_at _ _ Hsphi) (q_is_at _ _ Hstheta) (q_is_at _ _ Hsd)
              Hphi Htheta)
    as (x & y & z & Eto & Hx & Hy & Hz).
  exists x, y, z. split; [rewrite (to_cartesian_class _ _ _ Hself); exact Eto |].
  split.
  - repeat constructor;
      first [ rewrite (proj1 Hx); cbn; now rewrite !dim_mul_zero_r
            | rewrite (proj1 Hy); cbn; now rewrite !dim_mul_zero_r
            | rewrite (proj1 Hz); cbn; now rewrite !dim_mul_zero_r
            | apply Hx | apply Hy | apply Hz ].
  - intros idx Hi.
    rewrite (q_si_is _ _ _ _ _ Hx Hi), (q_si_is _ _ _ _ _ Hy Hi), (q_si_is _ _ _ _ _ Hz Hi).
    unfold q_si. cbn [u_scale unit_mul dimensionless_unscaled].
    rewrite physics_norm_identity by ring. ring.
Qed.

Lemma PhysicsSpherical_to_cartesian_norm_witness :
  exists x y z,
    to_cartesian 0 physics_heap
    = (Ok (fresh (dom physics_heap)),
       <[fresh (dom physics_heap) := Cartesian x y z]> physics_heap)
    /\ (q_si x [] * q_si x [] + q_si y [] * q_si y [] + q_si z [] * q_si z []
        = q_si (mkQ Distance u_m (scalar 2)) [] * q_si (mkQ Distance u_m (scalar 2)) [])%R.
Proof.
  destruct (PhysicsSpherical_to_cartesian_norm physics_heap 0 _ _ _ []
              (eq_refl : physics_heap !! 0 = Some (PhysicsSpherical _ _ _))
              eq_refl eq_refl eq_refl eq_refl eq_refl) as (x & y & z & E & _ & H).
  exists x, y, z. split; [exact E |]. apply H. now left.
Defined.

(** [to_cartesian] of a Cylindrical object keeps the height and the
    distance from the axis: the new Cartesian object has z equal to the
    stored z and x^2 + y^2 = rho^2 at every index. *)
Theorem Cylindrical_to_cartesian_axis_distance (h : heap) self rho phi z s :
  h !! self = Some (Cylindrical rho phi z) ->
  q_shape rho = s -> q_shape phi = s -> q_shape z = s ->
  u_dim (q_unit phi) = dim_angle ->
  physical_type (q_unit rho) = physical_type (q_unit z) ->
  exists x y z',
    to_cartesian self h = (Ok (fresh (dom h)), <[fresh (dom h) := Cartesian x y z']> h)
    /\ q_same z' z
    /\ forall idx, In idx (indices s) ->
         (q_si x idx * q_si x idx + q_si y idx * q_si y idx
          = q_si rho idx * q_si rho idx)%R.
Proof.
  intros Hself Hsrho Hsphi Hsz Hphi Hpt.
  destruct (CylindricalRepresentation_to_cartesian_ok h self rho phi z _ _ _ s _ _ _ Hself
              (q_is_at _ _ Hsrho) (q_is_at _ _ Hsphi) (q_is_at _ _ Hsz) Hphi Hpt)
    as (x & y & z' & Eto & Hx & Hy & Hz).
  exists x, y, z'. split; [rewrite (to_cartesian_class _ _ _ Hself); exact Eto |].
  split; [now apply (q_same_self_is _ _ s) |].
  intros idx Hi.
  rewrite (q_si_is _ _ _ _ _ Hx Hi), (q_si_is _ _ _ _ _ Hy Hi).
  unfold q_si. cbn [u_scale unit_mul dimensionless_unscaled].
  set (P := (item (q_value phi) idx * u_scale (q_unit phi))%R).
  set (r := item (q_value rho) idx). set (k := u_scale (q_unit rho)).
  replace (r * cos P * (k * 1) * (r * cos P * (k * 1))
           + r * sin P * (k * 1) * (r * sin P * (k * 1)))%R
    with (r * k * (r * k) * (Rsqr (sin P) + Rsqr (cos P)))%R by (unfold Rsqr; ring).
  now rewrite sin2_cos2, Rmult_1_r.
Qed.

Lemma Cylindrical_to_cartesian_axis_distance_witness :
  exists x y z',
    to_cartesian 0 cylinder_heap
    = (Ok (fresh (dom cylinder_heap)),
       <[fresh (dom cylinder_heap) := Cartesian x y z']> cylinder_heap)
    /\ q_same z' (mkQ Quantity u_m (scalar 5)).
Proof.
  destruct (Cylindrical_to_cartesian_axis_distance cylinder_heap 0 _ _ _ []
              (eq_refl : cylinder_heap !! 0 = Some (Cylindrical _ _ _))
              eq_refl eq_refl eq_refl eq_refl eq_refl) as (x & y & z' & E & Hz & _).
  exists x, y, z'. split; [exact E | exact Hz].
Defined.

(** ** The ranges of the angles computed from Cartesian components *)

Lemma wrap_longitude_range u v :
  (0 < u_scale u -> 0 <= wrap_longitude u v * u_scale u < 2 * PI)%R.
Proof.
  intros Hs. pose proof PI_RGT_0 as Hpi. unfold wrap_longitude.
  set (p := (2 * PI / u_scale u)%R).
  assert (Hp : (0 < p)%R) by (apply Rdiv_lt_0_compat; lra).
  destruct (base_Int_part (v / p)) as [Hlo Hhi].
  set (i := IZR (Int_part (v / p))) in *.
  assert (Hpk : (p * u_scale u = 2 * PI)%R) by (unfold p; field; lra).
  clearbody i p.
  replace ((v - p * i) * u_scale u)%R with (2 * PI * (v / p - i))%R
    by (rewrite <- Hpk; field; lra).
  split; [apply Rmult_le_pos; lra |].
  apply Rlt_le_trans with (2 * PI * 1)%R; [| lra].
  apply Rmult_lt_compat_l; lra.
Qed.

Lemma arctan2_range y x : (- PI < arctan2 y x <= PI)%R.
Proof.
  pose proof PI_RGT_0 as Hpi. pose proof (atan_bound (y / x)) as Hb.
  unfold arctan2. repeat case_decide; try lra.
  - assert (y / x <= 0)%R.
    { unfold Rdiv. replace (y * / x)%R with (- (y * / - x))%R.
      - apply Ropp_le_cancel. rewrite Ropp_involutive, Ropp_0.
        apply Rmult_le_pos; [lra |]. left. apply Rinv_0_lt_compat. lra.
      - rewrite Rinv_opp. ring. }
    destruct (Req_dec (y / x) 0) as [-> | Hne]; [rewrite atan_0; lra |].
    pose proof (atan_increasing (y / x) 0 ltac:(lra)) as Hi. rewrite atan_0 in Hi. lra.
  - assert (0 < y / x)%R.
    { unfold Rdiv. replace (y * / x)%R with (- y * / - x)%R.
      - apply Rmult_lt_0_compat; [lra |]. apply Rinv_0_lt_compat. lra.
      - rewrite Rinv_opp. ring. }
    pose proof (atan_increasing 0 (y / x) ltac:(lra)) as Hi. rewrite atan_0 in Hi. lra.
Qed.

Lemma arctan2_nonneg_y y x : (0 <= y -> 0 <= arctan2 y x <= PI)%R.
Proof.
  intros Hy. pose proof PI_RGT_0 as Hpi. pose proof (atan_bound (y / x)) as Hb.
  pose proof (arctan2_range y x) as Hr. split; [| lra].
  unfold arctan2 in *. repeat case_decide; try lra.
  assert (0 <= y / x)%R.
  { apply Rmult_le_pos; [lra |]. left. now apply Rinv_0_lt_compat. }
  destruct (Req_dec (y / x) 0) as [-> | Hne]; [rewrite atan_0; lra |].
  pose proof (atan_increasing 0 (y / x) ltac:(lra)) as Hi. rewrite atan_0 in Hi. lra.
Qed.

Lemma radius_sqr fx fy fz kx ky kz :
  (0 < kx ->
   let r := sqrt (fx * fx + fy * fy * (ky * ky / (kx * kx))
                  + fz * fz * (kz * kz / (kx * kx))) * sqrt (kx * kx) in
   0 <= r /\ r * r = fx * kx * (fx * kx) + fy * ky * (fy * ky) + fz * kz * (fz * kz))%R.
Proof.
  intros Hk r. subst r.
  set (A := (fx * fx + fy * fy * (ky * ky / (kx * kx))
             + fz * fz * (kz * kz / (kx * kx)))%R).
  assert (Hk2 : (0 < kx * kx)%R) by nra.
  assert (HA : (0 <= A)%R).
  { unfold A.
    assert (0 <= fy * fy * (ky * ky / (kx * kx)))%R.
    { apply Rmult_le_pos; [nra |]. apply Rmult_le_pos; [nra |].
      left. now apply Rinv_0_lt_compat. }
    assert (0 <= fz * fz * (kz * kz / (kx * kx)))%R.
    { apply Rmult_le_pos; [nra |]. apply Rmult_le_pos; [nra |].
      left. now apply Rinv_0_lt_compat. }
    nra. }
  split; [apply Rmult_le_pos; apply sqrt_pos |].
  replace (sqrt A * sqrt (kx * kx) * (sqrt A * sqrt (kx * kx)))%R
    with (sqrt A * sqrt A * (sqrt (kx * kx) * sqrt (kx * kx)))%R by ring.
  rewrite !sqrt_sqrt by lra. unfold A. field. lra.
Qed.

(** [SphericalRepresentation.from_cartesian] accepts every Cartesian
    object whose components have one shape and one dimension (in units
    of positive size, possibly different ones): it returns a new
    Spherical object whose longitude lies in [0, 360) degrees, whose
    latitude lies in [-90, 90] degrees, and whose distance is not
    negative and is the Euclidean norm of (x, y, z). *)
Theorem Spherical_from_cartesian_ranges (h : heap) cart x y z s :
  h !! cart = Some (Cartesian x y z) ->
  q_shape x = s -> q_shape y = s -> q_shape z = s ->
  u_dim (q_unit y) = u_dim (q_unit x) -> u_dim (q_unit z) = u_dim (q_unit x) ->
  (0 < u_scale (q_unit x))%R -> (0 < u_scale (q_unit z))%R ->
  exists lon lat d,
    from_cartesian SphericalRepresentation cart h
    = (Ok (fresh (dom h)), <[fresh (dom h) := Spherical lon lat d]> h)
    /\ forall idx, In idx (indices s) ->
         (0 <= q_si lon idx < 2 * PI
          /\ - (PI / 2) <= q_si lat idx <= PI / 2
          /\ 0 <= q_si d idx
          /\ q_si d idx * q_si d idx
             = q_si x idx * q_si x idx + q_si y idx * q_si y idx + q_si z idx * q_si z idx)%R.
Proof.
  intros Hcart Hsx Hsy Hsz Hdy Hdz Hkx Hkz.
  destruct (SphericalRepresentation_from_cartesian_ok h cart x y z _ _ _ s _ _ _ Hcart
              (q_is_at _ _ Hsx) (q_is_at _ _ Hsy) (q_is_at _ _ Hsz) Hdy Hdz Hkz)
    as (lon & lat & d & E & Hlon & Hlat & Hd).
  exists lon, lat, d. split; [exact E |].
  intros idx Hi.
  rewrite (q_si_is _ _ _ _ _ Hlon Hi), (q_si_is _ _ _ _ _ Hlat Hi), (q_si_is _ _ _ _ _ Hd Hi).
  split; [apply wrap_longitude_range; cbn; lra |].
  split.
  { cbn [u_scale u_radian]. rewrite Rmult_1_r. apply arctan2_nonneg_x, ratio_nonneg;
      [apply sqrt_pos | apply sqrt_pos | exact Hkz]. }
  unfold q_si. cbn [u_scale unit_sqr unit_sqrt].
  exact (radius_sqr _ _ _ _ _ _ Hkx).
Qed.

Lemma Spherical_from_cartesian_ranges_witness :
  exists lon lat d,
    from_cartesian SphericalRepresentation 0 cart_heap
    = (Ok (fresh (dom cart_heap)),
       <[fresh (dom cart_heap) := Spherical lon lat d]> cart_heap)
    /\ (0 <= q_si lon [] < 2 * PI)%R.
Proof.
  assert (H1 : (0 < 1)%R) by lra.
  assert (H2 : (0 < 1 / 100)%R) by lra.
  destruct (Spherical_from_cartesian_ranges cart_heap 0 _ _ _ []
              (eq_refl : cart_heap !! 0 = Some (Cartesian _ _ _))
              eq_refl eq_refl eq_refl eq_refl eq_refl H1 H2) as (lon & lat & d & E & H).
  exists lon, lat, d. split; [exact E |]. apply H. now left.
Defined.

(** [PhysicsSphericalRepresentation.from_cartesian] accepts every
    Cartesian object whose components have one shape and one dimension:
    it returns a new PhysicsSpherical object whose azimuth phi lies in
    (-180, 180] degrees (it is not wrapped to [0, 360)), whose
    inclination theta lies in [0, 180] degrees, and whose distance is not
    negative and is the Euclidean norm of (x, y, z). *)
Theorem PhysicsSpherical_from_cartesian_ranges (h : heap) cart x y z s :
  h !! cart = Some (Cartesian x y z) ->
  q_shape x = s -> q_shape y = s -> q_shape z = s ->
  u_dim (q_unit y) = u_dim (q_unit x) -> u_dim (q_unit z) = u_dim (q_unit x) ->
  (0 < u_scale (q_unit x))%R ->
  exists phi theta d,
    from_cartesian PhysicsSphericalRepresentation cart h
    = (Ok (fresh (dom h)), <[fresh (dom h) := PhysicsSpherical phi theta d]> h)
    /\ forall idx, In idx (indices s) ->
         (- PI < q_si phi idx <= PI
          /\ 0 <= q_si theta idx <= PI
          /\ 0 <= q_si d idx
          /\ q_si d idx * q_si d idx
             = q_si x idx * q_si x idx + q_si y idx * q_si y idx + q_si z idx * q_si z idx)%R.
Proof.
  intros Hcart Hsx Hsy Hsz Hdy Hdz Hkx.
  destruct (PhysicsSphericalRepresentation_from_cartesian_ok h cart x y z _ _ _ s _ _ _ Hcart
              (q_is_at _ _ Hsx) (q_is_at _ _ Hsy) (q_is_at _ _ Hsz) Hdy Hdz)
    as (phi & theta & d & E & Hphi & Htheta & Hd).
  exists phi, theta, d. split; [exact E |].
  intros idx Hi.
  rewrite (q_si_is _ _ _ _ _ Hphi Hi), (q_si_is _ _ _ _ _ Htheta Hi),
    (q_si_is _ _ _ _ _ Hd Hi).
  cbn [u_scale u_radian]. rewrite !Rmult_1_r.
  split; [apply arctan2_range |].
  split; [apply arctan2_nonneg_y, sqrt_pos |].
  unfold q_si. cbn [u_scale unit_sqr unit_sqrt].
  exact (radius_sqr _ _ _ _ _ _ Hkx).
Qed.

Lemma PhysicsSpherical_from_cartesian_ranges_witness :
  exists phi theta d,
    from_cartesian PhysicsSphericalRepresentation 0 cart_heap
    = (Ok (fresh (dom cart_heap)),
       <[fresh (dom cart_heap) := PhysicsSpherical phi theta d]> cart_heap)
    /\ (0 <= q_si theta [] <= PI)%R.
Proof.
  assert (H1 : (0 < 1)%R) by lra.
  destruct (PhysicsSpherical_from_cartesian_ranges cart_heap 0 _ _ _ []
              (eq_refl : cart_heap !! 0 = Some (Cartesian _ _ _))
              eq_refl eq_refl eq_refl eq_refl eq_refl H1) as (phi & theta & d & E & H).
  exists phi, theta, d. split; [exact E |]. apply H. now left.
Defined.

(** ** [arctan2] inverts the polar form *)

Lemma arctan2_scale k y x : (0 < k -> arctan2 (k * y) (k * x) = arctan2 y x)%R.
Proof.
  intros Hk.
  assert (Hq : (x <> 0 -> k * y / (k * x) = y / x)%R) by (intros; field; lra).
  unfold arctan2.
  destruct (Rtotal_order x 0) as [Hx | [Hx | Hx]];
    destruct (Rtotal_order y 0) as [Hy | [Hy | Hy]];
    repeat case_decide; try nra; try (rewrite Hq by lra; reflexivity); reflexivity.
Qed.

Lemma sqrt_sum_scale x y :
  (0 < x -> sqrt (x * x + y * y) = x * sqrt (1 + (y / x)²))%R.
Proof.
  intros Hx. unfold Rsqr.
  replace (x * x + y * y)%R with (x * x * (1 + y / x * (y / x)))%R by (field; lra).
  rewrite sqrt_mult_alt by nra. rewrite sqrt_square by lra. reflexivity.
Qed.

Lemma sqrt_sum_pos t : (0 < sqrt (1 + t²))%R.
Proof. apply sqrt_lt_R0. pose proof (Rle_0_sqr t). lra. Qed.

Lemma arctan2_cos_sin y x :
  (sqrt (x * x + y * y) * cos (arctan2 y x) = x
   /\ sqrt (x * x + y * y) * sin (arctan2 y x) = y)%R.
Proof.
  pose proof PI_RGT_0 as Hpi. unfold arctan2.
  destruct (Rtotal_order x 0) as [Hx | [Hx | Hx]].
  - assert (Hs : (sqrt (x * x + y * y) = - x * sqrt (1 + (y / x)²))%R).
    { replace (x * x)%R with (- x * - x)%R by ring.
      rewrite (sqrt_sum_scale (- x) y) by lra.
      replace (y / - x)%R with (- (y / x))%R by (field; lra).
      now rewrite <- Rsqr_neg. }
    pose proof (sqrt_sum_pos (y / x)) as Hp.
    assert (Hc : (forall a, cos (a - PI) = - cos a /\ sin (a - PI) = - sin a)%R).
    { intros a. split.
      - replace a with (a - PI + PI)%R at 2 by ring. rewrite neg_cos. ring.
      - replace a with (a - PI + PI)%R at 2 by ring. rewrite neg_sin. ring. }
    rewrite Hs. repeat case_decide; try lra.
    + rewrite neg_cos, neg_sin, cos_atan, sin_atan. split; field; lra.
    + rewrite (proj1 (Hc _)), (proj2 (Hc _)), cos_atan, sin_atan. split; field; lra.
  - subst x. repeat case_decide; try lra.
    + replace (0 * 0 + y * y)%R with (y * y)%R by ring.
      rewrite sqrt_square by lra. rewrite cos_PI2, sin_PI2. lra.
    + replace (0 * 0 + y * y)%R with (- y * - y)%R by ring.
      rewrite sqrt_square by lra. rewrite cos_neg, sin_neg, cos_PI2, sin_PI2. lra.
    + assert (y = 0)%R by lra. subst y.
      replace (0 * 0 + 0 * 0)%R with 0%R by ring. rewrite sqrt_0. lra.
  - rewrite (sqrt_sum_scale x y Hx).
    pose proof (sqrt_sum_pos (y / x)) as Hp.
    repeat case_decide; try lra.
    rewrite cos_atan, sin_atan. split; field; lra.
Qed.

Lemma wrap_wrap_cos_sin a :
  (- PI < a <= PI ->
   cos (wrap_longitude u_radian (wrap_longitude u_radian a)) = cos a
   /\ sin (wrap_longitude u_radian (wrap_longitude u_radian a)) = sin a)%R.
Proof.
  intros Ha. pose proof PI_RGT_0 as Hpi.
  assert (H1 : (0 < u_scale u_radian)%R) by (cbn; lra).
  destruct (Rle_lt_dec 0 a) as [Hpos | Hneg].
  - rewrite !(wrap_longitude_id u_radian a) by (cbn; lra). auto.
  - rewrite (wrap_longitude_up u_radian a) by (cbn; lra).
    rewrite wrap_longitude_id by (cbn; lra). cbn [u_scale u_radian].
    replace (a + 2 * PI / 1)%R with (a + 2 * PI)%R by field.
    rewrite cos_plus, sin_plus, cos_2PI, sin_2PI. split; ring.
Qed.

(** The three Cartesian components rebuilt from the angles and the
    radius that [from_cartesian] computes, for components given as
    values [fx], [fy], [fz] in units of sizes [kx], [ky], [kz]. *)
Lemma spherical_inverse fx fy fz kx ky kz :
  (0 < kx -> 0 < ky -> 0 < kz ->
   let lon := arctan2 fy (fx * (kx / ky)) in
   let s := sqrt (fx * fx + fy * fy * (ky * ky / (kx * kx))) in
   let lat := arctan2 fz (s * (sqrt (kx * kx) / kz)) in
   let d := sqrt (fx * fx + fy * fy * (ky * ky / (kx * kx))
                  + fz * fz * (kz * kz / (kx * kx))) * sqrt (kx * kx) in
   d * cos lat * cos lon = fx * kx
   /\ d * cos lat * sin lon = fy * ky
   /\ d * sin lat = fz * kz
   /\ s * sqrt (kx * kx) = sqrt (fx * kx * (fx * kx) + fy * ky * (fy * ky))
   /\ d = sqrt (fx * kx * (fx * kx) + fy * ky * (fy * ky) + fz * kz * (fz * kz)))%R.
Proof.
  intros Hkx Hky Hkz lon s lat d.
  set (X := (fx * kx)%R). set (Y := (fy * ky)%R). set (Z := (fz * kz)%R).
  assert (Hlon : lon = arctan2 Y X).
  { unfold lon, X, Y. rewrite <- (arctan2_scale (/ ky) (fy * ky) (fx * kx)).
    - f_equal; field; lra.
    - now apply Rinv_0_lt_compat. }
  assert (Hk2 : (0 < kx * kx)%R) by nra.
  assert (Hs : (s * sqrt (kx * kx) = sqrt (X * X + Y * Y))%R).
  { unfold s. rewrite <- sqrt_mult_alt.
    - f_equal. unfold X, Y. field. lra.
    - assert (0 <= fy * fy * (ky * ky / (kx * kx)))%R.
      { apply Rmult_le_pos; [nra |]. apply Rmult_le_pos; [nra |].
        left. now apply Rinv_0_lt_compat. }
      nra. }
  assert (Hd : d = sqrt (X * X + Y * Y + Z * Z)).
  { unfold d. rewrite <- sqrt_mult_alt.
    - f_equal. unfold X, Y, Z. field. lra.
    - assert (0 <= fy * fy * (ky * ky / (kx * kx)))%R.
      { apply Rmult_le_pos; [nra |]. apply Rmult_le_pos; [nra |].
        left. now apply Rinv_0_lt_compat. }
      assert (0 <= fz * fz * (kz * kz / (kx * kx)))%R.
      { apply Rmult_le_pos; [nra |]. apply Rmult_le_pos; [nra |].
        left. now apply Rinv_0_lt_compat. }
      nra. }
  assert (Hlat : lat = arctan2 Z (sqrt (X * X + Y * Y))).
  { unfold lat. rewrite <- Hs, <- (arctan2_scale (/ kz) Z).
    - unfold Z. f_equal; field; lra.
    - now apply Rinv_0_lt_compat. }
  set (S := sqrt (X * X + Y * Y)) in *.
  assert (HS : (S * S = X * X + Y * Y)%R).
  { unfold S. apply sqrt_sqrt. nra. }
  destruct (arctan2_cos_sin Y X) as [Hc Hsn]. fold S in Hc, Hsn.
  destruct (arctan2_cos_sin Z S) as [Hc' Hsn'].
  rewrite HS in Hc', Hsn'. rewrite <- Hd, <- Hlat in Hc', Hsn'. rewrite <- Hlon in Hc, Hsn.
  repeat split; try assumption.
  - rewrite Hc'. exact Hc.
  - rewrite Hc'. exact Hsn.
Qed.

(** Every Cartesian point survives the passage through spherical
    coordinates: for components of one shape and one dimension, in units
    of positive size, [SphericalRepresentation.from_cartesian] followed by
    [to_cartesian] of the result succeeds and returns a Cartesian object
    holding the same physical values, also at the origin and on the
    z-axis, where the angles are not determined by the point. *)
Theorem Cartesian_survives_spherical (h : heap) cart x y z s :
  h !! cart = Some (Cartesian x y z) ->
  q_shape x = s -> q_shape y = s -> q_shape z = s ->
  u_dim (q_unit y) = u_dim (q_unit x) -> u_dim (q_unit z) = u_dim (q_unit x) ->
  (0 < u_scale (q_unit x))%R -> (0 < u_scale (q_unit y))%R -> (0 < u_scale (q_unit z))%R ->
  exists l1 h1 l2 h2 o',
    from_cartesian SphericalRepresentation cart h = (Ok l1, h1)
    /\ to_cartesian l1 h1 = (Ok l2, h2)
    /\ h2 !! l2 = Some o' /\ rep_same o' (Cartesian x y z).
Proof.
  intros Hcart Hsx Hsy Hsz Hdy Hdz Hkx Hky Hkz.
  destruct (SphericalRepresentation_from_cartesian_ok h cart x y z _ _ _ s _ _ _ Hcart
              (q_is_at _ _ Hsx) (q_is_at _ _ Hsy) (q_is_at _ _ Hsz) Hdy Hdz Hkz)
    as (lon & lat & d & E & Hlon & Hlat & Hd).
  set (h1 := <[fresh (dom h) := Spherical lon lat d]> h) in *.
  assert (Hl1 : h1 !! fresh (dom h) = Some (Spherical lon lat d))
    by apply lookup_fresh_insert.
  destruct (SphericalRepresentation_to_cartesian_ok h1 _ lon lat d _ _ _ s _ _ _ Hl1
              Hlon Hlat Hd eq_refl eq_refl)
    as (x' & y' & z' & Eto & Hx' & Hy' & Hz').
  exists (fresh (dom h)), h1, (fresh (dom h1)), (<[fresh (dom h1) := Cartesian x' y' z']> h1),
    (Cartesian x' y' z').
  split; [exact E |].
  split; [rewrite (to_cartesian_class _ _ _ Hl1); exact Eto |].
  split; [apply lookup_fresh_insert |].
  assert (Hdim : forall u, u_dim (unit_mul (unit_sqrt (unit_sqr (q_unit x))) u) =
                           dim_mul (u_dim (q_unit x)) (u_dim u)).
  { intros u. cbn [unit_mul u_dim]. now rewrite unit_sqrt_sqr_dim. }
  assert (Hinv : forall idx,
             let a := arctan2 (item (q_value y) idx)
                        (item (q_value x) idx * (u_scale (q_unit x) / u_scale (q_unit y))) in
             (- PI < a <= PI)%R) by (intros; apply arctan2_range).
  apply rep_same3; try reflexivity.
  - apply (q_same_of_is _ _ _ _ s _ _ Hx' (q_is_at _ _ Hsx)).
    + cbn [unit_mul u_dim dimensionless_unscaled].
      now rewrite unit_sqrt_sqr_dim, !dim_mul_zero_r.
    + intros idx Hi. cbn [u_scale unit_mul dimensionless_unscaled unit_sqr unit_sqrt u_radian].
      rewrite !Rmult_1_r.
      rewrite (proj1 (wrap_wrap_cos_sin _ (Hinv idx))).
      pose proof (spherical_inverse (item (q_value x) idx) (item (q_value y) idx)
                    (item (q_value z) idx) _ _ _ Hkx Hky Hkz) as (H1 & _).
      rewrite <- H1. ring.
  - apply (q_same_of_is _ _ _ _ s _ _ Hy' (q_is_at _ _ Hsy)).
    + cbn [unit_mul u_dim dimensionless_unscaled].
      now rewrite unit_sqrt_sqr_dim, !dim_mul_zero_r.
    + intros idx Hi. cbn [u_scale unit_mul dimensionless_unscaled unit_sqr unit_sqrt u_radian].
      rewrite !Rmult_1_r.
      rewrite (proj2 (wrap_wrap_cos_sin _ (Hinv idx))).
      pose proof (spherical_inverse (item (q_value x) idx) (item (q_value y) idx)
                    (item (q_value z) idx) _ _ _ Hkx Hky Hkz) as (_ & H2 & _).
      rewrite <- H2. ring.
  - apply (q_same_of_is _ _ _ _ s _ _ Hz' (q_is_at _ _ Hsz)).
    + cbn [unit_mul u_dim dimensionless_unscaled].
      now rewrite unit_sqrt_sqr_dim, !dim_mul_zero_r.
    + intros idx Hi. cbn [u_scale unit_mul dimensionless_unscaled unit_sqr unit_sqrt u_radian].
      rewrite !Rmult_1_r.
      pose proof (spherical_inverse (item (q_value x) idx) (item (q_value y) idx)
                    (item (q_value z) idx) _ _ _ Hkx Hky Hkz) as (_ & _ & H3 & _).
      rewrite <- H3. ring.
Qed.

Lemma Cartesian_survives_spherical_witness :
  exists l1 h1 l2 h2 o',
    from_cartesian SphericalRepresentation 0 cart_heap = (Ok l1, h1)
    /\ to_cartesian l1 h1 = (Ok l2, h2)
    /\ h2 !! l2 = Some o' /\ rep_same o' cart_point.
Proof.
  assert (H1 : (0 < 1)%R) by lra.
  assert (H2 : (0 < 1 / 100)%R) by lra.
  exact (Cartesian_survives_spherical cart_heap 0 _ _ _ []
           (eq_refl : cart_heap !! 0 = Some (Cartesian _ _ _))
           eq_refl eq_refl eq_refl eq_refl eq_refl H1 H1 H2).
Defined.

Lemma physics_inverse fx fy fz kx ky kz :
  (0 < kx -> 0 < ky -> 0 < kz ->
   let phi := arctan2 fy (fx * (kx / ky)) in
   let s := sqrt (fx * fx + fy * fy * (ky * ky / (kx * kx))) in
   let theta := arctan2 s (fz * (kz / sqrt (kx * kx))) in
   let d := sqrt (fx * fx + fy * fy * (ky * ky / (kx * kx))
                  + fz * fz * (kz * kz / (kx * kx))) * sqrt (kx * kx) in
   d * sin theta * cos phi = fx * kx
   /\ d * sin theta * sin phi = fy * ky
   /\ d * cos theta = fz * kz)%R.
Proof.
  intros Hkx Hky Hkz phi s theta d.
  destruct (spherical_inverse fx fy fz kx ky kz Hkx Hky Hkz) as (_ & _ & _ & Hs & Hd).
  fold s in Hs. fold d in Hd.
  set (X := (fx * kx)%R) in *. set (Y := (fy * ky)%R) in *. set (Z := (fz * kz)%R) in *.
  assert (Hphi : phi = arctan2 Y X).
  { unfold phi, X, Y. rewrite <- (arctan2_scale (/ ky) (fy * ky) (fx * kx)).
    - f_equal; field; lra.
    - now apply Rinv_0_lt_compat. }
  assert (Hk : sqrt (kx * kx) = kx) by (apply sqrt_square; lra).
  assert (Htheta : theta = arctan2 (sqrt (X * X + Y * Y)) Z).
  { unfold theta. rewrite <- Hs, Hk, <- (arctan2_scale (/ kx) (s * kx) Z).
    - unfold Z. f_equal; field; lra.
    - now apply Rinv_0_lt_compat. }
  set (S := sqrt (X * X + Y * Y)) in *.
  assert (HS : (S * S = X * X + Y * Y)%R).
  { unfold S. apply sqrt_sqrt. nra. }
  destruct (arctan2_cos_sin Y X) as [Hc Hsn]. fold S in Hc, Hsn.
  destruct (arctan2_cos_sin S Z) as [Hc' Hsn'].
  replace (Z * Z + S * S)%R with (X * X + Y * Y + Z * Z)%R in Hc', Hsn' by lra.
  rewrite <- Hd, <- Htheta in Hc', Hsn'. rewrite <- Hphi in Hc, Hsn.
  repeat split; try assumption.
  - rewrite Hsn'. exact Hc.
  - rewrite Hsn'. exact Hsn.
Qed.

(** The same through the physics convention: for Cartesian components of
    one shape and one dimension, in units of positive size,
    [PhysicsSphericalRepresentation.from_cartesian] followed by
    [to_cartesian] of the result returns a Cartesian object holding the
    same physical values. *)
Theorem Cartesian_survives_physics_spherical (h : heap) cart x y z s :
  h !! cart = Some (Cartesian x y z) ->
  q_shape x = s -> q_shape y = s -> q_shape z = s ->
  u_dim (q_unit y) = u_dim (q_unit x) -> u_dim (q_unit z) = u_dim (q_unit x) ->
  (0 < u_scale (q_unit x))%R -> (0 < u_scale (q_unit y))%R -> (0 < u_scale (q_unit z))%R ->
  exists l1 h1 l2 h2 o',
    from_cartesian PhysicsSphericalRepresentation cart h = (Ok l1, h1)
    /\ to_cartesian l1 h1 = (Ok l2, h2)
    /\ h2 !! l2 = Some o' /\ rep_same o' (Cartesian x y z).
Proof.
  intros Hcart Hsx Hsy Hsz Hdy Hdz Hkx Hky Hkz.
  destruct (PhysicsSphericalRepresentation_from_cartesian_ok h cart x y z _ _ _ s _ _ _ Hcart
              (q_is_at _ _ Hsx) (q_is_at _ _ Hsy) (q_is_at _ _ Hsz) Hdy Hdz)
    as (phi & theta & d & E & Hphi & Htheta & Hd).
  set (h1 := <[fresh (dom h) := PhysicsSpherical phi theta d]> h) in *.
  assert (Hl1 : h1 !! fresh (dom h) = Some (PhysicsSpherical phi theta d))
    by apply lookup_fresh_insert.
  destruct (PhysicsSphericalRepresentation_to_cartesian_ok h1 _ phi theta d _ _ _ s _ _ _ Hl1
              Hphi Htheta Hd eq_refl eq_refl)
    as (x' & y' & z' & Eto & Hx' & Hy' & Hz').
  exists (fresh (dom h)), h1, (fresh (dom h1)), (<[fresh (dom h1) := Cartesian x' y' z']> h1),
    (Cartesian x' y' z').
  split; [exact E |].
  split; [rewrite (to_cartesian_class _ _ _ Hl1); exact Eto |].
  split; [apply lookup_fresh_insert |].
  apply rep_same3; try reflexivity.
  - apply (q_same_of_is _ _ _ _ s _ _ Hx' (q_is_at _ _ Hsx)).
    + cbn [unit_mul u_dim dimensionless_unscaled].
      now rewrite unit_sqrt_sqr_dim, !dim_mul_zero_r.
    + intros idx Hi. cbn [u_scale unit_mul dimensionless_unscaled unit_sqr unit_sqrt u_radian].
      rewrite !Rmult_1_r.
      pose proof (physics_inverse (item (q_value x) idx) (item (q_value y) idx)
                    (item (q_value z) idx) _ _ _ Hkx Hky Hkz) as (H1 & _).
      rewrite <- H1. ring.
  - apply (q_same_of_is _ _ _ _ s _ _ Hy' (q_is_at _ _ Hsy)).
    + cbn [unit_mul u_dim dimensionless_unscaled].
      now rewrite unit_sqrt_sqr_dim, !dim_mul_zero_r.
    + intros idx Hi. cbn [u_scale unit_mul dimensionless_unscaled unit_sqr unit_sqrt u_radian].
      rewrite !Rmult_1_r.
      pose proof (physics_inverse (item (q_value x) idx) (item (q_value y) idx)
                    (item (q_value z) idx) _ _ _ Hkx Hky Hkz) as (_ & H2 & _).
      rewrite <- H2. ring.
  - apply (q_same_of_is _ _ _ _ s _ _ Hz' (q_is_at _ _ Hsz)).
    + cbn [unit_mul u_dim dimensionless_unscaled].
      now rewrite unit_sqrt_sqr_dim, !dim_mul_zero_r.
    + intros idx Hi. cbn [u_scale unit_mul dimensionless_unscaled unit_sqr unit_sqrt u_radian].
      rewrite !Rmult_1_r.
      pose proof (physics_inverse (item (q_value x) idx) (item (q_value y) idx)
                    (item (q_value z) idx) _ _ _ Hkx Hky Hkz) as (_ & _ & H3).
      rewrite <- H3. ring.
Qed.

Lemma Cartesian_survives_physics_spherical_witness :
  exists l1 h1 l2 h2 o',
    from_cartesian PhysicsSphericalRepresentation 0 cart_heap = (Ok l1, h1)
    /\ to_cartesian l1 h1 = (Ok l2, h2)
    /\ h2 !! l2 = Some o' /\ rep_same o' cart_point.
Proof.
  assert (H1 : (0 < 1)%R) by lra.
  assert (H2 : (0 < 1 / 100)%R) by lra.
  exact (Cartesian_survives_physics_spherical cart_heap 0 _ _ _ []
           (eq_refl : cart_heap !! 0 = Some (Cartesian _ _ _))
           eq_refl eq_refl eq_refl eq_refl eq_refl H1 H1 H2).
Defined.

(** [UnitSphericalRepresentation.from_cartesian] keeps the direction of
    the point and drops its length: followed by [to_cartesian], it
    returns a dimensionless Cartesian object whose components, multiplied
    by the Euclidean norm of the original point, are the original
    components. *)
Theorem Cartesian_direction_through_unit_spherical (h : heap) cart x y z s :
  h !! cart = Some (Cartesian x y z) ->
  q_shape x = s -> q_shape y = s -> q_shape z = s ->
  u_dim (q_unit y) = u_dim (q_unit x) -> u_dim (q_unit z) = u_dim (q_unit x) ->
  (0 < u_scale (q_unit x))%R -> (0 < u_scale (q_unit y))%R -> (0 < u_scale (q_unit z))%R ->
  exists l1 h1 l2 h2 x' y' z',
    from_cartesian UnitSphericalRepresentation cart h = (Ok l1, h1)
    /\ to_cartesian l1 h1 = (Ok l2, h2)
    /\ h2 !! l2 = Some (Cartesian x' y' z')
    /\ Forall (fun q => u_dim (q_unit q) = dim_zero /\ q_shape q = s) [x'; y'; z']
    /\ forall idx, In idx (indices s) ->
         let n := sqrt (q_si x idx * q_si x idx + q_si y idx * q_si y idx
                        + q_si z idx * q_si z idx) in
         (q_si x' idx * n = q_si x idx
          /\ q_si y' idx * n = q_si y idx
          /\ q_si z' idx * n = q_si z idx)%R.
Proof.
  intros Hcart Hsx Hsy Hsz Hdy Hdz Hkx Hky Hkz.
  destruct (UnitSphericalRepresentation_from_cartesian_ok h cart x y z _ _ _ s _ _ _ Hcart
              (q_is_at _ _ Hsx) (q_is_at _ _ Hsy) (q_is_at _ _ Hsz) Hdy Hdz Hkz)
    as (lon & lat & E & Hlon & Hlat).
  set (h1 := <[fresh (dom h) := UnitSpherical lon lat]> h) in *.
  assert (Hl1 : h1 !! fresh (dom h) = Some (UnitSpherical lon lat))
    by apply lookup_fresh_insert.
  destruct (UnitSphericalRepresentation_to_cartesian_ok h1 _ lon lat _ _ s _ _ Hl1
              Hlon Hlat eq_refl eq_refl)
    as (x' & y' & z' & Eto & Hx' & Hy' & Hz').
  exists (fresh (dom h)), h1, (fresh (dom h1)), (<[fresh (dom h1) := Cartesian x' y' z']> h1),
    x', y', z'.
  split; [exact E |].
  split; [rewrite (to_cartesian_class _ _ _ Hl1); exact Eto |].
  split; [apply lookup_fresh_insert |].
  split.
  { repeat constructor;
      first [ rewrite (proj1 Hx'); reflexivity | rewrite (proj1 Hy'); reflexivity
            | rewrite (proj1 Hz'); reflexivity | apply Hx' | apply Hy' | apply Hz' ]. }
  intros idx Hi n.
  assert (Hinv : (- PI < arctan2 (item (q_value y) idx)
                    (item (q_value x) idx * (u_scale (q_unit x) / u_scale (q_unit y))) <= PI)%R)
    by apply arctan2_range.
  destruct (spherical_inverse (item (q_value x) idx) (item (q_value y) idx)
              (item (q_value z) idx) _ _ _ Hkx Hky Hkz) as (H1 & H2 & H3 & _ & Hd).
  fold (q_si x idx) (q_si y idx) (q_si z idx) in Hd, H1, H2, H3. fold n in Hd.
  rewrite (q_si_is _ _ _ _ _ Hx' Hi), (q_si_is _ _ _ _ _ Hy' Hi), (q_si_is _ _ _ _ _ Hz' Hi).
  cbn [u_scale unit_mul dimensionless_unscaled unit_sqr unit_sqrt u_radian].
  rewrite !Rmult_1_r.
  rewrite (proj1 (wrap_wrap_cos_sin _ Hinv)), (proj2 (wrap_wrap_cos_sin _ Hinv)).
  rewrite <- H1, <- H2, <- H3, Hd. repeat split; ring.
Qed.

Lemma Cartesian_direction_through_unit_spherical_witness :
  exists l1 h1 l2 h2 x' y' z',
    from_cartesian UnitSphericalRepresentation 0 cart_heap = (Ok l1, h1)
    /\ to_cartesian l1 h1 = (Ok l2, h2)
    /\ h2 !! l2 = Some (Cartesian x' y' z').
Proof.
  assert (H1 : (0 < 1)%R) by lra.
  assert (H2 : (0 < 1 / 100)%R) by lra.
  destruct (Cartesian_direction_through_unit_spherical cart_heap 0 _ _ _ []
              (eq_refl : cart_heap !! 0 = Some (Cartesian _ _ _))
              eq_refl eq_refl eq_refl eq_refl eq_refl H1 H1 H2)
    as (l1 & h1 & l2 & h2 & x' & y' & z' & E1 & E2 & E3 & _).
  exists l1, h1, l2, h2, x', y', z'. auto.
Defined.

(** ** Cylindrical coordinates of points off the axis *)

Lemma off_axis_rho fx fy kx ky :
  (0 < kx -> 0 < ky -> fx * kx <> 0 \/ fy * ky <> 0 ->
   0 < sqrt (fx * fx + fy * fy * (ky * ky / (kx * kx))))%R.
Proof.
  intros Hkx Hky Hne. apply sqrt_lt_R0.
  assert (Hk : (0 < ky * ky / (kx * kx))%R).
  { apply Rdiv_lt_0_compat; nra. }
  destruct (Req_dec fx 0) as [-> | Hx].
  - assert (fy <> 0)%R by (intros ->; lra).
    assert (0 < fy * fy)%R by nra. nra.
  - assert (0 < fx * fx)%R by nra.
    assert (0 <= fy * fy * (ky * ky / (kx * kx)))%R by (apply Rmult_le_pos; nra). lra.
Qed.

Lemma deg_radian a : (a * (u_scale u_radian / u_scale u_deg) * u_scale u_deg = a)%R.
Proof. pose proof PI_RGT_0. cbn. field. lra. Qed.

(** For a scalar or one-dimensional Cartesian object all of whose points
    lie off the z-axis, [CylindricalRepresentation.from_cartesian]
    succeeds: rho is the positive distance from the axis, phi is stored
    in degrees and lies in (-180, 180] degrees, and z is the z of the
    Cartesian object. *)
Theorem Cylindrical_from_cartesian_off_axis (h : heap) cart x y z s :
  h !! cart = Some (Cartesian x y z) ->
  q_shape x = s -> q_shape y = s -> q_shape z = s ->
  s = [] \/ (exists n, s = [n]) ->
  u_dim (q_unit y) = u_dim (q_unit x) -> u_dim (q_unit z) = u_dim (q_unit x) ->
  (0 < u_scale (q_unit x))%R -> (0 < u_scale (q_unit y))%R ->
  (forall idx, In idx (indices s) -> q_si x idx <> 0%R \/ q_si y idx <> 0%R) ->
  exists rho phi z',
    from_cartesian CylindricalRepresentation cart h
    = (Ok (fresh (dom h)), <[fresh (dom h) := Cylindrical rho phi z']> h)
    /\ q_unit phi = u_deg /\ q_same z' z
    /\ forall idx, In idx (indices s) ->
         (0 < q_si rho idx
          /\ q_si rho idx * q_si rho idx
             = q_si x idx * q_si x idx + q_si y idx * q_si y idx
          /\ - PI < q_si phi idx <= PI)%R.
Proof.
  intros Hcart Hsx Hsy Hsz Hs Hdy Hdz Hkx Hky Hoff.
  destruct (CylindricalRepresentation_from_cartesian_ok h cart x y z _ _ _ s _ _ _ Hcart
              (q_is_at _ _ Hsx) (q_is_at _ _ Hsy) (q_is_at _ _ Hsz) Hdy)
    as (rho & phi & z' & E & Hrho & Hphi & Hz').
  { apply physical_type_dim. now rewrite unit_sqrt_sqr_dim. }
  { exact Hs. }
  { intros idx Hi. exact (off_axis_rho _ _ _ _ Hkx Hky (Hoff idx Hi)). }
  exists rho, phi, z'. split; [exact E |].
  split; [apply Hphi |].
  split; [now apply (q_same_self_is _ _ s) |].
  intros idx Hi.
  rewrite (q_si_is _ _ _ _ _ Hrho Hi), (q_si_is _ _ _ _ _ Hphi Hi), deg_radian.
  pose proof (off_axis_rho _ _ _ _ Hkx Hky (Hoff idx Hi)) as Hpos.
  cbn [u_scale unit_sqr unit_sqrt] in *.
  assert (Hk : (0 < sqrt (u_scale (q_unit x) * u_scale (q_unit x)))%R)
    by (apply sqrt_lt_R0; nra).
  split; [now apply Rmult_lt_0_compat |].
  split; [| apply arctan2_range].
  destruct (radius_sqr (item (q_value x) idx) (item (q_value y) idx) 0 _
              (u_scale (q_unit y)) 1 Hkx) as [_ Hr].
  unfold q_si.
  replace (item (q_value x) idx * item (q_value x) idx
           + item (q_value y) idx * item (q_value y) idx
             * (u_scale (q_unit y) * u_scale (q_unit y)
                / (u_scale (q_unit x) * u_scale (q_unit x))))%R
    with (item (q_value x) idx * item (q_value x) idx
          + item (q_value y) idx * item (q_value y) idx
            * (u_scale (q_unit y) * u_scale (q_unit y)
               / (u_scale (q_unit x) * u_scale (q_unit x)))
          + 0 * 0 * (1 * 1 / (u_scale (q_unit x) * u_scale (q_unit x))))%R
    by (field; lra).
  rewrite Hr. ring.
Qed.

Lemma Cylindrical_from_cartesian_off_axis_witness :
  exists rho phi z',
    from_cartesian CylindricalRepresentation 0 off_axis_heap
    = (Ok (fresh (dom off_axis_heap)),
       <[fresh (dom off_axis_heap) := Cylindrical rho phi z']> off_axis_heap)
    /\ q_unit phi = u_deg.
Proof.
  assert (H1 : (0 < 1)%R) by lra.
  assert (Hoff : forall idx, In idx (indices [2]) ->
                   q_si (mkQ Quantity u_m (vec [1; 0]%R)) idx <> 0%R
                   \/ q_si (mkQ Quantity u_m (vec [0; 2]%R)) idx <> 0%R).
  { intros idx [<- | [<- | []]]; [left | right]; unfold q_si; cbn; lra. }
  destruct (Cylindrical_from_cartesian_off_axis off_axis_heap 0 _ _ _ [2]
              (eq_refl : off_axis_heap !! 0 = Some (Cartesian _ _ _))
              eq_refl eq_refl eq_refl (or_intror (ex_intro _ 2 eq_refl))
              eq_refl eq_refl H1 H1 Hoff)
    as (rho & phi & z' & E & Hu & _).
  exists rho, phi, z'. auto.
Defined.

(** Such points survive the passage through cylindrical coordinates:
    [CylindricalRepresentation.from_cartesian] followed by [to_cartesian]
    returns a Cartesian object holding the same physical values. *)
Theorem Cartesian_survives_cylindrical (h : heap) cart x y z s :
  h !! cart = Some (Cartesian x y z) ->
  q_shape x = s -> q_shape y = s -> q_shape z = s ->
  s = [] \/ (exists n, s = [n]) ->
  u_dim (q_unit y) = u_dim (q_unit x) -> u_dim (q_unit z) = u_dim (q_unit x) ->
  (0 < u_scale (q_unit x))%R -> (0 < u_scale (q_unit y))%R ->
  (forall idx, In idx (indices s) -> q_si x idx <> 0%R \/ q_si y idx <> 0%R) ->
  exists l1 h1 l2 h2 o',
    from_cartesian CylindricalRepresentation cart h = (Ok l1, h1)
    /\ to_cartesian l1 h1 = (Ok l2, h2)
    /\ h2 !! l2 = Some o' /\ rep_same o' (Cartesian x y z).
Proof.
  intros Hcart Hsx Hsy Hsz Hs Hdy Hdz Hkx Hky Hoff.
  assert (Hpt : physical_type (unit_sqrt (unit_sqr (q_unit x))) = physical_type (q_unit z)).
  { apply physical_type_dim. now rewrite unit_sqrt_sqr_dim. }
  destruct (CylindricalRepresentation_from_cartesian_ok h cart x y z _ _ _ s _ _ _ Hcart
              (q_is_at _ _ Hsx) (q_is_at _ _ Hsy) (q_is_at _ _ Hsz) Hdy Hpt Hs)
    as (rho & phi & z' & E & Hrho & Hphi & Hz').
  { intros idx Hi. exact (off_axis_rho _ _ _ _ Hkx Hky (Hoff idx Hi)). }
  set (h1 := <[fresh (dom h) := Cylindrical rho phi z']> h) in *.
  assert (Hl1 : h1 !! fresh (dom h) = Some (Cylindrical rho phi z'))
    by apply lookup_fresh_insert.
  destruct (CylindricalRepresentation_to_cartesian_ok h1 _ rho phi z' _ _ _ s _ _ _ Hl1
              Hrho Hphi Hz' eq_refl Hpt)
    as (x' & y' & z'' & Eto & Hx' & Hy' & Hz'').
  exists (fresh (dom h)), h1, (fresh (dom h1)), (<[fresh (dom h1) := Cartesian x' y' z'']> h1),
    (Cartesian x' y' z'').
  split; [exact E |].
  split; [rewrite (to_cartesian_class _ _ _ Hl1); exact Eto |].
  split; [apply lookup_fresh_insert |].
  assert (H1 : (0 < 1)%R) by lra.
  apply rep_same3; try reflexivity.
  - apply (q_same_of_is _ _ _ _ s _ _ Hx' (q_is_at _ _ Hsx)).
    + cbn [unit_mul u_dim dimensionless_unscaled].
      now rewrite unit_sqrt_sqr_dim, !dim_mul_zero_r.
    + intros idx Hi. rewrite deg_radian.
      cbn [u_scale unit_mul dimensionless_unscaled unit_sqr unit_sqrt].
      destruct (spherical_inverse (item (q_value x) idx) (item (q_value y) idx) 0
                  _ _ 1 Hkx Hky H1) as (_ & _ & _ & Hsq & _).
      destruct (arctan2_cos_sin (item (q_value y) idx * u_scale (q_unit y))
                  (item (q_value x) idx * u_scale (q_unit x))) as [Hc _].
      rewrite <- Hsq in Hc.
      rewrite <- (arctan2_scale (/ u_scale (q_unit y))) in Hc
        by now apply Rinv_0_lt_compat.
      replace (/ u_scale (q_unit y) * (item (q_value y) idx * u_scale (q_unit y)))%R
        with (item (q_value y) idx) in Hc by (field; lra).
      replace (/ u_scale (q_unit y) * (item (q_value x) idx * u_scale (q_unit x)))%R
        with (item (q_value x) idx * (u_scale (q_unit x) / u_scale (q_unit y)))%R in Hc
        by (field; lra).
      rewrite <- Hc. ring.
  - apply (q_same_of_is _ _ _ _ s _ _ Hy' (q_is_at _ _ Hsy)).
    + cbn [unit_mul u_dim dimensionless_unscaled].
      now rewrite unit_sqrt_sqr_dim, !dim_mul_zero_r.
    + intros idx Hi. rewrite deg_radian.
      cbn [u_scale unit_mul dimensionless_unscaled unit_sqr unit_sqrt].
      destruct (spherical_inverse (item (q_value x) idx) (item (q_value y) idx) 0
                  _ _ 1 Hkx Hky H1) as (_ & _ & _ & Hsq & _).
      destruct (arctan2_cos_sin (item (q_value y) idx * u_scale (q_unit y))
                  (item (q_value x) idx * u_scale (q_unit x))) as [_ Hsn].
      rewrite <- Hsq in Hsn.
      rewrite <- (arctan2_scale (/ u_scale (q_unit y))) in Hsn
        by now apply Rinv_0_lt_compat.
      replace (/ u_scale (q_unit y) * (item (q_value y) idx * u_scale (q_unit y)))%R
        with (item (q_value y) idx) in Hsn by (field; lra).
      replace (/ u_scale (q_unit y) * (item (q_value x) idx * u_scale (q_unit x)))%R
        with (item (q_value x) idx * (u_scale (q_unit x) / u_scale (q_unit y)))%R in Hsn
        by (field; lra).
      rewrite <- Hsn. ring.
  - apply (q_same_of_is _ _ _ _ s _ _ Hz'' (q_is_at _ _ Hsz)); auto.
Qed.

Lemma Cartesian_survives_cylindrical_witness :
  exists l1 h1 l2 h2 o',
    from_cartesian CylindricalRepresentation 0 off_axis_heap = (Ok l1, h1)
    /\ to_cartesian l1 h1 = (Ok l2, h2)
    /\ h2 !! l2 = Some o' /\ rep_same o' off_axis_points.
Proof.
  assert (H1 : (0 < 1)%R) by lra.
  assert (Hoff : forall idx, In idx (indices [2]) ->
                   q_si (mkQ Quantity u_m (vec [1; 0]%R)) idx <> 0%R
                   \/ q_si (mkQ Quantity u_m (vec [0; 2]%R)) idx <> 0%R).
  { intros idx [<- | [<- | []]]; [left | right]; unfold q_si; cbn; lra. }
  exact (Cartesian_survives_cylindrical off_axis_heap 0 _ _ _ [2]
           (eq_refl : off_axis_heap !! 0 = Some (Cartesian _ _ _))
           eq_refl eq_refl eq_refl (or_intror (ex_intro _ 2 eq_refl))
           eq_refl eq_refl H1 H1 Hoff).
Defined.

(** ** Cylindrical coordinates of arrays that touch the axis *)

Lemma count_true_le l : count_true l <= length l.
Proof. induction l as [| [] l IH]; cbn; lia. Qed.

Lemma count_true_lt l : In false l -> count_true l < length l.
Proof.
  induction l as [| b l IH]; [intros [] |].
  intros [-> | Hin]; cbn.
  - pose proof (count_true_le l). lia.
  - specialize (IH Hin). destruct b; lia.
Qed.

(** A one-dimensional Cartesian object of two or more points, at least
    one of which lies on the z-axis, has no cylindrical form:
    [CylindricalRepresentation.from_cartesian] raises [ValueError] at the
    masked assignment of phi, which receives the angles of all the points
    for the fewer entries its mask selects, and the store is left as it
    was. *)
Theorem Cylindrical_from_cartesian_on_axis_raises (h : heap) cart x y z n :
  h !! cart = Some (Cartesian x y z) ->
  q_shape x = [n] -> q_shape y = [n] ->
  u_dim (q_unit y) = u_dim (q_unit x) ->
  (0 < u_scale (q_unit x))%R -> (0 < u_scale (q_unit y))%R ->
  2 <= n ->
  (exists i, i < n /\ q_si x [i] = 0%R /\ q_si y [i] = 0%R) ->
  from_cartesian CylindricalRepresentation cart h = (Err ValueError, h).
Proof.
  intros Hcart Hsx Hsy Hdy Hkx Hky Hn (i & Hi & Hx0 & Hy0).
  pose proof (q_is_at _ _ Hsx) as Hx. pose proof (q_is_at _ _ Hsy) as Hy.
  destruct (q_add_is _ _ _ _ _ _ _ (q_sqr_is _ _ _ _ Hx) (q_sqr_is _ _ _ _ Hy)
              (unit_sqr_dim _ _ Hdy)) as (xy & Exy & Hxy).
  pose proof (q_sqrt_is _ _ _ _ Hxy) as Hrho.
  destruct (np_arctan2_is _ _ _ _ _ _ _ Hy Hx (eq_sym Hdy)) as (v & Ev & Cv & Hv).
  destruct (q_to_is v u_radian u_deg [n] _ Hv eq_refl) as (v' & Ev' & _ & [_ Hv']).
  pose proof (np_map_is (fun v => bool_decide (0 < v)%R) _ _ _ (proj2 Hrho)) as Hmask.
  fold (q_gt0 (q_sqrt xy)) in Hmask.
  assert (Hin : In [i] (indices [n])).
  { rewrite indices_1d. apply in_map_iff. exists i. split; [reflexivity |].
    apply in_seq. lia. }
  assert (Hfalse : item (q_gt0 (q_sqrt xy)) [i] = false).
  { rewrite (proj2 Hmask) by exact Hin. apply bool_decide_eq_false.
    unfold q_si in Hx0, Hy0.
    assert (item (q_value x) [i] = 0)%R as -> by nra.
    assert (item (q_value y) [i] = 0)%R as -> by nra.
    rewrite !Rmult_0_l, Rplus_0_l, sqrt_0. lra. }
  assert (Hcount : count_true (flat (q_gt0 (q_sqrt xy))) < n).
  { assert (Hlen : length (flat (q_gt0 (q_sqrt xy))) = n).
    { unfold flat. rewrite (proj1 Hmask), length_map, indices_1d, length_map.
      apply length_seq. }
    assert (Hinf : In false (flat (q_gt0 (q_sqrt xy)))).
    { unfold flat. rewrite (proj1 Hmask), <- Hfalse. now apply in_map. }
    pose proof (count_true_lt _ Hinf) as Hlt. now rewrite Hlen in Hlt. }
  unfold from_cartesian, CylindricalRepresentation_from_cartesian.
  rewrite (bind_ok _ _ _ _ _ (cart_xyz_ok _ _ _ _ _ Hcart)).
  cbn beta iota zeta. rewrite bind_lift, Exy. cbn [rbind]. cbn beta iota.
  rewrite bind_lift, Ev. cbn [rbind].
  unfold q_setitem_mask. cbn [q_unit q_value array_times_unit q_class q_shape].
  rewrite Ev'. cbn [rbind].
  rewrite decide_True by (rewrite (proj1 Hmask); exact (eq_sym Hsx)).
  rewrite (setitem_mask_count_mismatch _ _ _ n); [reflexivity | apply Hv' | lia | lia].
Qed.

Lemma Cylindrical_from_cartesian_on_axis_raises_witness :
  from_cartesian CylindricalRepresentation 0 mixed_heap = (Err ValueError, mixed_heap).
Proof.
  assert (H1 : (0 < 1)%R) by lra.
  assert (H0 : (0 * 1 = 0)%R) by lra.
  exact (Cylindrical_from_cartesian_on_axis_raises mixed_heap 0 _ _ _ 2
           (eq_refl : mixed_heap !! 0 = Some (Cartesian _ _ _))
           eq_refl eq_refl eq_refl H1 H1 (le_n 2)
           (ex_intro _ 0 (conj (le_S _ _ (le_n 1)) (conj H0 H0)))).
Defined.

(** ** Cylindrical coordinates of a single point *)

Lemma setitem_mask_single {A} (a : ndarray A) mask v s g :
  s = [] \/ s = [1] ->
  shape a = s -> shape mask = s -> arr_is v s g ->
  exists c, setitem_mask a mask v = Ok c
            /\ arr_is c s (fun idx => if item mask idx then g idx else item a idx).
Proof.
  intros Hs Ha Hm [Hvs Hv]. unfold setitem_mask. rewrite Hvs.
  destruct Hs as [-> | ->].
  - eexists. split; [reflexivity |]. split; [exact Ha |].
    intros idx [<- | []]. cbn. rewrite Hv by now left. reflexivity.
  - unfold flat. rewrite Hm. cbn [indices flat_map seq map app count_true].
    destruct (item mask [0]) eqn:Em; cbn [Nat.add Nat.eqb].
    + eexists. split; [reflexivity |]. split; [exact Ha |].
      intros idx [<- | []]. cbn [item]. rewrite Em. cbn.
      rewrite decide_True by reflexivity. apply Hv. now left.
    + eexists. split; [reflexivity |]. split; [exact Ha |].
      intros idx [<- | []]. cbn [item]. now rewrite Em.
Qed.

Lemma arctan2_0_0 : arctan2 0 0 = 0%R.
Proof. unfold arctan2. repeat case_decide; lra. Qed.

(** A single Cartesian point, given as scalars or as arrays of length
    one, always has a cylindrical form, on the z-axis or off it: rho is
    the distance from the axis, z is kept, and phi is the angle
    [arctan2(y, x)], which is zero on the axis, where the masked
    assignment leaves the initial zero. *)
Theorem Cylindrical_from_cartesian_single_point (h : heap) cart x y z s :
  h !! cart = Some (Cartesian x y z) ->
  q_shape x = s -> q_shape y = s -> q_shape z = s ->
  s = [] \/ s = [1] ->
  u_dim (q_unit y) = u_dim (q_unit x) -> u_dim (q_unit z) = u_dim (q_unit x) ->
  (0 < u_scale (q_unit x))%R -> (0 < u_scale (q_unit y))%R ->
  exists rho phi z',
    from_cartesian CylindricalRepresentation cart h
    = (Ok (fresh (dom h)), <[fresh (dom h) := Cylindrical rho phi z']> h)
    /\ q_same z' z
    /\ forall idx, In idx (indices s) ->
         (q_si rho idx = sqrt (q_si x idx * q_si x idx + q_si y idx * q_si y idx)
          /\ q_si phi idx = arctan2 (q_si y idx) (q_si x idx))%R.
Proof.
  intros Hcart Hsx Hsy Hsz Hs Hdy Hdz Hkx Hky.
  pose proof (q_is_at _ _ Hsx) as Hx. pose proof (q_is_at _ _ Hsy) as Hy.
  pose proof (q_is_at _ _ Hsz) as Hz.
  destruct (q_add_is _ _ _ _ _ _ _ (q_sqr_is _ _ _ _ Hx) (q_sqr_is _ _ _ _ Hy)
              (unit_sqr_dim _ _ Hdy)) as (xy & Exy & Hxy).
  pose proof (q_sqrt_is _ _ _ _ Hxy) as Hrho.
  destruct (np_arctan2_is _ _ _ _ _ _ _ Hy Hx (eq_sym Hdy)) as (v & Ev & Cv & Hv).
  destruct (q_to_is v u_radian u_deg s _ Hv eq_refl) as (v' & Ev' & _ & [_ Hv']).
  pose proof (np_map_is (fun v => bool_decide (0 < v)%R) _ _ _ (proj2 Hrho)) as Hmask.
  fold (q_gt0 (q_sqrt xy)) in Hmask.
  destruct (setitem_mask_single (np_zeros (q_shape x)) (q_gt0 (q_sqrt xy)) _ s _
              Hs Hsx (proj1 Hmask) Hv') as (c & Ec & Hc).
  destruct (CylindricalRepresentation_init_ok (PyQ (q_sqrt xy))
              (PyQ (mkQ Quantity u_deg c)) (PyQ z) true h
              _ _ _ _ _ _ _
              (accepted_Quantity _ _ _ _ true Hrho)
              (accepted_Angle (mkQ Quantity u_deg c) u_deg s _ true
                 (conj eq_refl Hc) eq_refl)
              (accepted_Quantity _ _ _ _ true Hz))
    as (rho' & phi' & z' & Einit & Hrho' & Hphi' & Hz').
  { apply physical_type_dim. now rewrite unit_sqrt_sqr_dim. }
  exists rho', phi', z'. split.
  { unfold from_cartesian, CylindricalRepresentation_from_cartesian.
    rewrite (bind_ok _ _ _ _ _ (cart_xyz_ok _ _ _ _ _ Hcart)).
    cbn beta iota zeta. rewrite bind_lift, Exy. cbn [rbind]. cbn beta iota.
    rewrite bind_lift, Ev. cbn [rbind].
    unfold q_setitem_mask. cbn [q_unit q_value array_times_unit q_class q_shape].
    rewrite Ev'. cbn [rbind].
    rewrite decide_True by (rewrite (proj1 Hmask); exact (eq_sym Hsx)).
    rewrite Ec. cbn [rbind]. cbn beta iota.
    exact Einit. }
  split; [now apply (q_same_self_is _ _ s) |].
  intros idx Hi.
  assert (H1 : (0 < 1)%R) by lra.
  destruct (spherical_inverse (item (q_value x) idx) (item (q_value y) idx) 0
              _ _ 1 Hkx Hky H1) as (_ & _ & _ & Hsq & _).
  assert (Hang : arctan2 (item (q_value y) idx)
                   (item (q_value x) idx * (u_scale (q_unit x) / u_scale (q_unit y)))
                 = arctan2 (q_si y idx) (q_si x idx)).
  { unfold q_si. rewrite <- (arctan2_scale (/ u_scale (q_unit y)) (_ * _))
      by now apply Rinv_0_lt_compat.
    f_equal; field; lra. }
  rewrite (q_si_is _ _ _ _ _ Hrho' Hi), (q_si_is _ _ _ _ _ Hphi' Hi).
  split; [exact Hsq |].
  rewrite (proj2 Hmask) by exact Hi. cbn [item np_zeros].
  case_bool_decide as Hpos.
  - rewrite deg_radian. exact Hang.
  - rewrite Rmult_0_l.
    cbn [u_scale unit_sqr unit_sqrt] in Hsq, Hpos.
    assert (Hzero : sqrt (q_si x idx * q_si x idx + q_si y idx * q_si y idx) = 0%R).
    { unfold q_si. rewrite <- Hsq.
      assert (0 <= sqrt (item (q_value x) idx * item (q_value x) idx
                         + item (q_value y) idx * item (q_value y) idx
                           * (u_scale (q_unit y) * u_scale (q_unit y)
                              / (u_scale (q_unit x) * u_scale (q_unit x)))))%R
        by apply sqrt_pos.
      assert (sqrt (item (q_value x) idx * item (q_value x) idx
                    + item (q_value y) idx * item (q_value y) idx
                      * (u_scale (q_unit y) * u_scale (q_unit y)
                         / (u_scale (q_unit x) * u_scale (q_unit x)))) = 0)%R as -> by lra.
      ring. }
    apply sqrt_eq_0 in Hzero; [| nra].
    assert (q_si x idx = 0)%R as -> by nra.
    assert (q_si y idx = 0)%R as -> by nra.
    now rewrite arctan2_0_0.
Qed.

Lemma Cylindrical_from_cartesian_single_point_witness :
  exists rho phi z',
    from_cartesian CylindricalRepresentation 0 axis_heap
    = (Ok (fresh (dom axis_heap)),
       <[fresh (dom axis_heap) := Cylindrical rho phi z']> axis_heap)
    /\ q_same z' (mkQ Quantity u_m (scalar 3))
    /\ (q_si rho [] = sqrt (0 * 1 * (0 * 1) + 0 * 1 * (0 * 1)))%R.
Proof.
  assert (H1 : (0 < 1)%R) by lra.
  destruct (Cylindrical_from_cartesian_single_point axis_heap 0 _ _ _ []
              (eq_refl : axis_heap !! 0 = Some (Cartesian _ _ _))
              eq_refl eq_refl eq_refl (or_introl eq_refl) eq_refl eq_refl H1 H1)
    as (rho & phi & z' & E & Hz & H).
  exists rho, phi, z'. split; [exact E |]. split; [exact Hz |].
  apply (H []). now left.
Defined.

(** ** Cartesian components given with a unit *)

Lemma accepted_Quantity_unit q uq u s f copy :
  q_is q uq s f -> u_dim uq = u_dim u ->
  accepted (Quantity_new (PyQ q) (Some u) copy) u s
    (fun idx => f idx * (u_scale uq / u_scale u))%R.
Proof.
  intros Hq Hd.
  destruct (q_to_is _ _ u _ _ Hq Hd) as (c & Ec & _ & Hc).
  exists (q_view_Quantity c). split; [cbn; now rewrite Ec |].
  split; [apply Hc |]. eexists. split; [reflexivity |]. split; [reflexivity |].
  split; [apply Hc | apply broadcast_to_is, Hc].
Qed.

(** When [unit] is given, [CartesianRepresentation] stores every
    component in that unit: quantities of one shape whose dimension is
    that of [unit] are converted, keeping their physical values, whatever
    units they came in; a first component of another dimension is
    refused with [UnitsError] and nothing is stored. *)
Theorem CartesianRepresentation_init_converts_to_unit
    qx qy qz unit copy (h : heap) s :
  q_shape qx = s -> q_shape qy = s -> q_shape qz = s ->
  (0 < u_scale unit)%R ->
  (u_dim (q_unit qx) = u_dim unit -> u_dim (q_unit qy) = u_dim unit ->
   u_dim (q_unit qz) = u_dim unit ->
   exists x y z,
     CartesianRepresentation_init (PyQ qx) (PyQ qy) (PyQ qz) (Some unit) copy h
     = (Ok (fresh (dom h)), <[fresh (dom h) := Cartesian x y z]> h)
     /\ Forall (fun q => q_unit q = unit) [x; y; z]
     /\ q_same x qx /\ q_same y qy /\ q_same z qz)
  /\ (u_dim (q_unit qx) <> u_dim unit ->
      CartesianRepresentation_init (PyQ qx) (PyQ qy) (PyQ qz) (Some unit) copy h
      = (Err UnitsError, h)).
Proof.
  intros Hsx Hsy Hsz Hk. split.
  - intros Hdx Hdy Hdz.
    pose proof (accepted_Quantity_unit _ _ _ _ _ copy (q_is_at _ _ Hsx) Hdx) as Ax.
    pose proof (accepted_Quantity_unit _ _ _ _ _ copy (q_is_at _ _ Hsy) Hdy) as Ay.
    pose proof (accepted_Quantity_unit _ _ _ _ _ copy (q_is_at _ _ Hsz) Hdz) as Az.
    destruct (accepted_ok _ _ _ _ Ax) as (x1 & Ex).
    destruct (accepted_ok _ _ _ _ Ay) as (y1 & Ey).
    destruct (accepted_ok _ _ _ _ Az) as (z1 & Ez).
    destruct (accepted_broadcast3 _ _ _ _ _ _ _ _ _ _ _ _ _ copy Ax Ay Az Ex Ey Ez)
      as (x' & y' & z' & Hb & [_ Hx'] & [_ Hy'] & [_ Hz']).
    exists x', y', z'. split.
    { unfold CartesianRepresentation_init. cbn [is_None andb orb negb].
      unfold bind at 1, ret at 1.
      rewrite !bind_lift, Ex, !bind_lift, Ey, !bind_lift, Ez.
      rewrite (accepted_unit _ _ _ _ _ Ax Ex), (accepted_unit _ _ _ _ _ Ay Ey),
        (accepted_unit _ _ _ _ _ Az Ez).
      rewrite !bool_decide_eq_true_2 by reflexivity. cbn [andb negb].
      rewrite bind_lift, Hb. reflexivity. }
    split; [repeat constructor; first [apply Hx' | apply Hy' | apply Hz'] |].
    split; [| split].
    + apply (q_same_of_is _ _ _ _ s _ _ Hx' (q_is_at _ _ Hsx)); [now symmetry |].
      intros idx _. field. lra.
    + apply (q_same_of_is _ _ _ _ s _ _ Hy' (q_is_at _ _ Hsy)); [now symmetry |].
      intros idx _. field. lra.
    + apply (q_same_of_is _ _ _ _ s _ _ Hz' (q_is_at _ _ Hsz)); [now symmetry |].
      intros idx _. field. lra.
  - intros Hdx. unfold CartesianRepresentation_init. cbn [is_None andb orb negb].
    unfold bind at 1, ret at 1. rewrite bind_lift. cbn [Quantity_new].
    unfold q_to. rewrite decide_False by exact Hdx. reflexivity.
Qed.

Lemma CartesianRepresentation_init_converts_to_unit_witness :
  exists x y z,
    CartesianRepresentation_init (PyQ (mkQ Quantity u_m (scalar (-1))))
      (PyQ (mkQ Quantity u_m (scalar 0))) (PyQ (mkQ Quantity u_cm (scalar 100)))
      (Some u_cm) true ∅
    = (Ok (fresh (dom (∅ : gmap nat rep))), <[fresh (dom (∅ : gmap nat rep)) := Cartesian x y z]> ∅)
    /\ Forall (fun q => q_unit q = u_cm) [x; y; z].
Proof.
  assert (H1 : (0 < u_scale u_cm)%R) by (cbn; lra).
  destruct (proj1 (CartesianRepresentation_init_converts_to_unit
                     (mkQ Quantity u_m (scalar (-1))) (mkQ Quantity u_m (scalar 0))
                     (mkQ Quantity u_cm (scalar 100)) u_cm true ∅ []
                     eq_refl eq_refl eq_refl H1) eq_refl eq_refl eq_refl)
    as (x & y & z & E & Hu & _).
  exists x, y, z. split; [exact E | exact Hu].
Defined.

(** ** Conversions to and from Cartesian take one step *)

(** [represent_as] asked for the Cartesian class does what
    [to_cartesian] does, for an object of any other class, and asked to
    convert a Cartesian object it does what the [from_cartesian] of the
    target class does: the identity conversions of
    [CartesianRepresentation] add no object of their own. *)
Theorem represent_as_cartesian_single_step (h : heap) self o :
  h !! self = Some o ->
  (class_of o <> CartesianRepresentation ->
   represent_as self CartesianRepresentation h = to_cartesian self h)
  /\ (forall cls, class_of o = CartesianRepresentation -> cls <> CartesianRepresentation ->
      represent_as self cls h = from_cartesian cls self h).
Proof.
  intros Hself. split.
  - intros Hne. unfold represent_as.
    rewrite (bind_ok _ _ _ _ _ (get_object_some _ _ _ Hself)).
    assert (Hbase : BaseRepresentation_represent_as self CartesianRepresentation h
                    = to_cartesian self h).
    { unfold BaseRepresentation_represent_as.
      rewrite (bind_ok _ _ _ _ _ (get_object_some _ _ _ Hself)).
      rewrite decide_False by congruence.
      unfold bind. destruct (to_cartesian self h) as [[l | e] h']; reflexivity. }
    destruct (class_of o); first [exact Hbase | congruence].
  - intros cls Hc Hne. unfold represent_as.
    rewrite (bind_ok _ _ _ _ _ (get_object_some _ _ _ Hself)). rewrite Hc.
    unfold BaseRepresentation_represent_as.
    rewrite (bind_ok _ _ _ _ _ (get_object_some _ _ _ Hself)).
    rewrite decide_False by congruence.
    rewrite (bind_ok _ _ _ self h).
    + reflexivity.
    + rewrite (to_cartesian_class _ _ _ Hself), Hc. reflexivity.
Qed.

Lemma represent_as_cartesian_single_step_witness :
  represent_as 0 CartesianRepresentation sky_heap = to_cartesian 0 sky_heap
  /\ represent_as 0 SphericalRepresentation cart_heap
     = from_cartesian SphericalRepresentation 0 cart_heap.
Proof.
  split.
  - apply (proj1 (represent_as_cartesian_single_step sky_heap 0 sky_point eq_refl)).
    discriminate.
  - apply (proj2 (represent_as_cartesian_single_step cart_heap 0 cart_point eq_refl));
      [reflexivity | discriminate].
Defined.

(** ** The observed-quantities step of the transforms *)

Lemma to_value_ok q u : u_dim (q_unit q) = u_dim u -> to_value q u = Ok (value_in q u).
Proof. intros H. unfold to_value, q_to. now rewrite decide_True by exact H. Qed.

Lemma to_value_units_error q u :
  u_dim (q_unit q) <> u_dim u -> to_value q u = Err UnitsError.
Proof. intros H. unfold to_value, q_to. now rewrite decide_False by exact H. Qed.

Lemma frame_lonlat_unit_spherical f r lon lat s :
  frame_data f = Some r -> st_heap s !! r = Some (UnitSpherical lon lat) ->
  frame_lonlat f s = (Ok (lon, lat), s).
Proof.
  intros Hf Hr. unfold frame_lonlat. rewrite Hf. unfold bind, in_heap.
  rewrite (get_object_some _ _ _ Hr). now destruct s.
Qed.

Lemma frame_geodetic_log_stable f : log_stable (frame_geodetic f).
Proof. destruct f as [| ? ? [loc |]]; now intros s. Qed.

Section observed_properties.
Context {astrom : Type} (E : collaborators astrom).

Lemma _get_polar_motion_in_radians_aux time xp yp s :
  pm_xy E (jd1 time) (jd2 time) = (xp, yp) ->
  u_dim (q_unit xp) = dim_angle -> u_dim (q_unit yp) = dim_angle ->
  _get_polar_motion E time s
  = (Ok (value_in xp u_radian, value_in yp u_radian),
     mkState (st_heap s) (st_log s ++ [Ev_pm_xy (jd1 time) (jd2 time)])).
Proof.
  intros Hpm Hx Hy. unfold _get_polar_motion, bind at 1, log. rewrite Hpm.
  rewrite bind_lift, (to_value_ok xp u_radian Hx).
  rewrite bind_lift, (to_value_ok yp u_radian Hy). reflexivity.
Qed.

(** [_get_polar_motion] asks the table once, at the two parts of the
    given time, and hands over the two components as plain arrays in
    radians, whatever angular units the table reports them in; a
    component that is not an angle makes it raise [UnitsError], after the
    table has been asked. *)
Theorem _get_polar_motion_in_radians time xp yp s :
  pm_xy E (jd1 time) (jd2 time) = (xp, yp) ->
  let asked := mkState (st_heap s) (st_log s ++ [Ev_pm_xy (jd1 time) (jd2 time)]) in
  (u_dim (q_unit xp) = dim_angle -> u_dim (q_unit yp) = dim_angle ->
   exists a b,
     _get_polar_motion E time s = (Ok (a, b), asked)
     /\ shape a = q_shape xp /\ shape b = q_shape yp
     /\ (forall idx, item a idx = q_si xp idx) /\ (forall idx, item b idx = q_si yp idx))
  /\ (u_dim (q_unit xp) <> dim_angle \/ u_dim (q_unit yp) <> dim_angle ->
      _get_polar_motion E time s = (Err UnitsError, asked)).
Proof.
  intros Hpm asked. split.
  - intros Hx Hy. exists (value_in xp u_radian), (value_in yp u_radian). split.
    + exact (_get_polar_motion_in_radians_aux time xp yp s Hpm Hx Hy).
    + repeat split; intros idx; unfold q_si; cbn; field.
  - intros Hne. unfold _get_polar_motion, bind at 1, log. rewrite Hpm.
    rewrite bind_lift.
    destruct (decide (u_dim (q_unit xp) = dim_angle)) as [Hx | Hx].
    + rewrite (to_value_ok xp u_radian Hx), bind_lift.
      destruct Hne as [Hne | Hne]; [contradiction |].
      now rewrite (to_value_units_error yp u_radian Hne).
    + now rewrite (to_value_units_error xp u_radian Hx).
Qed.

Lemma build_astrom_ok time lon lat height xp yp p tc rh w dut1 s :
  getitem0 (delta_ut1_utc E time) = Ok dut1 ->
  u_dim (q_unit lon) = dim_angle -> u_dim (q_unit lat) = dim_angle ->
  u_dim (q_unit height) = dim_length ->
  build_astrom E time (lon, lat, height) xp yp (p, tc, rh, w) s
  = (Ok (apio13 E (jd1 time) (jd2 time) dut1 (value_in lon u_radian)
           (value_in lat u_radian) (value_in height u_m) xp yp p tc rh w),
     mkState (st_heap s) (st_log s ++ [Ev_apio13 (jd1 time) (jd2 time)])).
Proof.
  intros Hdut Hlon Hlat Hh. unfold build_astrom.
  rewrite bind_lift, Hdut, bind_lift, (to_value_ok lon u_radian Hlon).
  rewrite bind_lift, (to_value_ok lat u_radian Hlat).
  rewrite bind_lift, (to_value_ok height u_m Hh). reflexivity.
Qed.

(** [cirs_to_altaz] on a source that needs no reconciliation (its times
    are not all different from the target's), with its direction stored
    as a unit-spherical representation, and a target that has a location:
    the table is asked for the polar motion, the astrometry context is
    built from the source's time, the observer's position in radians and
    metres and the target's atmosphere, and [atioq] is called, in this
    order and once each.  When [atioq] returns azimuths and zenith
    distances of one shape, the latter within [0, pi], the result is the
    target frame with a new unit-spherical representation as its data:
    longitude the azimuth, wrapped into [0, 2 pi), latitude pi/2 minus
    the zenith distance, both in radians. *)
Theorem cirs_to_altaz_observes
    r ra dec t data t' loc p tc rh w lon lat height dn xp yp dut1
    az zen ha obs_dec obs_ra (s : pystate) :
  st_heap s !! r = Some (UnitSpherical ra dec) ->
  u_dim (q_unit ra) = dim_angle -> u_dim (q_unit dec) = dim_angle ->
  time_ne t t' = Ok dn -> np_all dn = false ->
  geodetic loc = (lon, lat, height) ->
  u_dim (q_unit lon) = dim_angle -> u_dim (q_unit lat) = dim_angle ->
  u_dim (q_unit height) = dim_length ->
  pm_xy E (jd1 t) (jd2 t) = (xp, yp) ->
  u_dim (q_unit xp) = dim_angle -> u_dim (q_unit yp) = dim_angle ->
  getitem0 (delta_ut1_utc E t) = Ok dut1 ->
  atioq E (value_in ra u_radian) (value_in dec u_radian)
    (apio13 E (jd1 t) (jd2 t) dut1
       (value_in lon u_radian) (value_in lat u_radian) (value_in height u_m)
       (value_in xp u_radian) (value_in yp u_radian)
       (q_value p) (q_value tc) rh (q_value w))
  = (az, zen, ha, obs_dec, obs_ra) ->
  shape az = shape zen ->
  (forall idx, In idx (indices (shape zen)) -> 0 <= item zen idx <= PI)%R ->
  exists az' alt',
    let l := fresh (dom (st_heap s)) in
    cirs_to_altaz E (CIRS (Some r) t) (AltAz data t' (Some loc) p tc rh w) s
    = (Ok (AltAz (Some l) t' (Some loc) p tc rh w),
       mkState (<[l := UnitSpherical az' alt']> (st_heap s))
               (st_log s ++ [Ev_pm_xy (jd1 t) (jd2 t); Ev_apio13 (jd1 t) (jd2 t);
                             Ev_atioq]))
    /\ q_is az' u_radian (shape zen)
         (fun idx => wrap_longitude u_radian (wrap_longitude u_radian (item az idx)))
    /\ q_is alt' u_radian (shape zen) (fun idx => PI / 2 - item zen idx)%R.
Proof.
  intros Hr Hra Hdec Hne Hall Hgeo Hlon Hlat Hh Hpm Hxp Hyp Hdut Hat Hshape Hzen.
  assert (Haz : q_is (mkQ Quantity u_radian az) u_radian (shape zen) (item az)).
  { split; [reflexivity |]. split; [exact Hshape | reflexivity]. }
  assert (Halt : q_is (mkQ Quantity u_radian (np_map (fun z => PI / 2 - z)%R zen))
                   u_radian (shape zen) (fun idx => PI / 2 - item zen idx)%R).
  { split; [reflexivity |]. now split. }
  destruct (UnitSphericalRepresentation_init_ok
              (PyQ (mkQ Quantity u_radian az))
              (PyQ (mkQ Quantity u_radian (np_map (fun z => PI / 2 - z)%R zen)))
              false (st_heap s) _ _ _ _ _
              (accepted_Longitude _ _ _ _ false Haz eq_refl ltac:(discriminate))
              (accepted_Latitude _ _ _ _ false Halt eq_refl ltac:(discriminate)
                 ltac:(intros idx Hi; specialize (Hzen idx Hi); unfold latitude_ok; cbn;
                       rewrite !bool_decide_eq_true_2 by lra; reflexivity)))
    as (az' & alt' & Einit & Haz' & Halt').
  exists az', alt'. cbn zeta. split; [| auto].
  rewrite (cirs_to_altaz_not_all_differ E _ _ dn) by assumption.
  unfold cirs_to_altaz_observed.
  rewrite (bind_ok _ _ _ _ _ (frame_lonlat_unit_spherical (CIRS (Some r) t) r _ _ s eq_refl Hr)).
  rewrite bind_lift, (to_value_ok ra u_radian Hra).
  rewrite bind_lift, (to_value_ok dec u_radian Hdec).
  unfold frame_geodetic, frame_atmosphere, frame_obstime.
  unfold bind at 1, ret at 1. rewrite Hgeo.
  pose proof (_get_polar_motion_in_radians_aux t xp yp s Hpm Hxp Hyp) as Epm.
  rewrite (bind_ok _ _ _ _ _ Epm).
  unfold bind at 1, ret at 1.
  rewrite (bind_ok _ _ _ _ _ (build_astrom_ok t lon lat height _ _ _ _ _ _ dut1 _
                               Hdut Hlon Hlat Hh)).
  unfold bind at 1, log at 1. cbn [st_heap st_log]. rewrite Hat.
  rewrite (bind_ok _ _ _ (PI / 2)%R
             (mkState (st_heap s)
                (((st_log s ++ [Ev_pm_xy (jd1 t) (jd2 t)]) ++ [Ev_apio13 (jd1 t) (jd2 t)])
                 ++ [Ev_atioq]))) by reflexivity.
  rewrite bind_lift. cbn [Quantity_new from_option Datatypes.id].
  rewrite bind_lift. cbn [Quantity_new from_option Datatypes.id].
  unfold bind, in_heap. cbn [st_heap st_log]. rewrite Einit.
  unfold ret, realize_frame. rewrite <- !app_assoc. reflexivity.
Qed.

Lemma cirs_to_altaz_observed_without_location cirs_coo data t' p tc rh w :
  fails_quietly (cirs_to_altaz_observed E cirs_coo (AltAz data t' None p tc rh w)).
Proof.
  apply fails_quietly_bind; [apply frame_lonlat_log_stable |].
  intros [ra dec].
  apply fails_quietly_bind; [apply lift_log_stable |]. intros cirs_ra.
  apply fails_quietly_bind; [apply lift_log_stable |]. intros cirs_dec.
  intros s0. exists AttributeError, s0. split; reflexivity.
Qed.

(** [cirs_to_altaz] needs the observer's location: for a target frame
    that has none it never returns a frame, and it raises before the
    Earth-orientation table or an ERFA routine is called; the only
    collaborator it may have reached is the dispatcher, for the
    reconciliation of the times.  On a source that needs no
    reconciliation and holds a unit-spherical direction in angular units,
    the error is the [AttributeError] of the read of the location's
    [geodetic], and the state is left as it was. *)
Theorem cirs_to_altaz_without_location cirs_coo data t' p tc rh w s :
  let target := AltAz data t' None p tc rh w in
  (exists e s',
     cirs_to_altaz E cirs_coo target s = (Err e, s')
     /\ (st_log s' = st_log s
         \/ st_log s' = st_log s ++ [Ev_transform_to cirs_coo (CIRS None t')]))
  /\ (forall r ra dec dn,
        frame_data cirs_coo = Some r ->
        st_heap s !! r = Some (UnitSpherical ra dec) ->
        u_dim (q_unit ra) = dim_angle -> u_dim (q_unit dec) = dim_angle ->
        time_ne (frame_obstime cirs_coo) t' = Ok dn -> np_all dn = false ->
        cirs_to_altaz E cirs_coo target s = (Err AttributeError, s)).
Proof.
  intros target. split.
  - unfold cirs_to_altaz. rewrite bind_lift.
    destruct (time_ne (frame_obstime cirs_coo) (frame_obstime target)) as [dn | e].
    2:{ exists e, s. split; [reflexivity | now left]. }
    destruct (np_all dn).
    + unfold bind at 1, transform_to, bind at 1, log, in_heap. cbn [st_heap st_log].
      destruct (dispatch E cirs_coo _ (st_heap s)) as [[c | e] h1].
      * destruct (cirs_to_altaz_observed_without_location c data t' p tc rh w
                    (mkState h1 (st_log s ++ [Ev_transform_to cirs_coo (CIRS None t')])))
          as (e & s' & Eobs & Hlog).
        exists e, s'. split; [exact Eobs | right; exact Hlog].
      * eexists _, _. split; [reflexivity | right; reflexivity].
    + unfold bind at 1, ret at 1.
      destruct (cirs_to_altaz_observed_without_location cirs_coo data t' p tc rh w s)
        as (e & s' & Eobs & Hlog).
      exists e, s'. split; [exact Eobs | left; exact Hlog].
  - intros r ra dec dn Hdata Hr Hra Hdec Hne Hall.
    rewrite (cirs_to_altaz_not_all_differ E _ _ dn) by assumption.
    unfold cirs_to_altaz_observed.
    rewrite (bind_ok _ _ _ _ _ (frame_lonlat_unit_spherical cirs_coo r _ _ s Hdata Hr)).
    rewrite bind_lift, (to_value_ok ra u_radian Hra).
    rewrite bind_lift, (to_value_ok dec u_radian Hdec).
    reflexivity.
Qed.

End observed_properties.

Lemma noon_ne : exists d, time_ne noon noon = Ok d /\ np_all d = false.
Proof.
  eexists. split; [reflexivity |]. unfold np_all, flat. cbn.
  rewrite bool_decide_eq_false_2 by (intros H; now apply H). reflexivity.
Qed.

Lemma _get_polar_motion_in_radians_witness :
  exists a b,
    _get_polar_motion example_collaborators noon example_state
    = (Ok (a, b),
       mkState (st_heap example_state)
         (st_log example_state ++ [Ev_pm_xy (jd1 noon) (jd2 noon)])).
Proof.
  destruct (proj1 (_get_polar_motion_in_radians example_collaborators noon _ _
                     example_state eq_refl) eq_refl eq_refl) as (a & b & E & _).
  exists a, b. exact E.
Defined.

Lemma cirs_to_altaz_observes_witness :
  exists az' alt',
    cirs_to_altaz example_collaborators (CIRS (Some 0) noon) (example_altaz None noon)
      example_state
    = (Ok (example_altaz (Some (fresh (dom (st_heap example_state)))) noon),
       mkState (<[fresh (dom (st_heap example_state)) := UnitSpherical az' alt']>
                  (st_heap example_state))
         [Ev_pm_xy (jd1 noon) (jd2 noon); Ev_apio13 (jd1 noon) (jd2 noon); Ev_atioq]).
Proof.
  destruct noon_ne as (dn & Hne & Hall).
  assert (Hzen : forall idx,
             In idx (indices (shape (np_map (fun d => PI / 2 - d)%R
                                       (value_in (mkQ Latitude u_radian (scalar 0))
                                          u_radian)))) ->
             (0 <= item (np_map (fun d => PI / 2 - d)%R
                           (value_in (mkQ Latitude u_radian (scalar 0)) u_radian)) idx
              <= PI)%R).
  { intros idx _. pose proof PI_RGT_0. cbn. lra. }
  destruct (cirs_to_altaz_observes example_collaborators 0
              (mkQ Longitude u_radian (scalar 0)) (mkQ Latitude u_radian (scalar 0))
              noon None noon greenwich (plain (scalar 0)) (plain (scalar 0)) (scalar 0)
              (plain (scalar 1)) _ _ _ dn _ _ _ _ _ _ _ _ example_state
              eq_refl eq_refl eq_refl Hne Hall eq_refl eq_refl eq_refl eq_refl
              eq_refl eq_refl eq_refl eq_refl eq_refl eq_refl Hzen)
    as (az' & alt' & E & _).
  exists az', alt'. exact E.
Defined.

Lemma cirs_to_altaz_without_location_witness :
  cirs_to_altaz example_collaborators (CIRS (Some 0) noon) nowhere_altaz example_state
  = (Err AttributeError, example_state).
Proof.
  destruct noon_ne as (dn & Hne & Hall).
  exact (proj2 (cirs_to_altaz_without_location example_collaborators
                  (CIRS (Some 0) noon) None noon (plain (scalar 0)) (plain (scalar 0))
                  (scalar 0) (plain (scalar 1)) example_state)
           0 _ _ dn eq_refl eq_refl eq_refl eq_refl Hne Hall).
Defined.

(** ** Conversions leave existing objects alone *)

Lemma constructs_only_adds cls shapes (h : heap) out :
  constructs cls shapes h out -> h ⊆ out.2.
Proof.
  destruct out as [[l | e] h']; cbn.
  - intros (o & s & Hfresh & -> & _). now apply insert_subseteq.
  - now intros ->.
Qed.

Lemma only_adds_ret {A} (a : A) : only_adds (@ret heap A a).
Proof. now intros h. Qed.

Lemma only_adds_raise {A} e : only_adds (@raise heap A e).
Proof. now intros h. Qed.

Lemma only_adds_lift {A} (r : result A) : only_adds (@lift heap A r).
Proof. now intros h. Qed.

Lemma only_adds_get_object l : only_adds (get_object l).
Proof. intros h. unfold get_object. now destruct (h !! l). Qed.

Lemma only_adds_bind {A B} (m : M heap A) (k : A -> M heap B) :
  only_adds m -> (forall a, only_adds (k a)) -> only_adds (bind m k).
Proof.
  intros Hm Hk h. unfold bind. specialize (Hm h).
  destruct (m h) as [[a | e] h']; cbn in *; [| exact Hm].
  etrans; [exact Hm | apply Hk].
Qed.

Lemma only_adds_Cartesian x y z unit copy :
  only_adds (CartesianRepresentation_init x y z unit copy).
Proof.
  intros h.
  pose proof (CartesianRepresentation_init_constructs x y z unit copy h) as Hc.
  destruct (cartesian_components x y z) as [[[a b] c] | e].
  - eapply constructs_only_adds; eauto.
  - now destruct Hc as (e' & ->).
Qed.

Lemma only_adds_Spherical lon lat distance copy :
  only_adds (SphericalRepresentation_init lon lat distance copy).
Proof.
  intros h. eapply constructs_only_adds, SphericalRepresentation_init_constructs.
Qed.

Lemma only_adds_UnitSpherical lon lat copy :
  only_adds (UnitSphericalRepresentation_init lon lat copy).
Proof.
  intros h. eapply constructs_only_adds, UnitSphericalRepresentation_init_constructs.
Qed.

Lemma only_adds_PhysicsSpherical phi theta distance copy :
  only_adds (PhysicsSphericalRepresentation_init phi theta distance copy).
Proof.
  intros h. eapply constructs_only_adds, PhysicsSphericalRepresentation_init_constructs.
Qed.

Lemma only_adds_Cylindrical rho phi z copy :
  only_adds (CylindricalRepresentation_init rho phi z copy).
Proof.
  intros h. eapply constructs_only_adds, CylindricalRepresentation_init_constructs.
Qed.

Create HintDb only_adds discriminated.
#[local] Hint Resolve only_adds_ret only_adds_raise only_adds_lift only_adds_get_object
  only_adds_Cartesian only_adds_Spherical only_adds_UnitSpherical
  only_adds_PhysicsSpherical only_adds_Cylindrical : only_adds.

Ltac only_adds :=
  repeat first
    [ progress auto with only_adds
    | apply only_adds_bind; [| intros ?]
    | match goal with
      | |- only_adds (match ?x with _ => _ end) => destruct x
      | |- only_adds (if ?b then _ else _) => destruct b
      end ].

Lemma only_adds_to_cartesian self : only_adds (to_cartesian self).
Proof.
  unfold to_cartesian, CartesianRepresentation_to_cartesian,
    SphericalRepresentation_to_cartesian, UnitSphericalRepresentation_to_cartesian,
    PhysicsSphericalRepresentation_to_cartesian, CylindricalRepresentation_to_cartesian.
  only_adds.
Qed.

Lemma only_adds_from_cartesian cls cart : only_adds (from_cartesian cls cart).
Proof.
  unfold from_cartesian, CartesianRepresentation_from_cartesian,
    SphericalRepresentation_from_cartesian, UnitSphericalRepresentation_from_cartesian,
    PhysicsSphericalRepresentation_from_cartesian, CylindricalRepresentation_from_cartesian,
    cart_xyz.
  destruct cls; only_adds.
Qed.

(** No conversion changes or removes a representation that exists:
    [to_cartesian], [from_cartesian], [represent_as] and
    [from_representation] leave every object of the store as it was,
    whether they return or raise; what they build, they build as new
    objects (an intermediate Cartesian object stays in the store when the
    second step of the default path raises). *)
Theorem conversions_only_add :
  (forall self, only_adds (to_cartesian self))
  /\ (forall cls cart, only_adds (from_cartesian cls cart))
  /\ (forall self cls, only_adds (represent_as self cls))
  /\ (forall cls representation, only_adds (from_representation cls representation)).
Proof.
  pose proof only_adds_to_cartesian as Hto.
  pose proof only_adds_from_cartesian as Hfrom.
  assert (Hrep : forall self cls, only_adds (represent_as self cls)).
  { intros self cls.
    unfold represent_as, SphericalRepresentation_represent_as,
      PhysicsSphericalRepresentation_represent_as, BaseRepresentation_represent_as.
    only_adds. }
  repeat split; try assumption.
  intros cls representation. apply Hrep.
Qed.

(** ** Classes and ranges of stored components *)

Lemma np_allb_all p a idx :
  np_allb p a = true -> In idx (indices (shape a)) -> p (item a idx) = true.
Proof.
  unfold np_allb, flat. intros H Hi.
  rewrite forallb_forall in H. apply H. now apply in_map.
Qed.

Lemma q_new_invariant cls a u q : q_new cls a u = Ok q -> class_invariant q.
Proof.
  unfold q_new, class_invariant. intros H.
  destruct cls; repeat case_match; simplify_eq; cbn [q_class q_unit]; auto.
  - split; [assumption |]. intros Hk idx Hi. unfold q_si. cbn [q_value q_unit item np_map].
    now apply wrap_longitude_range.
  - split; [assumption |]. intros idx Hi. unfold q_si. cbn [q_value q_unit].
    match goal with H : np_allb _ _ = true |- _ =>
      pose proof (np_allb_all _ _ idx H Hi) as Hok end.
    unfold latitude_ok in Hok. apply andb_prop in Hok as [Hlo Hhi].
    apply bool_decide_eq_true in Hlo, Hhi. lra.
  - split; [assumption |]. intros idx Hi. cbn [q_value].
    match goal with H : np_allb _ _ = true |- _ =>
      pose proof (np_allb_all _ _ idx H Hi) as Hok end.
    now apply bool_decide_eq_true in Hok.
Qed.

Lemma rewrap_invariant (pairs : list (quantity * ndarray R)) l :
  rmapM (fun '(arg, new_array) => q_new (q_class arg) new_array (q_unit arg)) pairs = Ok l ->
  Forall class_invariant l.
Proof.
  revert l. induction pairs as [| [arg arr] pairs IH]; cbn; intros l H.
  - simplify_eq. constructor.
  - destruct (q_new (q_class arg) arr (q_unit arg)) as [q |] eqn:Hq; cbn in H;
      [| discriminate].
    destruct (rmapM _ pairs) as [qs |] eqn:Hqs; cbn in H; simplify_eq.
    constructor; [now apply q_new_invariant in Hq | now apply IH].
Qed.

Lemma broadcast_quantity_invariant args copy l :
  broadcast_quantity args copy = Ok l -> Forall class_invariant l.
Proof.
  unfold broadcast_quantity. destruct (np_broadcast_arrays _) as [arrs |]; cbn;
    [apply rewrap_invariant | discriminate].
Qed.

Lemma broadcast3_made a b c copy a' b' c' :
  except_ValueError (l <~ broadcast_quantity [a; b; c] copy; as3 l) = Ok (a', b', c') ->
  Forall2 (fun arg q => q_class q = q_class arg /\ q_unit q = q_unit arg)
    [a; b; c] [a'; b'; c']
  /\ Forall class_invariant [a'; b'; c'].
Proof.
  destruct (broadcast_quantity [a; b; c] copy) as [l |] eqn:Hb; cbn.
  - intros Has. pose proof (broadcast_quantity_invariant _ _ _ Hb) as Hinv.
    apply broadcast_quantity_ok in Hb as (s & _ & Hall).
    destruct l as [| x [| y [| z [| d l]]]]; cbn in Has; simplify_eq.
    split; [| exact Hinv].
    eapply Forall2_impl; [exact Hall |]. cbn. intros ? ? (? & ? & ?). auto.
  - destruct (is_ValueError e); discriminate.
Qed.

Lemma broadcast2_made a b copy a' b' :
  except_ValueError (l <~ broadcast_quantity [a; b] copy; as2 l) = Ok (a', b') ->
  Forall2 (fun arg q => q_class q = q_class arg /\ q_unit q = q_unit arg) [a; b] [a'; b']
  /\ Forall class_invariant [a'; b'].
Proof.
  destruct (broadcast_quantity [a; b] copy) as [l |] eqn:Hb; cbn.
  - intros Has. pose proof (broadcast_quantity_invariant _ _ _ Hb) as Hinv.
    apply broadcast_quantity_ok in Hb as (s & _ & Hall).
    destruct l as [| x [| y [| z l]]]; cbn in Has; simplify_eq.
    split; [| exact Hinv].
    eapply Forall2_impl; [exact Hall |]. cbn. intros ? ? (? & ? & ?). auto.
  - destruct (is_ValueError e); discriminate.
Qed.

Lemma Quantity_new_class x unit copy q :
  Quantity_new x unit copy = Ok q -> q_class q = Quantity.
Proof.
  destruct x as [| a | q0 | l]; cbn; intros H; simplify_eq; try reflexivity.
  - destruct unit as [u |]; simplify_eq; [| reflexivity].
    destruct (q_to q0 u); cbn in H; simplify_eq. reflexivity.
  - destruct (plain_arrays l) as [arrs |]; [| discriminate].
    destruct (stack arrs); cbn in H; simplify_eq. reflexivity.
Qed.

Lemma Angle_new_class x copy q : Angle_new x copy = Ok q -> q_class q = Angle.
Proof.
  destruct x; cbn; intros H; simplify_eq. now apply q_new_ok in H as (? & _).
Qed.

Lemma Longitude_new_class x copy q : Longitude_new x copy = Ok q -> q_class q = Longitude.
Proof.
  destruct x; cbn; intros H; simplify_eq. case_decide; simplify_eq.
  now apply q_new_ok in H as (? & _).
Qed.

Lemma Latitude_new_class x copy q : Latitude_new x copy = Ok q -> q_class q = Latitude.
Proof.
  destruct x; cbn; intros H; simplify_eq. case_decide; simplify_eq.
  now apply q_new_ok in H as (? & _).
Qed.

Lemma distance_arg_class distance copy q :
  (if is_length_quantity distance then Distance_new distance copy
   else Quantity_new distance None copy) = Ok q ->
  q_class q = if is_length_quantity distance then Distance else Quantity.
Proof.
  destruct (is_length_quantity distance).
  - destruct distance; cbn; intros H; simplify_eq. now apply q_new_ok in H as (? & _).
  - apply Quantity_new_class.
Qed.

Lemma new_object_made o (h : heap) l h' :
  new_object o h = (Ok l, h') -> h' !! l = Some o.
Proof. unfold new_object. intros H. simplify_eq. apply lookup_fresh_insert. Qed.

Ltac made H :=
  repeat match type of H with
         | Forall2 _ (_ :: _) (_ :: _) =>
             let H1 := fresh "Hq" in
             let H2 := fresh "Hrest" in
             apply Forall2_cons in H as [H1 H2];
             destruct H1 as (? & ?); rename H2 into H
         end.

(** Whatever the arguments, a representation that a constructor returns
    holds components of the classes the constructor names, and these
    keep what their class promises: the longitude of a (unit) spherical
    representation is a [Longitude] within [0, 360) degrees and its
    latitude a [Latitude] within [-90, 90] degrees; phi and theta of the
    physics convention and phi of the cylindrical one are [Angle]s; the
    distance is a [Distance], a non-negative length, exactly when a
    length was given, and a plain [Quantity] otherwise; the Cartesian
    components are plain quantities of one physical type, as are rho and
    z. *)
Theorem constructed_components_keep_their_class :
  (forall x y z unit copy (h : heap) l h',
     CartesianRepresentation_init x y z unit copy h = (Ok l, h') ->
     exists x' y' z',
       h' !! l = Some (Cartesian x' y' z')
       /\ Forall (fun q => q_class q = Quantity) [x'; y'; z']
       /\ physical_type (q_unit x') = physical_type (q_unit y')
       /\ physical_type (q_unit y') = physical_type (q_unit z'))
  /\ (forall lon lat distance copy (h : heap) l h',
        SphericalRepresentation_init lon lat distance copy h = (Ok l, h') ->
        exists lon' lat' d',
          h' !! l = Some (Spherical lon' lat' d')
          /\ q_class lon' = Longitude /\ q_class lat' = Latitude
          /\ q_class d' = (if is_length_quantity distance then Distance else Quantity)
          /\ Forall class_invariant [lon'; lat'; d'])
  /\ (forall lon lat copy (h : heap) l h',
        UnitSphericalRepresentation_init lon lat copy h = (Ok l, h') ->
        exists lon' lat',
          h' !! l = Some (UnitSpherical lon' lat')
          /\ q_class lon' = Longitude /\ q_class lat' = Latitude
          /\ Forall class_invariant [lon'; lat'])
  /\ (forall phi theta distance copy (h : heap) l h',
        PhysicsSphericalRepresentation_init phi theta distance copy h = (Ok l, h') ->
        exists phi' theta' d',
          h' !! l = Some (PhysicsSpherical phi' theta' d')
          /\ q_class phi' = Angle /\ q_class theta' = Angle
          /\ q_class d' = (if is_length_quantity distance then Distance else Quantity)
          /\ Forall class_invariant [phi'; theta'; d'])
  /\ (forall rho phi z copy (h : heap) l h',
        CylindricalRepresentation_init rho phi z copy h = (Ok l, h') ->
        exists rho' phi' z',
          h' !! l = Some (Cylindrical rho' phi' z')
          /\ q_class rho' = Quantity /\ q_class phi' = Angle /\ q_class z' = Quantity
          /\ Forall class_invariant [rho'; phi'; z']
          /\ physical_type (q_unit rho') = physical_type (q_unit z')).
Proof.
  assert (Hcart : forall a b c unit copy (h : heap) l h',
             (x <- lift (Quantity_new a unit copy);
              y <- lift (Quantity_new b unit copy);
              z <- lift (Quantity_new c unit copy);
              if negb (bool_decide (physical_type (q_unit x) = physical_type (q_unit y))
                       && bool_decide (physical_type (q_unit y) = physical_type (q_unit z)))
              then raise UnitsError
              else
                '(x, y, z) <- lift (except_ValueError
                                      (l <~ broadcast_quantity [x; y; z] copy; as3 l));
                new_object (Cartesian x y z)) h = (Ok l, h') ->
             exists x' y' z',
               h' !! l = Some (Cartesian x' y' z')
               /\ Forall (fun q => q_class q = Quantity) [x'; y'; z']
               /\ physical_type (q_unit x') = physical_type (q_unit y')
               /\ physical_type (q_unit y') = physical_type (q_unit z')).
  { intros a b c unit copy h l h' H.
    rewrite !bind_lift in H.
    destruct (Quantity_new a unit copy) as [qa |] eqn:Ha; [| discriminate].
    rewrite !bind_lift in H.
    destruct (Quantity_new b unit copy) as [qb |] eqn:Hb; [| discriminate].
    rewrite !bind_lift in H.
    destruct (Quantity_new c unit copy) as [qc' |] eqn:Hc; [| discriminate].
    destruct (bool_decide (physical_type (q_unit qa) = physical_type (q_unit qb))) eqn:Hab;
      [| discriminate].
    destruct (bool_decide (physical_type (q_unit qb) = physical_type (q_unit qc'))) eqn:Hbc;
      [| discriminate].
    cbn [andb negb] in H. rewrite bind_lift in H.
    destruct (except_ValueError _) as [[[a' b'] c'] | e] eqn:Hbr; [| discriminate].
    apply broadcast3_made in Hbr as [Hall _]. made Hall.
    apply bool_decide_eq_true in Hab, Hbc.
    apply Quantity_new_class in Ha, Hb, Hc.
    exists a', b', c'. split; [exact (new_object_made _ _ _ _ H) |].
    split; [repeat constructor; congruence |]. split; congruence. }
  split; [| split; [| split; [| split]]].
  - intros x y z unit copy h l h' H. unfold CartesianRepresentation_init in H.
    destruct (is_None y), (is_None z); cbn [andb orb negb] in H; try discriminate.
    + rewrite bind_lift in H.
      destruct (unpack3 x) as [[[a b] c] | e]; [| discriminate].
      exact (Hcart _ _ _ _ _ _ _ _ H).
    + exact (Hcart _ _ _ _ _ _ _ _ H).
  - intros lon lat distance copy h l h' H. unfold SphericalRepresentation_init in H.
    rewrite !bind_lift in H.
    destruct (Longitude_new lon copy) as [qa |] eqn:Ha; [| discriminate].
    rewrite !bind_lift in H.
    destruct (Latitude_new lat copy) as [qb |] eqn:Hb; [| discriminate].
    rewrite !bind_lift in H.
    destruct (if is_length_quantity distance then _ else _) as [qd |] eqn:Hd;
      [| discriminate].
    rewrite bind_lift in H.
    destruct (except_ValueError _) as [[[a' b'] c'] | e] eqn:Hbr; [| discriminate].
    apply broadcast3_made in Hbr as [Hall Hinv]. made Hall.
    apply Longitude_new_class in Ha. apply Latitude_new_class in Hb.
    apply distance_arg_class in Hd.
    exists a', b', c'. split; [exact (new_object_made _ _ _ _ H) |].
    repeat split; first [congruence | exact Hinv].
  - intros lon lat copy h l h' H. unfold UnitSphericalRepresentation_init in H.
    rewrite !bind_lift in H.
    destruct (Longitude_new lon copy) as [qa |] eqn:Ha; [| discriminate].
    rewrite !bind_lift in H.
    destruct (Latitude_new lat copy) as [qb |] eqn:Hb; [| discriminate].
    rewrite bind_lift in H.
    destruct (except_ValueError _) as [[a' b'] | e] eqn:Hbr; [| discriminate].
    apply broadcast2_made in Hbr as [Hall Hinv]. made Hall.
    apply Longitude_new_class in Ha. apply Latitude_new_class in Hb.
    exists a', b'. split; [exact (new_object_made _ _ _ _ H) |].
    repeat split; first [congruence | exact Hinv].
  - intros phi theta distance copy h l h' H.
    unfold PhysicsSphericalRepresentation_init in H.
    rewrite !bind_lift in H.
    destruct (Angle_new phi copy) as [qa |] eqn:Ha; [| discriminate].
    rewrite !bind_lift in H.
    destruct (Angle_new theta copy) as [qb |] eqn:Hb; [| discriminate].
    rewrite !bind_lift in H.
    destruct (if is_length_quantity distance then _ else _) as [qd |] eqn:Hd;
      [| discriminate].
    rewrite bind_lift in H.
    destruct (except_ValueError _) as [[[a' b'] c'] | e] eqn:Hbr; [| discriminate].
    apply broadcast3_made in Hbr as [Hall Hinv]. made Hall.
    apply Angle_new_class in Ha, Hb. apply distance_arg_class in Hd.
    exists a', b', c'. split; [exact (new_object_made _ _ _ _ H) |].
    repeat split; first [congruence | exact Hinv].
  - intros rho phi z copy h l h' H. unfold CylindricalRepresentation_init in H.
    rewrite !bind_lift in H.
    destruct (Quantity_new rho None copy) as [qa |] eqn:Ha; [| discriminate].
    rewrite !bind_lift in H.
    destruct (Angle_new phi copy) as [qb |] eqn:Hb; [| discriminate].
    rewrite !bind_lift in H.
    destruct (Quantity_new z None copy) as [qd |] eqn:Hd; [| discriminate].
    destruct (bool_decide (physical_type (q_unit qa) = physical_type (q_unit qd))) eqn:Hpt;
      [| discriminate].
    cbn [negb] in H. rewrite bind_lift in H.
    destruct (except_ValueError _) as [[[a' b'] c'] | e] eqn:Hbr; [| discriminate].
    apply broadcast3_made in Hbr as [Hall Hinv]. made Hall.
    apply bool_decide_eq_true in Hpt.
    apply Quantity_new_class in Ha, Hd. apply Angle_new_class in Hb.
    exists a', b', c'. split; [exact (new_object_made _ _ _ _ H) |].
    repeat split; first [congruence | exact Hinv].
Qed.

Lemma constructed_components_keep_their_class_witness :
  exists l h' lon' lat',
    UnitSphericalRepresentation_init (PyQ sky_lon) (PyQ sky_lat) true ∅ = (Ok l, h')
    /\ h' !! l = Some (UnitSpherical lon' lat')
    /\ q_class lon' = Longitude /\ q_class lat' = Latitude.
Proof.
  assert (Hlat : forall idx, In idx (indices []) ->
                   latitude_ok u_deg (item (q_value sky_lat) idx) = true).
  { intros idx _. pose proof PI_RGT_0. unfold latitude_ok. cbn.
    rewrite !bool_decide_eq_true_2 by lra. reflexivity. }
  destruct (UnitSphericalRepresentation_init_ok (PyQ sky_lon) (PyQ sky_lat) true ∅
              _ _ [] _ _
              (accepted_Longitude sky_lon u_deg [] _ true (q_is_at _ _ eq_refl) eq_refl
                 ltac:(discriminate))
              (accepted_Latitude sky_lat u_deg [] _ true (q_is_at _ _ eq_refl) eq_refl
                 ltac:(discriminate) Hlat))
    as (lon1 & lat1 & E & _).
  destruct (proj1 (proj2 (proj2 constructed_components_keep_their_class)) _ _ _ _ _ _ E)
    as (lon' & lat' & Hl & Hc1 & Hc2 & _).
  eexists _, _, lon', lat'. split; [exact E |]. auto.
Defined.

(** ** From the unit sphere to spherical coordinates *)

(** A point of the unit sphere asked for its spherical form gets the
    distance one: [represent_as(SphericalRepresentation)] on a
    UnitSpherical object, which takes the default path through
    Cartesian coordinates, leaves an intermediate Cartesian object and
    returns a new Spherical object whose distance is dimensionless and
    equal to 1 at every index. *)
Theorem UnitSpherical_as_spherical_has_distance_one (h : heap) self lon lat s :
  h !! self = Some (UnitSpherical lon lat) ->
  q_shape lon = s -> q_shape lat = s ->
  u_dim (q_unit lon) = dim_angle -> u_dim (q_unit lat) = dim_angle ->
  exists l h' lon' lat' d,
    represent_as self SphericalRepresentation h = (Ok l, h')
    /\ h' !! l = Some (Spherical lon' lat' d)
    /\ h' !! self = Some (UnitSpherical lon lat)
    /\ u_dim (q_unit d) = dim_zero /\ q_shape d = s
    /\ forall idx, In idx (indices s) -> q_si d idx = 1%R.
Proof.
  intros Hself Hslon Hslat Hlon Hlat.
  destruct (UnitSphericalRepresentation_to_cartesian_ok h self lon lat _ _ s _ _ Hself
              (q_is_at _ _ Hslon) (q_is_at _ _ Hslat) Hlon Hlat)
    as (x & y & z & Eto & Hx & Hy & Hz).
  set (h1 := <[fresh (dom h) := Cartesian x y z]> h) in *.
  assert (Hl1 : h1 !! fresh (dom h) = Some (Cartesian x y z)) by apply lookup_fresh_insert.
  assert (H1 : (0 < 1 * 1)%R) by lra.
  destruct (SphericalRepresentation_from_cartesian_ok h1 _ x y z _ _ _ s _ _ _ Hl1
              Hx Hy Hz eq_refl eq_refl H1)
    as (lon' & lat' & d & Efrom & _ & _ & Hd).
  exists (fresh (dom h1)), (<[fresh (dom h1) := Spherical lon' lat' d]> h1), lon', lat', d.
  split.
  { unfold represent_as.
    rewrite (bind_ok _ _ _ _ _ (get_object_some _ _ _ Hself)).
    cbn [class_of]. unfold BaseRepresentation_represent_as.
    rewrite (bind_ok _ _ _ _ _ (get_object_some _ _ _ Hself)).
    rewrite decide_False by discriminate.
    rewrite (bind_ok _ _ _ (fresh (dom h)) h1).
    - exact Efrom.
    - rewrite (to_cartesian_class _ _ _ Hself). exact Eto. }
  split; [apply lookup_fresh_insert |].
  split.
  { rewrite lookup_insert_ne.
    - unfold h1. rewrite lookup_insert_ne; [exact Hself |].
      intros Heq. pose proof (fresh_unused h) as Hf. rewrite Heq in Hf. congruence.
    - intros Heq. pose proof (fresh_unused h1) as Hf. rewrite Heq in Hf.
      unfold h1 in Hf. rewrite lookup_insert_ne in Hf; [congruence |].
      intros Heq'. pose proof (fresh_unused h) as Hf'. rewrite Heq' in Hf'. congruence. }
  split; [rewrite (proj1 Hd), unit_sqrt_sqr_dim; cbn [unit_mul u_dim dimensionless_unscaled];
          now rewrite !dim_mul_zero_r |].
  split; [apply Hd |].
  intros idx Hi. rewrite (q_si_is _ _ _ _ _ Hd Hi).
  cbn [u_scale unit_mul dimensionless_unscaled unit_sqr unit_sqrt].
  set (B := (item (q_value lat) idx * u_scale (q_unit lat))%R).
  set (L := (item (q_value lon) idx * u_scale (q_unit lon))%R).
  assert (Hk : (0 < 1 * 1 * 1)%R) by lra.
  destruct (radius_sqr (cos B * cos L) (cos B * sin L) (sin B) (1 * 1 * 1) (1 * 1 * 1)
              (1 * 1) Hk) as [Hpos Hsq].
  cbn zeta in Hpos, Hsq.
  match goal with |- ?r = 1%R => set (rr := r) in * end.
  assert (Hone : (rr * rr = 1)%R).
  { rewrite Hsq.
    replace (cos B * cos L * (1 * 1 * 1) * (cos B * cos L * (1 * 1 * 1))
             + cos B * sin L * (1 * 1 * 1) * (cos B * sin L * (1 * 1 * 1))
             + sin B * (1 * 1) * (sin B * (1 * 1)))%R
      with ((Rsqr (sin L) + Rsqr (cos L)) * Rsqr (cos B) + Rsqr (sin B))%R
      by (unfold Rsqr; ring).
    now rewrite sin2_cos2, Rmult_1_l, Rplus_comm, sin2_cos2. }
  nra.
Qed.

Lemma UnitSpherical_as_spherical_has_distance_one_witness :
  exists l h' lon' lat' d,
    represent_as 0 SphericalRepresentation sky_heap = (Ok l, h')
    /\ h' !! l = Some (Spherical lon' lat' d)
    /\ q_si d [] = 1%R.
Proof.
  destruct (UnitSpherical_as_spherical_has_distance_one sky_heap 0 sky_lon sky_lat []
              eq_refl eq_refl eq_refl eq_refl eq_refl)
    as (l & h' & lon' & lat' & d & E & Hl & _ & _ & _ & H).
  exists l, h', lon', lat', d. split; [exact E |]. split; [exact Hl |].
  apply H. now left.
Defined.

(** * The two paths and the round trip, point by point *)

(** Conversion from Cartesian to each of the spherical classes and back
    to Cartesian, for the use of the two theorems below. *)

Lemma back_from_spherical (h : heap) cart x y z s :
  h !! cart = Some (Cartesian x y z) ->
  q_shape x = s -> q_shape y = s -> q_shape z = s ->
  u_dim (q_unit y) = u_dim (q_unit x) -> u_dim (q_unit z) = u_dim (q_unit x) ->
  (0 < u_scale (q_unit x))%R -> (0 < u_scale (q_unit y))%R -> (0 < u_scale (q_unit z))%R ->
  exists l1 h1 l2 h2 o',
    from_cartesian SphericalRepresentation cart h = (Ok l1, h1)
    /\ to_cartesian l1 h1 = (Ok l2, h2)
    /\ h2 !! l2 = Some o' /\ rep_same o' (Cartesian x y z).
Proof.
  intros Hcart Hsx Hsy Hsz Hdy Hdz Hkx Hky Hkz.
  destruct (SphericalRepresentation_from_cartesian_ok h cart x y z _ _ _ s _ _ _ Hcart
              (q_is_at _ _ Hsx) (q_is_at _ _ Hsy) (q_is_at _ _ Hsz) Hdy Hdz Hkz)
    as (lon & lat & d & E & Hlon & Hlat & Hd).
  set (h1 := <[fresh (dom h) := Spherical lon lat d]> h) in *.
  assert (Hl1 : h1 !! fresh (dom h) = Some (Spherical lon lat d))
    by apply lookup_fresh_insert.
  destruct (SphericalRepresentation_to_cartesian_ok h1 _ lon lat d _ _ _ s _ _ _ Hl1
              Hlon Hlat Hd eq_refl eq_refl)
    as (x' & y' & z' & Eto & Hx' & Hy' & Hz').
  exists (fresh (dom h)), h1, (fresh (dom h1)), (<[fresh (dom h1) := Cartesian x' y' z']> h1),
    (Cartesian x' y' z').
  split; [exact E |].
  split; [rewrite (to_cartesian_class _ _ _ Hl1); exact Eto |].
  split; [apply lookup_fresh_insert |].
  assert (Hdim : forall u, u_dim (unit_mul (unit_sqrt (unit_sqr (q_unit x))) u) =
                           dim_mul (u_dim (q_unit x)) (u_dim u)).
  { intros u. cbn [unit_mul u_dim]. now rewrite unit_sqrt_sqr_dim. }
  assert (Hinv : forall idx,
             let a := arctan2 (item (q_value y) idx)
                        (item (q_value x) idx * (u_scale (q_unit x) / u_scale (q_unit y))) in
             (- PI < a <= PI)%R) by (intros; apply arctan2_range).
  apply rep_same3; try reflexivity.
  - apply (q_same_of_is _ _ _ _ s _ _ Hx' (q_is_at _ _ Hsx)).
    + cbn [unit_mul u_dim dimensionless_unscaled].
      now rewrite unit_sqrt_sqr_dim, !dim_mul_zero_r.
    + intros idx Hi. cbn [u_scale unit_mul dimensionless_unscaled unit_sqr unit_sqrt u_radian].
      rewrite !Rmult_1_r.
      rewrite (proj1 (wrap_wrap_cos_sin _ (Hinv idx))).
      pose proof (spherical_inverse (item (q_value x) idx) (item (q_value y) idx)
                    (item (q_value z) idx) _ _ _ Hkx Hky Hkz) as (H1 & _).
      rewrite <- H1. ring.
  - apply (q_same_of_is _ _ _ _ s _ _ Hy' (q_is_at _ _ Hsy)).
    + cbn [unit_mul u_dim dimensionless_unscaled].
      now rewrite unit_sqrt_sqr_dim, !dim_mul_zero_r.
    + intros idx Hi. cbn [u_scale unit_mul dimensionless_unscaled unit_sqr unit_sqrt u_radian].
      rewrite !Rmult_1_r.
      rewrite (proj2 (wrap_wrap_cos_sin _ (Hinv idx))).
      pose proof (spherical_inverse (item (q_value x) idx) (item (q_value y) idx)
                    (item (q_value z) idx) _ _ _ Hkx Hky Hkz) as (_ & H2 & _).
      rewrite <- H2. ring.
  - apply (q_same_of_is _ _ _ _ s _ _ Hz' (q_is_at _ _ Hsz)).
    + cbn [unit_mul u_dim dimensionless_unscaled].
      now rewrite unit_sqrt_sqr_dim, !dim_mul_zero_r.
    + intros idx Hi. cbn [u_scale unit_mul dimensionless_unscaled unit_sqr unit_sqrt u_radian].
      rewrite !Rmult_1_r.
      pose proof (spherical_inverse (item (q_value x) idx) (item (q_value y) idx)
                    (item (q_value z) idx) _ _ _ Hkx Hky Hkz) as (_ & _ & H3 & _).
      rewrite <- H3. ring.
Qed.

Lemma back_from_physics_spherical (h : heap) cart x y z s :
  h !! cart = Some (Cartesian x y z) ->
  q_shape x = s -> q_shape y = s -> q_shape z = s ->
  u_dim (q_unit y) = u_dim (q_unit x) -> u_dim (q_unit z) = u_dim (q_unit x) ->
  (0 < u_scale (q_unit x))%R -> (0 < u_scale (q_unit y))%R -> (0 < u_scale (q_unit z))%R ->
  exists l1 h1 l2 h2 o',
    from_cartesian PhysicsSphericalRepresentation cart h = (Ok l1, h1)
    /\ to_cartesian l1 h1 = (Ok l2, h2)
    /\ h2 !! l2 = Some o' /\ rep_same o' (Cartesian x y z).
Proof.
  intros Hcart Hsx Hsy Hsz Hdy Hdz Hkx Hky Hkz.
  destruct (PhysicsSphericalRepresentation_from_cartesian_ok h cart x y z _ _ _ s _ _ _ Hcart
              (q_is_at _ _ Hsx) (q_is_at _ _ Hsy) (q_is_at _ _ Hsz) Hdy Hdz)
    as (phi & theta & d & E & Hphi & Htheta & Hd).
  set (h1 := <[fresh (dom h) := PhysicsSpherical phi theta d]> h) in *.
  assert (Hl1 : h1 !! fresh (dom h) = Some (PhysicsSpherical phi theta d))
    by apply lookup_fresh_insert.
  destruct (PhysicsSphericalRepresentation_to_cartesian_ok h1 _ phi theta d _ _ _ s _ _ _ Hl1
              Hphi Htheta Hd eq_refl eq_refl)
    as (x' & y' & z' & Eto & Hx' & Hy' & Hz').
  exists (fresh (dom h)), h1, (fresh (dom h1)), (<[fresh (dom h1) := Cartesian x' y' z']> h1),
    (Cartesian x' y' z').
  split; [exact E |].
  split; [rewrite (to_cartesian_class _ _ _ Hl1); exact Eto |].
  split; [apply lookup_fresh_insert |].
  apply rep_same3; try reflexivity.
  - apply (q_same_of_is _ _ _ _ s _ _ Hx' (q_is_at _ _ Hsx)).
    + cbn [unit_mul u_dim dimensionless_unscaled].
      now rewrite unit_sqrt_sqr_dim, !dim_mul_zero_r.
    + intros idx Hi. cbn [u_scale unit_mul dimensionless_unscaled unit_sqr unit_sqrt u_radian].
      rewrite !Rmult_1_r.
      pose proof (physics_inverse (item (q_value x) idx) (item (q_value y) idx)
                    (item (q_value z) idx) _ _ _ Hkx Hky Hkz) as (H1 & _).
      rewrite <- H1. ring.
  - apply (q_same_of_is _ _ _ _ s _ _ Hy' (q_is_at _ _ Hsy)).
    + cbn [unit_mul u_dim dimensionless_unscaled].
      now rewrite unit_sqrt_sqr_dim, !dim_mul_zero_r.
    + intros idx Hi. cbn [u_scale unit_mul dimensionless_unscaled unit_sqr unit_sqrt u_radian].
      rewrite !Rmult_1_r.
      pose proof (physics_inverse (item (q_value x) idx) (item (q_value y) idx)
                    (item (q_value z) idx) _ _ _ Hkx Hky Hkz) as (_ & H2 & _).
      rewrite <- H2. ring.
  - apply (q_same_of_is _ _ _ _ s _ _ Hz' (q_is_at _ _ Hsz)).
    + cbn [unit_mul u_dim dimensionless_unscaled].
      now rewrite unit_sqrt_sqr_dim, !dim_mul_zero_r.
    + intros idx Hi. cbn [u_scale unit_mul dimensionless_unscaled unit_sqr unit_sqrt u_radian].
      rewrite !Rmult_1_r.
      pose proof (physics_inverse (item (q_value x) idx) (item (q_value y) idx)
                    (item (q_value z) idx) _ _ _ Hkx Hky Hkz) as (_ & _ & H3).
      rewrite <- H3. ring.
Qed.

Lemma back_from_unit_spherical (h : heap) cart x y z s :
  h !! cart = Some (Cartesian x y z) ->
  q_shape x = s -> q_shape y = s -> q_shape z = s ->
  u_dim (q_unit y) = u_dim (q_unit x) -> u_dim (q_unit z) = u_dim (q_unit x) ->
  (0 < u_scale (q_unit x))%R -> (0 < u_scale (q_unit y))%R -> (0 < u_scale (q_unit z))%R ->
  exists l1 h1 l2 h2 x' y' z',
    from_cartesian UnitSphericalRepresentation cart h = (Ok l1, h1)
    /\ to_cartesian l1 h1 = (Ok l2, h2)
    /\ h2 !! l2 = Some (Cartesian x' y' z')
    /\ Forall (fun q => u_dim (q_unit q) = dim_zero /\ q_shape q = s) [x'; y'; z']
    /\ forall idx, In idx (indices s) ->
         let n := sqrt (q_si x idx * q_si x idx + q_si y idx * q_si y idx
                        + q_si z idx * q_si z idx) in
         (q_si x' idx * n = q_si x idx
          /\ q_si y' idx * n = q_si y idx
          /\ q_si z' idx * n = q_si z idx)%R.
Proof.
  intros Hcart Hsx Hsy Hsz Hdy Hdz Hkx Hky Hkz.
  destruct (UnitSphericalRepresentation_from_cartesian_ok h cart x y z _ _ _ s _ _ _ Hcart
              (q_is_at _ _ Hsx) (q_is_at _ _ Hsy) (q_is_at _ _ Hsz) Hdy Hdz Hkz)
    as (lon & lat & E & Hlon & Hlat).
  set (h1 := <[fresh (dom h) := UnitSpherical lon lat]> h) in *.
  assert (Hl1 : h1 !! fresh (dom h) = Some (UnitSpherical lon lat))
    by apply lookup_fresh_insert.
  destruct (UnitSphericalRepresentation_to_cartesian_ok h1 _ lon lat _ _ s _ _ Hl1
              Hlon Hlat eq_refl eq_refl)
    as (x' & y' & z' & Eto & Hx' & Hy' & Hz').
  exists (fresh (dom h)), h1, (fresh (dom h1)), (<[fresh (dom h1) := Cartesian x' y' z']> h1),
    x', y', z'.
  split; [exact E |].
  split; [rewrite (to_cartesian_class _ _ _ Hl1); exact Eto |].
  split; [apply lookup_fresh_insert |].
  split.
  { repeat constructor;
      first [ rewrite (proj1 Hx'); reflexivity | rewrite (proj1 Hy'); reflexivity
            | rewrite (proj1 Hz'); reflexivity | apply Hx' | apply Hy' | apply Hz' ]. }
  intros idx Hi n.
  assert (Hinv : (- PI < arctan2 (item (q_value y) idx)
                    (item (q_value x) idx * (u_scale (q_unit x) / u_scale (q_unit y))) <= PI)%R)
    by apply arctan2_range.
  destruct (spherical_inverse (item (q_value x) idx) (item (q_value y) idx)
              (item (q_value z) idx) _ _ _ Hkx Hky Hkz) as (H1 & H2 & H3 & _ & Hd).
  fold (q_si x idx) (q_si y idx) (q_si z idx) in Hd, H1, H2, H3. fold n in Hd.
  rewrite (q_si_is _ _ _ _ _ Hx' Hi), (q_si_is _ _ _ _ _ Hy' Hi), (q_si_is _ _ _ _ _ Hz' Hi).
  cbn [u_scale unit_mul dimensionless_unscaled unit_sqr unit_sqrt u_radian].
  rewrite !Rmult_1_r.
  rewrite (proj1 (wrap_wrap_cos_sin _ Hinv)), (proj2 (wrap_wrap_cos_sin _ Hinv)).
  rewrite <- H1, <- H2, <- H3, Hd. repeat split; ring.
Qed.

Lemma cartesian_same_via x1 y1 z1 x y z o2 :
  rep_same (Cartesian x1 y1 z1) (Cartesian x y z) ->
  rep_same o2 (Cartesian x y z) ->
  rep_same (Cartesian x1 y1 z1) o2.
Proof.
  intros [_ H1] [Hc H2]. destruct o2 as [x2 y2 z2 | | | |]; try discriminate Hc.
  cbn [rep_components] in *.
  assert (Hvia : forall a b c, q_same a c -> q_same b c -> q_same a b).
  { intros a b c (Hd1 & Hs1 & Hv1) (Hd2 & Hs2 & Hv2). split; [congruence |].
    split; [congruence |]. intros idx Hi. rewrite Hv1 by exact Hi.
    symmetry. apply Hv2. rewrite Hs2, <- Hs1. exact Hi. }
  apply Forall2_cons in H1 as [Ha1 H1]. apply Forall2_cons in H1 as [Hb1 H1].
  apply Forall2_cons in H1 as [Hc1 _].
  apply Forall2_cons in H2 as [Ha2 H2]. apply Forall2_cons in H2 as [Hb2 H2].
  apply Forall2_cons in H2 as [Hc2 _].
  apply (rep_same3 Cartesian); try reflexivity; eapply Hvia; eassumption.
Qed.

(** The Cartesian object that [to_cartesian] makes of a Spherical or a
    PhysicsSpherical object: its components are of one shape and one
    dimension, in units of the size of the unit of the distance. *)
Lemma spherical_cartesian_units ud :
  (0 < u_scale ud)%R ->
  let ux := unit_mul (unit_mul ud dimensionless_unscaled) dimensionless_unscaled in
  let uz := unit_mul ud dimensionless_unscaled in
  u_dim uz = u_dim ux /\ (0 < u_scale ux)%R /\ (0 < u_scale uz)%R.
Proof.
  intros Hs. cbn. rewrite !dim_mul_zero_r. repeat split; lra.
Qed.

Lemma Spherical_same_point (h : heap) self s lon lat d :
  h !! self = Some (Spherical lon lat d) ->
  q_shape lon = s -> q_shape lat = s -> q_shape d = s ->
  angle_q lon -> angle_q lat -> (0 < u_scale (q_unit d))%R ->
  same_point_round_trip self SphericalRepresentation h.
Proof.
  intros Hself Hslon Hslat Hsd [Hlon _] [Hlat _] Hsc.
  destruct (SphericalRepresentation_to_cartesian_ok h self lon lat d _ _ _ s _ _ _ Hself
              (q_is_at _ _ Hslon) (q_is_at _ _ Hslat) (q_is_at _ _ Hsd) Hlon Hlat)
    as (x & y & z & Eto & Hx & Hy & Hz).
  pose proof (to_cartesian_class _ _ _ Hself) as Eclass. cbn [class_of] in Eclass.
  rewrite Eto in Eclass.
  destruct (spherical_cartesian_units (q_unit d) Hsc) as (Hdz & Hkx & Hkz).
  destruct (back_from_spherical (<[fresh (dom h) := Cartesian x y z]> h) (fresh (dom h))
              x y z s (lookup_fresh_insert _ _) (proj1 (proj2 Hx)) (proj1 (proj2 Hy))
              (proj1 (proj2 Hz)))
    as (l1 & h1 & l2 & h2 & o' & Efrom & Eto2 & Hl2 & Hsame);
    try (rewrite ?(proj1 Hx), ?(proj1 Hy), ?(proj1 Hz); first [reflexivity | assumption]).
  exists (fresh (dom h)), (<[fresh (dom h) := Cartesian x y z]> h), l1, h1.
  split; [exact Eclass |]. split; [exact Efrom |].
  exists l2, h2, o', (fresh (dom h)), (<[fresh (dom h) := Cartesian x y z]> h),
    (Cartesian x y z).
  split; [exact Eto2 |]. split; [exact Hl2 |]. split; [exact Eclass |].
  split; [apply lookup_fresh_insert | exact Hsame].
Qed.

Lemma PhysicsSpherical_same_point (h : heap) self s phi theta d :
  h !! self = Some (PhysicsSpherical phi theta d) ->
  q_shape phi = s -> q_shape theta = s -> q_shape d = s ->
  angle_q phi -> angle_q theta -> (0 < u_scale (q_unit d))%R ->
  same_point_round_trip self PhysicsSphericalRepresentation h.
Proof.
  intros Hself Hsphi Hstheta Hsd [Hphi _] [Htheta _] Hsc.
  destruct (PhysicsSphericalRepresentation_to_cartesian_ok h self phi theta d _ _ _ s
              _ _ _ Hself (q_is_at _ _ Hsphi) (q_is_at _ _ Hstheta) (q_is_at _ _ Hsd)
              Hphi Htheta)
    as (x & y & z & Eto & Hx & Hy & Hz).
  pose proof (to_cartesian_class _ _ _ Hself) as Eclass. cbn [class_of] in Eclass.
  rewrite Eto in Eclass.
  destruct (spherical_cartesian_units (q_unit d) Hsc) as (Hdz & Hkx & Hkz).
  destruct (back_from_physics_spherical (<[fresh (dom h) := Cartesian x y z]> h)
              (fresh (dom h)) x y z s (lookup_fresh_insert _ _) (proj1 (proj2 Hx))
              (proj1 (proj2 Hy)) (proj1 (proj2 Hz)))
    as (l1 & h1 & l2 & h2 & o' & Efrom & Eto2 & Hl2 & Hsame);
    try (rewrite ?(proj1 Hx), ?(proj1 Hy), ?(proj1 Hz); first [reflexivity | assumption]).
  exists (fresh (dom h)), (<[fresh (dom h) := Cartesian x y z]> h), l1, h1.
  split; [exact Eclass |]. split; [exact Efrom |].
  exists l2, h2, o', (fresh (dom h)), (<[fresh (dom h) := Cartesian x y z]> h),
    (Cartesian x y z).
  split; [exact Eto2 |]. split; [exact Hl2 |]. split; [exact Eclass |].
  split; [apply lookup_fresh_insert | exact Hsame].
Qed.

Lemma UnitSpherical_same_point (h : heap) self s lon lat :
  h !! self = Some (UnitSpherical lon lat) ->
  q_shape lon = s -> q_shape lat = s ->
  angle_q lon -> angle_q lat ->
  same_point_round_trip self UnitSphericalRepresentation h.
Proof.
  intros Hself Hslon Hslat [Hlon _] [Hlat _].
  destruct (UnitSphericalRepresentation_to_cartesian_ok h self lon lat _ _ s _ _ Hself
              (q_is_at _ _ Hslon) (q_is_at _ _ Hslat) Hlon Hlat)
    as (x & y & z & Eto & Hx & Hy & Hz).
  pose proof (to_cartesian_class _ _ _ Hself) as Eclass. cbn [class_of] in Eclass.
  rewrite Eto in Eclass.
  assert (H1 : (0 < 1)%R) by lra.
  destruct (spherical_cartesian_units dimensionless_unscaled H1) as (Hdz & Hkx & Hkz).
  destruct (back_from_unit_spherical (<[fresh (dom h) := Cartesian x y z]> h)
              (fresh (dom h)) x y z s (lookup_fresh_insert _ _) (proj1 (proj2 Hx))
              (proj1 (proj2 Hy)) (proj1 (proj2 Hz)))
    as (l1 & h1 & l2 & h2 & x' & y' & z' & Efrom & Eto2 & Hl2 & Hdim & Hval);
    try (rewrite ?(proj1 Hx), ?(proj1 Hy), ?(proj1 Hz); first [reflexivity | assumption]).
  exists (fresh (dom h)), (<[fresh (dom h) := Cartesian x y z]> h), l1, h1.
  split; [exact Eclass |]. split; [exact Efrom |].
  exists l2, h2, (Cartesian x' y' z'), (fresh (dom h)),
    (<[fresh (dom h) := Cartesian x y z]> h), (Cartesian x y z).
  split; [exact Eto2 |]. split; [exact Hl2 |]. split; [exact Eclass |].
  split; [apply lookup_fresh_insert |].
  assert (Hnorm : forall idx, In idx (indices s) ->
            sqrt (q_si x idx * q_si x idx + q_si y idx * q_si y idx
                  + q_si z idx * q_si z idx) = 1%R).
  { intros idx Hi.
    rewrite (q_si_is _ _ _ _ _ Hx Hi), (q_si_is _ _ _ _ _ Hy Hi), (q_si_is _ _ _ _ _ Hz Hi).
    cbn [u_scale unit_mul dimensionless_unscaled].
    set (B := (item (q_value lat) idx * u_scale (q_unit lat))%R).
    set (L := (item (q_value lon) idx * u_scale (q_unit lon))%R).
    replace (cos B * cos L * (1 * 1 * 1) * (cos B * cos L * (1 * 1 * 1))
             + cos B * sin L * (1 * 1 * 1) * (cos B * sin L * (1 * 1 * 1))
             + sin B * (1 * 1) * (sin B * (1 * 1)))%R
      with ((Rsqr (sin L) + Rsqr (cos L)) * Rsqr (cos B) + Rsqr (sin B))%R
      by (unfold Rsqr; ring).
    rewrite sin2_cos2, Rmult_1_l, Rplus_comm, sin2_cos2. apply sqrt_1. }
  apply Forall_cons in Hdim as [[Hdx Hsx] Hdim]. apply Forall_cons in Hdim as [[Hdy Hsy] Hdim].
  apply Forall_cons in Hdim as [[Hdz' Hsz] _].
  assert (Hzero : u_dim (q_unit x) = dim_zero /\ u_dim (q_unit y) = dim_zero
                  /\ u_dim (q_unit z) = dim_zero).
  { rewrite (proj1 Hx), (proj1 Hy), (proj1 Hz). cbn. now rewrite !dim_mul_zero_r. }
  destruct Hzero as (Zx & Zy & Zz).
  apply (rep_same3 Cartesian); try reflexivity.
  - split; [congruence |]. split; [rewrite Hsx; symmetry; apply Hx |].
    intros idx Hi. rewrite Hsx in Hi. destruct (Hval idx Hi) as (E & _ & _).
    cbn zeta in E. rewrite (Hnorm idx Hi), Rmult_1_r in E. exact E.
  - split; [congruence |]. split; [rewrite Hsy; symmetry; apply Hy |].
    intros idx Hi. rewrite Hsy in Hi. destruct (Hval idx Hi) as (_ & E & _).
    cbn zeta in E. rewrite (Hnorm idx Hi), Rmult_1_r in E. exact E.
  - split; [congruence |]. split; [rewrite Hsz; symmetry; apply Hz |].
    intros idx Hi. rewrite Hsz in Hi. destruct (Hval idx Hi) as (_ & _ & E).
    cbn zeta in E. rewrite (Hnorm idx Hi), Rmult_1_r in E. exact E.
Qed.

(** The shortcut and the generic path from Spherical to PhysicsSpherical
    return objects that stand for the same point. *)
Lemma shortcut_same_point (h : heap) self s lon lat d phi theta d' :
  h !! self = Some (Spherical lon lat d) ->
  q_shape lon = s -> q_shape lat = s -> q_shape d = s ->
  u_dim (q_unit lon) = dim_angle -> u_dim (q_unit lat) = dim_angle ->
  (0 < u_scale (q_unit d))%R ->
  q_is phi (q_unit lon) s (item (q_value lon)) ->
  q_is theta u_deg s
    (fun idx => 90 - item (q_value lat) idx * (u_scale (q_unit lat) / u_scale u_deg))%R ->
  q_is d' (q_unit d) s (item (q_value d)) ->
  exists l h',
    BaseRepresentation_represent_as self PhysicsSphericalRepresentation h = (Ok l, h')
    /\ same_point (fresh (dom h)) (<[fresh (dom h) := PhysicsSpherical phi theta d']> h)
         l h'.
Proof.
  intros Hself Hslon Hslat Hsd Hlon Hlat Hsc Hphi Htheta Hd'.
  destruct (SphericalRepresentation_to_cartesian_ok h self lon lat d _ _ _ s _ _ _ Hself
              (q_is_at _ _ Hslon) (q_is_at _ _ Hslat) (q_is_at _ _ Hsd) Hlon Hlat)
    as (x & y & z & Eto & Hx & Hy & Hz).
  destruct (spherical_cartesian_units (q_unit d) Hsc) as (Hdz & Hkx & Hkz).
  destruct (back_from_physics_spherical (<[fresh (dom h) := Cartesian x y z]> h)
              (fresh (dom h)) x y z s (lookup_fresh_insert _ _) (proj1 (proj2 Hx))
              (proj1 (proj2 Hy)) (proj1 (proj2 Hz)))
    as (l1 & h1 & l2 & h2 & o2 & Efrom & Eto2 & Hl2 & Hsame);
    try (rewrite ?(proj1 Hx), ?(proj1 Hy), ?(proj1 Hz); first [reflexivity | assumption]).
  exists l1, h1. split.
  { unfold BaseRepresentation_represent_as.
    rewrite (bind_ok _ _ _ _ _ (get_object_some _ _ _ Hself)). cbn [class_of].
    rewrite decide_False by discriminate.
    erewrite bind_ok; [| rewrite (to_cartesian_Spherical _ _ _ _ _ Hself); exact Eto].
    exact Efrom. }
  set (hs := <[fresh (dom h) := PhysicsSpherical phi theta d']> h).
  assert (Hls : hs !! fresh (dom h) = Some (PhysicsSpherical phi theta d'))
    by apply lookup_fresh_insert.
  destruct (PhysicsSphericalRepresentation_to_cartesian_ok hs _ phi theta d' _ _ _ s
              _ _ _ Hls Hphi Htheta Hd' Hlon eq_refl)
    as (x1 & y1 & z1 & Eto1 & Hx1 & Hy1 & Hz1).
  exists (fresh (dom hs)), (<[fresh (dom hs) := Cartesian x1 y1 z1]> hs),
    (Cartesian x1 y1 z1), l2, h2, o2.
  split; [rewrite (to_cartesian_class _ _ _ Hls); exact Eto1 |].
  split; [apply lookup_fresh_insert |]. split; [exact Eto2 |]. split; [exact Hl2 |].
  apply (cartesian_same_via _ _ _ x y z); [| exact Hsame].
  pose proof PI_RGT_0 as Hpi.
  assert (Hcomp : forall B : R,
             ((90 - B / (PI / 180)) * (PI / 180) = PI / 2 - B)%R)
    by (intros; field; lra).
  apply (rep_same3 Cartesian); try reflexivity.
  - apply (q_same_of_is _ _ _ _ s _ _ Hx1 Hx); [reflexivity |].
    intros idx Hi. cbn [u_scale u_deg].
    replace (item (q_value lat) idx * (u_scale (q_unit lat) / (PI / 180)))%R
      with (item (q_value lat) idx * u_scale (q_unit lat) / (PI / 180))%R
      by (field; lra).
    now rewrite Hcomp, sin_shift.
  - apply (q_same_of_is _ _ _ _ s _ _ Hy1 Hy); [reflexivity |].
    intros idx Hi. cbn [u_scale u_deg].
    replace (item (q_value lat) idx * (u_scale (q_unit lat) / (PI / 180)))%R
      with (item (q_value lat) idx * u_scale (q_unit lat) / (PI / 180))%R
      by (field; lra).
    now rewrite Hcomp, sin_shift.
  - apply (q_same_of_is _ _ _ _ s _ _ Hz1 Hz); [reflexivity |].
    intros idx Hi. cbn [u_scale u_deg].
    replace (item (q_value lat) idx * (u_scale (q_unit lat) / (PI / 180)))%R
      with (item (q_value lat) idx * u_scale (q_unit lat) / (PI / 180))%R
      by (field; lra).
    now rewrite Hcomp, cos_shift.
Qed.

Lemma cos_pos_open (B : R) :
  (- (PI / 2) <= B <= PI / 2)%R -> (0 < cos B)%R -> (- (PI / 2) < B < PI / 2)%R.
Proof.
  intros [Hlo Hhi] Hc. split.
  - destruct Hlo as [Hlo | Hlo]; [exact Hlo |]. exfalso. rewrite <- Hlo in Hc.
    rewrite cos_neg, cos_PI2 in Hc. lra.
  - destruct Hhi as [Hhi | Hhi]; [exact Hhi |]. exfalso. rewrite Hhi in Hc.
    rewrite cos_PI2 in Hc. lra.
Qed.

Lemma sin_pos_open (T : R) :
  (0 <= T <= PI)%R -> (0 < sin T)%R -> (0 < T < PI)%R.
Proof.
  intros [Hlo Hhi] Hs. split.
  - destruct Hlo as [Hlo | Hlo]; [exact Hlo |]. exfalso. rewrite <- Hlo in Hs.
    rewrite sin_0 in Hs. lra.
  - destruct Hhi as [Hhi | Hhi]; [exact Hhi |]. exfalso. rewrite Hhi in Hs.
    rewrite sin_PI in Hs. lra.
Qed.

(** [reproduces] for a narrower set of indices. *)
Lemma reproduces_where (det det' : list nat -> Prop) (o' o : rep) s :
  (forall a rest, rep_components o = a :: rest -> q_shape a = s) ->
  (forall idx, In idx (indices s) -> det' idx -> det idx) ->
  reproduces det o' o -> reproduces det' o' o.
Proof.
  unfold reproduces. intros Hs Himp [Hc H]. split; [exact Hc |].
  destruct (rep_components o') as [| a' rest']; [exact H |].
  destruct (rep_components o) as [| a rest] eqn:E; [exact H |].
  destruct H as (Hd & Hsh & Hv & Hrest). repeat split; try assumption.
  intros idx Hi Hdet. apply Hv; [exact Hi |]. apply Himp; [| exact Hdet].
  now rewrite <- (Hs _ _ eq_refl).
Qed.

(** C3, amended.  A Spherical object whose components are angles and an
    acceptable distance converts by the shortcut to a new PhysicsSpherical
    object with phi equal to lon, theta equal to 90 degrees minus lat and
    the distance unchanged.  For every such input, whatever the sign of
    the distance and also at the poles, the generic path through
    Cartesian succeeds as well and its result stands for the same point
    as the shortcut's: the two convert to the same Cartesian components.
    Where the distance is positive, the generic path returns, for every
    latitude from -90 to 90 degrees, the poles included, the same theta
    and the same distance; it returns the same phi at every point whose
    longitude is at most 180 degrees and at which the cosine of the
    latitude is positive or the longitude is 0; and at a point whose
    longitude is above 180 degrees and at which the cosine of the
    latitude is positive it returns phi = lon - 360 degrees, a full turn
    below the shortcut's.  Symmetrically, a PhysicsSpherical object with
    theta between 0 and 180 degrees and phi in [0, 360) degrees converts
    by the shortcut to a Spherical object with lon equal to phi, lat
    equal to 90 degrees minus theta and the distance unchanged. *)
Theorem spherical_shortcuts (h : heap) self s :
  (forall lon lat d,
     h !! self = Some (Spherical lon lat d) ->
     q_shape lon = s -> q_shape lat = s -> q_shape d = s ->
     angle_q lon -> angle_q lat -> distance_q d ->
     exists phi theta d',
       represent_as self PhysicsSphericalRepresentation h
       = (Ok (fresh (dom h)), <[fresh (dom h) := PhysicsSpherical phi theta d']> h)
       /\ q_same phi lon /\ complement_of theta lat /\ q_same d' d
       /\ (exists l h',
             BaseRepresentation_represent_as self PhysicsSphericalRepresentation h
             = (Ok l, h')
             /\ same_point (fresh (dom h))
                  (<[fresh (dom h) := PhysicsSpherical phi theta d']> h) l h')
       /\ (si_all d (fun v => 0 < v)%R ->
           si_all lat (fun a => - (PI / 2) <= a <= PI / 2)%R ->
           si_all lon (fun a => 0 <= a < 2 * PI)%R ->
           exists l h' phi2 theta2 d2,
             BaseRepresentation_represent_as self PhysicsSphericalRepresentation h
             = (Ok l, h')
             /\ h' !! l = Some (PhysicsSpherical phi2 theta2 d2)
             /\ reproduces
                  (fun idx => (q_si lon idx <= PI)%R
                              /\ ((0 < cos (q_si lat idx))%R \/ q_si lon idx = 0%R))
                  (PhysicsSpherical phi2 theta2 d2) (PhysicsSpherical phi theta d')
             /\ forall idx, In idx (indices s) ->
                  (PI < q_si lon idx)%R -> (0 < cos (q_si lat idx))%R ->
                  q_si phi2 idx = (q_si phi idx - 2 * PI)%R))
  /\ (forall phi theta d,
        h !! self = Some (PhysicsSpherical phi theta d) ->
        q_shape phi = s -> q_shape theta = s -> q_shape d = s ->
        angle_q phi -> q_class phi <> Latitude -> angle_q theta -> distance_q d ->
        si_all theta (fun a => 0 <= a <= PI)%R ->
        si_all phi (fun a => 0 <= a < 2 * PI)%R ->
        exists lon lat d',
          represent_as self SphericalRepresentation h
          = (Ok (fresh (dom h)), <[fresh (dom h) := Spherical lon lat d']> h)
          /\ q_same lon phi /\ complement_of lat theta /\ q_same d' d).
Proof.
  split.
  - intros lon lat d Hself Hslon Hslat Hsd [Hlon Hplon] [Hlat Hplat] Hd.
    destruct (SphericalRepresentation_shortcut h self lon lat d s Hself Hslon Hslat Hsd
                Hlon Hlat Hd) as (phi & theta & d' & E & Hphi & Htheta & Hd').
    exists phi, theta, d'. split; [exact E |].
    split; [now apply (q_same_self_is _ _ s) |].
    split; [now apply (complement_of_ninety _ _ s) |].
    split; [now apply (q_same_self_is _ _ s) |].
    split.
    { apply (shortcut_same_point h self s lon lat d); try assumption. apply Hd. }
    intros Hdpos Hlatr Hlonr.
    destruct (generic_Spherical_to_Physics h self lon lat d s Hself Hslon Hslat Hsd
                Hlon Hlat)
      as (l & o & h' & phi2 & theta2 & r2 & E2 & Hl & -> & Hphi2 & Htheta2 & Hr2).
    exists l, h', phi2, theta2, r2.
    split; [exact E2 |]. split; [exact Hl |].
    destruct Hd as [Hsd_pos _].
    destruct (cartesian_unit_scales (q_unit d) Hsd_pos)
      as (R1 & R2 & R3 & R4 & R5 & R6 & R7).
    pose proof PI_RGT_0 as Hpi.
    assert (Hphi_si : forall idx, In idx (indices s) -> q_si phi idx = q_si lon idx).
    { intros idx Hi. now rewrite (q_si_is _ _ _ _ _ Hphi Hi). }
    assert (Hsphi : q_shape phi = s) by apply Hphi.
    split.
    + apply (reproduces_where
               (fun idx => (q_si lon idx <= PI)%R
                           /\ ((- (PI / 2) < q_si lat idx < PI / 2)%R
                               \/ q_si lon idx = 0%R)) _ _ _ s).
      { cbn [rep_components]. intros a rest [= <- _]. exact Hsphi. }
      { intros idx Hi [Hle [Hc | H0]]; (split; [exact Hle |]); [left | now right].
        apply cos_pos_open; [exact (si_all_at _ _ _ _ Hlatr Hslat Hi) | exact Hc]. }
      split; [reflexivity |]. cbn [rep_components].
      split; [rewrite (proj1 Hphi2), (proj1 Hphi); now rewrite Hlon |].
      split; [transitivity s; [apply Hphi2 | symmetry; apply Hphi] |].
      split.
      * intros idx Hi [Hle Hdet].
        rewrite Hsphi in Hi.
        rewrite (Hphi_si idx Hi), (q_si_is _ _ _ _ _ Hphi2 Hi).
        cbn [u_scale u_radian]. rewrite Rmult_1_r.
        pose proof (si_all_at _ _ _ _ Hlonr Hslon Hi) as HL. cbn in HL.
        apply polar_azimuth_where;
          [now apply (distance_pos d s) | exact (si_all_at _ _ _ _ Hlatr Hslat Hi)
          | unfold q_si in *; lra | exact Hdet | exact R1].
      * apply Forall2_cons_2; [| apply Forall2_cons_2; [| constructor]].
        -- apply (q_same_of_is _ _ _ _ s _ _ Htheta2 Htheta); [reflexivity |].
           intros idx Hi. cbn [u_scale u_radian u_deg]. rewrite Rmult_1_r.
           rewrite polar_colatitude_closed;
             [field; lra | now apply (distance_pos d s)
             | exact (si_all_at _ _ _ _ Hlatr Hslat Hi) | exact R2 | exact R4].
        -- apply (q_same_of_is _ _ _ _ s _ _ Hr2 Hd'); [exact R7 |].
           intros idx Hi. rewrite R6. f_equal.
           apply polar_radius_any; [now apply (distance_pos d s) | exact R2 | exact R3].
    + intros idx Hi Hgt Hcos.
      pose proof (cos_pos_open _ (si_all_at _ _ _ _ Hlatr Hslat Hi) Hcos) as Hopen.
      rewrite (Hphi_si idx Hi), (q_si_is _ _ _ _ _ Hphi2 Hi).
      cbn [u_scale u_radian]. rewrite Rmult_1_r.
      pose proof (si_all_at _ _ _ _ Hlonr Hslon Hi) as HL. cbn in HL.
      apply polar_azimuth_wrapped;
        [now apply (distance_pos d s) | exact Hopen | unfold q_si in *; lra | exact R1].
  - intros phi theta d Hself Hsphi Hstheta Hsd [Hphi Hpphi] Cphi Htheta Hd Htr Hpr.
    destruct (PhysicsSphericalRepresentation_shortcut h self phi theta d s Hself
                Hsphi Hstheta Hsd Hphi Cphi Htheta Hd Htr)
      as (lon & lat & d' & E & Hlon & Hlat & Hd').
    exists lon, lat, d'. split; [exact E |].
    split; [| split; [apply (complement_of_ninety _ _ s); [assumption | apply Htheta | assumption]
                     | now apply (q_same_self_is _ _ s)]].
    apply (q_same_self_is _ _ s); [exact Hsphi |].
    apply (q_is_ext _ _ _ _ _ Hlon). intros idx Hi.
    pose proof (si_all_at _ _ _ _ Hpr Hsphi Hi) as HP. cbn in HP.
    rewrite !wrap_longitude_id; auto.
    rewrite wrap_longitude_id; auto.
Qed.

Lemma spherical_shortcuts_witness :
  let h : heap := {[ 0 := pole_point ]} in
  exists phi theta d',
    represent_as 0 PhysicsSphericalRepresentation h
    = (Ok (fresh (dom h)), <[fresh (dom h) := PhysicsSpherical phi theta d']> h)
    /\ q_same phi pole_lon /\ complement_of theta pole_lat /\ q_same d' pole_distance
    /\ (exists l h',
          BaseRepresentation_represent_as 0 PhysicsSphericalRepresentation h = (Ok l, h')
          /\ same_point (fresh (dom h))
               (<[fresh (dom h) := PhysicsSpherical phi theta d']> h) l h')
    /\ exists l h' phi2 theta2 d2,
         BaseRepresentation_represent_as 0 PhysicsSphericalRepresentation h = (Ok l, h')
         /\ h' !! l = Some (PhysicsSpherical phi2 theta2 d2)
         /\ reproduces
              (fun idx => (q_si pole_lon idx <= PI)%R
                          /\ ((0 < cos (q_si pole_lat idx))%R
                              \/ q_si pole_lon idx = 0%R))
              (PhysicsSpherical phi2 theta2 d2) (PhysicsSpherical phi theta d').
Proof.
  intros h. pose proof PI_RGT_0 as Hpi.
  assert (Hdeg : angle_q pole_lat) by (split; [reflexivity | cbn; lra]).
  destruct (spherical_shortcuts h 0 []) as [H _].
  destruct (H pole_lon pole_lat pole_distance eq_refl eq_refl eq_refl eq_refl
              (radian_angle_q _ _) Hdeg (dimensionless_distance_q _))
    as (phi & theta & d' & E & Hphi & Htheta & Hd & Hpoint & Hgen).
  exists phi, theta, d'. repeat (split; [assumption |]).
  destruct Hgen as (l & h' & phi2 & theta2 & d2 & E2 & Hl & Hrep & _);
    [apply si_all_scalar; cbn; lra .. |].
  exists l, h', phi2, theta2, d2. auto.
Defined.

(** C4, amended.  [from_cartesian(to_cartesian(r))] is [r] itself for a
    Cartesian representation.  For every Spherical, UnitSpherical and
    PhysicsSpherical representation, whatever the sign of the distance
    and also at the poles, it succeeds and returns an object that stands
    for the same point as [r]: the two convert to the same Cartesian
    components.  For a Spherical representation with positive distance it
    returns, for every latitude from -90 to 90 degrees, the poles
    included, the latitude and the distance of [r]; it returns the
    longitude of [r] at every point at which the cosine of the latitude
    is positive or the longitude is 0.  The same holds for the two angles
    of a UnitSpherical representation.  For a PhysicsSpherical
    representation with positive distance and theta from 0 to 180 degrees
    it returns the theta and the distance of [r]; it returns the phi of
    [r] at every point whose phi lies in (-180, 180] degrees and at which
    the sine of theta is positive or phi is 0, and at a point whose phi
    lies in (180, 360) degrees and at which the sine of theta is positive
    it returns phi - 360 degrees.  For a Cylindrical representation of at
    most one dimension with positive rho and phi in (-180, 180] degrees
    it returns the components of [r]; these bounds keep clear of the
    assignment through a mask in [CylindricalRepresentation_from_cartesian],
    whose right-hand side is not masked (see C5).  Longitudes are those
    a Longitude stores, in [0, 360) degrees. *)
Theorem round_trips_through_cartesian (h : heap) self s :
  (forall x y z,
     h !! self = Some (Cartesian x y z) ->
     to_cartesian self h = (Ok self, h)
     /\ from_cartesian CartesianRepresentation self h = (Ok self, h))
  /\ (forall lon lat d,
        h !! self = Some (Spherical lon lat d) ->
        q_shape lon = s -> q_shape lat = s -> q_shape d = s ->
        angle_q lon -> angle_q lat -> (0 < u_scale (q_unit d))%R ->
        same_point_round_trip self SphericalRepresentation h
        /\ (si_all d (fun v => 0 < v)%R ->
            si_all lat (fun a => - (PI / 2) <= a <= PI / 2)%R ->
            si_all lon (fun a => 0 <= a < 2 * PI)%R ->
            round_trip_where
              (fun idx => (0 < cos (q_si lat idx))%R \/ q_si lon idx = 0%R)
              self (Spherical lon lat d) h))
  /\ (forall lon lat,
        h !! self = Some (UnitSpherical lon lat) ->
        q_shape lon = s -> q_shape lat = s ->
        angle_q lon -> angle_q lat ->
        same_point_round_trip self UnitSphericalRepresentation h
        /\ (si_all lat (fun a => - (PI / 2) <= a <= PI / 2)%R ->
            si_all lon (fun a => 0 <= a < 2 * PI)%R ->
            round_trip_where
              (fun idx => (0 < cos (q_si lat idx))%R \/ q_si lon idx = 0%R)
              self (UnitSpherical lon lat) h))
  /\ (forall phi theta d,
        h !! self = Some (PhysicsSpherical phi theta d) ->
        q_shape phi = s -> q_shape theta = s -> q_shape d = s ->
        angle_q phi -> angle_q theta -> (0 < u_scale (q_unit d))%R ->
        same_point_round_trip self PhysicsSphericalRepresentation h
        /\ (si_all d (fun v => 0 < v)%R ->
            si_all theta (fun a => 0 <= a <= PI)%R ->
            exists l1 h1 l2 h2 phi' theta' d',
              to_cartesian self h = (Ok l1, h1)
              /\ from_cartesian PhysicsSphericalRepresentation l1 h1 = (Ok l2, h2)
              /\ h2 !! l2 = Some (PhysicsSpherical phi' theta' d')
              /\ reproduces
                   (fun idx => (- PI < q_si phi idx <= PI)%R
                               /\ ((0 < sin (q_si theta idx))%R \/ q_si phi idx = 0%R))
                   (PhysicsSpherical phi' theta' d') (PhysicsSpherical phi theta d)
              /\ forall idx, In idx (indices s) ->
                   (PI < q_si phi idx < 2 * PI)%R -> (0 < sin (q_si theta idx))%R ->
                   q_si phi' idx = (q_si phi idx - 2 * PI)%R))
  /\ (forall rho phi z,
        h !! self = Some (Cylindrical rho phi z) ->
        q_shape rho = s -> q_shape phi = s -> q_shape z = s ->
        s = [] \/ (exists n, s = [n]) ->
        angle_q phi -> (0 < u_scale (q_unit rho))%R ->
        physical_type (q_unit rho) = physical_type (q_unit z) ->
        si_all rho (fun v => 0 < v)%R ->
        si_all phi (fun a => - PI < a <= PI)%R ->
        round_trip self (Cylindrical rho phi z) h).
Proof.
  split; [| split; [| split; [| split]]].
  - intros x y z Hself. split; [| reflexivity].
    now rewrite (to_cartesian_class _ _ _ Hself).
  - intros lon lat d Hself Hslon Hslat Hsd Hlon Hlat Hsc.
    split; [now apply (Spherical_same_point h self s lon lat d) |].
    intros Hdpos Hlatr Hlonr.
    destruct (Spherical_round_trip h self s lon lat d Hself Hslon Hslat Hsd Hlon Hlat
                Hsc Hdpos Hlatr Hlonr)
      as (l1 & h1 & l2 & h2 & o' & Eto & Efrom & Hl2 & Hrep).
    exists l1, h1, l2, h2, o'. repeat (split; [assumption |]).
    eapply (reproduces_where _ _ _ _ s); [| | exact Hrep].
    + cbn [rep_components]. intros a rest [= <- _]. exact Hslon.
    + intros idx Hi [Hc | H0]; [left | now right].
      apply cos_pos_open; [exact (si_all_at _ _ _ _ Hlatr Hslat Hi) | exact Hc].
  - intros lon lat Hself Hslon Hslat Hlon Hlat.
    split; [now apply (UnitSpherical_same_point h self s lon lat) |].
    intros Hlatr Hlonr.
    destruct (UnitSpherical_round_trip h self s lon lat Hself Hslon Hslat Hlon Hlat
                Hlatr Hlonr)
      as (l1 & h1 & l2 & h2 & o' & Eto & Efrom & Hl2 & Hrep).
    exists l1, h1, l2, h2, o'. repeat (split; [assumption |]).
    eapply (reproduces_where _ _ _ _ s); [| | exact Hrep].
    + cbn [rep_components]. intros a rest [= <- _]. exact Hslon.
    + intros idx Hi [Hc | H0]; [left | now right].
      apply cos_pos_open; [exact (si_all_at _ _ _ _ Hlatr Hslat Hi) | exact Hc].
  - intros phi theta d Hself Hsphi Hstheta Hsd Hphi Htheta Hsc.
    split; [now apply (PhysicsSpherical_same_point h self s phi theta d) |].
    intros Hdpos Htr.
    destruct (PhysicsSpherical_round_trip h self s phi theta d Hself Hsphi Hstheta Hsd
                Hphi Htheta Hsc Hdpos Htr)
      as (l1 & h1 & l2 & h2 & phi' & theta' & d' & Eto & Efrom & Hl2 & Hrep & Hwrap).
    exists l1, h1, l2, h2, phi', theta', d'. repeat (split; [assumption |]).
    split.
    + apply (reproduces_where
               (fun idx => (- PI < q_si phi idx <= PI)%R
                           /\ ((0 < q_si theta idx < PI)%R \/ q_si phi idx = 0%R))
               _ _ _ s); [| | exact Hrep].
      * cbn [rep_components]. intros a rest [= <- _]. exact Hsphi.
      * intros idx Hi [Hr [Hc | H0]]; (split; [exact Hr |]); [left | now right].
        apply sin_pos_open; [exact (si_all_at _ _ _ _ Htr Hstheta Hi) | exact Hc].
    + intros idx Hi Hr Hsin. apply Hwrap; [exact Hi | exact Hr |].
      apply sin_pos_open; [exact (si_all_at _ _ _ _ Htr Hstheta Hi) | exact Hsin].
  - intros. now apply (Cylindrical_round_trip h self s).
Qed.

Lemma round_trips_through_cartesian_witness :
  same_point_round_trip 0 SphericalRepresentation {[ 0 := pole_point ]}
  /\ round_trip_where
       (fun idx => (0 < cos (q_si pole_lat idx))%R \/ q_si pole_lon idx = 0%R)
       0 pole_point {[ 0 := pole_point ]}.
Proof.
  pose proof PI_RGT_0 as Hpi.
  assert (Hdeg : angle_q pole_lat) by (split; [reflexivity | cbn; lra]).
  assert (Hsc : (0 < u_scale (q_unit pole_distance))%R) by (cbn; lra).
  destruct (round_trips_through_cartesian {[ 0 := pole_point ]} 0 []) as (_ & H & _).
  destruct (H pole_lon pole_lat pole_distance eq_refl eq_refl eq_refl eq_refl
              (radian_angle_q _ _) Hdeg Hsc) as [Hpoint Hcomp].
  split; [exact Hpoint |].
  apply Hcomp; apply si_all_scalar; cbn; lra.
Defined.
